(** * MidiTok: the CPWord and MuMIDI tokenizations

    A shallow embedding of [miditok/tokenizations/cp_word.py] and
    [miditok/tokenizations/mumidi.py]: the compound-token builders, the
    decoders and the token-type validators, with the properties the
    specification states about them.

    Conventions.
    - Python [int] is [Z]; [//] is [Z.div] (both floor) and raises on a zero
      divisor, which the model renders as [None].
    - An exception is [None] in the [option] monad; a function that cannot
      raise is total.
    - Token strings are [string]s; [s.split(c)] is [split_on c s].
    - Floating point (tempo values) is kept abstract behind [FloatOps]. *)

From Stdlib Require Import ZArith List String Ascii Bool Lia Sorted Permutation.
From Stdlib Require Import Decimal DecimalString DecimalZ.
Import ListNotations.

#[local] Open Scope string_scope.
#[local] Open Scope list_scope.
#[local] Open Scope Z_scope.

(** ** The option monad, for code that may raise *)

Definition bind {A B : Type} (m : option A) (k : A -> option B) : option B :=
  match m with
  | Some a => k a
  | None => None
  end.

Notation "x <- m ;; k" := (bind m (fun x => k))
  (at level 61, m at next level, right associativity).
Notation "' pat <- m ;; k" := (bind m (fun x => match x with pat => k end))
  (at level 61, pat pattern, m at next level, right associativity).

(** ** Python built-ins used by the tokenizers *)

Module Py.

(** [s.split(sep)] for a one-character separator: always at least one part. *)
Fixpoint split_on (sep : ascii) (s : string) : list string :=
  match s with
  | EmptyString => [EmptyString]
  | String c s' =>
      if Ascii.eqb c sep then EmptyString :: split_on sep s'
      else match split_on sep s' with
           | h :: t => String c h :: t
           | [] => [String c EmptyString]
           end
  end.

(** [int(s)] on a string: an optional minus sign and at least one digit.
    Anything else is a [ValueError].  (Python also accepts surrounding white
    space, a plus sign and digit-group underscores; none of them occurs in a
    value obtained by splitting a token on its underscore.) *)
Definition int (s : string) : option Z :=
  option_map Z.of_int (NilZero.int_of_string s).

(** [str(n)] for an integer. *)
Definition str (n : Z) : string := NilZero.string_of_int (Z.to_int n).

(** [l[i]] for an index that may be negative; [None] is [IndexError]. *)
Definition index {A : Type} (l : list A) (i : Z) : option A :=
  let n := Z.of_nat (List.length l) in
  if (0 <=? i) && (i <? n) then nth_error l (Z.to_nat i)
  else if (- n <=? i) && (i <? 0) then nth_error l (Z.to_nat (n + i))
  else None.

(** [l[a:b]] for non-negative bounds; a slice never raises. *)
Definition slice {A : Type} (l : list A) (a b : nat) : list A :=
  firstn (b - a) (skipn a l).

(** [l[i] = x] for an index inside the list. *)
Fixpoint set_nth {A : Type} (l : list A) (i : nat) (x : A) : list A :=
  match l, i with
  | [], _ => []
  | _ :: t, O => x :: t
  | h :: t, S i' => h :: set_nth t i' x
  end.

(** [x // y]: floor division, [ZeroDivisionError] on a zero divisor. *)
Definition floordiv (x y : Z) : option Z :=
  if y =? 0 then None else Some (x / y).

(** [sep.join(parts)]. *)
Fixpoint join (sep : string) (parts : list string) : string :=
  match parts with
  | [] => ""
  | [p] => p
  | p :: rest => (p ++ sep ++ join sep rest)%string
  end.

(** Position of the first occurrence of [x], as [list.index] gives it. *)
Fixpoint find_index (x : string) (l : list string) : option nat :=
  match l with
  | [] => None
  | y :: t => if String.eqb x y then Some O else option_map S (find_index x t)
  end.

(** [x in l] for a list of strings. *)
Definition mem (x : string) (l : list string) : bool :=
  existsb (String.eqb x) l.

(** [range(lo, hi)]. *)
Definition range (lo hi : Z) : list Z :=
  map (fun k => lo + Z.of_nat k) (seq 0 (Z.to_nat (hi - lo))).

(** [max(l)]; [None] is the [ValueError] on an empty sequence. *)
Definition max (l : list Z) : option Z :=
  match l with
  | [] => None
  | x :: more => Some (fold_left Z.max more x)
  end.

End Py.

(** ** Floating point

    Tempo values are Python floats.  The tokenizers parse them, print them,
    compare them and round them to two decimals; nothing else.  These
    operations are the interface below, and every theorem holds for any
    implementation of it. *)

Class FloatOps (F : Type) : Type := {
  float_of_string : string -> option F;   (* float(s), None on ValueError *)
  string_of_float : F -> string;          (* str(x) *)
  float_of_Z : Z -> F;                    (* the float of an int literal *)
  float_eqb : F -> F -> bool;             (* x == y *)
  float_ltb : F -> F -> bool;             (* x < y *)
  float_absdiff : F -> F -> F;            (* abs(x - y) *)
  float_round2 : F -> F                   (* round(x, 2) *)
}.

(** A small executable instance, used to run the model on concrete pieces:
    tempos with at most two decimals, held in hundredths. *)
Module Centi.

Definition digits2 (s : string) : option Z :=
  match s with
  | String a EmptyString => option_map (fun d => 10 * d) (Py.int s)
  | String a (String b EmptyString) =>
      if Ascii.eqb a "-" then None else Py.int s
  | _ => None
  end.

Definition of_string (s : string) : option Z :=
  match Py.split_on "." s with
  | [i] => option_map (fun n => 100 * n) (Py.int i)
  | [i; f] =>
      n <- Py.int i ;;
      d <- digits2 f ;;
      Some (if String.prefix "-" i then 100 * n - d else 100 * n + d)
  | _ => None
  end.

Definition to_string (c : Z) : string :=
  let a := Z.abs c in
  let sign := if c <? 0 then "-" else "" in
  let frac := a mod 100 in
  let decimals :=
    if (frac mod 10 =? 0)%Z then Py.str (frac / 10)
    else if (frac <? 10)%Z then String "0" (Py.str frac) else Py.str frac in
  (sign ++ Py.str (a / 100) ++ "." ++ decimals)%string.

#[export] Instance ops : FloatOps Z := {
  float_of_string := of_string;
  string_of_float := to_string;
  float_of_Z := fun n => 100 * n;
  float_eqb := Z.eqb;
  float_ltb := Z.ltb;
  float_absdiff := fun x y => Z.abs (x - y);
  float_round2 := fun x => x
}.

End Centi.

(** ** Values carried by events

    [Event.value] and [Event.desc] are dynamically typed: an integer (pitch,
    velocity, position, note end), a string, a float (tempo) or [None]. *)

Section Values.

Context {F : Type} `{FloatOps F}.

Inductive pyval : Type :=
| VInt (n : Z)
| VStr (s : string)
| VFloat (x : F)
| VNone.

(** [str(v)]. *)
Definition str_val (v : pyval) : string :=
  match v with
  | VInt n => Py.str n
  | VStr s => s
  | VFloat x => string_of_float x
  | VNone => "None"
  end.

Definition is_none (v : pyval) : bool :=
  match v with VNone => true | _ => false end.

(** [None] as an absent optional argument. *)
Definition opt_of (v : pyval) : option pyval :=
  if is_none v then None else Some v.

Record Event : Type := mkEvent {
  type_ : string;
  value : pyval;
  time : Z;
  desc : pyval
}.

(** Modelled from the spec: [Event.__str__] of [miditok/classes.py], which is
    not among the sources.  Section 6 gives the token string format as
    ["<Type>_<Value>"]. *)
Definition str_event (e : Event) : string :=
  (type_ e ++ "_" ++ str_val (value e))%string.

End Values.

Arguments pyval F : clear implicits.
Arguments Event F : clear implicits.

(** ** Pieces: the part of [symusic.Score] the tokenizers read and build *)

(** [Note(time, duration, pitch, velocity)]; [start] is [time] and [end] is
    [time + duration]. *)
Record Note : Type := mkNote {
  note_time : Z;
  note_duration : Z;
  note_pitch : Z;
  note_velocity : Z
}.

Definition note_start (n : Note) : Z := note_time n.
Definition note_end (n : Note) : Z := note_time n + note_duration n.

Record TimeSignature : Type := mkTimeSignature {
  ts_time : Z;
  numerator : Z;
  denominator : Z
}.

Record Track : Type := mkTrack {
  program : Z;
  is_drum : bool;
  name : string;
  notes : list Note
}.

Record Tempo (F : Type) : Type := mkTempo { tempo_time : Z; tempo_value : F }.

Arguments mkTempo {F} _ _.
Arguments tempo_time {F} _.
Arguments tempo_value {F} _.

Record Score (F : Type) : Type := mkScore {
  ticks_per_quarter : Z;
  tracks : list Track;
  score_tempos : list (Tempo F);
  time_signatures : list TimeSignature
}.

Arguments mkScore {F} _ _ _ _.
Arguments ticks_per_quarter {F} _.
Arguments tracks {F} _.
Arguments score_tempos {F} _.
Arguments time_signatures {F} _.

(** ** Helpers of the base class [MIDITokenizer] *)

(** Modelled from the spec: the constant [TIME_SIGNATURE] of
    [miditok/constants.py]; section 4.2 gives the default as 4/4. *)
Definition TIME_SIGNATURE : Z * Z := (4, 4).

(** Modelled from the spec: [MIDITokenizer._compute_ticks_per_bar]; section 3
    defines [ticks_per_bar = numerator * time_division * 4 / denominator]. *)
Definition compute_ticks_per_bar (ts : Z * Z) (time_division : Z) : Z :=
  (fst ts * time_division * 4) / snd ts.

(** Modelled from the spec: [MIDITokenizer._parse_token_time_signature]; the
    value of a ["TimeSig_4/4"] token is numerator and denominator around a
    slash. *)
Definition parse_token_time_signature (s : string) : option (Z * Z) :=
  match map Py.int (Py.split_on "/" s) with
  | [Some n; Some d] => Some (n, d)
  | _ => None
  end.

(** Modelled from the spec: [MIDITokenizer._ticks_to_duration_tokens] with
    [rest=True].  Section 4.3: "greedy: repeatedly take the largest table
    entry <= remaining gap".  The table lists the rest values with their tick
    lengths, shortest first; an entry is a label such as ["1.0.8"] and a
    length. *)
Definition largest_fitting (table : list (string * Z)) (gap : Z)
  : option (string * Z) :=
  fold_left
    (fun best entry =>
       if (0 <? snd entry) && (snd entry <=? gap) then
         match best with
         | Some b => if snd b <? snd entry then Some entry else best
         | None => Some entry
         end
       else best)
    table None.

Fixpoint greedy_rests (fuel : nat) (table : list (string * Z)) (gap : Z)
  : list (string * Z) :=
  match fuel with
  | O => []
  | S fuel' =>
      match largest_fitting table gap with
      | Some entry => entry :: greedy_rests fuel' table (gap - snd entry)
      | None => []
      end
  end.

(** Every entry taken is at least one tick long, so [gap] steps suffice. *)
Definition ticks_to_rest_tokens (table : list (string * Z)) (gap : Z)
  : list (string * Z) :=
  greedy_rests (Z.to_nat gap) table gap.

(** ** CPWord: the pooled scheme ([cp_word.py]) *)

Module CPWord.

Section Tokenizer.

Context {F : Type} {fops : FloatOps F}.

(** The attributes of [self] and [self.config] that the methods read. *)
Record Config : Type := mkConfig {
  use_programs : bool;
  use_chords : bool;
  use_rests : bool;
  use_tempos : bool;
  use_time_signatures : bool;
  remove_duplicated_notes : bool;
  log_tempos : bool;
  one_token_stream : bool;
  time_division : Z;
  max_beat_res : Z;               (* max(self.config.beat_res.values()) *)
  min_rest : Z;                   (* self._min_rest *)
  default_tempo : F;
  tempos : list F;
  programs : list Z;
  rests : list (string * Z);      (* the rest table, with tick lengths *)
  (* self._token_duration_to_ticks(value, time_division); None if it raises *)
  token_duration_to_ticks : string -> Z -> option Z;
  (* MIDI_INSTRUMENTS[i]["name"], a constant of miditok/constants.py *)
  instrument_names : list string;
  (* self[voc, item], the vocabulary look-up of the base class; None if it
     raises *)
  vocab_lookup : nat -> string -> option string
}.

Variable self : Config.

Definition _ADD_TOK_ATTRIBUTES : list (Config -> bool) :=
  [use_programs; use_chords; use_rests; use_tempos; use_time_signatures].

(** [token_types] of [_tweak_config_before_creating_voc]. *)
Definition token_types : list string :=
  ["Family"; "Position"; "Pitch"; "Velocity"; "Duration"]
  ++ (if use_programs self then ["Program"] else [])
  ++ (if use_chords self then ["Chord"] else [])
  ++ (if use_rests self then ["Rest"] else [])
  ++ (if use_tempos self then ["Tempo"] else [])
  ++ (if use_time_signatures self then ["TimeSig"] else []).

(** [self.vocab_types_idx[name]]; [None] is [KeyError]. *)
Definition vocab_types_idx (name : string) : option nat :=
  if String.eqb name "Bar" then Some 1%nat
  else Py.find_index name token_types.

(** A compound token under construction: a list of [Event]s. *)
Definition CPToken : Type := list (Event F).

Definition set_field (tok : CPToken) (name : string) (e : Event F)
  : option CPToken :=
  i <- vocab_types_idx name ;; Some (Py.set_nth tok i e).

Definition __create_cp_token (time : Z) (bar : bool) (pos : option Z)
  (pitch : option (pyval F)) (vel dur : pyval F) (chord : option (pyval F))
  (rest : option string) (tempo : option (pyval F))
  (time_signature : option string) (program : option (pyval F))
  (desc : string) : option CPToken :=
  let create_event type_ value := mkEvent type_ value time (VStr desc) in
  let cp_token :=
    [ create_event "Family" (VStr "Metric");
      create_event "Ignore" (VStr "None");
      create_event "Ignore" (VStr "None");
      create_event "Ignore" (VStr "None");
      create_event "Ignore" (VStr "None") ]
    ++ map (fun _ => create_event "Ignore" (VStr "None"))
           (filter (fun attr => attr self) _ADD_TOK_ATTRIBUTES) in
  if bar then
    let cp_token := Py.set_nth cp_token 1 (create_event "Bar" (VStr "None")) in
    match time_signature with
    | Some ts => set_field cp_token "TimeSig" (create_event "TimeSig" (VStr ts))
    | None => Some cp_token
    end
  else match pos with
  | Some p =>
      let cp_token := Py.set_nth cp_token 1 (create_event "Position" (VInt p)) in
      cp_token <- match chord with
                  | Some c => set_field cp_token "Chord" (create_event "Chord" c)
                  | None => Some cp_token
                  end ;;
      match tempo with
      | Some t =>
          set_field cp_token "Tempo" (create_event "Tempo" (VStr (str_val t)))
      | None => Some cp_token
      end
  | None =>
  match rest with
  | Some r => set_field cp_token "Rest" (create_event "Rest" (VStr r))
  | None =>
  match pitch with
  | Some p =>
      let cp_token := Py.set_nth cp_token 0 (create_event "Family" (VStr "Note")) in
      let cp_token := Py.set_nth cp_token 2 (create_event "Pitch" p) in
      let cp_token := Py.set_nth cp_token 3 (create_event "Velocity" vel) in
      let cp_token := Py.set_nth cp_token 4 (create_event "Duration" dur) in
      match program with
      | Some pr => set_field cp_token "Program" (create_event "Program" pr)
      | None => Some cp_token
      end
  | None => Some cp_token
  end end end.

(** *** [_add_time_events] *)

(** The local variables of [_add_time_events]. *)
Record EncState : Type := mkEnc {
  current_bar : Z;
  bar_at_last_ts_change : Z;
  previous_tick : Z;
  previous_note_end : Z;
  tick_at_last_ts_change : Z;
  tick_at_current_bar : Z;
  current_time_sig : Z * Z;
  current_tempo : pyval F;
  current_program : pyval F;
  ticks_per_bar : Z
}.

(** [list(map(int, event.value.split("/")))], used as a numerator and a
    denominator. *)
Definition event_time_sig (v : pyval F) : option (Z * Z) :=
  match v with
  | VStr s => parse_token_time_signature s
  | _ => None
  end.

Definition format_time_sig (ts : Z * Z) : string :=
  (Py.str (fst ts) ++ "/" ++ Py.str (snd ts))%string.

(** [self.tempos[(np.abs(self.tempos - self.default_tempo)).argmin()]]: the
    first of the closest values. *)
Definition closest_tempo : option F :=
  match tempos self with
  | [] => None
  | t :: rest =>
      Some (fold_left
              (fun best x =>
                 if float_ltb (float_absdiff x (default_tempo self))
                              (float_absdiff best (default_tempo self))
                 then x else best)
              rest t)
  end.

Definition note_types : list string :=
  ["Pitch"; "Velocity"; "Duration"; "PitchBend"; "Pedal"].

(** The first loop: a TimeSig event ahead of the first note event. *)
Fixpoint first_time_sig (events : list (Event F)) : option (option (Z * Z)) :=
  match events with
  | [] => Some None
  | event :: rest =>
      if String.eqb (type_ event) "TimeSig" then
        ts <- event_time_sig (value event) ;; Some (Some ts)
      else if Py.mem (type_ event) note_types then Some None
      else first_time_sig rest
  end.

(** The second loop: a Tempo event ahead of the first note event. *)
Fixpoint first_tempo (events : list (Event F)) : option (pyval F) :=
  match events with
  | [] => None
  | event :: rest =>
      if String.eqb (type_ event) "Tempo" then Some (value event)
      else if Py.mem (type_ event) note_types then None
      else first_tempo rest
  end.

Definition init_state (events : list (Event F)) : option EncState :=
  tempo0 <- (if log_tempos self then closest_tempo
             else Some (default_tempo self)) ;;
  ts <- (if use_time_signatures self then first_time_sig events
         else Some None) ;;
  let current_time_sig := match ts with Some t => t | None => TIME_SIGNATURE end in
  let current_tempo :=
    match (if use_tempos self then first_tempo events else None) with
    | Some v => v
    | None => VFloat tempo0
    end in
  Some {| current_bar := -1;
          bar_at_last_ts_change := 0;
          previous_tick := -1;
          previous_note_end := 0;
          tick_at_last_ts_change := 0;
          tick_at_current_bar := 0;
          current_time_sig := current_time_sig;
          current_tempo := current_tempo;
          current_program := VNone;
          ticks_per_bar :=
            compute_ticks_per_bar current_time_sig (time_division self) |}.

(** The loop over the zipped [rest_values]: one Rest token per table entry,
    each at the running [previous_tick]. *)
Fixpoint rest_tokens (event_time previous_tick : Z)
  (rest_values : list (string * Z)) : option (list CPToken * Z) :=
  match rest_values with
  | [] => Some ([], previous_tick)
  | (dur_value, dur_ticks) :: more =>
      tok <- __create_cp_token previous_tick false None None VNone VNone None
               (Some dur_value) None None None
               (Py.str (event_time - previous_tick) ++ " ticks")%string ;;
      ' (toks, final) <- rest_tokens event_time (previous_tick + dur_ticks) more ;;
      Some (tok :: toks, final)
  end.

(** The block under the comment [(Rest)]. *)
Definition rest_block (st : EncState) (event : Event F)
  : option (EncState * list CPToken) :=
  if use_rests self && (min_rest self <=? time event - previous_note_end st)
  then
    let previous_tick0 := previous_note_end st in
    let rest_values :=
      ticks_to_rest_tokens (rests self) (time event - previous_tick0) in
    ' (toks, previous_tick1) <- rest_tokens (time event) previous_tick0 rest_values ;;
    q <- Py.floordiv (previous_tick1 - tick_at_last_ts_change st)
                     (ticks_per_bar st) ;;
    let real_current_bar := bar_at_last_ts_change st + q in
    if current_bar st <? real_current_bar then
      let current_bar0 := if current_bar st =? -1 then 0 else current_bar st in
      Some ({| current_bar := real_current_bar;
               bar_at_last_ts_change := bar_at_last_ts_change st;
               previous_tick := previous_tick1;
               previous_note_end := previous_note_end st;
               tick_at_last_ts_change := tick_at_last_ts_change st;
               tick_at_current_bar :=
                 tick_at_current_bar st
                 + (real_current_bar - current_bar0) * ticks_per_bar st;
               current_time_sig := current_time_sig st;
               current_tempo := current_tempo st;
               current_program := current_program st;
               ticks_per_bar := ticks_per_bar st |}, toks)
    else
      Some ({| current_bar := current_bar st;
               bar_at_last_ts_change := bar_at_last_ts_change st;
               previous_tick := previous_tick1;
               previous_note_end := previous_note_end st;
               tick_at_last_ts_change := tick_at_last_ts_change st;
               tick_at_current_bar := tick_at_current_bar st;
               current_time_sig := current_time_sig st;
               current_tempo := current_tempo st;
               current_program := current_program st;
               ticks_per_bar := ticks_per_bar st |}, toks)
  else Some (st, []).

(** [for i in range(num_new_bars)]: the Bar tokens; the last one carries the
    event's own signature when the event is a TimeSig. *)
Fixpoint bar_tokens (count : nat) (i num_new_bars : Z)
  (time_sig_arg : option string) (st : EncState) (event : Event F)
  : option (list CPToken) :=
  match count with
  | O => Some []
  | S count' =>
      time_sig_arg <-
        (if (i =? num_new_bars - 1) && String.eqb (type_ event) "TimeSig"
         then ts <- event_time_sig (value event) ;;
              Some (Some (format_time_sig ts))
         else Some time_sig_arg) ;;
      tok <- __create_cp_token ((current_bar st + i + 1) * ticks_per_bar st)
               true None None VNone VNone None None None time_sig_arg None
               "Bar" ;;
      toks <- bar_tokens count' (i + 1) num_new_bars time_sig_arg st event ;;
      Some (tok :: toks)
  end.

(** The block under the comment [Bar]. *)
Definition bar_block (st : EncState) (event : Event F)
  : option (EncState * list CPToken) :=
  q <- Py.floordiv (time event - tick_at_last_ts_change st) (ticks_per_bar st) ;;
  let num_new_bars := bar_at_last_ts_change st + q - current_bar st in
  if 1 <=? num_new_bars then
    let time_sig_arg :=
      if use_time_signatures self
      then Some (format_time_sig (current_time_sig st)) else None in
    toks <- bar_tokens (Z.to_nat num_new_bars) 0 num_new_bars time_sig_arg
              st event ;;
    let current_bar1 := current_bar st + num_new_bars in
    Some ({| current_bar := current_bar1;
             bar_at_last_ts_change := bar_at_last_ts_change st;
             previous_tick := previous_tick st;
             previous_note_end := previous_note_end st;
             tick_at_last_ts_change := tick_at_last_ts_change st;
             tick_at_current_bar :=
               tick_at_last_ts_change st
               + (current_bar1 - bar_at_last_ts_change st) * ticks_per_bar st;
             current_time_sig := current_time_sig st;
             current_tempo := current_tempo st;
             current_program := current_program st;
             ticks_per_bar := ticks_per_bar st |}, toks)
  else Some (st, []).

(** The block under the comment [Position]. *)
Definition position_block (st : EncState) (event : Event F)
  : option (list CPToken) :=
  if negb (String.eqb (type_ event) "TimeSig") then
    let pos_index := time event - tick_at_current_bar st in
    tok <- __create_cp_token (time event) false (Some pos_index) None
             VNone VNone
             (if String.eqb (type_ event) "Chord" then opt_of (value event)
              else None)
             None
             (if use_tempos self then opt_of (current_tempo st) else None)
             None None "Position" ;;
    Some [tok]
  else Some [].

Definition set_previous_tick (st : EncState) (t : Z) : EncState :=
  {| current_bar := current_bar st;
     bar_at_last_ts_change := bar_at_last_ts_change st;
     previous_tick := t;
     previous_note_end := previous_note_end st;
     tick_at_last_ts_change := tick_at_last_ts_change st;
     tick_at_current_bar := tick_at_current_bar st;
     current_time_sig := current_time_sig st;
     current_tempo := current_tempo st;
     current_program := current_program st;
     ticks_per_bar := ticks_per_bar st |}.

(** The body of [if event.time != previous_tick]. *)
Definition time_block (st : EncState) (event : Event F)
  : option (EncState * list CPToken) :=
  if negb (time event =? previous_tick st) then
    ' (st1, rest_toks) <- rest_block st event ;;
    ' (st2, bar_toks) <- bar_block st1 event ;;
    pos_toks <- position_block st2 event ;;
    Some (set_previous_tick st2 (time event), rest_toks ++ bar_toks ++ pos_toks)
  else Some (st, []).

(** The block under [Update time signature time variables]. *)
Definition time_sig_block (st : EncState) (event : Event F) : option EncState :=
  if String.eqb (type_ event) "TimeSig" then
    ts <- event_time_sig (value event) ;;
    q <- Py.floordiv (time event - tick_at_last_ts_change st) (ticks_per_bar st) ;;
    Some {| current_bar := current_bar st;
            bar_at_last_ts_change := bar_at_last_ts_change st + q;
            previous_tick := previous_tick st - 1;
            previous_note_end := previous_note_end st;
            tick_at_last_ts_change := time event;
            tick_at_current_bar := tick_at_current_bar st;
            current_time_sig := ts;
            current_tempo := current_tempo st;
            current_program := current_program st;
            ticks_per_bar := compute_ticks_per_bar ts (time_division self) |}
  else Some st.

Definition set_previous_note_end (st : EncState) (t : Z) : EncState :=
  {| current_bar := current_bar st;
     bar_at_last_ts_change := bar_at_last_ts_change st;
     previous_tick := previous_tick st;
     previous_note_end := t;
     tick_at_last_ts_change := tick_at_last_ts_change st;
     tick_at_current_bar := tick_at_current_bar st;
     current_time_sig := current_time_sig st;
     current_tempo := current_tempo st;
     current_program := current_program st;
     ticks_per_bar := ticks_per_bar st |}.

(** The block under [Convert event to CP Event]; [following] is
    [events[e + 1:]], so that [e + 2 < len(events)] reads "two more events
    follow". *)
Definition note_block (st : EncState) (event : Event F)
  (following : list (Event F)) : option (EncState * list CPToken) :=
  match following with
  | e1 :: e2 :: _ =>
      if String.eqb (type_ event) "Pitch" then
        tok <- __create_cp_token (time event) false None (opt_of (value event))
                 (value e1) (value e2) None None None None
                 (opt_of (current_program st)) "" ;;
        match desc event with
        | VInt note_end =>
            Some (set_previous_note_end st
                    (Z.max (previous_note_end st) note_end), [tok])
        | _ => None
        end
      else if Py.mem (type_ event) ["Program"; "Tempo"; "TimeSig"; "Chord"] then
        Some (set_previous_note_end st
                (Z.max (previous_note_end st) (time event)), [])
      else Some (st, [])
  | _ =>
      if Py.mem (type_ event) ["Program"; "Tempo"; "TimeSig"; "Chord"] then
        Some (set_previous_note_end st
                (Z.max (previous_note_end st) (time event)), [])
      else Some (st, [])
  end.

Definition set_current_tempo (st : EncState) (v : pyval F) : EncState :=
  {| current_bar := current_bar st;
     bar_at_last_ts_change := bar_at_last_ts_change st;
     previous_tick := previous_tick st;
     previous_note_end := previous_note_end st;
     tick_at_last_ts_change := tick_at_last_ts_change st;
     tick_at_current_bar := tick_at_current_bar st;
     current_time_sig := current_time_sig st;
     current_tempo := v;
     current_program := current_program st;
     ticks_per_bar := ticks_per_bar st |}.

Definition set_current_program (st : EncState) (v : pyval F) : EncState :=
  {| current_bar := current_bar st;
     bar_at_last_ts_change := bar_at_last_ts_change st;
     previous_tick := previous_tick st;
     previous_note_end := previous_note_end st;
     tick_at_last_ts_change := tick_at_last_ts_change st;
     tick_at_current_bar := tick_at_current_bar st;
     current_time_sig := current_time_sig st;
     current_tempo := current_tempo st;
     current_program := v;
     ticks_per_bar := ticks_per_bar st |}.

(** One iteration of [for e, event in enumerate(events)]: the new state and
    the tokens appended to [all_events]. *)
Definition encode_event (st : EncState) (event : Event F)
  (following : list (Event F)) : option (EncState * list CPToken) :=
  if String.eqb (type_ event) "Program" then
    Some (set_current_program st (value event), [])        (* continue *)
  else
    let st := if String.eqb (type_ event) "Tempo"
              then set_current_tempo st (value event) else st in
    ' (st1, time_toks) <- time_block st event ;;
    st2 <- time_sig_block st1 event ;;
    ' (st3, note_toks) <- note_block st2 event following ;;
    Some (st3, time_toks ++ note_toks).

Fixpoint encode_events (st : EncState) (events : list (Event F))
  : option (EncState * list CPToken) :=
  match events with
  | [] => Some (st, [])
  | event :: following =>
      ' (st1, toks) <- encode_event st event following ;;
      ' (st2, more) <- encode_events st1 following ;;
      Some (st2, toks ++ more)
  end.

Definition _add_time_events (events : list (Event F)) : option (list CPToken) :=
  st <- init_state events ;;
  ' (_, all_events) <- encode_events st events ;;
  Some all_events.

(** *** [_tokens_to_midi] *)

(** [tok.split("_")[0]] and [tok.split("_")[1]]; the second raises
    [IndexError] on a string without an underscore. *)
Definition tok_type (tok : string) : option string :=
  nth_error (Py.split_on "_" tok) 0.

Definition tok_value (tok : string) : option string :=
  nth_error (Py.split_on "_" tok) 1.

(** [compound_token[self.vocab_types_idx[name]]]. *)
Definition get_field (compound_token : list string) (name : string)
  : option string :=
  i <- vocab_types_idx name ;; nth_error compound_token i.

(** [any(tok.split("_")[1] == "None" for tok in toks)], evaluated from the
    left and stopping at the first hit. *)
Fixpoint any_none (toks : list string) : option bool :=
  match toks with
  | [] => Some false
  | tok :: more =>
      v <- tok_value tok ;;
      if String.eqb v "None" then Some true else any_none more
  end.

(** The local variables of [_tokens_to_midi]; [d_tracks] is the dictionary
    [tracks], in insertion order, and [d_midi_tracks] is [midi.tracks]. *)
Record DecState : Type := mkDec {
  d_tracks : list (Z * Track);
  d_midi_tracks : list Track;
  d_tempo_changes : list (Tempo F);
  d_time_signature_changes : list TimeSignature;
  d_current_tick : Z;
  d_tick_at_last_ts_change : Z;
  d_tick_at_current_bar : Z;
  d_current_bar : Z;
  d_bar_at_last_ts_change : Z;
  d_current_program : Z;
  d_current_instrument : option Track;
  d_previous_note_end : Z;
  d_current_time_sig : TimeSignature;
  d_ticks_per_bar : Z
}.

Definition ts_pair (ts : TimeSignature) : Z * Z :=
  (numerator ts, denominator ts).

(** The name given to a track of program [prog]. *)
Definition track_name (prog : Z) : option string :=
  if prog =? -1 then Some "Drums" else Py.index (instrument_names self) prog.

Definition add_note (t : Track) (n : Note) : Track :=
  mkTrack (program t) (is_drum t) (name t) (notes t ++ [n]).

(** [check_inst(prog)] followed by [tracks[prog].notes.append(note)]. *)
Fixpoint append_to_tracks (tracks : list (Z * Track)) (prog : Z) (n : Note)
  : option (list (Z * Track)) :=
  match tracks with
  | [] =>
      nm <- track_name prog ;;
      Some [(prog, mkTrack (if prog =? -1 then 0 else prog) (prog =? -1) nm [n])]
  | (p, t) :: more =>
      if p =? prog then Some ((p, add_note t n) :: more)
      else more' <- append_to_tracks more prog n ;; Some ((p, t) :: more')
  end.

(** The branch [token_family == "Note"]. *)
Definition decode_note (td : Z) (st : DecState) (compound_token : list string)
  : option DecState :=
  let pad_range_idx := if use_programs self then 6%nat else 5%nat in
  skip <- any_none (Py.slice compound_token 2 pad_range_idx) ;;
  if skip then Some st                                       (* continue *)
  else
    pitch <- (f <- nth_error compound_token 2 ;; v <- tok_value f ;; Py.int v) ;;
    vel <- (f <- nth_error compound_token 3 ;; v <- tok_value f ;; Py.int v) ;;
    duration <- (f <- nth_error compound_token 4 ;; v <- tok_value f ;;
                 token_duration_to_ticks self v td) ;;
    current_program <-
      (if use_programs self
       then f <- nth_error compound_token 5 ;; v <- tok_value f ;; Py.int v
       else Some (d_current_program st)) ;;
    let new_note := mkNote (d_current_tick st) duration pitch vel in
    ' (tracks1, instrument1) <-
      (if one_token_stream self then
         tr <- append_to_tracks (d_tracks st) current_program new_note ;;
         Some (tr, d_current_instrument st)
       else
         match d_current_instrument st with
         | Some t => Some (d_tracks st, Some (add_note t new_note))
         | None => None
         end) ;;
    Some {| d_tracks := tracks1;
            d_midi_tracks := d_midi_tracks st;
            d_tempo_changes := d_tempo_changes st;
            d_time_signature_changes := d_time_signature_changes st;
            d_current_tick := d_current_tick st;
            d_tick_at_last_ts_change := d_tick_at_last_ts_change st;
            d_tick_at_current_bar := d_tick_at_current_bar st;
            d_current_bar := d_current_bar st;
            d_bar_at_last_ts_change := d_bar_at_last_ts_change st;
            d_current_program := current_program;
            d_current_instrument := instrument1;
            d_previous_note_end :=
              Z.max (d_previous_note_end st) (d_current_tick st + duration);
            d_current_time_sig := d_current_time_sig st;
            d_ticks_per_bar := d_ticks_per_bar st |}.

(** The branch [bar_pos == "Bar"]. *)
Definition decode_bar (si : nat) (td : Z) (st : DecState)
  (compound_token : list string) : option DecState :=
  let current_bar := d_current_bar st + 1 in
  let current_tick :=
    if 0 <? current_bar then d_tick_at_current_bar st + d_ticks_per_bar st
    else d_current_tick st in
  let tick_at_current_bar := current_tick in
  let st1 :=
    {| d_tracks := d_tracks st;
       d_midi_tracks := d_midi_tracks st;
       d_tempo_changes := d_tempo_changes st;
       d_time_signature_changes := d_time_signature_changes st;
       d_current_tick := current_tick;
       d_tick_at_last_ts_change := d_tick_at_last_ts_change st;
       d_tick_at_current_bar := tick_at_current_bar;
       d_current_bar := current_bar;
       d_bar_at_last_ts_change := d_bar_at_last_ts_change st;
       d_current_program := d_current_program st;
       d_current_instrument := d_current_instrument st;
       d_previous_note_end := d_previous_note_end st;
       d_current_time_sig := d_current_time_sig st;
       d_ticks_per_bar := d_ticks_per_bar st |} in
  if use_time_signatures self then
    ' (num, den) <- (f <- get_field compound_token "TimeSig" ;;
                     v <- tok_value f ;; parse_token_time_signature v) ;;
    if negb (num =? numerator (d_current_time_sig st))
       || negb (den =? denominator (d_current_time_sig st))
    then
      let current_time_sig := mkTimeSignature current_tick num den in
      Some {| d_tracks := d_tracks st;
              d_midi_tracks := d_midi_tracks st;
              d_tempo_changes := d_tempo_changes st;
              d_time_signature_changes :=
                if Nat.eqb si 0
                then d_time_signature_changes st ++ [current_time_sig]
                else d_time_signature_changes st;
              d_current_tick := current_tick;
              d_tick_at_last_ts_change := tick_at_current_bar;
              d_tick_at_current_bar := tick_at_current_bar;
              d_current_bar := current_bar;
              d_bar_at_last_ts_change := current_bar;
              d_current_program := d_current_program st;
              d_current_instrument := d_current_instrument st;
              d_previous_note_end := d_previous_note_end st;
              d_current_time_sig := current_time_sig;
              d_ticks_per_bar :=
                compute_ticks_per_bar (ts_pair current_time_sig) td |}
    else Some st1
  else Some st1.

(** The tempo carried by a Position token: recorded when it differs from the
    last one and the tick differs too. *)
Definition decode_tempo (current_tick : Z) (tempo_changes : list (Tempo F))
  (compound_token : list string) : option (list (Tempo F)) :=
  tempo <- (f <- get_field compound_token "Tempo" ;;
            v <- tok_value f ;; float_of_string v) ;;
  last_tempo <- Py.index tempo_changes (-1) ;;
  if negb (float_eqb tempo (float_round2 (tempo_value last_tempo)))
     && negb (current_tick =? tempo_time last_tempo)
  then Some (tempo_changes ++ [mkTempo current_tick tempo])
  else Some tempo_changes.

(** The branch [bar_pos == "Position"]. *)
Definition decode_position (si : nat) (ticks_per_sample : Z) (st : DecState)
  (compound_token : list string) : option DecState :=
  let current_bar := if d_current_bar st =? -1 then 0 else d_current_bar st in
  pos <- (f <- nth_error compound_token 1 ;; v <- tok_value f ;; Py.int v) ;;
  let current_tick := d_tick_at_current_bar st + pos * ticks_per_sample in
  tempo_changes <-
    (if use_tempos self && Nat.eqb si 0
     then decode_tempo current_tick (d_tempo_changes st) compound_token
     else Some (d_tempo_changes st)) ;;
  Some {| d_tracks := d_tracks st;
          d_midi_tracks := d_midi_tracks st;
          d_tempo_changes := tempo_changes;
          d_time_signature_changes := d_time_signature_changes st;
          d_current_tick := current_tick;
          d_tick_at_last_ts_change := d_tick_at_last_ts_change st;
          d_tick_at_current_bar := d_tick_at_current_bar st;
          d_current_bar := current_bar;
          d_bar_at_last_ts_change := d_bar_at_last_ts_change st;
          d_current_program := d_current_program st;
          d_current_instrument := d_current_instrument st;
          d_previous_note_end := d_previous_note_end st;
          d_current_time_sig := d_current_time_sig st;
          d_ticks_per_bar := d_ticks_per_bar st |}.

(** The branch of a Rest token. *)
Definition decode_rest (td : Z) (st : DecState) (rest_value : string)
  : option DecState :=
  ticks <- token_duration_to_ticks self rest_value td ;;
  let current_tick := Z.max (d_previous_note_end st) (d_current_tick st) + ticks in
  q <- Py.floordiv (current_tick - d_tick_at_last_ts_change st)
                   (d_ticks_per_bar st) ;;
  let real_current_bar := d_bar_at_last_ts_change st + q in
  let grow := d_current_bar st <? real_current_bar in
  let current_bar0 :=
    if d_current_bar st =? -1 then 0 else d_current_bar st in
  Some {| d_tracks := d_tracks st;
          d_midi_tracks := d_midi_tracks st;
          d_tempo_changes := d_tempo_changes st;
          d_time_signature_changes := d_time_signature_changes st;
          d_current_tick := current_tick;
          d_tick_at_last_ts_change := d_tick_at_last_ts_change st;
          d_tick_at_current_bar :=
            if grow
            then d_tick_at_current_bar st
                 + (real_current_bar - current_bar0) * d_ticks_per_bar st
            else d_tick_at_current_bar st;
          d_current_bar := if grow then real_current_bar else d_current_bar st;
          d_bar_at_last_ts_change := d_bar_at_last_ts_change st;
          d_current_program := d_current_program st;
          d_current_instrument := d_current_instrument st;
          d_previous_note_end := d_previous_note_end st;
          d_current_time_sig := d_current_time_sig st;
          d_ticks_per_bar := d_ticks_per_bar st |}.

Definition set_d_previous_note_end (st : DecState) (t : Z) : DecState :=
  {| d_tracks := d_tracks st;
     d_midi_tracks := d_midi_tracks st;
     d_tempo_changes := d_tempo_changes st;
     d_time_signature_changes := d_time_signature_changes st;
     d_current_tick := d_current_tick st;
     d_tick_at_last_ts_change := d_tick_at_last_ts_change st;
     d_tick_at_current_bar := d_tick_at_current_bar st;
     d_current_bar := d_current_bar st;
     d_bar_at_last_ts_change := d_bar_at_last_ts_change st;
     d_current_program := d_current_program st;
     d_current_instrument := d_current_instrument st;
     d_previous_note_end := t;
     d_current_time_sig := d_current_time_sig st;
     d_ticks_per_bar := d_ticks_per_bar st |}.

(** The branch [token_family == "Metric"]. *)
Definition decode_metric (si : nat) (td ticks_per_sample : Z) (st : DecState)
  (compound_token : list string) : option DecState :=
  bar_pos <- (f <- nth_error compound_token 1 ;; tok_type f) ;;
  st1 <-
    (if String.eqb bar_pos "Bar" then decode_bar si td st compound_token
     else if String.eqb bar_pos "Position"
     then decode_position si ticks_per_sample st compound_token
     else if use_rests self then
       rest_value <- (f <- get_field compound_token "Rest" ;; tok_value f) ;;
       if negb (String.eqb rest_value "None") then decode_rest td st rest_value
       else Some st
     else Some st) ;;
  Some (set_d_previous_note_end st1
          (Z.max (d_previous_note_end st1) (d_current_tick st1))).

(** One iteration of [for compound_token in seq]. *)
Definition decode_token (si : nat) (td ticks_per_sample : Z) (st : DecState)
  (compound_token : list string) : option DecState :=
  token_family <- (f <- nth_error compound_token 0 ;; tok_value f) ;;
  if String.eqb token_family "Note" then decode_note td st compound_token
  else if String.eqb token_family "Metric"
  then decode_metric si td ticks_per_sample st compound_token
  else Some st.

Fixpoint decode_tokens (si : nat) (td ticks_per_sample : Z) (st : DecState)
  (seq : list (list string)) : option DecState :=
  match seq with
  | [] => Some st
  | compound_token :: more =>
      st1 <- decode_token si td ticks_per_sample st compound_token ;;
      decode_tokens si td ticks_per_sample st1 more
  end.

(** The loop that looks for the first time signature of the first
    sequence. *)
Fixpoint first_token_time_sig (seq : list (list string))
  : option (option (Z * Z)) :=
  match seq with
  | [] => Some None
  | compound_token :: more =>
      token_family <- (f <- nth_error compound_token 0 ;; tok_value f) ;;
      if String.eqb token_family "Metric" then
        bar_pos <- (f <- nth_error compound_token 1 ;; tok_type f) ;;
        if String.eqb bar_pos "Bar" then
          ts <- (f <- get_field compound_token "TimeSig" ;;
                 v <- tok_value f ;; parse_token_time_signature v) ;;
          Some (Some ts)
        else first_token_time_sig more
      else Some None
  end.

(** What precedes [# Decode tokens] in one iteration of
    [for si, seq in enumerate(tokens)]. *)
Definition begin_sequence (si : nat) (td : Z)
  (programs : option (list (Z * bool))) (st : DecState)
  (seq : list (list string)) : option DecState :=
  tsc <-
    (if Nat.eqb si 0 then
       found <- (if use_time_signatures self then first_token_time_sig seq
                 else Some None) ;;
       let tsc := match found with
                  | Some (num, den) =>
                      d_time_signature_changes st ++ [mkTimeSignature 0 num den]
                  | None => d_time_signature_changes st
                  end in
       Some (match tsc with
             | [] => [mkTimeSignature 0 (fst TIME_SIGNATURE) (snd TIME_SIGNATURE)]
             | _ => tsc
             end)
     else Some (d_time_signature_changes st)) ;;
  current_time_sig <- nth_error tsc 0 ;;
  let ticks_per_bar := compute_ticks_per_bar (ts_pair current_time_sig) td in
  if one_token_stream self then
    Some {| d_tracks := d_tracks st;
            d_midi_tracks := d_midi_tracks st;
            d_tempo_changes := d_tempo_changes st;
            d_time_signature_changes := tsc;
            d_current_tick := d_current_tick st;
            d_tick_at_last_ts_change := d_tick_at_last_ts_change st;
            d_tick_at_current_bar := d_tick_at_current_bar st;
            d_current_bar := d_current_bar st;
            d_bar_at_last_ts_change := d_bar_at_last_ts_change st;
            d_current_program := d_current_program st;
            d_current_instrument := d_current_instrument st;
            d_previous_note_end := d_previous_note_end st;
            d_current_time_sig := current_time_sig;
            d_ticks_per_bar := ticks_per_bar |}
  else
    ' (current_program, drum) <-
      match programs with
      | Some ps => nth_error ps si
      | None => Some (d_current_program st, false)
      end ;;
    nm <- track_name current_program ;;
    Some {| d_tracks := d_tracks st;
            d_midi_tracks := d_midi_tracks st;
            d_tempo_changes := d_tempo_changes st;
            d_time_signature_changes := tsc;
            d_current_tick := 0;
            d_tick_at_last_ts_change := 0;
            d_tick_at_current_bar := 0;
            d_current_bar := -1;
            d_bar_at_last_ts_change := 0;
            d_current_program := current_program;
            d_current_instrument := Some (mkTrack current_program drum nm []);
            d_previous_note_end := 0;
            d_current_time_sig := current_time_sig;
            d_ticks_per_bar := ticks_per_bar |}.

(** What follows the token loop: [midi.tracks.append(current_instrument)]. *)
Definition end_sequence (st : DecState) : option DecState :=
  if one_token_stream self then Some st
  else
    t <- d_current_instrument st ;;
    Some {| d_tracks := d_tracks st;
            d_midi_tracks := d_midi_tracks st ++ [t];
            d_tempo_changes := d_tempo_changes st;
            d_time_signature_changes := d_time_signature_changes st;
            d_current_tick := d_current_tick st;
            d_tick_at_last_ts_change := d_tick_at_last_ts_change st;
            d_tick_at_current_bar := d_tick_at_current_bar st;
            d_current_bar := d_current_bar st;
            d_bar_at_last_ts_change := d_bar_at_last_ts_change st;
            d_current_program := d_current_program st;
            d_current_instrument := d_current_instrument st;
            d_previous_note_end := d_previous_note_end st;
            d_current_time_sig := d_current_time_sig st;
            d_ticks_per_bar := d_ticks_per_bar st |}.

(** One iteration of [for si, seq in enumerate(tokens)]. *)
Definition decode_sequence (si : nat) (td ticks_per_sample : Z)
  (programs : option (list (Z * bool))) (st : DecState)
  (seq : list (list string)) : option DecState :=
  st1 <- begin_sequence si td programs st seq ;;
  st2 <- decode_tokens si td ticks_per_sample st1 seq ;;
  end_sequence st2.

Fixpoint decode_sequences (si : nat) (td ticks_per_sample : Z)
  (programs : option (list (Z * bool))) (st : DecState)
  (tokens : list (list (list string))) : option DecState :=
  match tokens with
  | [] => Some st
  | seq :: more =>
      st1 <- decode_sequence si td ticks_per_sample programs st seq ;;
      decode_sequences (S si) td ticks_per_sample programs st1 more
  end.

(** The hand-over of the tempo list: the mocked first entry goes, and a
    tempo at tick 0 is made sure of. *)
Definition finish_tempos (tempo_changes : list (Tempo F)) : list (Tempo F) :=
  match tl tempo_changes with
  | [] => [mkTempo 0 (default_tempo self)]
  | first :: more =>
      let is_default :=
        float_eqb (float_round2 (tempo_value first)) (default_tempo self) in
      if negb (tempo_time first =? 0) && negb is_default
      then mkTempo 0 (default_tempo self) :: first :: more
      else if is_default then mkTempo 0 (tempo_value first) :: more
      else first :: more
  end.

(** The argument [tokens]: one sequence, or a list of sequences. *)
Inductive TokInput : Type :=
| OneSequence (seq : list (list string))
| Sequences (seqs : list (list (list string))).

(** [tokens = [tokens]] under [one_token_stream], then [tokens[i].tokens];
    the other two combinations are type errors. *)
Definition unsqueeze (tokens : TokInput) : option (list (list (list string))) :=
  match tokens with
  | OneSequence seq => if one_token_stream self then Some [seq] else None
  | Sequences seqs => if one_token_stream self then None else Some seqs
  end.

Definition initial_dec_state : DecState :=
  {| d_tracks := [];
     d_midi_tracks := [];
     d_tempo_changes := [mkTempo (-1) (float_of_Z (-1))];
     d_time_signature_changes := [];
     d_current_tick := 0;
     d_tick_at_last_ts_change := 0;
     d_tick_at_current_bar := 0;
     d_current_bar := -1;
     d_bar_at_last_ts_change := 0;
     d_current_program := 0;
     d_current_instrument := None;
     d_previous_note_end := 0;
     d_current_time_sig := mkTimeSignature 0 0 0;
     d_ticks_per_bar := 0 |}.

Definition _tokens_to_midi (tokens : TokInput)
  (programs : option (list (Z * bool))) (time_division_arg : option Z)
  : option (Score F) :=
  let td := match time_division_arg with
            | Some t => t
            | None => time_division self
            end in
  tokens <- unsqueeze tokens ;;
  if (max_beat_res self =? 0) || negb (td mod max_beat_res self =? 0) then None
  else
    let ticks_per_sample := td / max_beat_res self in
    st <- decode_sequences 0 td ticks_per_sample programs initial_dec_state
            tokens ;;
    Some {| ticks_per_quarter := td;
            tracks := if one_token_stream self then map snd (d_tracks st)
                      else d_midi_tracks st;
            score_tempos := finish_tempos (d_tempo_changes st);
            time_signatures := d_time_signature_changes st |}.

(** *** [_create_token_types_graph] *)

(** A Python dictionary with string keys, in insertion order. *)
Definition dict (V : Type) : Type := list (string * V).

Fixpoint dict_get {V : Type} (d : dict V) (k : string) : option V :=
  match d with
  | [] => None
  | (k', v) :: more => if String.eqb k k' then Some v else dict_get more k
  end.

Fixpoint dict_set {V : Type} (d : dict V) (k : string) (v : V) : dict V :=
  match d with
  | [] => [(k, v)]
  | (k', v') :: more =>
      if String.eqb k k' then (k, v) :: more else (k', v') :: dict_set more k v
  end.

(** [d[k] += extra]; the key is there at every use below. *)
Definition dict_extend (d : dict (list string)) (k : string)
  (extra : list string) : dict (list string) :=
  match dict_get d k with
  | Some v => dict_set d k (v ++ extra)
  | None => d
  end.

Definition _create_token_types_graph : dict (list string) :=
  let dic := [ ("Bar", ["Position"; "Bar"]);
               ("Position", ["Pitch"]);
               ("Pitch", ["Pitch"; "Bar"; "Position"]) ] in
  let dic := if use_chords self
             then dict_extend (dict_set dic "Rest" ["Rest"; "Position"])
                              "Pitch" ["Rest"]
             else dic in
  let dic := if use_rests self
             then dict_extend (dict_set dic "Rest" ["Rest"; "Position"; "Bar"])
                              "Pitch" ["Rest"]
             else dic in
  let dic := if use_tempos self
             then
               let dic := dict_extend dic "Position" ["Position"; "Bar"] in
               if use_rests self
               then dict_extend (dict_extend dic "Position" ["Rest"])
                                "Rest" ["Position"]
               else dic
             else dic in
  let dic := map (fun kv => (fst kv, snd kv ++ ["Ignore"])) dic in
  dict_set dic "Ignore" (map fst dic).

(** *** [_tokens_errors] *)

(** The loop [for i in range(1, 5)] of [cp_token_type]: the last four
    sub-tokens, from the end, until one is not an [Ignore]. *)
Fixpoint additional_token_type (count : nat) (i : Z) (tok : list string)
  : option (list string) :=
  match count with
  | O => None                                     (* RuntimeError *)
  | S count' =>
      f <- Py.index tok (- i) ;;
      let decoded_token := Py.split_on "_" f in
      match decoded_token with
      | t :: _ =>
          if negb (String.eqb t "Ignore") then Some decoded_token
          else additional_token_type count' (i + 1) tok
      | [] => None
      end
  end.

Definition cp_token_type (tok : list string) : option (list string) :=
  family <- (f <- nth_error tok 0 ;; tok_value f) ;;
  if String.eqb family "Note" then
    f <- nth_error tok 2 ;; Some (Py.split_on "_" f)
  else if String.eqb family "Metric" then
    f <- nth_error tok 1 ;;
    let bar_pos := Py.split_on "_" f in
    match bar_pos with
    | t :: _ =>
        if Py.mem t ["Bar"; "Position"] then Some bar_pos
        else additional_token_type 4 1 tok
    | [] => None
    end
  else if String.eqb family "None" then Some ["PAD"; "None"]
  else None.                                      (* RuntimeError *)

(** The local variables of [_tokens_errors]. *)
Record ErrState : Type := mkErr {
  err : Z;
  previous_type : string;
  current_pos : Z;
  err_program : Z;
  current_pitches : list (Z * list Z)
}.

(** [{p: [] for p in self.config.programs}]. *)
Definition no_pitches : list (Z * list Z) :=
  map (fun p => (p, [])) (programs self).

Fixpoint pitches_of (cp : list (Z * list Z)) (prog : Z) : option (list Z) :=
  match cp with
  | [] => None                                    (* KeyError *)
  | (p, l) :: more => if p =? prog then Some l else pitches_of more prog
  end.

Fixpoint add_pitch (cp : list (Z * list Z)) (prog pitch : Z)
  : list (Z * list Z) :=
  match cp with
  | [] => []
  | (p, l) :: more =>
      if p =? prog then (p, l ++ [pitch]) :: more
      else (p, l) :: add_pitch more prog pitch
  end.

Definition mem_Z (x : Z) (l : list Z) : bool := existsb (Z.eqb x) l.

(** One iteration of [for token in tokens[1:]]. *)
Definition check_token (graph : dict (list string)) (st : ErrState)
  (token : list string) : option ErrState :=
  tv <- cp_token_type token ;;
  match tv with
  | [token_type; token_value] =>
      successors <- dict_get graph (previous_type st) ;;
      if Py.mem token_type successors then
        if String.eqb token_type "Bar" then
          Some (mkErr (err st) token_type (-1) (err_program st) no_pitches)
        else if remove_duplicated_notes self && String.eqb token_type "Pitch"
        then
          program <-
            (if use_programs self
             then f <- nth_error token 5 ;;
                  t <- vocab_lookup self 5 f ;;
                  v <- tok_value t ;; Py.int v
             else Some (err_program st)) ;;
          pitch <- Py.int token_value ;;
          played <- pitches_of (current_pitches st) program ;;
          if mem_Z pitch played then
            Some (mkErr (err st + 1) token_type (current_pos st) program
                        (current_pitches st))
          else
            Some (mkErr (err st) token_type (current_pos st) program
                        (add_pitch (current_pitches st) program pitch))
        else if String.eqb token_type "Position" then
          pos <- Py.int token_value ;;
          if (pos <=? current_pos st)
             && negb (String.eqb (previous_type st) "Rest")
          then Some (mkErr (err st + 1) token_type (current_pos st)
                           (err_program st) (current_pitches st))
          else Some (mkErr (err st) token_type pos (err_program st) no_pitches)
        else
          Some (mkErr (err st) token_type (current_pos st) (err_program st)
                      (current_pitches st))
      else
        Some (mkErr (err st + 1) token_type (current_pos st) (err_program st)
                    (current_pitches st))
  | _ => None                                     (* cannot unpack *)
  end.

Fixpoint check_tokens (graph : dict (list string)) (st : ErrState)
  (tokens : list (list string)) : option ErrState :=
  match tokens with
  | [] => Some st
  | token :: more =>
      st1 <- check_token graph st token ;;
      check_tokens graph st1 more
  end.

(** [graph] is the attribute [self.tokens_types_graph]. *)
Definition _tokens_errors (graph : dict (list string))
  (tokens : list (list string)) : option Z :=
  match tokens with
  | [] => None                                    (* tokens[0] *)
  | first :: more =>
      tv <- cp_token_type first ;;
      previous_type <- nth_error tv 0 ;;
      st <- check_tokens graph (mkErr 0 previous_type (-1) 0 no_pitches) more ;;
      Some (err st)
  end.

(** *** [_create_base_vocabulary] *)

(** The attributes that only the vocabulary reads. *)
Record VocabSource : Type := mkVocabSource {
  pitch_range : Z * Z;                (* self.config.pitch_range *)
  velocities : list Z;                (* self.velocities *)
  durations : list (list Z);          (* self.durations, tuples of integers *)
  time_signature_pairs : list (Z * Z);  (* self.time_signatures *)
  (* self._create_chords_tokens(), of the base class *)
  chords_tokens : list string
}.

(** The sub-vocabularies, in the order the method appends them.  The labels
    of [rests self] are the joined tuples already. *)
Definition _create_base_vocabulary (src : VocabSource)
  : option (list (list string)) :=
  max_num_beats <- Py.max (map fst (time_signature_pairs src)) ;;
  let num_positions := max_beat_res self * max_num_beats in
  let vocab :=
    [ ["Family_Metric"; "Family_Note"];
      ["Ignore_None"; "Bar_None"]
      ++ map (fun i => ("Position_" ++ Py.str i)%string)
             (Py.range 0 num_positions);
      ["Ignore_None"]
      ++ map (fun i => ("Pitch_" ++ Py.str i)%string)
             (Py.range (fst (pitch_range src)) (snd (pitch_range src)));
      ["Ignore_None"]
      ++ map (fun i => ("Velocity_" ++ Py.str i)%string) (velocities src);
      ["Ignore_None"]
      ++ map (fun duration =>
                ("Duration_" ++ Py.join "." (map Py.str duration))%string)
             (durations src) ] in
  let vocab :=
    if use_programs self
    then vocab ++ [ ["Ignore_None"]
                    ++ map (fun program => ("Program_" ++ Py.str program)%string)
                           (programs self) ]
    else vocab in
  let vocab :=
    if use_chords self
    then vocab ++ [ ["Ignore_None"] ++ chords_tokens src ]
    else vocab in
  let vocab :=
    if use_rests self
    then vocab ++ [ ["Ignore_None"]
                    ++ map (fun rest => ("Rest_" ++ fst rest)%string)
                           (rests self) ]
    else vocab in
  let vocab :=
    if use_tempos self
    then vocab ++ [ ["Ignore_None"]
                    ++ map (fun i => ("Tempo_" ++ string_of_float i)%string)
                           (tempos self) ]
    else vocab in
  let vocab :=
    if use_time_signatures self
    then vocab ++ [ ["Ignore_None"]
                    ++ map (fun i => ("TimeSig_" ++ Py.str (fst i) ++ "/"
                                      ++ Py.str (snd i))%string)
                           (time_signature_pairs src) ]
    else vocab in
  Some vocab.

End Tokenizer.

End CPWord.

(** ** MuMIDI: the interleaved scheme ([mumidi.py]) *)

Module MuMIDI.

Section Tokenizer.

Context {F : Type} {fops : FloatOps F}.

(** The head of a note token: an [Event] whose [desc] is the program of its
    track ([-1] for drums), as [_track_to_tokens] builds it. *)
Record NoteEvent : Type := mkNoteEvent {
  ne_type : string;
  ne_value : pyval F;
  ne_time : Z;
  ne_desc : Z
}.

(** [str(event)], as [str_event]. *)
Definition str_note_event (e : NoteEvent) : string :=
  (ne_type e ++ "_" ++ str_val (ne_value e))%string.

(** A time step before the positional fields are inserted: the head event
    and the strings after it (velocity and duration, none for a chord). *)
Definition NoteToken : Type := (NoteEvent * list string)%type.

(** The attributes of [self] and [self.config] that the methods read and
    write.  [vocab] and [max_bar_embedding] change when a piece is encoded. *)
Record Tokenizer : Type := mkTokenizer {
  use_chords : bool;
  use_tempos : bool;
  remove_duplicated_notes : bool;
  programs : list Z;
  time_division : Z;
  max_beat_res : Z;               (* max(self.config.beat_res.values()) *)
  default_tempo : F;
  (* self.durations joined with dots, with self._durations_ticks *)
  durations : list (string * Z);
  (* self._token_duration_to_ticks(value, time_division); None if it raises *)
  token_duration_to_ticks : string -> Z -> option Z;
  (* MIDI_INSTRUMENTS[i]["name"], a constant of miditok/constants.py *)
  instrument_names : list string;
  (* miditok.utils.get_midi_max_tick and detect_chords *)
  get_midi_max_tick : Score F -> Z;
  detect_chords : Track -> Z -> list NoteEvent;
  (* self.complete_sequence(tokens), of the base class, which is not among
     the sources: it is given the vocabulary that it reads and the tokens;
     None if it raises *)
  complete_sequence : list (list string) -> list (list string) -> option unit;
  (* self.config.additional_params["max_bar_embedding"] *)
  max_bar_embedding : Z;
  (* the vocabulary: for each sub-field, the token strings by index *)
  vocab : list (list string)
}.

Definition set_vocab (self : Tokenizer) (max_bar : Z) (v : list (list string))
  : Tokenizer :=
  {| use_chords := use_chords self;
     use_tempos := use_tempos self;
     remove_duplicated_notes := remove_duplicated_notes self;
     programs := programs self;
     time_division := time_division self;
     max_beat_res := max_beat_res self;
     default_tempo := default_tempo self;
     durations := durations self;
     token_duration_to_ticks := token_duration_to_ticks self;
     instrument_names := instrument_names self;
     get_midi_max_tick := get_midi_max_tick self;
     detect_chords := detect_chords self;
     complete_sequence := complete_sequence self;
     max_bar_embedding := max_bar;
     vocab := v |}.

(** Modelled from the spec: [MIDITokenizer.add_to_vocab], which is not among
    the sources.  Section 3: a sub-vocabulary is "an ordered set of distinct
    labeled-value strings" and its growth "is append-only and must never
    renumber existing entries": a new token takes the next free index, a
    token already there is left alone. *)
Fixpoint add_to_vocab (vocab : list (list string)) (token : string)
  (vocab_idx : nat) : list (list string) :=
  match vocab, vocab_idx with
  | [], _ => []
  | sub :: more, O =>
      (if Py.mem token sub then sub else sub ++ [token]) :: more
  | sub :: more, S i => sub :: add_to_vocab more token i
  end.

(** [for i in range(lo, hi): self.add_to_vocab(f"BarPosEnc_{i}", 1)]. *)
Fixpoint grow_bar_pos_enc (count : nat) (i : Z) (vocab : list (list string))
  : list (list string) :=
  match count with
  | O => vocab
  | S count' =>
      grow_bar_pos_enc count' (i + 1)
        (add_to_vocab vocab ("BarPosEnc_" ++ Py.str i)%string 1)
  end.

(** [ceil(a / b)] for a positive divisor. *)
Definition ceil_div (a b : Z) : Z := - ((- a) / b).

(** *** [_track_to_tokens] *)

(** [self.durations[np.argmin(np.abs(self._durations_ticks - duration))]]:
    the first of the closest entries. *)
Definition closest_duration (table : list (string * Z)) (duration : Z)
  : option (string * Z) :=
  match table with
  | [] => None
  | d :: more =>
      Some (fold_left
              (fun best entry =>
                 if Z.abs (snd entry - duration) <? Z.abs (snd best - duration)
                 then entry else best)
              more d)
  end.

Definition note_token (self : Tokenizer) (track : Track) (note : Note)
  : option NoteToken :=
  let duration := note_end note - note_start note in
  d <- closest_duration (durations self) duration ;;
  let head :=
    if negb (is_drum track)
    then mkNoteEvent "Pitch" (VInt (note_pitch note)) (note_start note)
                     (program track)
    else mkNoteEvent "DrumPitch" (VInt (note_pitch note)) (note_start note)
                     (-1) in
  Some (head, [ ("Velocity_" ++ Py.str (note_velocity note))%string;
                ("Duration_" ++ fst d)%string ]).

Fixpoint note_tokens_of (self : Tokenizer) (track : Track) (ns : list Note)
  : option (list NoteToken) :=
  match ns with
  | [] => Some []
  | n :: more =>
      t <- note_token self track n ;;
      ts <- note_tokens_of self track more ;;
      Some (t :: ts)
  end.

Definition _track_to_tokens (self : Tokenizer) (track : Track)
  (time_division : Z) : option (list NoteToken) :=
  tokens <- note_tokens_of self track (notes track) ;;
  if use_chords self && negb (is_drum track) then
    let chords := detect_chords self track time_division in
    let unsqueezed :=
      map (fun c => (mkNoteEvent (ne_type c) (ne_value c) (ne_time c)
                                 (program track), [])) chords in
    Some (unsqueezed ++ tokens)
  else Some tokens.

(** *** [_midi_to_tokens] *)

(** [note_tokens.sort(key=lambda x: (x[0].time, x[0].desc))]: a stable sort,
    here by insertion. *)
Definition key_le (a b : NoteToken) : bool :=
  (ne_time (fst a) <? ne_time (fst b))
  || ((ne_time (fst a) =? ne_time (fst b))
      && (ne_desc (fst a) <=? ne_desc (fst b))).

Fixpoint insert_token (x : NoteToken) (l : list NoteToken) : list NoteToken :=
  match l with
  | [] => [x]
  | y :: more => if key_le x y then x :: l else y :: insert_token x more
  end.

Definition sort_tokens (l : list NoteToken) : list NoteToken :=
  fold_right insert_token [] l.

(** The local variables of the token loop of [_midi_to_tokens]. *)
Record EncState : Type := mkEnc {
  current_tick : Z;
  current_bar : Z;
  current_pos : Z;
  current_track : Z;
  current_tempo_idx : nat;
  current_tempo : F
}.

(** [for tempo_change in midi.tempos[current_tempo_idx + 1:]]. *)
Fixpoint advance_tempo (incoming : list (Tempo F)) (now : Z)
  (idx : nat) (tempo : F) : nat * F :=
  match incoming with
  | [] => (idx, tempo)
  | tempo_change :: more =>
      if tempo_time tempo_change <=? now
      then advance_tempo more now (S idx) (float_round2 (tempo_value tempo_change))
      else (idx, tempo)
  end.

(** The sub-token appended when tempos are used. *)
Definition tempo_field (self : Tokenizer) (tempo : F) : list string :=
  if use_tempos self then [("Tempo_" ++ string_of_float tempo)%string] else [].

(** [for i in range(num_new_bars)]: the Bar tokens. *)
Fixpoint bar_tokens (self : Tokenizer) (count : nat) (i current_bar : Z)
  (tempo : F) : list (list string) :=
  match count with
  | O => []
  | S count' =>
      ([ "Bar_None";
         ("BarPosEnc_" ++ Py.str (current_bar + i + 1))%string;
         "PositionPosEnc_None" ] ++ tempo_field self tempo)
      :: bar_tokens self count' (i + 1) current_bar tempo
  end.

(** One iteration of [for note_token in note_tokens]. *)
Definition encode_token (self : Tokenizer) (midi : Score F)
  (ticks_per_bar : Z) (st : EncState) (tok : NoteToken)
  : option (EncState * list (list string)) :=
  let head := fst tok in
  let '(idx, tempo) :=
    if use_tempos self
       && (Nat.ltb (current_tempo_idx st + 1) (List.length (score_tempos midi)))
    then advance_tempo (skipn (current_tempo_idx st + 1) (score_tempos midi))
                       (ne_time head) (current_tempo_idx st) (current_tempo st)
    else (current_tempo_idx st, current_tempo st) in
  ' (tick, bar, pos, track, time_toks) <-
    (if negb (ne_time head =? current_tick st) then
         let pos_index :=
           Z.quot ((ne_time head mod ticks_per_bar) * max_beat_res self)
                  (ticks_per_quarter midi) in
         let current_tick := ne_time head in
         let num_new_bars := current_tick / ticks_per_bar - current_bar st in
         let bars :=
           if current_bar st <? current_tick / ticks_per_bar
           then bar_tokens self (Z.to_nat num_new_bars) 0 (current_bar st) tempo
           else [] in
         let current_bar :=
           if current_bar st <? current_tick / ticks_per_bar
           then current_bar st + num_new_bars else current_bar st in
         let pos_token :=
           [ ("Position_" ++ Py.str pos_index)%string;
             ("BarPosEnc_" ++ Py.str current_bar)%string;
             ("PositionPosEnc_" ++ Py.str pos_index)%string ]
           ++ tempo_field self tempo in
         Some (current_tick, current_bar, pos_index, -2, bars ++ [pos_token])
     else Some (current_tick st, current_bar st, current_pos st,
                current_track st, [])) ;;
  let '(track, track_toks) :=
    if negb (ne_desc head =? track) then
      (ne_desc head,
       [ [ ("Program_" ++ Py.str (ne_desc head))%string;
           ("BarPosEnc_" ++ Py.str bar)%string;
           ("PositionPosEnc_" ++ Py.str pos)%string ]
         ++ tempo_field self tempo ])
    else (track, []) in
  let note_tok :=
    [ str_note_event head;
      ("BarPosEnc_" ++ Py.str bar)%string;
      ("PositionPosEnc_" ++ Py.str pos)%string ]
    ++ tempo_field self tempo ++ snd tok in
  Some (mkEnc tick bar pos track idx tempo,
        time_toks ++ track_toks ++ [note_tok]).

Fixpoint encode_tokens (self : Tokenizer) (midi : Score F) (ticks_per_bar : Z)
  (st : EncState) (toks : list NoteToken) : option (list (list string)) :=
  match toks with
  | [] => Some []
  | tok :: more =>
      ' (st1, out) <- encode_token self midi ticks_per_bar st tok ;;
      rest <- encode_tokens self midi ticks_per_bar st1 more ;;
      Some (out ++ rest)
  end.

(** [for track in midi.tracks: if track.program in self.config.programs]. *)
Fixpoint all_note_tokens (self : Tokenizer) (tpq : Z) (trs : list Track)
  : option (list NoteToken) :=
  match trs with
  | [] => Some []
  | track :: more =>
      here <- (if existsb (Z.eqb (program track)) (programs self)
               then _track_to_tokens self track tpq else Some []) ;;
      rest <- all_note_tokens self tpq more ;;
      Some (here ++ rest)
  end.

(** The token loop and what precedes it, once the vocabulary is settled. *)
Definition midi_to_tokens_body (self : Tokenizer) (midi : Score F)
  : option (list (list string)) :=
  let tpq := ticks_per_quarter midi in
  note_tokens <- all_note_tokens self tpq (tracks midi) ;;
  let note_tokens := sort_tokens note_tokens in
  if max_beat_res self =? 0 then None
  else
    let ticks_per_bar := tpq * 4 in
    first_tempo <- nth_error (score_tempos midi) 0 ;;
    let st := mkEnc (-1) (-1) (-1) (-2) 0
                    (float_round2 (tempo_value first_tempo)) in
    encode_tokens self midi ticks_per_bar st note_tokens.

(** The method returns the token sequence, or raises; either way [self]
    comes back with its vocabulary and bar limit, which the first lines may
    have grown.  The position index is
    [int((t % ticks_per_bar) / ticks_per_sample)] with [ticks_per_sample]
    the quotient of the time division by the finest resolution: the model
    takes the exact quotient, which is what the floating-point expression
    gives when that resolution divides the time division.  The last
    statement before [return tokens] is [self.complete_sequence(tokens)],
    which reads the vocabulary as the first lines left it and may raise. *)
Definition _midi_to_tokens (self : Tokenizer) (midi : Score F)
  : Tokenizer * option (list (list string)) :=
  let tpq := ticks_per_quarter midi in
  if tpq * 4 =? 0 then (self, None)
  else
    let num_bars := ceil_div (get_midi_max_tick self midi) (tpq * 4) in
    let self1 :=
      if max_bar_embedding self <? num_bars then
        set_vocab self num_bars
          (grow_bar_pos_enc (Z.to_nat (num_bars - max_bar_embedding self))
                            (max_bar_embedding self) (vocab self))
      else self in
    (self1,
     tokens <- midi_to_tokens_body self1 midi ;;
     _ <- complete_sequence self1 (vocab self1) tokens ;;
     Some tokens).

(** *** [_tokens_to_midi] *)

Definition tok_value (tok : string) : option string :=
  nth_error (Py.split_on "_" tok) 1.

(** The local variables of [_tokens_to_midi]; [d_tracks] is the dictionary
    [tracks], keyed by the value of the Program tokens, in insertion order;
    [d_current_track] is [None] for the initial integer [0], which is no key
    of that dictionary. *)
Record DecState : Type := mkDec {
  d_tracks : list (string * list Note);
  d_tempos : list (Tempo F);
  d_current_tick : Z;
  d_current_bar : Z;
  d_current_track : option string
}.

Fixpoint has_key (tracks : list (string * list Note)) (k : string) : bool :=
  match tracks with
  | [] => false
  | (k', _) :: more => String.eqb k k' || has_key more k
  end.

(** [tracks[k].append(note)]; [None] is [KeyError]. *)
Fixpoint append_note (tracks : list (string * list Note)) (k : string)
  (n : Note) : option (list (string * list Note)) :=
  match tracks with
  | [] => None
  | (k', ns) :: more =>
      if String.eqb k k' then Some ((k', ns ++ [n]) :: more)
      else more' <- append_note more k n ;; Some ((k', ns) :: more')
  end.

(** The [if]/[elif] chain on the type of the first sub-token.  The result is
    [None] when the code raises, [Some None] when it runs [continue], and
    the new state otherwise. *)
Definition decode_head (self : Tokenizer) (td ticks_per_sample : Z)
  (st : DecState) (time_step : list string) : option (option DecState) :=
  head <- nth_error time_step 0 ;;
  match Py.split_on "_" head with
  | [tok_type; tok_val] =>
      if String.eqb tok_type "Bar" then
        let current_bar := d_current_bar st + 1 in
        Some (Some (mkDec (d_tracks st) (d_tempos st) (current_bar * td * 4)
                          current_bar (d_current_track st)))
      else if String.eqb tok_type "Position" then
        let current_bar :=
          if d_current_bar st =? -1 then 0 else d_current_bar st in
        pos <- Py.int tok_val ;;
        Some (Some (mkDec (d_tracks st) (d_tempos st)
                          (current_bar * td * 4 + pos * ticks_per_sample)
                          current_bar (d_current_track st)))
      else if String.eqb tok_type "Program" then
        let tracks :=
          if has_key (d_tracks st) tok_val then d_tracks st
          else d_tracks st ++ [(tok_val, [])] in
        Some (Some (mkDec tracks (d_tempos st) (d_current_tick st)
                          (d_current_bar st) (Some tok_val)))
      else if String.eqb tok_type "Pitch" || String.eqb tok_type "DrumPitch"
      then
        vel <- (f <- Py.index time_step (-2) ;; tok_value f) ;;
        duration <- (f <- Py.index time_step (-1) ;; tok_value f) ;;
        if String.eqb vel "None" || String.eqb duration "None"
        then Some None                                       (* continue *)
        else
          pitch <- Py.int tok_val ;;
          vel <- Py.int vel ;;
          duration <- token_duration_to_ticks self duration td ;;
          key <- d_current_track st ;;
          tracks <- append_note (d_tracks st) key
                      (mkNote (d_current_tick st) duration pitch vel) ;;
          Some (Some (mkDec tracks (d_tempos st) (d_current_tick st)
                            (d_current_bar st) (d_current_track st)))
      else Some (Some st)
  | _ => None                                     (* cannot unpack *)
  end.

(** [# Decode tempo if required], at the end of an iteration. *)
Definition decode_tempo (self : Tokenizer) (st : DecState)
  (time_step : list string) : option DecState :=
  if use_tempos self then
    tempo_val <- (f <- nth_error time_step 3 ;; v <- tok_value f ;;
                  float_of_string v) ;;
    last_tempo <- Py.index (d_tempos st) (-1) ;;
    if negb (float_eqb tempo_val (tempo_value last_tempo))
    then Some (mkDec (d_tracks st)
                     (d_tempos st ++ [mkTempo (d_current_tick st) tempo_val])
                     (d_current_tick st) (d_current_bar st)
                     (d_current_track st))
    else Some st
  else Some st.

(** One iteration of [for time_step in tokens.tokens]. *)
Definition decode_step (self : Tokenizer) (td ticks_per_sample : Z)
  (st : DecState) (time_step : list string) : option DecState :=
  r <- decode_head self td ticks_per_sample st time_step ;;
  match r with
  | None => Some st                                          (* continue *)
  | Some st1 => decode_tempo self st1 time_step
  end.

Fixpoint decode_steps (self : Tokenizer) (td ticks_per_sample : Z)
  (st : DecState) (tokens : list (list string)) : option DecState :=
  match tokens with
  | [] => Some st
  | time_step :: more =>
      st1 <- decode_step self td ticks_per_sample st time_step ;;
      decode_steps self td ticks_per_sample st1 more
  end.

(** [for program, notes in tracks.items()]. *)
Fixpoint make_tracks (self : Tokenizer) (tracks : list (string * list Note))
  : option (list Track) :=
  match tracks with
  | [] => Some []
  | (prog, ns) :: more =>
      p <- Py.int prog ;;
      t <- (if p =? -1 then Some (mkTrack 0 true "Drums" ns)
            else nm <- Py.index (instrument_names self) p ;;
                 Some (mkTrack p false nm ns)) ;;
      ts <- make_tracks self more ;;
      Some (t :: ts)
  end.

Definition tokens_to_midi_body (self : Tokenizer) (tokens : list (list string))
  (time_division_arg : option Z) : option (Score F) :=
  let td := match time_division_arg with
            | Some t => t
            | None => time_division self
            end in
  if (max_beat_res self =? 0) || negb (td mod max_beat_res self =? 0) then None
  else
    first_tempo <-
      (match tokens with
       | first :: _ =>
           if use_tempos self
           then f <- nth_error first 3 ;; v <- tok_value f ;; float_of_string v
           else Some (default_tempo self)
       | [] => Some (default_tempo self)
       end) ;;
    let ticks_per_sample := td / max_beat_res self in
    st <- decode_steps self td ticks_per_sample
            (mkDec [] [mkTempo 0 first_tempo] 0 (-1) None) tokens ;;
    trs <- make_tracks self (d_tracks st) ;;
    Some (mkScore td trs (d_tempos st) []).

(** The method returns the piece, or raises; no statement of it assigns to
    an attribute of [self] or calls [add_to_vocab], so [self] comes back as
    it was given. *)
Definition _tokens_to_midi (self : Tokenizer) (tokens : list (list string))
  (time_division_arg : option Z) : Tokenizer * option (Score F) :=
  (self, tokens_to_midi_body self tokens time_division_arg).

(** *** [_create_token_types_graph] *)

Definition _create_token_types_graph (self : Tokenizer)
  : list (string * list string) :=
  let dic := [ ("Bar", ["Bar"; "Position"]);
               ("Position", ["Program"]);
               ("Program", ["Pitch"; "DrumPitch"]);
               ("Pitch", ["Pitch"; "Program"; "Bar"; "Position"]);
               ("DrumPitch", ["DrumPitch"; "Program"; "Bar"; "Position"]) ] in
  if use_chords self then
    [ ("Bar", ["Bar"; "Position"]);
      ("Position", ["Program"]);
      ("Program", ["Pitch"; "DrumPitch"; "Chord"]);
      ("Pitch", ["Pitch"; "Program"; "Bar"; "Position"]);
      ("DrumPitch", ["DrumPitch"; "Program"; "Bar"; "Position"]);
      ("Chord", ["Pitch"]) ]
  else dic.

(** *** [_tokens_errors] *)

(** The local variables of [_tokens_errors]. *)
Record ErrState : Type := mkErr {
  err : Z;
  previous_type : string;
  current_pitches : list Z;
  err_current_bar : Z;
  err_current_pos : Z
}.

(** [int(v) if v != "None" else -1]. *)
Definition pos_or_minus_one (v : string) : option Z :=
  if negb (String.eqb v "None") then Py.int v else Some (-1).

(** [any(tok.split("_")[0] in ["PAD", "MASK"] for tok in token)]. *)
Definition has_special (token : list string) : bool :=
  existsb (fun tok => match Py.split_on "_" tok with
                      | t :: _ => Py.mem t ["PAD"; "MASK"]
                      | [] => false
                      end) token.

Fixpoint graph_get (graph : list (string * list string)) (k : string)
  : option (list string) :=
  match graph with
  | [] => None
  | (k', v) :: more => if String.eqb k k' then Some v else graph_get more k
  end.

(** One iteration of [for token in tokens[1:]]. *)
Definition check_token (self : Tokenizer) (graph : list (string * list string))
  (st : ErrState) (token : list string) : option ErrState :=
  bar_value <- (f <- nth_error token 1 ;; v <- tok_value f ;; Py.int v) ;;
  pos_value <- (f <- nth_error token 2 ;; v <- tok_value f ;;
                pos_or_minus_one v) ;;
  head <- nth_error token 0 ;;
  match Py.split_on "_" head with
  | [token_type; token_value] =>
      if has_special token then
        Some (mkErr (err st + 1) (previous_type st) (current_pitches st)
                    (err_current_bar st) (err_current_pos st))   (* continue *)
      else
        successors <- graph_get graph (previous_type st) ;;
        if Py.mem token_type successors then
          ' (err1, pitches, bar, pos) <-
            (if String.eqb token_type "Bar" then
               Some (err st, [], err_current_bar st + 1, -1)
             else if remove_duplicated_notes self
                     && String.eqb token_type "Pitch" then
               pitch <- Py.int token_value ;;
               if existsb (Z.eqb pitch) (current_pitches st)
               then Some (err st + 1, current_pitches st, err_current_bar st,
                          err_current_pos st)
               else Some (err st, current_pitches st ++ [pitch],
                          err_current_bar st, err_current_pos st)
             else if String.eqb token_type "Position" then
               v <- Py.int token_value ;;
               if (v <=? err_current_pos st) || negb (v =? pos_value)
               then Some (err st + 1, current_pitches st, err_current_bar st,
                          err_current_pos st)
               else Some (err st, [], err_current_bar st, v)
             else if String.eqb token_type "Program" then
               Some (err st, [], err_current_bar st, err_current_pos st)
             else Some (err st, current_pitches st, err_current_bar st,
                        err_current_pos st)) ;;
          let err2 :=
            if (pos_value <? pos) || (bar_value <? bar) then err1 + 1
            else err1 in
          Some (mkErr err2 token_type pitches bar pos)
        else
          Some (mkErr (err st + 1) token_type (current_pitches st)
                      (err_current_bar st) (err_current_pos st))
  | _ => None                                     (* cannot unpack *)
  end.

Fixpoint check_tokens (self : Tokenizer) (graph : list (string * list string))
  (st : ErrState) (tokens : list (list string)) : option ErrState :=
  match tokens with
  | [] => Some st
  | token :: more =>
      st1 <- check_token self graph st token ;;
      check_tokens self graph st1 more
  end.

(** [graph] is the attribute [self.tokens_types_graph]. *)
Definition _tokens_errors (self : Tokenizer)
  (graph : list (string * list string)) (tokens : list (list string))
  : option Z :=
  match tokens with
  | [] => None                                    (* tokens[0] *)
  | first :: more =>
      previous_type <- (f <- nth_error first 0 ;;
                        nth_error (Py.split_on "_" f) 0) ;;
      current_bar <- (f <- nth_error first 1 ;; v <- tok_value f ;; Py.int v) ;;
      current_pos <- (f <- nth_error first 2 ;; v <- tok_value f ;;
                      pos_or_minus_one v) ;;
      st <- check_tokens self graph
              (mkErr 0 previous_type [] current_bar current_pos) more ;;
      Some (err st)
  end.

(** *** [_tweak_config_before_creating_voc] *)

(** The dictionary [self.vocab_types_idx]; an index may be negative.  The
    method first sets [use_rests] to [False], so that its ["Rest"] entry is
    never made, and [use_programs] to [True]. *)
Definition vocab_types_idx (self : Tokenizer) : list (string * Z) :=
  [ ("Pitch", 0); ("DrumPitch", 0); ("Position", 0); ("Bar", 0);
    ("Program", 0); ("BarPosEnc", 1); ("PositionPosEnc", 2);
    ("Velocity", -2); ("Duration", -1) ]
  ++ (if use_chords self then [("Chord", 0)] else [])
  ++ (if use_tempos self then [("Tempo", -3)] else []).

Fixpoint type_idx (d : list (string * Z)) (k : string) : option Z :=
  match d with
  | [] => None                                    (* KeyError *)
  | (k', v) :: more => if String.eqb k k' then Some v else type_idx more k
  end.

(** *** [_create_base_vocabulary] *)

(** The attributes that only the vocabulary reads. *)
Record VocabSource : Type := mkVocabSource {
  pitch_range : Z * Z;                (* self.config.pitch_range *)
  (* self.config.additional_params["drum_pitch_range"] *)
  drum_pitch_range : Z * Z;
  velocities : list Z;                (* self.velocities *)
  tempos : list F;                    (* self.tempos *)
  time_signature_pairs : list (Z * Z);  (* self.time_signatures *)
  (* self._create_chords_tokens(), of the base class *)
  chords_tokens : list string
}.

(** The labels of [durations self] are the joined tuples already; the
    branch on [use_rests] is left out, the flag being [False]. *)
Definition _create_base_vocabulary (self : Tokenizer) (src : VocabSource)
  : option (list (list string)) :=
  max_num_beats <- Py.max (map fst (time_signature_pairs src)) ;;
  let num_positions := max_beat_res self * max_num_beats in
  let vocab0 :=
    map (fun i => ("Pitch_" ++ Py.str i)%string)
        (Py.range (fst (pitch_range src)) (snd (pitch_range src)))
    ++ map (fun i => ("DrumPitch_" ++ Py.str i)%string)
           (Py.range (fst (drum_pitch_range src)) (snd (drum_pitch_range src)))
    ++ ["Bar_None"]
    ++ map (fun i => ("Position_" ++ Py.str i)%string)
           (Py.range 0 num_positions)
    ++ map (fun program => ("Program_" ++ Py.str program)%string)
           (programs self) in
  let vocab1 :=
    map (fun i => ("BarPosEnc_" ++ Py.str i)%string)
        (Py.range 0 (max_bar_embedding self)) in
  let vocab2 :=
    ["PositionPosEnc_None"]
    ++ map (fun i => ("PositionPosEnc_" ++ Py.str i)%string)
           (Py.range 0 num_positions) in
  let vocab0 :=
    if use_chords self then vocab0 ++ chords_tokens src else vocab0 in
  let vocab := [vocab0; vocab1; vocab2] in
  let vocab :=
    if use_tempos self
    then vocab ++ [map (fun i => ("Tempo_" ++ string_of_float i)%string)
                       (tempos src)]
    else vocab in
  let vocab :=
    vocab ++ [map (fun i => ("Velocity_" ++ Py.str i)%string)
                  (velocities src)] in
  let vocab :=
    vocab ++ [map (fun duration => ("Duration_" ++ fst duration)%string)
                  (durations self)] in
  Some vocab.

End Tokenizer.

End MuMIDI.

(** ** Sample tokenizers and inputs, for running the model *)

Module Samples.

Import Centi.

(** A reading of a ["beats.subdivisions.resolution"] value as ticks, as the
    table of [durations] below lists them. *)
Definition dur_ticks (s : string) (td : Z) : option Z :=
  match map Py.int (Py.split_on "." s) with
  | [Some b; Some p; Some r] =>
      if r =? 0 then None else Some ((b * r + p) * td / r)
  | _ => None
  end.

Definition durations : list (string * Z) :=
  [("0.1.8", 1); ("0.2.8", 2); ("0.4.8", 4); ("1.0.8", 8); ("2.0.8", 16)].

(** CPWord at 8 ticks per quarter note, with the optional fields given. *)
Definition cpword (programs_ chords_ rests_ tempos_ time_sigs_ : bool)
  (one_stream : bool) : CPWord.Config (F := Z) :=
  {| CPWord.use_programs := programs_;
     CPWord.use_chords := chords_;
     CPWord.use_rests := rests_;
     CPWord.use_tempos := tempos_;
     CPWord.use_time_signatures := time_sigs_;
     CPWord.remove_duplicated_notes := false;
     CPWord.log_tempos := false;
     CPWord.one_token_stream := one_stream;
     CPWord.time_division := 8;
     CPWord.max_beat_res := 8;
     CPWord.min_rest := 2;
     CPWord.default_tempo := 12000;
     CPWord.tempos := [6000; 12000; 18000];
     CPWord.programs := [0; 1];
     CPWord.rests := [("0.2.8", 2); ("0.4.8", 4); ("1.0.8", 8); ("2.0.8", 16)];
     CPWord.token_duration_to_ticks := dur_ticks;
     CPWord.instrument_names := repeat "Instrument" 128;
     CPWord.vocab_lookup := fun _ tok => Some tok |}.

(** MuMIDI at 8 ticks per quarter note, with a vocabulary of two bars. *)
Definition mumidi (tempos_ : bool) : MuMIDI.Tokenizer (F := Z) :=
  {| MuMIDI.use_chords := false;
     MuMIDI.use_tempos := tempos_;
     MuMIDI.remove_duplicated_notes := false;
     MuMIDI.programs := [0; 1];
     MuMIDI.time_division := 8;
     MuMIDI.max_beat_res := 8;
     MuMIDI.default_tempo := 12000;
     MuMIDI.durations := durations;
     MuMIDI.token_duration_to_ticks := dur_ticks;
     MuMIDI.instrument_names := repeat "Instrument" 128;
     MuMIDI.get_midi_max_tick :=
       fun m => fold_right Z.max 0
                  (flat_map (fun t => map note_end (notes t)) (tracks m));
     MuMIDI.detect_chords := fun _ _ => [];
     MuMIDI.complete_sequence := fun _ _ => Some tt;
     MuMIDI.max_bar_embedding := 2;
     MuMIDI.vocab := [ ["Bar_None"; "Program_0"];
                       ["BarPosEnc_0"; "BarPosEnc_1"];
                       ["PositionPosEnc_None"] ] |}.

(** The events of one note, as the base class lists them. *)
Definition note_events (pitch velocity start finish : Z) (duration : string)
  : list (Event Z) :=
  [ mkEvent "Pitch" (VInt pitch) start (VInt finish);
    mkEvent "Velocity" (VInt velocity) start (VStr (Py.str velocity));
    mkEvent "Duration" (VStr duration) start (VStr "ticks") ].

Definition time_sig_event (sig : string) (tick : Z) : Event Z :=
  mkEvent "TimeSig" (VStr sig) tick VNone.

(** The builder's variables once the first bar of a 4/4 piece is open, a
    note having sounded from tick 0 to tick [note_end]. *)
Definition in_first_bar (note_end : Z) : CPWord.EncState (F := Z) :=
  {| CPWord.current_bar := 0;
     CPWord.bar_at_last_ts_change := 0;
     CPWord.previous_tick := 0;
     CPWord.previous_note_end := note_end;
     CPWord.tick_at_last_ts_change := 0;
     CPWord.tick_at_current_bar := 0;
     CPWord.current_time_sig := (4, 4);
     CPWord.current_tempo := VFloat 12000;
     CPWord.current_program := VNone;
     CPWord.ticks_per_bar := 32 |}.

(** The strings of a stream of compound tokens. *)
Definition strings (toks : list (list (Event Z))) : list (list string) :=
  map (map str_event) toks.

(** CPWord with time signatures only, one sequence per track. *)
Definition cpword_time_sigs : CPWord.Config (F := Z) :=
  cpword false false false false true false.

(** The scenario of section 8: a piece in 4/4 that changes to 3/4 on tick
    32, with a quarter note on tick 40. *)
Definition change_to_3_4 : list (Event Z) :=
  [time_sig_event "4/4" 0; time_sig_event "3/4" 32]
  ++ note_events 60 80 40 48 "1.0.8".

(** The same with a note in bar 0 and no signature event at tick 0: the
    default 4/4 applies. *)
Definition change_to_3_4_after_a_note : list (Event Z) :=
  note_events 62 80 0 8 "1.0.8"
  ++ [time_sig_event "3/4" 32]
  ++ note_events 60 80 40 48 "1.0.8".

(** Without any 4/4 before: the first loop of the builder takes the 3/4 as
    the signature of the whole piece. *)
Definition only_3_4 : list (Event Z) :=
  [time_sig_event "3/4" 32] ++ note_events 60 80 40 48 "1.0.8".

(** CPWord with rests and time signatures together. *)
Definition cpword_rests_time_sigs : CPWord.Config (F := Z) :=
  cpword false false true false true false.

(** CPWord with rests and tempos. *)
Definition cpword_rests_tempos : CPWord.Config (F := Z) :=
  cpword false false true true false false.

(** A whole note in 4/4, a change to 3/4 at its end on tick 32, and a
    quarter note on tick 40, one quarter after the change. *)
Definition rest_after_change : list (Event Z) :=
  note_events 60 80 0 32 "4.0.8"
  ++ [time_sig_event "3/4" 32]
  ++ note_events 62 80 40 48 "1.0.8".

(** Two quarter notes three quarters apart, with a tempo change on the
    second. *)
Definition notes_apart : list (Event Z) :=
  note_events 60 80 0 8 "1.0.8"
  ++ [mkEvent "Tempo" (VFloat 6000) 32 VNone]
  ++ note_events 62 80 32 40 "1.0.8".

(** A piece of two tracks, a piano and a drum kit, at 8 ticks per quarter
    note; the second note of the piano is 7 ticks long, which no entry of
    the table of durations is. *)
Definition piano : Track :=
  mkTrack 0 false "Piano"
    [mkNote 0 8 60 80; mkNote 8 7 64 70; mkNote 40 16 67 90].

Definition duet : Score Z :=
  mkScore 8
    [ piano; mkTrack 0 true "Kit" [mkNote 0 2 36 100; mkNote 16 2 38 100] ]
    [mkTempo 0 12000] [].

(** CPWord with tempos, one sequence per track. *)
Definition cpword_tempos : CPWord.Config (F := Z) :=
  cpword false false false true false false.

(** MuMIDI at 16 ticks per quarter note, two ticks per position, and a
    quarter note on tick 1, between two positions. *)
Definition mumidi_fine : MuMIDI.Tokenizer (F := Z) :=
  {| MuMIDI.use_chords := false;
     MuMIDI.use_tempos := false;
     MuMIDI.remove_duplicated_notes := false;
     MuMIDI.programs := [0; 1];
     MuMIDI.time_division := 16;
     MuMIDI.max_beat_res := 8;
     MuMIDI.default_tempo := 12000;
     MuMIDI.durations :=
       [("0.1.8", 2); ("0.2.8", 4); ("0.4.8", 8); ("1.0.8", 16); ("2.0.8", 32)];
     MuMIDI.token_duration_to_ticks := dur_ticks;
     MuMIDI.instrument_names := repeat "Instrument" 128;
     MuMIDI.get_midi_max_tick :=
       fun m => fold_right Z.max 0
                  (flat_map (fun t => map note_end (notes t)) (tracks m));
     MuMIDI.detect_chords := fun _ _ => [];
     MuMIDI.complete_sequence := fun _ _ => Some tt;
     MuMIDI.max_bar_embedding := 2;
     MuMIDI.vocab := [ ["Bar_None"; "Program_0"];
                       ["BarPosEnc_0"; "BarPosEnc_1"];
                       ["PositionPosEnc_None"] ] |}.

Definition off_grid : Score Z :=
  mkScore 16 [mkTrack 0 false "Piano" [mkNote 1 16 60 80]]
    [mkTempo 0 12000] [].

Definition metric_token (bar_pos time_sig : string) : list string :=
  ["Family_Metric"; bar_pos; "Ignore_None"; "Ignore_None"; "Ignore_None";
   time_sig].

Definition note_token (pitch velocity duration : string) : list string :=
  ["Family_Note"; "Ignore_None"; pitch; velocity; duration; "Ignore_None"].

(** A MuMIDI sequence in which positions go back twice. *)
Definition regressing : list (list string) :=
  [ ["Pitch_60"; "BarPosEnc_0"; "PositionPosEnc_4"; "Velocity_80";
     "Duration_1.0.8"];
    ["Position_2"; "BarPosEnc_0"; "PositionPosEnc_2"];
    ["Program_0"; "BarPosEnc_0"; "PositionPosEnc_2"];
    ["Pitch_60"; "BarPosEnc_0"; "PositionPosEnc_2"; "Velocity_80";
     "Duration_1.0.8"];
    ["Position_1"; "BarPosEnc_0"; "PositionPosEnc_1"] ].

(** What the vocabulary of a small CPWord is made from. *)
Definition cpword_source : CPWord.VocabSource :=
  {| CPWord.pitch_range := (60, 63);
     CPWord.velocities := [80; 100];
     CPWord.durations := [[0; 4; 8]; [1; 0; 8]];
     CPWord.time_signature_pairs := [(4, 4); (3, 4)];
     CPWord.chords_tokens := ["Chord_maj"; "Chord_min"] |}.

(** The same for MuMIDI. *)
Definition mumidi_source : MuMIDI.VocabSource (F := Z) :=
  {| MuMIDI.pitch_range := (60, 63);
     MuMIDI.drum_pitch_range := (36, 38);
     MuMIDI.velocities := [80; 100];
     MuMIDI.tempos := [6000; 12000];
     MuMIDI.time_signature_pairs := [(4, 4)];
     MuMIDI.chords_tokens := ["Chord_maj"] |}.

(** CPWord with every optional field. *)
Definition cpword_full : CPWord.Config (F := Z) :=
  cpword true true true true true true.

(** A CPWord sequence of one bar, one position and one note, with time
    signatures. *)
Definition cp_one_note : list (list string) :=
  [ metric_token "Bar_None" "TimeSig_4/4";
    metric_token "Position_0" "Ignore_None";
    note_token "Pitch_60" "Velocity_80" "Duration_1.0.8" ].

(** A MuMIDI sequence of one note on the first tick. *)
Definition mu_one_note : list (list string) :=
  [ ["Bar_None"; "BarPosEnc_0"; "PositionPosEnc_None"];
    ["Position_0"; "BarPosEnc_0"; "PositionPosEnc_0"];
    ["Program_0"; "BarPosEnc_0"; "PositionPosEnc_0"];
    ["Pitch_60"; "BarPosEnc_0"; "PositionPosEnc_0"; "Velocity_80";
     "Duration_1.0.8"] ].

(** The duet with the notes of the piano in another order. *)
Definition duet_shuffled : Score Z :=
  mkScore 8
    [ mkTrack 0 false "Piano"
        [mkNote 40 16 67 90; mkNote 0 8 60 80; mkNote 8 7 64 70];
      mkTrack 0 true "Kit" [mkNote 0 2 36 100; mkNote 16 2 38 100] ]
    [mkTempo 0 12000] [].

End Samples.

(** ** Vocabulary for the statements *)

(** A sub-token is well formed when it has a value part, as every
    ["Type_Value"] string has. *)
Definition has_value (tok : string) : Prop :=
  nth_error (Py.split_on "_" tok) 1 <> None.

(** A sub-token carries the absent placeholder. *)
Definition carries_none (tok : string) : Prop :=
  nth_error (Py.split_on "_" tok) 1 = Some "None".

(** CPWord: the family of a compound token, and the sub-fields a Note token
    must fill: pitch, velocity, duration, and program when programs are
    used. *)
Definition cp_family (tok : list string) (family : string) : Prop :=
  exists f, nth_error tok 0 = Some f /\
            nth_error (Py.split_on "_" f) 1 = Some family.

Definition cp_required_fields {F : Type} (self : CPWord.Config (F := F))
  (tok : list string) : list string :=
  Py.slice tok 2 (if CPWord.use_programs self then 6 else 5).

(** MuMIDI: a note time step starts with a Pitch or DrumPitch sub-token;
    velocity and duration are its last two sub-tokens. *)
Definition mu_note_step (tok : list string) (pitch_value : string) : Prop :=
  exists head tok_type,
    nth_error tok 0 = Some head /\
    Py.split_on "_" head = [tok_type; pitch_value] /\
    (tok_type = "Pitch" \/ tok_type = "DrumPitch").

Definition mu_velocity (tok : list string) : option string := Py.index tok (-2).
Definition mu_duration (tok : list string) : option string := Py.index tok (-1).

(** The string held at an index of a sub-vocabulary. *)
Definition sub_vocab (vocab : list (list string)) (k : nat) : list string :=
  nth k vocab [].

Definition vocab_entry (vocab : list (list string)) (k i : nat)
  : option string :=
  nth_error (sub_vocab vocab k) i.

(** The life of a MuMIDI tokenizer: pieces are encoded and token sequences
    decoded, one call after the other, on the same object. *)
Inductive Call (F : Type) : Type :=
| Encode (midi : Score F)
| Decode (tokens : list (list string)) (time_division : option Z).

Arguments Encode {F} _.
Arguments Decode {F} _ _.

Definition run_call {F : Type} {fops : FloatOps F}
  (self : MuMIDI.Tokenizer (F := F)) (c : Call F) : MuMIDI.Tokenizer :=
  match c with
  | Encode midi => fst (MuMIDI._midi_to_tokens self midi)
  | Decode tokens td => fst (MuMIDI._tokens_to_midi self tokens td)
  end.

Definition run_calls {F : Type} {fops : FloatOps F}
  (self : MuMIDI.Tokenizer (F := F)) (calls : list (Call F))
  : MuMIDI.Tokenizer :=
  fold_left run_call calls self.

(** CPWord: a Position token, with the position it gives and the tempo it
    carries. *)
Definition cp_position {F : Type} {fops : FloatOps F}
  (self : CPWord.Config (F := F)) (tok : list string) (pos : Z) (tempo : F)
  : Prop :=
  cp_family tok "Metric"
  /\ (exists f v, nth_error tok 1 = Some f
                  /\ Py.split_on "_" f = ["Position"; v]
                  /\ Py.int v = Some pos)
  /\ (exists f v, CPWord.get_field self tok "Tempo" = Some f
                  /\ nth_error (Py.split_on "_" f) 1 = Some v
                  /\ float_of_string v = Some tempo).

(** The tick a Position token puts the CPWord decoder at. *)
Definition position_tick {F : Type} (ticks_per_sample : Z)
  (st : CPWord.DecState (F := F)) (pos : Z) : Z :=
  CPWord.d_tick_at_current_bar st + pos * ticks_per_sample.

(** CPWord: the kinds of compound tokens the builder emits, read off the
    events they are made of. *)
Definition field_type {F : Type} (tok : list (Event F)) (i : nat) : string :=
  match nth_error tok i with
  | Some e => type_ e
  | None => ""
  end.

Definition is_bar_token {F : Type} (tok : list (Event F)) : bool :=
  String.eqb (field_type tok 1) "Bar".

Definition is_position_token {F : Type} (tok : list (Event F)) : bool :=
  String.eqb (field_type tok 1) "Position".

(** The label and the tick of a Rest token. *)
Definition rest_of {F : Type} {fops : FloatOps F}
  (self : CPWord.Config (F := F)) (tok : list (Event F))
  : option (string * Z) :=
  match CPWord.vocab_types_idx self "Rest" with
  | Some i =>
      match nth_error tok i with
      | Some e => if String.eqb (type_ e) "Rest"
                  then Some (str_val (value e), time e) else None
      | None => None
      end
  | None => None
  end.

(** The Rest tokens of a stream, in order, and the number of its Bar
    tokens. *)
Fixpoint rests_in {F : Type} {fops : FloatOps F}
  (self : CPWord.Config (F := F)) (toks : list (list (Event F)))
  : list (string * Z) :=
  match toks with
  | [] => []
  | tok :: more =>
      match rest_of self tok with
      | Some r => r :: rests_in self more
      | None => rests_in self more
      end
  end.

Definition count_bars {F : Type} (toks : list (list (Event F))) : nat :=
  List.length (filter is_bar_token toks).

(** The rest values of a decomposition, each with the tick it starts at. *)
Fixpoint with_starts (start : Z) (values : list (string * Z))
  : list (string * Z) :=
  match values with
  | [] => []
  | (label, ticks) :: more =>
      (label, start) :: with_starts (start + ticks) more
  end.

(** The tick at which a decomposition ends. *)
Definition rests_end (start : Z) (values : list (string * Z)) : Z :=
  fold_left (fun t v => t + snd v) values start.

(** The bar a tick falls in, under the grid of an encoder state. *)
Definition bar_of {F : Type} (st : CPWord.EncState (F := F)) (tick : Z) : Z :=
  CPWord.bar_at_last_ts_change st
  + (tick - CPWord.tick_at_last_ts_change st) / CPWord.ticks_per_bar st.

(** Two encoder states with the same grid: anchor bar, anchor tick, bar
    length and signature. *)
Definition same_grid {F : Type} (a b : CPWord.EncState (F := F)) : Prop :=
  CPWord.bar_at_last_ts_change a = CPWord.bar_at_last_ts_change b
  /\ CPWord.tick_at_last_ts_change a = CPWord.tick_at_last_ts_change b
  /\ CPWord.ticks_per_bar a = CPWord.ticks_per_bar b
  /\ CPWord.current_time_sig a = CPWord.current_time_sig b.

(** The gap between an event and the end of the last note, its greedy
    decomposition into rests, and the bar in which that decomposition
    ends. *)
Definition rest_gap {F : Type} (st : CPWord.EncState (F := F))
  (event : Event F) : Z :=
  time event - CPWord.previous_note_end st.

Definition rest_values {F : Type} {fops : FloatOps F}
  (self : CPWord.Config (F := F)) (st : CPWord.EncState) (event : Event F)
  : list (string * Z) :=
  ticks_to_rest_tokens (CPWord.rests self) (rest_gap st event).

Definition rest_end_bar {F : Type} {fops : FloatOps F}
  (self : CPWord.Config (F := F)) (st : CPWord.EncState) (event : Event F)
  : Z :=
  bar_of st (rests_end (CPWord.previous_note_end st) (rest_values self st event)).

(** The values of the Position sub-tokens of a stream of CPWord tokens. *)
Fixpoint position_values (toks : list (list string)) : list string :=
  match toks with
  | [] => []
  | tok :: more =>
      match nth_error tok 1 with
      | Some f =>
          match Py.split_on "_" f with
          | ["Position"; v] => v :: position_values more
          | _ => position_values more
          end
      | None => position_values more
      end
  end.

(** The decoder's variables after the only sequence of a stream. *)
Definition decode_alone {F : Type} {fops : FloatOps F}
  (self : CPWord.Config (F := F)) (seq : list (list string))
  : option CPWord.DecState :=
  CPWord.decode_sequence self 0 (CPWord.time_division self)
    (CPWord.time_division self / CPWord.max_beat_res self) None
    CPWord.initial_dec_state seq.

(** A string without underscore: the type or the value of a sub-token. *)
Fixpoint no_underscore (s : string) : bool :=
  match s with
  | EmptyString => true
  | String c s' => negb (Ascii.eqb c "_") && no_underscore s'
  end.

(** *** Event streams and validator runs, for the grammar theorem *)

Section GrammarVocabulary.

Context {F : Type} {fops : FloatOps F}.
Variable self : CPWord.Config (F := F).

(** The validator, one token at a time: [None] before the first token, which
    only sets [previous_type]. *)
Definition feed (graph : CPWord.dict (list string))
  (ovs : option CPWord.ErrState) (tok : list string)
  : option CPWord.ErrState :=
  match ovs with
  | None =>
      tv <- CPWord.cp_token_type tok ;;
      ty <- nth_error tv 0 ;;
      Some (CPWord.mkErr 0 ty (-1) 0 (CPWord.no_pitches self))
  | Some vs => CPWord.check_token self graph vs tok
  end.

Fixpoint feed_all (graph : CPWord.dict (list string))
  (ovs : option CPWord.ErrState) (toks : list (list string))
  : option (option CPWord.ErrState) :=
  match toks with
  | [] => Some ovs
  | tok :: more =>
      vs <- feed graph ovs tok ;; feed_all graph (Some vs) more
  end.

(** The variables of a validator that has seen no token yet. *)
Definition err_of (ovs : option CPWord.ErrState) : Z :=
  match ovs with Some vs => CPWord.err vs | None => 0 end.

Definition pos_of (ovs : option CPWord.ErrState) : Z :=
  match ovs with Some vs => CPWord.current_pos vs | None => -1 end.

Definition program_of (ovs : option CPWord.ErrState) : Z :=
  match ovs with Some vs => CPWord.err_program vs | None => 0 end.

Definition pitches_of_state (ovs : option CPWord.ErrState)
  : list (Z * list Z) :=
  match ovs with
  | Some vs => CPWord.current_pitches vs
  | None => CPWord.no_pitches self
  end.

Definition type_of (ovs : option CPWord.ErrState) : option string :=
  option_map CPWord.previous_type ovs.

(** The graph lets a token of type [ty] follow one of type [prev]. *)
Definition allowed (prev ty : string) : bool :=
  match CPWord.dict_get (CPWord._create_token_types_graph self) prev with
  | Some successors => Py.mem ty successors
  | None => false
  end.

(** A token of type [ty] may come next: anything may come first. *)
Definition may_follow (ovs : option CPWord.ErrState) (ty : string) : bool :=
  match ovs with
  | None => true
  | Some vs => allowed (CPWord.previous_type vs) ty
  end.

(** The validator's variables after a token that raised no error. *)
Definition after_rest (ovs : option CPWord.ErrState) : option CPWord.ErrState :=
  Some (CPWord.mkErr (err_of ovs) "Rest" (pos_of ovs) (program_of ovs)
          (pitches_of_state ovs)).

Definition after_bar (ovs : option CPWord.ErrState) : option CPWord.ErrState :=
  Some (CPWord.mkErr (err_of ovs) "Bar" (-1) (program_of ovs)
          (CPWord.no_pitches self)).

Definition after_position (ovs : option CPWord.ErrState) (pos : Z)
  : option CPWord.ErrState :=
  Some (CPWord.mkErr (err_of ovs) "Position"
          (match ovs with Some _ => pos | None => -1 end)
          (program_of ovs) (CPWord.no_pitches self)).

(** The tokens as the validator reads them. *)
Definition printed (toks : list (CPWord.CPToken (F := F))) : list (list string) :=
  map (map str_event) toks.

(** A TimeSig event gives a signature whose bars last at least one tick. *)
Definition time_sig_ok (e : Event F) : bool :=
  if String.eqb (type_ e) "TimeSig" then
    match CPWord.event_time_sig (value e) with
    | Some ts => 0 <? compute_ticks_per_bar ts (CPWord.time_division self)
    | None => false
    end
  else true.

(** An event stream as the event normaliser of section 4.2 hands it to the
    builder.  [prev] follows the builder's [previous_tick] and [last] is the
    tick of the last event; [pending] says that a Chord has opened a
    position which still waits for its note (it matters when tempos, which
    let a position stand alone, are not used); [seen] lists the pitches
    given since the last position.
    - Ticks are not negative and do not decrease.
    - A Pitch event carries integers as its pitch and its note end; its
      Velocity and Duration events follow it at once, on its tick; when
      duplicated notes are checked, its pitch is new at its position.
    - Program, Tempo, Chord and TimeSig events occur only when their option
      is on.
    - A TimeSig event comes strictly after the event before it.
    - After a Chord that waits for its note, only events of the same tick
      come before that note, and neither a Tempo nor a TimeSig event. *)
Fixpoint well_formed (prev last : Z) (pending : bool) (seen : list Z)
  (events : list (Event F)) : bool :=
  match events with
  | [] => true
  | e :: rest =>
      let fresh := negb (time e =? prev) in
      let seen0 := if fresh then [] else seen in
      (0 <=? time e) && (last <=? time e)
      && (negb pending || (time e =? prev))
      && (if String.eqb (type_ e) "Program" then
            CPWord.use_programs self
            && well_formed prev (time e) pending seen rest
          else if String.eqb (type_ e) "Tempo" then
            CPWord.use_tempos self && negb pending
            && well_formed (time e) (time e) false seen0 rest
          else if String.eqb (type_ e) "Chord" then
            CPWord.use_chords self
            && well_formed (time e) (time e)
                 (if fresh then negb (CPWord.use_tempos self) else pending)
                 seen0 rest
          else if String.eqb (type_ e) "TimeSig" then
            CPWord.use_time_signatures self && negb pending
            && (last <? time e)
            && well_formed (time e - 1) (time e) false seen rest
          else if String.eqb (type_ e) "Pitch" then
            match value e, desc e, rest with
            | VInt pitch, VInt _, v :: d :: rest' =>
                String.eqb (type_ v) "Velocity"
                && String.eqb (type_ d) "Duration"
                && (time v =? time e) && (time d =? time e)
                && (negb (CPWord.remove_duplicated_notes self)
                    || negb (CPWord.mem_Z pitch seen0))
                && well_formed (time e) (time e) false (pitch :: seen0) rest'
            | _, _, _ => false
            end
          else false)
  end.

Definition well_formed_events (events : list (Event F)) : bool :=
  well_formed (-1) (-1) false [] events && forallb time_sig_ok events.

(** A configuration the grammar theorem covers: rests and time signatures
    are not combined; the time division is positive; when rests are used the
    threshold is positive and is the length of a rest of the table, whose
    labels have no underscore; when duplicated notes are checked, programs
    are not used and program 0 is configured. *)
Definition grammar_config : bool :=
  negb (CPWord.use_rests self && CPWord.use_time_signatures self)
  && (0 <? CPWord.time_division self)
  && (negb (CPWord.use_rests self)
      || ((0 <? CPWord.min_rest self)
          && existsb (fun r => snd r =? CPWord.min_rest self) (CPWord.rests self)
          && forallb (fun r => no_underscore (fst r)) (CPWord.rests self)))
  && (negb (CPWord.remove_duplicated_notes self)
      || (negb (CPWord.use_programs self)
          && CPWord.mem_Z 0 (CPWord.programs self))).

(** The builder and the validator in step, between two events. *)
Definition in_step (st : CPWord.EncState (F := F))
  (ovs : option CPWord.ErrState) (prev last : Z) (pending : bool)
  (seen : list Z) : Prop :=
  CPWord.previous_tick st = prev
  /\ prev <= last
  /\ 0 < CPWord.ticks_per_bar st
  /\ err_of ovs = 0
  /\ pos_of ovs <= prev - CPWord.tick_at_current_bar st
  /\ (type_of ovs = None
      \/ type_of ovs = Some "Pitch"
      \/ (type_of ovs = Some "Position"
          /\ (CPWord.use_tempos self = true \/ pending = true))
      \/ (type_of ovs = Some "Bar"
          /\ CPWord.use_rests self = false /\ prev < last))
  /\ (pending = true -> type_of ovs = Some "Position")
  /\ (CPWord.remove_duplicated_notes self = true ->
      program_of ovs = 0
      /\ exists played,
           CPWord.pitches_of (pitches_of_state ovs) 0 = Some played
           /\ incl played seen).

(** The types after which a new tick may begin. *)
Definition may_begin_tick (ovs : option CPWord.ErrState) : Prop :=
  type_of ovs = None
  \/ type_of ovs = Some "Pitch"
  \/ (type_of ovs = Some "Position" /\ CPWord.use_tempos self = true)
  \/ (type_of ovs = Some "Bar" /\ CPWord.use_rests self = false).

End GrammarVocabulary.

(** ** Vocabulary for the round trip of MuMIDI *)

Section RoundTripVocabulary.

Context {F : Type} {fops : FloatOps F}.
Variable self : MuMIDI.Tokenizer (F := F).

(** The key under which the notes of a track travel: its program, or -1 for
    drums. *)
Definition track_key (tr : Track) : Z :=
  if is_drum tr then -1 else program tr.

(** The length of the entry of the duration table nearest to a note, and the
    note with that length. *)
Definition nearest_ticks (n : Note) : Z :=
  match MuMIDI.closest_duration (MuMIDI.durations self)
          (note_end n - note_start n) with
  | Some d => snd d
  | None => 0
  end.

Definition quantized (n : Note) : Note :=
  mkNote (note_start n) (nearest_ticks n) (note_pitch n) (note_velocity n).

(** A note starts on the grid of positions. *)
Definition on_grid (n : Note) : bool :=
  (0 <=? note_start n)
  && (note_start n mod (MuMIDI.time_division self / MuMIDI.max_beat_res self)
      =? 0).

Fixpoint sorted_by_start (ns : list Note) : bool :=
  match ns with
  | a :: (b :: _) as more =>
      (note_start a <=? note_start b) && sorted_by_start more
  | _ => true
  end.

(** A track the encoder keeps and the decoder can name: its program is
    configured and, unless it is a drum track, is an index of the table of
    instruments; its notes are on the grid, in the order of their starts. *)
Definition track_ok (tr : Track) : bool :=
  existsb (Z.eqb (program tr)) (MuMIDI.programs self)
  && (is_drum tr
      || ((0 <=? program tr)
          && (program tr
              <? Z.of_nat (List.length (MuMIDI.instrument_names self)))))
  && forallb on_grid (notes tr)
  && sorted_by_start (notes tr).

Fixpoint distinct_keys (trs : list Track) : bool :=
  match trs with
  | [] => true
  | tr :: more =>
      negb (existsb (fun u => track_key u =? track_key tr) more)
      && distinct_keys more
  end.

(** The duration table: not empty; its labels split off a token and are not
    the placeholder; [_token_duration_to_ticks] gives back the length listed
    with each label. *)
Definition duration_ok (d : string * Z) : bool :=
  no_underscore (fst d)
  && negb (String.eqb (fst d) "None")
  && match MuMIDI.token_duration_to_ticks self (fst d)
             (MuMIDI.time_division self) with
     | Some t => t =? snd d
     | None => false
     end.

Definition durations_ok : bool :=
  match MuMIDI.durations self with
  | [] => false
  | _ :: _ => forallb duration_ok (MuMIDI.durations self)
  end.

(** A tempo whose printed form is read back as a number. *)
Definition tempo_ok (x : F) : bool :=
  negb (MuMIDI.use_tempos self)
  || (no_underscore (string_of_float x)
      && match float_of_string (string_of_float x) with
         | Some _ => true
         | None => false
         end).

Definition tempos_ok (midi : Score F) : bool :=
  match score_tempos midi with
  | [] => false
  | _ :: _ =>
      forallb (fun t => tempo_ok (float_round2 (tempo_value t)))
        (score_tempos midi)
  end.

(** A piece and a tokenizer for which MuMIDI gives the notes back: chords
    are off; the piece has the time division of the tokenizer, which is
    positive and a multiple of the finest resolution. *)
Definition mumidi_ready (midi : Score F) : bool :=
  negb (MuMIDI.use_chords self)
  && (0 <? MuMIDI.time_division self)
  && (ticks_per_quarter midi =? MuMIDI.time_division self)
  && (0 <? MuMIDI.max_beat_res self)
  && (MuMIDI.time_division self mod MuMIDI.max_beat_res self =? 0)
  && durations_ok
  && tempos_ok midi
  && forallb track_ok (tracks midi)
  && distinct_keys (tracks midi).

(** [complete_sequence], the last call of [_midi_to_tokens], returns on the
    tokens that the loop has made of the piece, with the vocabulary as the
    first lines of the method have left it. *)
Definition sequence_completes (midi : Score F) : Prop :=
  forall toks,
    MuMIDI.midi_to_tokens_body (fst (MuMIDI._midi_to_tokens self midi)) midi
    = Some toks ->
    MuMIDI.complete_sequence (fst (MuMIDI._midi_to_tokens self midi))
      (MuMIDI.vocab (fst (MuMIDI._midi_to_tokens self midi))) toks
    = Some tt.

(** [tracks[k]] after the note [n] has come under the key [k], the key being
    made on its first note. *)
Fixpoint place (tracks : list (string * list Note)) (k : string) (n : Note)
  : list (string * list Note) :=
  match tracks with
  | [] => [(k, [n])]
  | (k', ns) :: more =>
      if String.eqb k k' then (k', ns ++ [n]) :: more
      else (k', ns) :: place more k n
  end.

(** The note that the decoder reads off a time step of the encoder: its
    tick is that of the head; pitch, velocity and length are parsed. *)
Definition note_of (t : MuMIDI.NoteToken (F := F)) : Note :=
  mkNote (MuMIDI.ne_time (fst t))
    (match snd t with
     | [_; d] =>
         match MuMIDI.tok_value d with
         | Some label =>
             match MuMIDI.token_duration_to_ticks self label
                     (MuMIDI.time_division self) with
             | Some ticks => ticks
             | None => 0
             end
         | None => 0
         end
     | _ => 0
     end)
    (match MuMIDI.ne_value (fst t) with VInt p => p | _ => 0 end)
    (match snd t with
     | v :: _ =>
         match MuMIDI.tok_value v with
         | Some x => match Py.int x with Some n => n | None => 0 end
         | None => 0
         end
     | [] => 0
     end).

(** The dictionary of tracks after the time steps [steps]. *)
Definition collect (tracks : list (string * list Note))
  (steps : list (MuMIDI.NoteToken (F := F))) : list (string * list Note) :=
  fold_left
    (fun acc t => place acc (Py.str (MuMIDI.ne_desc (fst t))) (note_of t))
    steps tracks.

(** A time step as [_track_to_tokens] makes it for a note of a track that
    [track_ok] accepts, the table of durations being as [durations_ok]
    says. *)
Definition step_ok (t : MuMIDI.NoteToken (F := F)) : Prop :=
  (MuMIDI.ne_type (fst t) = "Pitch" \/ MuMIDI.ne_type (fst t) = "DrumPitch")
  /\ (exists pitch, MuMIDI.ne_value (fst t) = VInt pitch)
  /\ 0 <= MuMIDI.ne_time (fst t)
  /\ MuMIDI.ne_time (fst t)
     mod (MuMIDI.time_division self / MuMIDI.max_beat_res self) = 0
  /\ -1 <= MuMIDI.ne_desc (fst t)
  /\ exists velocity label,
       snd t = [ ("Velocity_" ++ Py.str velocity)%string;
                 ("Duration_" ++ label)%string ]
       /\ no_underscore label = true
       /\ label <> "None"
       /\ MuMIDI.token_duration_to_ticks self label (MuMIDI.time_division self)
          <> None.

(** Time steps in the order of their ticks. *)
Fixpoint in_time_order (last : Z) (steps : list (MuMIDI.NoteToken (F := F)))
  : Prop :=
  match steps with
  | [] => True
  | t :: more =>
      last <= MuMIDI.ne_time (fst t)
      /\ in_time_order (MuMIDI.ne_time (fst t)) more
  end.

(** The encoder and the decoder in step, between two time steps: the bars
    agree; before the first step the encoder stands on tick -1; after it
    both stand on the tick of the last step, in its bar, on its track, which
    has its key in the dictionary.  The tempo at hand prints and parses, and
    the decoder has a tempo to compare with. *)
Definition in_tune (st : MuMIDI.EncState (F := F))
  (ds : MuMIDI.DecState (F := F)) : Prop :=
  MuMIDI.d_current_bar ds = MuMIDI.current_bar st
  /\ tempo_ok (MuMIDI.current_tempo st) = true
  /\ MuMIDI.d_tempos ds <> []
  /\ ((MuMIDI.current_tick st = -1 /\ MuMIDI.current_bar st = -1)
      \/ (0 <= MuMIDI.current_tick st
          /\ MuMIDI.d_current_tick ds = MuMIDI.current_tick st
          /\ MuMIDI.current_bar st
             = MuMIDI.current_tick st / (MuMIDI.time_division self * 4)
          /\ MuMIDI.d_current_track ds
             = Some (Py.str (MuMIDI.current_track st))
          /\ MuMIDI.has_key (MuMIDI.d_tracks ds)
               (Py.str (MuMIDI.current_track st)) = true)).

(** A key that the decoder can turn into a track: drums, or an index of the
    table of instruments. *)
Definition key_ok (k : Z) : Prop :=
  k = -1 \/ 0 <= k < Z.of_nat (List.length (MuMIDI.instrument_names self)).

(** The order of [note_tokens.sort]: by tick, then by key. *)
Definition key_before (a b : MuMIDI.NoteToken (F := F)) : Prop :=
  MuMIDI.key_le a b = true.

Fixpoint key_sorted (steps : list (MuMIDI.NoteToken (F := F))) : Prop :=
  match steps with
  | a :: (b :: _) as more => key_before a b /\ key_sorted more
  | _ => True
  end.

(** The time steps of a track: one for each note, in the order of the
    notes, all under the key of the track; the decoder reads each note back
    with the nearest length of the table. *)
Definition track_steps (tr : Track) (steps : list (MuMIDI.NoteToken (F := F)))
  : Prop :=
  Forall step_ok steps
  /\ Forall (fun t => MuMIDI.ne_desc (fst t) = track_key tr) steps
  /\ key_ok (track_key tr)
  /\ key_sorted steps
  /\ map note_of steps = map quantized (notes tr).

(** The notes under a key of the dictionary of tracks. *)
Fixpoint notes_under (tracks : list (string * list Note)) (k : string)
  : option (list Note) :=
  match tracks with
  | [] => None
  | (k', ns) :: more =>
      if String.eqb k k' then Some ns else notes_under more k
  end.

(** The track that the decoder makes of a key and its notes. *)
Definition decoded_track (k : Z) (ns : list Note) (tr : Track) : Prop :=
  notes tr = ns
  /\ is_drum tr = (k =? -1)
  /\ program tr = (if k =? -1 then 0 else k).

End RoundTripVocabulary.

(** ** Vocabulary for the round trip of CPWord *)

Section CPWordRoundTripVocabulary.

Context {F : Type} {fops : FloatOps F}.
Variable self : CPWord.Config (F := F).

(** The table of durations of the base class: labels with their lengths in
    ticks, as [MuMIDI.durations] has them. *)
Variable table : list (string * Z).

(** Modelled from the spec: the event normaliser of section 4.2 on the notes
    of one track.  Each note gives a Pitch event, which carries the end of
    the note, "immediately followed by" its Velocity and Duration events;
    the duration is the label of the table entry nearest to the length of
    the note, the first of the nearest (section 3). *)
Definition note_to_events (n : Note) : option (list (Event F)) :=
  d <- MuMIDI.closest_duration table (note_end n - note_start n) ;;
  Some [ mkEvent "Pitch" (VInt (note_pitch n)) (note_start n)
           (VInt (note_end n));
         mkEvent "Velocity" (VInt (note_velocity n)) (note_start n)
           (VStr (Py.str (note_velocity n)));
         mkEvent "Duration" (VStr (fst d)) (note_start n)
           (VStr (Py.str (note_end n - note_start n) ++ " ticks")) ].

Fixpoint notes_to_events (ns : list Note) : option (list (Event F)) :=
  match ns with
  | [] => Some []
  | n :: more =>
      here <- note_to_events n ;;
      later <- notes_to_events more ;;
      Some (here ++ later)
  end.

(** A note with the length of the nearest entry of the table. *)
Definition quantized_by (n : Note) : Note :=
  mkNote (note_start n)
    (match MuMIDI.closest_duration table (note_end n - note_start n) with
     | Some d => snd d
     | None => 0
     end)
    (note_pitch n) (note_velocity n).

(** The table as CPWord reads it back. *)
Definition cp_duration_ok (d : string * Z) : bool :=
  no_underscore (fst d)
  && negb (String.eqb (fst d) "None")
  && match CPWord.token_duration_to_ticks self (fst d)
             (CPWord.time_division self) with
     | Some t => t =? snd d
     | None => false
     end.

(** The tempo that the builder starts with: the default one, or the nearest
    of the table of tempos. *)
Definition starting_tempo : option F :=
  if CPWord.log_tempos self then CPWord.closest_tempo self
  else Some (CPWord.default_tempo self).

Definition starting_tempo_ok : bool :=
  match starting_tempo with
  | Some x =>
      negb (CPWord.use_tempos self)
      || (no_underscore (string_of_float x)
          && match float_of_string (string_of_float x) with
             | Some _ => true
             | None => false
             end)
  | None => false
  end.

(** A track and a configuration for which CPWord gives the notes back: one
    sequence per track, without rests, time signatures or programs in the
    tokens; one tick per position; the notes from tick 0 on, in the order of
    their starts; the program a drum kit or an index of the table of
    instruments. *)
Definition cpword_ready (tr : Track) : bool :=
  negb (CPWord.one_token_stream self)
  && negb (CPWord.use_rests self)
  && negb (CPWord.use_time_signatures self)
  && negb (CPWord.use_programs self)
  && (0 <? CPWord.time_division self)
  && (CPWord.max_beat_res self =? CPWord.time_division self)
  && starting_tempo_ok
  && match table with
     | [] => false
     | _ :: _ => forallb cp_duration_ok table
     end
  && match CPWord.track_name self (program tr) with
     | Some _ => true
     | None => false
     end
  && forallb (fun n => 0 <=? note_start n) (notes tr)
  && sorted_by_start (notes tr).

(** The variables of the decoder after a token: tick, start of the bar,
    bar, tempo changes, track and end of the last note; the others stay. *)
Definition moved (ds : CPWord.DecState (F := F)) (tick bar_tick bar : Z)
  (tempo_changes : list (Tempo F)) (inst : option Track) (note_end : Z)
  : CPWord.DecState :=
  {| CPWord.d_tracks := CPWord.d_tracks ds;
     CPWord.d_midi_tracks := CPWord.d_midi_tracks ds;
     CPWord.d_tempo_changes := tempo_changes;
     CPWord.d_time_signature_changes := CPWord.d_time_signature_changes ds;
     CPWord.d_current_tick := tick;
     CPWord.d_tick_at_last_ts_change := CPWord.d_tick_at_last_ts_change ds;
     CPWord.d_tick_at_current_bar := bar_tick;
     CPWord.d_current_bar := bar;
     CPWord.d_bar_at_last_ts_change := CPWord.d_bar_at_last_ts_change ds;
     CPWord.d_current_program := CPWord.d_current_program ds;
     CPWord.d_current_instrument := inst;
     CPWord.d_previous_note_end := note_end;
     CPWord.d_current_time_sig := CPWord.d_current_time_sig ds;
     CPWord.d_ticks_per_bar := CPWord.d_ticks_per_bar ds |}.

(** The builder and the decoder in step, between two notes: the same bar,
    which starts on the same tick, on a grid of the same bars from tick 0;
    before the first note the builder stands on tick -1 and the decoder on
    tick 0; after it both stand on the tick of the last note.  The track
    being read is [inst]. *)
Definition in_sync (st : CPWord.EncState (F := F))
  (ds : CPWord.DecState (F := F)) (inst : Track) : Prop :=
  CPWord.d_current_bar ds = CPWord.current_bar st
  /\ CPWord.d_ticks_per_bar ds = CPWord.ticks_per_bar st
  /\ 0 < CPWord.ticks_per_bar st
  /\ CPWord.tick_at_last_ts_change st = 0
  /\ CPWord.bar_at_last_ts_change st = 0
  /\ CPWord.d_tick_at_current_bar ds = CPWord.tick_at_current_bar st
  /\ CPWord.current_program st = VNone
  /\ (exists x, CPWord.current_tempo st = VFloat x
                /\ (CPWord.use_tempos self = true ->
                    no_underscore (string_of_float x) = true
                    /\ float_of_string (string_of_float x) <> None))
  /\ CPWord.d_tempo_changes ds <> []
  /\ CPWord.d_current_instrument ds = Some inst
  /\ CPWord.d_midi_tracks ds = []
  /\ ((CPWord.current_bar st = -1
       /\ CPWord.tick_at_current_bar st = 0
       /\ CPWord.d_current_tick ds = 0
       /\ CPWord.previous_tick st = -1)
      \/ (0 <= CPWord.previous_tick st
          /\ CPWord.current_bar st
             = CPWord.previous_tick st / CPWord.ticks_per_bar st
          /\ CPWord.tick_at_current_bar st
             = CPWord.current_bar st * CPWord.ticks_per_bar st
          /\ CPWord.d_current_tick ds = CPWord.previous_tick st)).

End CPWordRoundTripVocabulary.

(** ** The test helpers ([tests/utils.py]) *)

Module TestUtils.

(** *** [adjust_tok_params_for_tests] *)

(** A value of the keyword-argument dictionary [params]: a flag, a number, a
    string or a [beat_res] table, the kinds [TOKENIZER_CONFIG_KWARGS] and the
    test modules put there. *)
Inductive Param : Type :=
| PBool (b : bool)
| PInt (n : Z)
| PStr (s : string)
| PBeatRes (table : list (Z * Z * Z)).

(** The truth value Python gives to [v] in [a and b]. *)
Definition truthy (v : Param) : bool :=
  match v with
  | PBool b => b
  | PInt n => negb (n =? 0)
  | PStr s => negb (String.eqb s "")
  | PBeatRes table => negb (Nat.eqb (List.length table) 0)
  end.

(** [params.get(key, default)]. *)
Definition get (params : CPWord.dict Param) (key : string) (default : Param)
  : Param :=
  match CPWord.dict_get params key with
  | Some v => v
  | None => default
  end.

(** The dictionary is updated in place; the model returns it. *)
Definition adjust_tok_params_for_tests (tokenization : string)
  (params : CPWord.dict Param) : CPWord.dict Param :=
  if String.eqb tokenization "Structured" then
    CPWord.dict_set params "beat_res" (PBeatRes [(0, 512, 8)])
  else if String.eqb tokenization "Octuple" then
    CPWord.dict_set
      (CPWord.dict_set params "max_bar_embedding" (PInt 300))
      "use_time_signatures" (PBool false)
  else if String.eqb tokenization "CPWord"
          && truthy (get params "use_time_signatures" (PBool false))
          && truthy (get params "use_rests" (PBool false)) then
    CPWord.dict_set params "use_rests" (PBool false)
  else params.

(** *** [sort_midi] *)

(** [l.sort(key=...)]: a stable sort, here by insertion; [le a b] is
    [key(a) <= key(b)]. *)
Fixpoint insert_by {A : Type} (le : A -> A -> bool) (x : A) (l : list A)
  : list A :=
  match l with
  | [] => [x]
  | y :: more => if le x y then x :: l else y :: insert_by le x more
  end.

Definition sort_by {A : Type} (le : A -> A -> bool) (l : list A) : list A :=
  fold_right (insert_by le) [] l.

(** [(x.time, x.pitch, x.duration, x.velocity)], compared as tuples. *)
Definition note_key_le (a b : Note) : bool :=
  (note_time a <? note_time b)
  || ((note_time a =? note_time b)
      && ((note_pitch a <? note_pitch b)
          || ((note_pitch a =? note_pitch b)
              && ((note_duration a <? note_duration b)
                  || ((note_duration a =? note_duration b)
                      && (note_velocity a <=? note_velocity b)))))).

(** [(x.program, x.is_drum)], with [False < True]. *)
Definition track_key_le (a b : Track) : bool :=
  (program a <? program b)
  || ((program a =? program b) && (negb (is_drum a) || is_drum b)).

(** The loop over the tracks: a drum track gets program 0, the notes of
    every track are sorted. *)
Definition sort_track (track : Track) : Track :=
  mkTrack (if is_drum track then 0 else program track) (is_drum track)
          (name track) (sort_by note_key_le (notes track)).

Definition sort_midi {F : Type} (midi : Score F) (sort_tracks : bool)
  : Score F :=
  let sorted := map sort_track (tracks midi) in
  mkScore (ticks_per_quarter midi)
          (if sort_tracks then sort_by track_key_le sorted else sorted)
          (score_tempos midi) (time_signatures midi).

(** *** [notes_equals], [tracks_notes_equals], [midis_notes_equals] *)

Definition notes_equals (note1 note2 : Note) : string :=
  if negb (note_start note1 =? note_start note2) then "start"
  else if negb (note_end note1 =? note_end note2) then "end"
  else if negb (note_pitch note1 =? note_pitch note2) then "pitch"
  else if negb (note_velocity note1 =? note_velocity note2) then "velocity"
  else "".

(** [getattr(note, attr)] for the names [notes_equals] returns; [None] is
    [AttributeError]. *)
Definition getattr (note : Note) (attr : string) : option Z :=
  if String.eqb attr "start" then Some (note_start note)
  else if String.eqb attr "end" then Some (note_end note)
  else if String.eqb attr "pitch" then Some (note_pitch note)
  else if String.eqb attr "velocity" then Some (note_velocity note)
  else None.

(** An entry of the error list of [tracks_notes_equals]:
    [("len", len(track2.notes), len(track1.notes))] or
    [(err, note2, getattr(note1, err))]. *)
Inductive NoteError : Type :=
| LenError (len2 len1 : nat)
| AttrError (err : string) (note2 : Note) (expected : Z).

(** [for note1, note2 in zip(track1.notes, track2.notes)]. *)
Fixpoint compare_notes (pairs : list (Note * Note)) : option (list NoteError) :=
  match pairs with
  | [] => Some []
  | (note1, note2) :: more =>
      let err := notes_equals note1 note2 in
      here <- (if negb (String.eqb err "")
               then expected <- getattr note1 err ;;
                    Some [AttrError err note2 expected]
               else Some []) ;;
      rest <- compare_notes more ;;
      Some (here ++ rest)
  end.

Definition tracks_notes_equals (track1 track2 : Track)
  : option (list NoteError) :=
  if negb (Nat.eqb (List.length (notes track1)) (List.length (notes track2)))
  then Some [LenError (List.length (notes track2)) (List.length (notes track1))]
  else compare_notes (combine (notes track1) (notes track2)).

(** [for track1, track2 in zip(midi1.tracks, midi2.tracks)]. *)
Fixpoint compare_tracks (pairs : list (Track * Track))
  : option (list (Z * string * list NoteError)) :=
  match pairs with
  | [] => Some []
  | (track1, track2) :: more =>
      track_errors <- tracks_notes_equals track1 track2 ;;
      rest <- compare_tracks more ;;
      Some ((if Nat.ltb 0 (List.length track_errors)
             then [(program track1, name track1, track_errors)] else [])
            ++ rest)
  end.

Definition midis_notes_equals {F : Type} (midi1 midi2 : Score F)
  : option (list (Z * string * list NoteError)) :=
  compare_tracks (combine (tracks midi1) (tracks midi2)).

(** *** [del_invalid_time_sig] *)

(** [del l[i]]; [None] is [IndexError]. *)
Fixpoint del_at {A : Type} (l : list A) (i : nat) : option (list A) :=
  match l, i with
  | [], _ => None
  | _ :: more, O => Some more
  | x :: more, S i' => more' <- del_at more i' ;; Some (x :: more')
  end.

(** [(n, d) in time_sigs_tokenizer]. *)
Definition mem_pair (p : Z * Z) (l : list (Z * Z)) : bool :=
  existsb (fun q => (fst p =? fst q) && (snd p =? snd q)) l.

(** The [while] loop, one iteration per unit of [fuel]. *)
Fixpoint del_invalid_loop (fuel : nat) (time_sigs : list TimeSignature)
  (time_sigs_tokenizer : list (Z * Z)) (idx : nat)
  : option (list TimeSignature) :=
  if Nat.ltb idx (List.length time_sigs) then
    match fuel with
    | O => None                                   (* out of fuel *)
    | S fuel' =>
        ts <- nth_error time_sigs idx ;;
        if negb (mem_pair (numerator ts, denominator ts) time_sigs_tokenizer)
        then
          time_sigs' <- del_at time_sigs idx ;;
          del_invalid_loop fuel' time_sigs' time_sigs_tokenizer idx
        else del_invalid_loop fuel' time_sigs time_sigs_tokenizer (idx + 1)
    end
  else Some time_sigs.

(** The list is changed in place; the model returns it.  Every iteration
    deletes an element or moves [idx] forward, so the length of the list is
    fuel enough. *)
Definition del_invalid_time_sig (time_sigs : list TimeSignature)
  (time_sigs_tokenizer : list (Z * Z)) : option (list TimeSignature) :=
  del_invalid_loop (List.length time_sigs) time_sigs time_sigs_tokenizer 0.

(** *** [clip_durations] *)

(** The notes are changed in place; the model returns them. *)
Definition clip_durations (notes_pedals : list Note) (max_duration : Z)
  : list Note :=
  map (fun note_pedal =>
         if max_duration <? note_duration note_pedal
         then mkNote (note_time note_pedal) max_duration
                     (note_pitch note_pedal) (note_velocity note_pedal)
         else note_pedal)
      notes_pedals.

End TestUtils.

(** *** Where the sub-fields of a compound token sit *)

Section TokenLayout.

Context {F : Type} {fops : FloatOps F}.
Variable self : CPWord.Config (F := F).

(** The event at index [i] is an [Ignore] or of a type that
    [vocab_types_idx] sends to [i]. *)
Definition field_in_place (i : nat) (e : Event F) : bool :=
  String.eqb (type_ e) "Ignore"
  || match CPWord.vocab_types_idx self (type_ e) with
     | Some j => Nat.eqb j i
     | None => false
     end.

Fixpoint fields_in_place (i : nat) (tok : CPWord.CPToken) : bool :=
  match tok with
  | [] => true
  | e :: more => field_in_place i e && fields_in_place (S i) more
  end.

(** A compound token with one event per token type, each in its place. *)
Definition well_laid (tok : CPWord.CPToken) : Prop :=
  List.length tok = List.length (CPWord.token_types self)
  /\ forall (i : nat) (e : Event F),
       nth_error tok i = Some e ->
       type_ e = "Ignore" \/ CPWord.vocab_types_idx self (type_ e) = Some i.

End TokenLayout.

(** The index [idx] of [vocab_types_idx], counted from the end when it is
    negative, in a vocabulary of [size] sub-vocabularies. *)
Definition resolved (size idx : Z) : Z := if idx <? 0 then size + idx else idx.

(** Two tracks with the same program and drum flag, and the same notes up to
    their order. *)
Definition same_up_to_order (a b : Track) : Prop :=
  program a = program b /\ is_drum a = is_drum b
  /\ Permutation (notes a) (notes b).

(** *** Time steps and validator runs of MuMIDI *)

Section MuMIDIGrammarVocabulary.

Context {F : Type} {fops : FloatOps F}.
Variable self : MuMIDI.Tokenizer (F := F).

(** The head of a time step tells drums from the other tracks twice: by its
    type and by its key. *)
Definition step_kind (t : MuMIDI.NoteToken (F := F)) : Prop :=
  (MuMIDI.ne_type (fst t) = "DrumPitch" /\ MuMIDI.ne_desc (fst t) = -1)
  \/ (MuMIDI.ne_type (fst t) = "Pitch" /\ 0 <= MuMIDI.ne_desc (fst t)).

(** Tick, key and pitch of a time step. *)
Definition step_key (t : MuMIDI.NoteToken (F := F)) : Z * Z * pyval F :=
  (MuMIDI.ne_time (fst t), MuMIDI.ne_desc (fst t), MuMIDI.ne_value (fst t)).

(** No two notes of a track start together on the same pitch. *)
Fixpoint no_doubles (ns : list Note) : bool :=
  match ns with
  | [] => true
  | n :: more =>
      negb (existsb (fun m => (note_start m =? note_start n)
                              && (note_pitch m =? note_pitch n)) more)
      && no_doubles more
  end.

Definition no_double_notes (midi : Score F) : bool :=
  forallb (fun tr => no_doubles (notes tr)) (tracks midi).

(** The time steps cannot trip the test on repeated pitches: it is off, or
    no two of them agree in tick, key and pitch. *)
Definition fresh (steps : list (MuMIDI.NoteToken (F := F))) : Prop :=
  MuMIDI.remove_duplicated_notes self = false
  \/ NoDup (map step_key steps).

(** The encoder and the validator in step, after the time steps [earlier]:
    no error so far; bar and position agree; before the first step the
    validator is as if a Bar had come; after a step it has seen a note of
    the track at hand, and the pitches it holds sounded on this tick in
    this track. *)
Definition in_check (earlier : list (MuMIDI.NoteToken (F := F)))
  (st : MuMIDI.EncState (F := F)) (es : MuMIDI.ErrState) : Prop :=
  MuMIDI.err es = 0
  /\ MuMIDI.err_current_bar es = MuMIDI.current_bar st
  /\ MuMIDI.err_current_pos es = MuMIDI.current_pos st
  /\ ((MuMIDI.current_tick st = -1 /\ MuMIDI.current_bar st = -1
       /\ MuMIDI.current_pos st = -1 /\ MuMIDI.previous_type es = "Bar")
      \/ (0 <= MuMIDI.current_tick st
          /\ MuMIDI.current_bar st
             = MuMIDI.current_tick st / (MuMIDI.time_division self * 4)
          /\ MuMIDI.current_bar st * MuMIDI.time_division self * 4
             + MuMIDI.current_pos st
               * (MuMIDI.time_division self / MuMIDI.max_beat_res self)
             = MuMIDI.current_tick st
          /\ -1 <= MuMIDI.current_track st
          /\ MuMIDI.previous_type es
             = (if MuMIDI.current_track st =? -1 then "DrumPitch"
                else "Pitch")
          /\ forall p, In p (MuMIDI.current_pitches es) ->
               exists s, In s earlier
                         /\ step_key s
                            = (MuMIDI.current_tick st,
                               MuMIDI.current_track st, VInt p))).

End MuMIDIGrammarVocabulary.

(** A sub-token of the type [PAD] or [MASK], as [has_special] looks for
    them. *)
Definition special (tok : string) : bool :=
  match Py.split_on "_" tok with
  | t :: _ => Py.mem t ["PAD"; "MASK"]
  | [] => false
  end.

(** The previous types after which a Bar or a Position may come in the
    tokens of the MuMIDI encoder. *)
Definition ends_a_tick (previous : string) : Prop :=
  previous = "Bar" \/ previous = "Pitch" \/ previous = "DrumPitch".

(** *** The time steps that the MuMIDI encoder writes *)

Section MuMIDITimeSteps.

Context {F : Type} {fops : FloatOps F}.
Variable self : MuMIDI.Tokenizer (F := F).

(** A time step before the positional fields are inserted, as
    [_track_to_tokens] makes it: for a note a Pitch or a DrumPitch, then a
    velocity and a duration; for a chord, when chords are used, the chord
    alone. *)
Definition noted (t : MuMIDI.NoteToken (F := F)) : Prop :=
  ((MuMIDI.ne_type (fst t) = "Pitch" \/ MuMIDI.ne_type (fst t) = "DrumPitch")
   /\ exists vel dur,
        snd t = [ ("Velocity_" ++ vel)%string; ("Duration_" ++ dur)%string ])
  \/ (MuMIDI.ne_type (fst t) = "Chord" /\ snd t = []
      /\ MuMIDI.use_chords self = true).

(** A time step as [_midi_to_tokens] writes it, its bar between [lo] and
    [hi]: a head, the bar and the position, the tempo when tempos are used,
    and after a note head the velocity and the duration. *)
Definition time_step_of (lo hi : Z) (tok : list string) : Prop :=
  exists T v b p x last,
    tok = [ (T ++ "_" ++ v)%string; ("BarPosEnc_" ++ Py.str b)%string;
            ("PositionPosEnc_" ++ p)%string ]
          ++ MuMIDI.tempo_field self x ++ last
    /\ lo <= b <= hi
    /\ ((In T ["Bar"; "Position"; "Program"] /\ last = [])
        \/ (T = "Chord" /\ MuMIDI.use_chords self = true /\ last = [])
        \/ (In T ["Pitch"; "DrumPitch"]
            /\ exists vel dur,
                 last = [ ("Velocity_" ++ vel)%string;
                          ("Duration_" ++ dur)%string ])).

(** Every field of the time step [tok] stands at the index that
    [vocab_types_idx] gives for its type, a negative index counting from the
    end of a vocabulary of five sub-vocabularies, six with tempos. *)
Definition fields_follow_the_type_index (tok : list string) : Prop :=
  forall (i : nat) (field : string),
    nth_error tok i = Some field ->
    exists t idx,
      nth_error (Py.split_on "_" field) 0 = Some t
      /\ MuMIDI.type_idx (MuMIDI.vocab_types_idx self) t = Some idx
      /\ resolved (if MuMIDI.use_tempos self then 6 else 5) idx = Z.of_nat i.

End MuMIDITimeSteps.

(** A time step of a note: its head is of the type Pitch or DrumPitch. *)
Definition is_note_step (tok : list string) : bool :=
  match nth_error tok 0 with
  | Some head =>
      match nth_error (Py.split_on "_" head) 0 with
      | Some t => Py.mem t ["Pitch"; "DrumPitch"]
      | None => false
      end
  | None => false
  end.

(** CPWord: a compound token of the family Note. *)
Definition is_note_token {F : Type} (tok : list (Event F)) : bool :=
  match nth_error tok 0 with
  | Some e => match value e with
              | VStr family => String.eqb family "Note"
              | _ => false
              end
  | None => false
  end.

(** * Properties *)

Import Centi.

(** ** Tactics for code in the option monad *)

Lemma bind_Some {A B : Type} (m : option A) (k : A -> option B) (b : B) :
  bind m k = Some b <-> exists a, m = Some a /\ k a = Some b.
Proof.
  destruct m as [a|]; cbn [bind]; split.
  - intros Hk. exists a. split; [reflexivity | exact Hk].
  - intros [a' [Ha Hk]]. injection Ha as ->. exact Hk.
  - discriminate.
  - intros [a' [Ha _]]. discriminate.
Qed.

(** Split a hypothesis [... = Some _] along the binds, conditionals and
    matches of the code it comes from. *)
Ltac split_run H :=
  repeat
    match type of H with
    | bind ?m _ = Some _ =>
        let E := fresh "E" in
        destruct m eqn:E; cbn [bind] in H; [ | discriminate H ]
    | (if ?c then _ else _) = Some _ =>
        let E := fresh "E" in destruct c eqn:E; try discriminate H
    | match ?x with _ => _ end = Some _ =>
        let E := fresh "E" in destruct x eqn:E; try discriminate H
    end.

(** The same over every hypothesis of the goal, down to the leaves. *)
Ltac split_runs :=
  repeat
    match goal with
    | H : None = Some _ |- _ => discriminate H
    | H : Some ?a = Some ?b |- _ =>
        injection H as H; first [ subst b | subst a | idtac ]
    | H : bind ?m _ = Some _ |- _ =>
        let E := fresh "E" in
        destruct m eqn:E; cbn [bind] in H; [ | discriminate H ]
    | H : (if ?c then _ else _) = Some _ |- _ =>
        let E := fresh "E" in destruct c eqn:E; try discriminate H
    | H : match ?x with _ => _ end = Some _ |- _ =>
        let E := fresh "E" in destruct x eqn:E; try discriminate H
    end.

(** What [_midi_to_tokens] returns is what its loop has made: strips the
    call of [complete_sequence] from a hypothesis that the method returned. *)
Ltac returned H :=
  let made := fresh "made" in
  let Hdone := fresh "Hdone" in
  apply bind_Some in H; destruct H as [made [H Hdone]];
  let completed := fresh "completed" in
  apply bind_Some in Hdone; destruct Hdone as [completed [_ Hdone]];
  injection Hdone as ->; clear completed.

(** ** The CPWord validator counts at most one error per token *)

Section CPWordErrors.

Context {F : Type} {fops : FloatOps F}.
Variable self : CPWord.Config (F := F).
Variable graph : CPWord.dict (list string).

Lemma cpword_check_token_step st token st' :
  CPWord.check_token self graph st token = Some st' ->
  CPWord.err st <= CPWord.err st' <= CPWord.err st + 1.
Proof.
  unfold CPWord.check_token. intros Hrun.
  split_run Hrun; injection Hrun as <-; cbn [CPWord.err]; lia.
Qed.

Lemma cpword_check_tokens_bound tokens : forall st st',
  CPWord.check_tokens self graph st tokens = Some st' ->
  CPWord.err st <= CPWord.err st'
  <= CPWord.err st + Z.of_nat (List.length tokens).
Proof.
  induction tokens as [|token more IH]; intros st st' Hrun.
  - injection Hrun as <-. cbn [List.length]. lia.
  - cbn [CPWord.check_tokens] in Hrun.
    apply bind_Some in Hrun. destruct Hrun as [st1 [Hstep Hmore]].
    apply cpword_check_token_step in Hstep.
    apply IH in Hmore.
    cbn [List.length]. lia.
Qed.

(** Whenever [CPWord._tokens_errors] returns, the count lies between zero
    and the number of tokens after the first. *)
Lemma cpword_tokens_errors_bound tokens n :
  CPWord._tokens_errors self graph tokens = Some n ->
  0 <= n <= Z.of_nat (List.length tokens) - 1.
Proof.
  unfold CPWord._tokens_errors. intros Hrun.
  destruct tokens as [|first more]; [discriminate|].
  split_run Hrun. injection Hrun as <-.
  apply cpword_check_tokens_bound in E1.
  cbn [CPWord.err List.length] in *. lia.
Qed.

End CPWordErrors.

(** ** C3: the MuMIDI validator can count two errors for one token *)

(** C3 (failing input).  On a five-token sequence in which positions go back
    twice, [MuMIDI._tokens_errors] returns 6 whatever the configuration:
    more than one error per token, and more than the number of tokens.  A
    Position token that goes back is counted once by the test on its value
    and once more by the test on the positional sub-fields. *)
Theorem mumidi_errors_exceed_token_count {F : Type} {fops : FloatOps F}
  (self : MuMIDI.Tokenizer (F := F)) :
  MuMIDI._tokens_errors self (MuMIDI._create_token_types_graph self)
    Samples.regressing = Some 6
  /\ Z.of_nat (List.length Samples.regressing) = 5.
Proof.
  destruct self as [chords tempos dups progs td res dt durs tdt names mt dc mb v].
  split; [ | reflexivity ].
  destruct chords, dups; reflexivity.
Qed.

(** A single token can raise the count by two. *)
Lemma mumidi_two_errors_for_one_token {F : Type} {fops : FloatOps F}
  (self : MuMIDI.Tokenizer (F := F)) :
  MuMIDI._tokens_errors self (MuMIDI._create_token_types_graph self)
    (firstn 2 Samples.regressing) = Some 2.
Proof.
  destruct self as [chords tempos dups progs td res dt durs tdt names mt dc mb v].
  destruct chords, dups; reflexivity.
Qed.

(** ** C4: a Note token with an absent sub-field is skipped *)

Section SkippedNotes.

Context {F : Type} {fops : FloatOps F}.

Lemma any_none_found (toks : list string) :
  Forall has_value toks -> Exists carries_none toks ->
  CPWord.any_none toks = Some true.
Proof.
  induction toks as [|tok more IH]; intros Hwf Hex.
  - inversion Hex.
  - inversion Hwf as [|? ? Hval Hmore]; subst.
    cbn [CPWord.any_none]. unfold CPWord.tok_value.
    unfold has_value in Hval.
    destruct (nth_error (Py.split_on "_" tok) 1) as [v|] eqn:Ev;
      [ | contradiction ].
    cbn [bind].
    destruct (String.eqb v "None") eqn:Enone; [reflexivity|].
    inversion Hex as [? ? Hhere | ? ? Hlater]; subst.
    + unfold carries_none in Hhere. rewrite Ev in Hhere.
      injection Hhere as ->. discriminate Enone.
    + apply IH; assumption.
Qed.

(** CPWord: the token loop leaves the whole decoder state as it was. *)
Lemma cpword_absent_field_skipped (self : CPWord.Config (F := F))
  (si : nat) (td ticks_per_sample : Z) (st : CPWord.DecState)
  (tok : list string) :
  cp_family tok "Note" ->
  Forall has_value (cp_required_fields self tok) ->
  Exists carries_none (cp_required_fields self tok) ->
  CPWord.decode_token self si td ticks_per_sample st tok = Some st.
Proof.
  intros [f [Hf Hfam]] Hwf Hex.
  unfold CPWord.decode_token, CPWord.tok_value.
  rewrite Hf. cbn [bind]. rewrite Hfam. cbn [bind].
  change (String.eqb "Note" "Note") with true. cbv iota.
  unfold CPWord.decode_note.
  unfold cp_required_fields in Hwf, Hex.
  rewrite (any_none_found _ Hwf Hex). reflexivity.
Qed.

(** MuMIDI: a note step whose velocity or duration is absent is skipped,
    whatever its pitch value. *)
Lemma mumidi_absent_field_skipped (self : MuMIDI.Tokenizer (F := F))
  (td ticks_per_sample : Z) (st : MuMIDI.DecState) (tok : list string)
  (pitch_value fv fd : string) :
  mu_note_step tok pitch_value ->
  mu_velocity tok = Some fv -> mu_duration tok = Some fd ->
  has_value fv -> has_value fd ->
  carries_none fv \/ carries_none fd ->
  MuMIDI.decode_step self td ticks_per_sample st tok = Some st.
Proof.
  intros [head [tok_type [Hhead [Hsplit Htype]]]] Hv Hd Hwv Hwd Hnone.
  unfold mu_velocity in Hv. unfold mu_duration in Hd.
  unfold MuMIDI.decode_step, MuMIDI.decode_head, MuMIDI.tok_value.
  rewrite Hhead. cbn [bind]. rewrite Hsplit.
  rewrite Hv, Hd. cbn [bind].
  unfold has_value in Hwv, Hwd. unfold carries_none in Hnone.
  destruct (nth_error (Py.split_on "_" fv) 1) as [vel|] eqn:Evel;
    [ | contradiction ].
  destruct (nth_error (Py.split_on "_" fd) 1) as [dur|] eqn:Edur;
    [ | contradiction ].
  cbn [bind].
  assert (Hskip : String.eqb vel "None" || String.eqb dur "None" = true).
  { destruct Hnone as [Hn | Hn]; injection Hn as ->.
    - reflexivity.
    - apply orb_true_r. }
  destruct Htype as [-> | ->]; cbn; rewrite Hskip; reflexivity.
Qed.

End SkippedNotes.

(** C4 (amended).  CPWord skips a Note token as soon as one of pitch,
    velocity, duration (and program, when programs are used) carries the
    placeholder: the state comes back unchanged, so no note is added and
    nothing is raised.  MuMIDI does the same for a Pitch or DrumPitch step
    whose velocity or duration carries it; the pitch value itself is not
    looked at before. *)
Theorem absent_field_skips_the_note :
  (forall (F : Type) (fops : FloatOps F) (self : CPWord.Config (F := F))
          (si : nat) (td ticks_per_sample : Z) (st : CPWord.DecState)
          (tok : list string),
      cp_family tok "Note" ->
      Forall has_value (cp_required_fields self tok) ->
      Exists carries_none (cp_required_fields self tok) ->
      CPWord.decode_token self si td ticks_per_sample st tok = Some st)
  /\ (forall (F : Type) (fops : FloatOps F) (self : MuMIDI.Tokenizer (F := F))
             (td ticks_per_sample : Z) (st : MuMIDI.DecState)
             (tok : list string) (pitch_value fv fd : string),
         mu_note_step tok pitch_value ->
         mu_velocity tok = Some fv -> mu_duration tok = Some fd ->
         has_value fv -> has_value fd ->
         carries_none fv \/ carries_none fd ->
         MuMIDI.decode_step self td ticks_per_sample st tok = Some st).
Proof.
  split.
  - intros. apply cpword_absent_field_skipped; assumption.
  - intros. eapply mumidi_absent_field_skipped; eassumption.
Qed.

(** C4 (witness): a CPWord Note token without velocity and a MuMIDI note
    step without velocity, both skipped. *)
Lemma absent_field_skips_the_note_witness :
  CPWord.decode_token (Samples.cpword false false false false false true)
    0 8 1 CPWord.initial_dec_state
    ["Family_Note"; "Ignore_None"; "Pitch_60"; "Ignore_None"; "Duration_1.0.8"]
  = Some CPWord.initial_dec_state
  /\ MuMIDI.decode_step (Samples.mumidi false) 8 1
       (MuMIDI.mkDec [("0", [])] [mkTempo 0 12000] 0 0 (Some "0"))
       ["Pitch_60"; "BarPosEnc_0"; "PositionPosEnc_0"; "Velocity_None";
        "Duration_1.0.8"]
     = Some (MuMIDI.mkDec [("0", [])] [mkTempo 0 12000] 0 0 (Some "0")).
Proof.
  split.
  - apply (proj1 absent_field_skips_the_note).
    + exists "Family_Note". split; reflexivity.
    + repeat constructor; discriminate.
    + apply Exists_cons_tl, Exists_cons_hd. reflexivity.
  - apply (proj2 absent_field_skips_the_note) with
      (pitch_value := "60") (fv := "Velocity_None") (fd := "Duration_1.0.8").
    + exists "Pitch_60", "Pitch". repeat split; auto.
    + reflexivity.
    + reflexivity.
    + discriminate.
    + discriminate.
    + left. reflexivity.
Defined.

(** C4 (counterexample).  A MuMIDI note step whose pitch carries the
    placeholder while velocity and duration are given is not skipped:
    [int("None")] raises. *)
Lemma mumidi_absent_pitch_raises :
  mu_note_step
    ["Pitch_None"; "BarPosEnc_0"; "PositionPosEnc_0"; "Velocity_80";
     "Duration_1.0.8"] "None"
  /\ MuMIDI.decode_step (Samples.mumidi false) 8 1
       (MuMIDI.mkDec [("0", [])] [mkTempo 0 12000] 0 0 (Some "0"))
       ["Pitch_None"; "BarPosEnc_0"; "PositionPosEnc_0"; "Velocity_80";
        "Duration_1.0.8"]
     = None.
Proof.
  split.
  - exists "Pitch_None", "Pitch". repeat split; auto.
  - reflexivity.
Qed.

(** ** C5: the vocabulary only grows at its end *)

Section AppendOnly.

Context {F : Type} {fops : FloatOps F}.

Lemma add_to_vocab_extends (vocab : list (list string)) (token : string) :
  forall (idx k : nat),
    exists extra,
      sub_vocab (MuMIDI.add_to_vocab vocab token idx) k
      = sub_vocab vocab k ++ extra.
Proof.
  unfold sub_vocab.
  induction vocab as [|sub more IH]; intros idx k.
  - exists []. destruct idx, k; reflexivity.
  - destruct idx as [|idx]; cbn [MuMIDI.add_to_vocab].
    + destruct k as [|k]; cbn [nth].
      * destruct (Py.mem token sub).
        -- exists []. symmetry. apply app_nil_r.
        -- exists [token]. reflexivity.
      * exists []. symmetry. apply app_nil_r.
    + destruct k as [|k]; cbn [nth].
      * exists []. symmetry. apply app_nil_r.
      * apply IH.
Qed.

Lemma add_to_vocab_elsewhere (vocab : list (list string)) (token : string) :
  forall (idx k : nat), k <> idx ->
    sub_vocab (MuMIDI.add_to_vocab vocab token idx) k = sub_vocab vocab k.
Proof.
  unfold sub_vocab.
  induction vocab as [|sub more IH]; intros idx k Hk.
  - destruct idx, k; reflexivity.
  - destruct idx as [|idx], k as [|k]; cbn [MuMIDI.add_to_vocab nth];
      try reflexivity.
    + contradiction.
    + apply IH. congruence.
Qed.

Lemma grow_bar_pos_enc_extends (count : nat) :
  forall (i : Z) (vocab : list (list string)) (k : nat),
    exists extra,
      sub_vocab (MuMIDI.grow_bar_pos_enc count i vocab) k
      = sub_vocab vocab k ++ extra.
Proof.
  induction count as [|count IH]; intros i vocab k.
  - exists []. symmetry. apply app_nil_r.
  - cbn [MuMIDI.grow_bar_pos_enc].
    destruct (IH (i + 1)
                 (MuMIDI.add_to_vocab vocab ("BarPosEnc_" ++ Py.str i) 1) k)
      as [later Hlater].
    destruct (add_to_vocab_extends vocab ("BarPosEnc_" ++ Py.str i) 1 k)
      as [first Hfirst].
    exists (first ++ later).
    rewrite Hlater, Hfirst. symmetry. apply app_assoc.
Qed.

Lemma grow_bar_pos_enc_elsewhere (count : nat) :
  forall (i : Z) (vocab : list (list string)) (k : nat), k <> 1%nat ->
    sub_vocab (MuMIDI.grow_bar_pos_enc count i vocab) k = sub_vocab vocab k.
Proof.
  induction count as [|count IH]; intros i vocab k Hk.
  - reflexivity.
  - cbn [MuMIDI.grow_bar_pos_enc].
    rewrite IH by exact Hk. apply add_to_vocab_elsewhere. exact Hk.
Qed.

Lemma midi_to_tokens_extends (self : MuMIDI.Tokenizer (F := F))
  (midi : Score F) (k : nat) :
  exists extra,
    sub_vocab (MuMIDI.vocab (fst (MuMIDI._midi_to_tokens self midi))) k
    = sub_vocab (MuMIDI.vocab self) k ++ extra.
Proof.
  unfold MuMIDI._midi_to_tokens.
  destruct (ticks_per_quarter midi * 4 =? 0); cbn [fst].
  - exists []. symmetry. apply app_nil_r.
  - destruct (MuMIDI.max_bar_embedding self <? _); cbn [MuMIDI.vocab MuMIDI.set_vocab].
    + apply grow_bar_pos_enc_extends.
    + exists []. symmetry. apply app_nil_r.
Qed.

Lemma midi_to_tokens_elsewhere (self : MuMIDI.Tokenizer (F := F))
  (midi : Score F) (k : nat) :
  k <> 1%nat ->
  sub_vocab (MuMIDI.vocab (fst (MuMIDI._midi_to_tokens self midi))) k
  = sub_vocab (MuMIDI.vocab self) k.
Proof.
  intros Hk. unfold MuMIDI._midi_to_tokens.
  destruct (ticks_per_quarter midi * 4 =? 0); cbn [fst]; [reflexivity|].
  destruct (MuMIDI.max_bar_embedding self <? _);
    cbn [MuMIDI.vocab MuMIDI.set_vocab]; [ | reflexivity ].
  apply grow_bar_pos_enc_elsewhere. exact Hk.
Qed.

Lemma run_call_extends (self : MuMIDI.Tokenizer (F := F)) (c : Call F)
  (k : nat) :
  exists extra,
    sub_vocab (MuMIDI.vocab (run_call self c)) k
    = sub_vocab (MuMIDI.vocab self) k ++ extra.
Proof.
  destruct c as [midi | tokens td]; cbn [run_call].
  - apply midi_to_tokens_extends.
  - exists []. symmetry. apply app_nil_r.
Qed.

Lemma run_calls_extends (calls : list (Call F)) :
  forall (self : MuMIDI.Tokenizer (F := F)) (k : nat),
    exists extra,
      sub_vocab (MuMIDI.vocab (run_calls self calls)) k
      = sub_vocab (MuMIDI.vocab self) k ++ extra.
Proof.
  unfold run_calls.
  induction calls as [|c more IH]; intros self k; cbn [fold_left].
  - exists []. symmetry. apply app_nil_r.
  - destruct (IH (run_call self c) k) as [later Hlater].
    destruct (run_call_extends self c k) as [first Hfirst].
    exists (first ++ later). rewrite Hlater, Hfirst.
    symmetry. apply app_assoc.
Qed.

Lemma run_calls_elsewhere (calls : list (Call F)) :
  forall (self : MuMIDI.Tokenizer (F := F)) (k : nat), k <> 1%nat ->
    sub_vocab (MuMIDI.vocab (run_calls self calls)) k
    = sub_vocab (MuMIDI.vocab self) k.
Proof.
  unfold run_calls.
  induction calls as [|c more IH]; intros self k Hk; cbn [fold_left].
  - reflexivity.
  - rewrite IH by exact Hk.
    destruct c as [midi | tokens td]; cbn [run_call].
    + apply midi_to_tokens_elsewhere. exact Hk.
    + reflexivity.
Qed.

End AppendOnly.

(** C5.  Over any succession of encoding and decoding calls on a MuMIDI
    tokenizer, every sub-vocabulary is extended at its end only, so an index
    that holds a string keeps holding that string; the bar-position
    sub-vocabulary (index 1) is the only one that grows; a decoding call
    gives the tokenizer back as it received it. *)
Theorem vocabulary_is_append_only {F : Type} {fops : FloatOps F}
  (self : MuMIDI.Tokenizer (F := F)) (calls : list (Call F)) :
  (forall k, exists extra,
      sub_vocab (MuMIDI.vocab (run_calls self calls)) k
      = sub_vocab (MuMIDI.vocab self) k ++ extra)
  /\ (forall k i s,
         vocab_entry (MuMIDI.vocab self) k i = Some s ->
         vocab_entry (MuMIDI.vocab (run_calls self calls)) k i = Some s)
  /\ (forall k, k <> 1%nat ->
         sub_vocab (MuMIDI.vocab (run_calls self calls)) k
         = sub_vocab (MuMIDI.vocab self) k)
  /\ (forall tokens td, run_call self (Decode tokens td) = self).
Proof.
  repeat split.
  - intros k. apply run_calls_extends.
  - intros k i s Hentry. unfold vocab_entry in *.
    destruct (run_calls_extends calls self k) as [extra ->].
    rewrite nth_error_app1; [exact Hentry|].
    apply nth_error_Some. congruence.
  - intros k Hk. apply run_calls_elsewhere. exact Hk.
Qed.

(** An encoding that does grow the vocabulary: a piece of four bars met by a
    tokenizer that knows two. *)
Example vocabulary_growth_run :
  sub_vocab
    (MuMIDI.vocab
       (run_calls (Samples.mumidi false)
          [ Encode (mkScore 8 [mkTrack 0 false "Piano" [mkNote 100 8 60 80]]
                            [mkTempo 0 12000] []);
            Decode [["Bar_None"; "BarPosEnc_9"; "PositionPosEnc_None"]] None ]))
    1
  = ["BarPosEnc_0"; "BarPosEnc_1"; "BarPosEnc_2"; "BarPosEnc_3"].
Proof. reflexivity. Qed.

(** ** C6 and C7: tempo and time-signature changes in the CPWord decoder *)

Section DecodedChanges.

Context {F : Type} {fops : FloatOps F}.
Variable self : CPWord.Config (F := F).

Lemma index_last {A : Type} (l : list A) (x : A) :
  Py.index (l ++ [x]) (-1) = Some x.
Proof.
  unfold Py.index. rewrite length_app. cbn [List.length].
  replace (0 <=? -1) with false by reflexivity. cbn [andb].
  replace (- Z.of_nat (List.length l + 1) <=? -1) with true
    by (symmetry; apply Z.leb_le; lia).
  cbn [andb]. replace (-1 <? 0) with true by reflexivity.
  replace (Z.to_nat (Z.of_nat (List.length l + 1) + -1)) with (List.length l)
    by lia.
  rewrite nth_error_app2 by lia.
  rewrite Nat.sub_diag. reflexivity.
Qed.

Lemma cpword_position_tempo (si : nat) (td ticks_per_sample : Z)
  (st : CPWord.DecState) (tok : list string) (pos : Z) (tempo : F)
  (earlier : list (Tempo F)) (last_tempo : Tempo F) :
  CPWord.use_tempos self = true ->
  cp_position self tok pos tempo ->
  CPWord.d_tempo_changes st = earlier ++ [last_tempo] ->
  exists st',
    CPWord.decode_token self si td ticks_per_sample st tok = Some st'
    /\ CPWord.d_current_tick st' = position_tick ticks_per_sample st pos
    /\ CPWord.d_tempo_changes st'
       = if Nat.eqb si 0
            && negb (float_eqb tempo (float_round2 (tempo_value last_tempo)))
            && negb (position_tick ticks_per_sample st pos
                     =? tempo_time last_tempo)
         then CPWord.d_tempo_changes st
              ++ [mkTempo (position_tick ticks_per_sample st pos) tempo]
         else CPWord.d_tempo_changes st.
Proof.
  intros Htempos [[f0 [Hf0 Hfam]] [[f1 [v1 [Hf1 [Hsplit Hpos]]]]
                                   [ft [vt [Hft [Hvt Hparse]]]]]] Hlast.
  unfold CPWord.decode_token, CPWord.tok_value.
  rewrite Hf0. cbn [bind]. rewrite Hfam. cbn [bind].
  change (String.eqb "Metric" "Note") with false.
  change (String.eqb "Metric" "Metric") with true. cbv iota.
  unfold CPWord.decode_metric, CPWord.tok_type.
  rewrite Hf1. cbn [bind]. rewrite Hsplit. cbn [nth_error bind].
  change (String.eqb "Position" "Bar") with false.
  change (String.eqb "Position" "Position") with true. cbv iota.
  unfold CPWord.decode_position, CPWord.tok_value.
  rewrite Hf1. cbn [bind]. rewrite Hsplit. cbn [nth_error bind].
  rewrite Hpos. cbn [bind]. rewrite Htempos. cbn [andb].
  unfold position_tick.
  destruct (Nat.eqb si 0); cbn [andb].
  - unfold CPWord.decode_tempo, CPWord.tok_value.
    rewrite Hft. cbn [bind]. rewrite Hvt. cbn [bind]. rewrite Hparse.
    cbn [bind]. rewrite Hlast, index_last. cbn [bind].
    destruct (negb (float_eqb tempo (float_round2 (tempo_value last_tempo)))
              && negb (CPWord.d_tick_at_current_bar st + pos * ticks_per_sample
                       =? tempo_time last_tempo));
      cbn [bind]; eexists; repeat split; cbn; rewrite ?Hlast; reflexivity.
  - cbn [bind]. eexists. repeat split.
Qed.

(** In a sequence after the first, no token touches the two lists. *)
Lemma cpword_later_token (si : nat) (td ticks_per_sample : Z)
  (st st' : CPWord.DecState) (tok : list string) :
  (0 < si)%nat ->
  CPWord.decode_token self si td ticks_per_sample st tok = Some st' ->
  CPWord.d_tempo_changes st' = CPWord.d_tempo_changes st
  /\ CPWord.d_time_signature_changes st'
     = CPWord.d_time_signature_changes st.
Proof.
  intros Hsi Hrun. destruct si as [|si]; [lia|].
  unfold CPWord.decode_token, CPWord.decode_note, CPWord.decode_metric,
    CPWord.decode_bar, CPWord.decode_position, CPWord.decode_rest in Hrun.
  cbn [Nat.eqb] in Hrun. rewrite andb_false_r in Hrun.
  split_runs; split; reflexivity.
Qed.

Lemma cpword_later_tokens (si : nat) (td ticks_per_sample : Z)
  (seq : list (list string)) : forall (st st' : CPWord.DecState),
  (0 < si)%nat ->
  CPWord.decode_tokens self si td ticks_per_sample st seq = Some st' ->
  CPWord.d_tempo_changes st' = CPWord.d_tempo_changes st
  /\ CPWord.d_time_signature_changes st'
     = CPWord.d_time_signature_changes st.
Proof.
  induction seq as [|tok more IH]; intros st st' Hsi Hrun.
  - injection Hrun as <-. split; reflexivity.
  - cbn [CPWord.decode_tokens] in Hrun.
    apply bind_Some in Hrun. destruct Hrun as [st1 [Hstep Hmore]].
    apply (cpword_later_token _ _ _ _ _ _ Hsi) in Hstep.
    apply (IH _ _ Hsi) in Hmore.
    destruct Hstep as [Hs1 Hs2], Hmore as [Hm1 Hm2]. split; congruence.
Qed.

Lemma cpword_later_sequence (si : nat) (td ticks_per_sample : Z)
  (programs : option (list (Z * bool))) (st st' : CPWord.DecState)
  (seq : list (list string)) :
  (0 < si)%nat ->
  CPWord.decode_sequence self si td ticks_per_sample programs st seq = Some st' ->
  CPWord.d_tempo_changes st' = CPWord.d_tempo_changes st
  /\ CPWord.d_time_signature_changes st'
     = CPWord.d_time_signature_changes st.
Proof.
  intros Hsi Hrun. unfold CPWord.decode_sequence in Hrun.
  apply bind_Some in Hrun. destruct Hrun as [st1 [Hbegin Hrun]].
  apply bind_Some in Hrun. destruct Hrun as [st2 [Htokens Hend]].
  apply (cpword_later_tokens _ _ _ _ _ _ Hsi) in Htokens.
  destruct Htokens as [Ht2 Hs2].
  assert (Hb : CPWord.d_tempo_changes st1 = CPWord.d_tempo_changes st
               /\ CPWord.d_time_signature_changes st1
                  = CPWord.d_time_signature_changes st).
  { destruct si as [|si]; [lia|].
    unfold CPWord.begin_sequence in Hbegin. cbn [Nat.eqb bind] in Hbegin.
    split_run Hbegin; injection Hbegin as <-; split; reflexivity. }
  assert (He : CPWord.d_tempo_changes st' = CPWord.d_tempo_changes st2
               /\ CPWord.d_time_signature_changes st'
                  = CPWord.d_time_signature_changes st2).
  { unfold CPWord.end_sequence in Hend.
    split_run Hend; injection Hend as <-; split; reflexivity. }
  destruct Hb as [Hb1 Hb2], He as [He1 He2].
  split; congruence.
Qed.

Lemma cpword_later_sequences (td ticks_per_sample : Z)
  (programs : option (list (Z * bool))) (tokens : list (list (list string))) :
  forall (si : nat) (st st' : CPWord.DecState),
  (0 < si)%nat ->
  CPWord.decode_sequences self si td ticks_per_sample programs st tokens
  = Some st' ->
  CPWord.d_tempo_changes st' = CPWord.d_tempo_changes st
  /\ CPWord.d_time_signature_changes st'
     = CPWord.d_time_signature_changes st.
Proof.
  induction tokens as [|seq more IH]; intros si st st' Hsi Hrun.
  - injection Hrun as <-. split; reflexivity.
  - cbn [CPWord.decode_sequences] in Hrun.
    apply bind_Some in Hrun. destruct Hrun as [st1 [Hseq Hmore]].
    apply (cpword_later_sequence _ _ _ _ _ _ _ Hsi) in Hseq.
    apply IH in Hmore; [ | lia ].
    destruct Hseq as [Hs1 Hs2], Hmore as [Hm1 Hm2]. split; congruence.
Qed.

End DecodedChanges.

(** C6.  With one sequence per track, a sequence of index greater than 0
    leaves the tempo list and the time-signature list as it found them, and
    the two lists of the decoded piece are those obtained by decoding the
    first sequence alone. *)
Theorem only_the_first_sequence_sets_tempo_and_time_signature
  {F : Type} {fops : FloatOps F} (self : CPWord.Config (F := F)) :
  (forall (si : nat) (td ticks_per_sample : Z)
          (programs : option (list (Z * bool))) (st st' : CPWord.DecState)
          (seq : list (list string)),
      (0 < si)%nat ->
      CPWord.decode_sequence self si td ticks_per_sample programs st seq
      = Some st' ->
      CPWord.d_tempo_changes st' = CPWord.d_tempo_changes st
      /\ CPWord.d_time_signature_changes st'
         = CPWord.d_time_signature_changes st)
  /\ (forall (first : list (list string)) (others : list (list (list string)))
             (programs : option (list (Z * bool))) (td : option Z)
             (midi : Score F),
         CPWord._tokens_to_midi self (CPWord.Sequences (first :: others))
           programs td = Some midi ->
         exists alone,
           CPWord._tokens_to_midi self (CPWord.Sequences [first]) programs td
           = Some alone
           /\ score_tempos midi = score_tempos alone
           /\ time_signatures midi = time_signatures alone).
Proof.
  split.
  - intros si td tps programs st st' seq. apply cpword_later_sequence.
  - intros first others programs td midi Hrun.
    unfold CPWord._tokens_to_midi in *.
    cbn [CPWord.unsqueeze] in *.
    destruct (CPWord.one_token_stream self); [discriminate|].
    cbn [bind] in *.
    destruct (_ || _); [discriminate|].
    apply bind_Some in Hrun. destruct Hrun as [st2 [Hall Hm]].
    injection Hm as <-.
    cbn [CPWord.decode_sequences] in Hall |- *.
    apply bind_Some in Hall. destruct Hall as [st1 [Hfirst Hothers]].
    rewrite Hfirst. cbn [bind].
    eexists. split; [reflexivity|].
    apply cpword_later_sequences in Hothers; [ | lia ].
    destruct Hothers as [Ht Hs]. cbn. rewrite Ht, Hs. split; reflexivity.
Qed.

(** C6 (witness): two sequences; the second carries a faster tempo and a 3/4
    signature, neither of which reaches the decoded piece. *)
Lemma only_the_first_sequence_witness :
  exists alone,
    CPWord._tokens_to_midi (Samples.cpword false false false true true false)
      (CPWord.Sequences
         [ [ ["Family_Metric"; "Bar_None"; "Ignore_None"; "Ignore_None";
              "Ignore_None"; "Ignore_None"; "TimeSig_4/4"];
             ["Family_Metric"; "Position_0"; "Ignore_None"; "Ignore_None";
              "Ignore_None"; "Tempo_120.0"; "Ignore_None"] ] ])
      None None = Some alone
    /\ score_tempos alone = [mkTempo 0 12000]
    /\ time_signatures alone = [mkTimeSignature 0 4 4].
Proof.
  edestruct (proj2 (only_the_first_sequence_sets_tempo_and_time_signature
                      (Samples.cpword false false false true true false))
              [ ["Family_Metric"; "Bar_None"; "Ignore_None"; "Ignore_None";
                 "Ignore_None"; "Ignore_None"; "TimeSig_4/4"];
                ["Family_Metric"; "Position_0"; "Ignore_None"; "Ignore_None";
                 "Ignore_None"; "Tempo_120.0"; "Ignore_None"] ]
              [ [ ["Family_Metric"; "Bar_None"; "Ignore_None"; "Ignore_None";
                   "Ignore_None"; "Ignore_None"; "TimeSig_3/4"];
                  ["Family_Metric"; "Position_4"; "Ignore_None"; "Ignore_None";
                   "Ignore_None"; "Tempo_180.0"; "Ignore_None"] ] ]
              None None)
    as [alone [Halone [Htempos Hsigs]]].
  - vm_compute. reflexivity.
  - exists alone. split; [exact Halone|].
    split; [rewrite <- Htempos | rewrite <- Hsigs]; reflexivity.
Defined.

(** C7.  A Position token that carries a tempo: the decoder moves to the
    position's tick, and appends a tempo change at that tick exactly when
    the sequence is the first one, the tempo differs from the last recorded
    one (rounded to two decimals) and the tick differs from that of the last
    recorded one; in every other case the tempo list stays as it was. *)
Theorem position_tempo_is_deduplicated
  {F : Type} {fops : FloatOps F} (self : CPWord.Config (F := F))
  (si : nat) (td ticks_per_sample : Z) (st : CPWord.DecState)
  (tok : list string) (pos : Z) (tempo : F)
  (earlier : list (Tempo F)) (last_tempo : Tempo F) :
  CPWord.use_tempos self = true ->
  cp_position self tok pos tempo ->
  CPWord.d_tempo_changes st = earlier ++ [last_tempo] ->
  exists st',
    CPWord.decode_token self si td ticks_per_sample st tok = Some st'
    /\ CPWord.d_current_tick st' = position_tick ticks_per_sample st pos
    /\ (si = 0%nat
        /\ float_eqb tempo (float_round2 (tempo_value last_tempo)) = false
        /\ position_tick ticks_per_sample st pos <> tempo_time last_tempo ->
        CPWord.d_tempo_changes st'
        = CPWord.d_tempo_changes st
          ++ [mkTempo (position_tick ticks_per_sample st pos) tempo])
    /\ (~ (si = 0%nat
           /\ float_eqb tempo (float_round2 (tempo_value last_tempo)) = false
           /\ position_tick ticks_per_sample st pos <> tempo_time last_tempo) ->
        CPWord.d_tempo_changes st' = CPWord.d_tempo_changes st).
Proof.
  intros Htempos Hpos Hlast.
  destruct (cpword_position_tempo self si td ticks_per_sample st tok pos tempo
              earlier last_tempo Htempos Hpos Hlast)
    as [st' [Hrun [Htick Hlist]]].
  exists st'. split; [exact Hrun|]. split; [exact Htick|].
  rewrite Hlist. split.
  - intros [-> [-> Hne]]. apply Z.eqb_neq in Hne. rewrite Hne. reflexivity.
  - intros Hnot.
    destruct (Nat.eqb si 0) eqn:Esi; [ | reflexivity ].
    destruct (float_eqb tempo (float_round2 (tempo_value last_tempo))) eqn:Eeq;
      [reflexivity|].
    destruct (position_tick ticks_per_sample st pos =? tempo_time last_tempo)
      eqn:Etick; [reflexivity|].
    exfalso. apply Hnot. apply Nat.eqb_eq in Esi. apply Z.eqb_neq in Etick.
    repeat split; assumption.
Qed.

(** C7 (witness): after a tempo of 120 at tick 0, a Position token at tick 4
    with tempo 90.5 is recorded. *)
Lemma position_tempo_is_deduplicated_witness :
  exists st',
    CPWord.decode_token (Samples.cpword false false false true false true)
      0 8 1
      (CPWord.set_d_previous_note_end
         (CPWord.mkDec [] [] [mkTempo (-1) (-100); mkTempo 0 12000] [] 0 0 0 0
            0 0 None 0 (mkTimeSignature 0 4 4) 32) 0)
      ["Family_Metric"; "Position_4"; "Ignore_None"; "Ignore_None";
       "Ignore_None"; "Tempo_90.5"]
    = Some st'
    /\ CPWord.d_tempo_changes st'
       = [mkTempo (-1) (-100); mkTempo 0 12000; mkTempo 4 9050].
Proof.
  destruct (position_tempo_is_deduplicated
              (Samples.cpword false false false true false true) 0 8 1
              (CPWord.set_d_previous_note_end
                 (CPWord.mkDec [] [] [mkTempo (-1) (-100); mkTempo 0 12000] []
                    0 0 0 0 0 0 None 0 (mkTimeSignature 0 4 4) 32) 0)
              ["Family_Metric"; "Position_4"; "Ignore_None"; "Ignore_None";
               "Ignore_None"; "Tempo_90.5"]
              4 9050 [mkTempo (-1) (-100)] (mkTempo 0 12000))
    as [st' [Hrun [_ [Hadd _]]]].
  - reflexivity.
  - split; [ | split ].
    + exists "Family_Metric". split; reflexivity.
    + exists "Position_4", "4". repeat split; reflexivity.
    + exists "Tempo_90.5", "90.5". repeat split; reflexivity.
  - reflexivity.
  - exists st'. split; [exact Hrun|].
    rewrite Hadd; [reflexivity|].
    split; [reflexivity | split; [reflexivity | discriminate]].
Defined.

(** ** The compound tokens of the CPWord builder *)

Section BuilderTokens.

Context {F : Type} {fops : FloatOps F}.
Variable self : CPWord.Config (F := F).

(** The optional sub-fields sit after the five fixed ones. *)
Lemma optional_field_index (field : string) (i : nat) :
  In field ["Program"; "Chord"; "Rest"; "Tempo"; "TimeSig"] ->
  CPWord.vocab_types_idx self field = Some i -> (5 <= i)%nat.
Proof.
  unfold CPWord.vocab_types_idx, CPWord.token_types.
  intros Hin Hidx.
  destruct (CPWord.use_programs self), (CPWord.use_chords self),
    (CPWord.use_rests self), (CPWord.use_tempos self),
    (CPWord.use_time_signatures self);
    cbn in Hin;
    repeat (destruct Hin as [<- | Hin]; [ cbn in Hidx; try discriminate;
                                          injection Hidx as <-; lia | ]);
    contradiction.
Qed.

Lemma set_nth_other {A : Type} (l : list A) (i j : nat) (x : A) :
  i <> j -> nth_error (Py.set_nth l i x) j = nth_error l j.
Proof.
  revert i j. induction l as [|h t IH]; intros i j Hij.
  - destruct i; reflexivity.
  - destruct i as [|i], j as [|j]; cbn [Py.set_nth nth_error];
      try reflexivity.
    + contradiction.
    + apply IH. congruence.
Qed.

Lemma set_nth_same {A : Type} (l : list A) (i : nat) (x : A) :
  (i < List.length l)%nat -> nth_error (Py.set_nth l i x) i = Some x.
Proof.
  revert i. induction l as [|h t IH]; intros i Hi; cbn [List.length] in Hi.
  - lia.
  - destruct i as [|i]; cbn [Py.set_nth nth_error]; [reflexivity|].
    apply IH. lia.
Qed.

Lemma set_nth_length {A : Type} (l : list A) (i : nat) (x : A) :
  List.length (Py.set_nth l i x) = List.length l.
Proof.
  revert i. induction l as [|h t IH]; intros i.
  - destruct i; reflexivity.
  - destruct i; cbn [Py.set_nth List.length]; [reflexivity|].
    rewrite IH. reflexivity.
Qed.

(** Setting an optional sub-field keeps the first five fields. *)
Lemma set_field_keeps (tok tok' : CPWord.CPToken) (field : string)
  (e : Event F) (j : nat) :
  In field ["Program"; "Chord"; "Rest"; "Tempo"; "TimeSig"] ->
  CPWord.set_field self tok field e = Some tok' ->
  (j < 5)%nat -> nth_error tok' j = nth_error tok j.
Proof.
  unfold CPWord.set_field. intros Hin Hset Hj.
  apply bind_Some in Hset. destruct Hset as [i [Hi Htok]].
  injection Htok as <-.
  apply set_nth_other. apply optional_field_index in Hi; [lia | exact Hin].
Qed.

End BuilderTokens.

Section TokenKinds.

Context {F : Type} {fops : FloatOps F}.

(** Case analysis on the five optional sub-fields of a configuration. *)
Ltac by_flags self :=
  destruct self as [up uc ur ut uts rdn lt ots tdv mbr mr dtm tps prs rts
                    tdt ins vlk];
  destruct up, uc, ur, ut, uts.

Lemma rest_token_kind (self : CPWord.Config (F := F)) (t : Z)
  (label desc : string) (tok : CPWord.CPToken) :
  CPWord.__create_cp_token self t false None None VNone VNone None
    (Some label) None None None desc = Some tok ->
  is_bar_token tok = false /\ is_position_token tok = false
  /\ rest_of self tok = Some (label, t).
Proof.
  by_flags self; cbn; intros Htok; try discriminate Htok;
    injection Htok as <-; repeat split; reflexivity.
Qed.

Lemma bar_token_kind (self : CPWord.Config (F := F)) (t : Z)
  (time_signature : option string) (tok : CPWord.CPToken) :
  CPWord.__create_cp_token self t true None None VNone VNone None None None
    time_signature None "Bar" = Some tok ->
  is_bar_token tok = true /\ is_position_token tok = false
  /\ rest_of self tok = None.
Proof.
  by_flags self; destruct time_signature; cbn; intros Htok;
    try discriminate Htok; injection Htok as <-; repeat split; reflexivity.
Qed.

Lemma position_token_kind (self : CPWord.Config (F := F)) (t pos : Z)
  (chord tempo : option (pyval F)) (tok : CPWord.CPToken) :
  CPWord.__create_cp_token self t false (Some pos) None VNone VNone chord
    None tempo None None "Position" = Some tok ->
  is_bar_token tok = false /\ is_position_token tok = true
  /\ rest_of self tok = None.
Proof.
  by_flags self; destruct chord, tempo; cbn; intros Htok;
    try discriminate Htok; injection Htok as <-; repeat split; reflexivity.
Qed.

Lemma note_token_kind (self : CPWord.Config (F := F)) (t : Z)
  (pitch program : option (pyval F)) (vel dur : pyval F)
  (tok : CPWord.CPToken) :
  CPWord.__create_cp_token self t false None pitch vel dur None None None
    None program "" = Some tok ->
  is_bar_token tok = false /\ is_position_token tok = false
  /\ rest_of self tok = None.
Proof.
  by_flags self; destruct pitch, program; cbn; intros Htok;
    try discriminate Htok; injection Htok as <-; repeat split; reflexivity.
Qed.

End TokenKinds.

Section BuilderBlocks.

Context {F : Type} {fops : FloatOps F}.
Variable self : CPWord.Config (F := F).

Lemma rests_in_app (a b : list (list (Event F))) :
  rests_in self (a ++ b) = rests_in self a ++ rests_in self b.
Proof.
  induction a as [|tok more IH]; [reflexivity|].
  change (rests_in self ((tok :: more) ++ b))
    with (match rest_of self tok with
          | Some r => r :: rests_in self (more ++ b)
          | None => rests_in self (more ++ b)
          end).
  change (rests_in self (tok :: more))
    with (match rest_of self tok with
          | Some r => r :: rests_in self more
          | None => rests_in self more
          end).
  destruct (rest_of self tok); rewrite IH; reflexivity.
Qed.

Lemma count_bars_app (a b : list (list (Event F))) :
  count_bars (a ++ b) = (count_bars a + count_bars b)%nat.
Proof.
  unfold count_bars. rewrite filter_app, length_app. reflexivity.
Qed.

Lemma existsb_position_app (a b : list (list (Event F))) :
  existsb is_position_token (a ++ b)
  = existsb is_position_token a || existsb is_position_token b.
Proof. apply existsb_app. Qed.

(** The Rest tokens of a decomposition: one per entry, each at the tick its
    rest starts at; nothing else. *)
Lemma rest_tokens_spec (event_time : Z) (values : list (string * Z)) :
  forall (start final : Z) (toks : list CPWord.CPToken),
    CPWord.rest_tokens self event_time start values = Some (toks, final) ->
    rests_in self toks = with_starts start values
    /\ final = rests_end start values
    /\ count_bars toks = 0%nat
    /\ existsb is_position_token toks = false
    /\ List.length toks = List.length values.
Proof.
  induction values as [|[label ticks] more IH]; intros start final toks Hrun.
  - injection Hrun as <- <-. repeat split.
  - cbn [CPWord.rest_tokens] in Hrun.
    apply bind_Some in Hrun. destruct Hrun as [tok [Htok Hrun]].
    apply bind_Some in Hrun. destruct Hrun as [[toks' final'] [Hmore Hrun]].
    injection Hrun as <- <-.
    apply rest_token_kind in Htok. destruct Htok as [Hbar [Hpos Hrest]].
    apply IH in Hmore.
    destruct Hmore as [Hrests [Hfinal [Hbars [Hnopos Hlen]]]].
    cbn [rests_in with_starts]. rewrite Hrest, Hrests.
    unfold count_bars in *. cbn [filter existsb List.length].
    rewrite Hbar, Hpos, Hnopos, Hlen.
    repeat split; try assumption.
Qed.

(** The Bar tokens of an event: as many as asked for; nothing else. *)
Lemma bar_tokens_spec (num_new_bars : Z) (st : CPWord.EncState)
  (event : Event F) (count : nat) :
  forall (i : Z) (time_sig_arg : option string) (toks : list CPWord.CPToken),
    CPWord.bar_tokens self count i num_new_bars time_sig_arg st event
    = Some toks ->
    count_bars toks = count
    /\ rests_in self toks = []
    /\ existsb is_position_token toks = false.
Proof.
  induction count as [|count IH]; intros i tsa toks Hrun.
  - injection Hrun as <-. repeat split.
  - cbn [CPWord.bar_tokens] in Hrun.
    apply bind_Some in Hrun. destruct Hrun as [tsa' [_ Hrun]].
    apply bind_Some in Hrun. destruct Hrun as [tok [Htok Hrun]].
    apply bind_Some in Hrun. destruct Hrun as [toks' [Hmore Hrun]].
    injection Hrun as <-.
    apply bar_token_kind in Htok. destruct Htok as [Hbar [Hpos Hrest]].
    apply IH in Hmore. destruct Hmore as [Hbars [Hrests Hnopos]].
    unfold count_bars in *. cbn [filter existsb rests_in].
    rewrite Hbar, Hpos, Hrest. cbn [List.length orb].
    rewrite Hbars, Hrests, Hnopos. repeat split.
Qed.

End BuilderBlocks.

Section BuilderSteps.

Context {F : Type} {fops : FloatOps F}.
Variable self : CPWord.Config (F := F).

Lemma floordiv_Some (x y q : Z) :
  Py.floordiv x y = Some q -> y <> 0 /\ q = x / y.
Proof.
  unfold Py.floordiv. destruct (y =? 0) eqn:Ey; [discriminate|].
  intros [= <-]. apply Z.eqb_neq in Ey. split; [exact Ey | reflexivity].
Qed.

(** The rest block when the gap is below the threshold, or rests are off. *)
Lemma rest_block_idle (st st1 : CPWord.EncState) (event : Event F)
  (toks : list CPWord.CPToken) :
  CPWord.use_rests self && (CPWord.min_rest self <=? rest_gap st event) = false ->
  CPWord.rest_block self st event = Some (st1, toks) ->
  toks = [] /\ st1 = st.
Proof.
  unfold CPWord.rest_block, rest_gap. intros -> [= <- <-]. split; reflexivity.
Qed.

(** The rest block when the gap reaches the threshold: what it emits and
    where it leaves the cursor. *)
Lemma rest_block_fires (st st1 : CPWord.EncState) (event : Event F)
  (toks : list CPWord.CPToken) :
  CPWord.use_rests self && (CPWord.min_rest self <=? rest_gap st event) = true ->
  CPWord.rest_block self st event = Some (st1, toks) ->
  same_grid st1 st
  /\ CPWord.previous_note_end st1 = CPWord.previous_note_end st
  /\ CPWord.previous_tick st1
     = rests_end (CPWord.previous_note_end st) (rest_values self st event)
  /\ count_bars toks = 0%nat
  /\ existsb is_position_token toks = false
  /\ rests_in self toks
     = with_starts (CPWord.previous_note_end st) (rest_values self st event)
  /\ List.length toks = List.length (rest_values self st event)
  /\ CPWord.current_bar st1
     = Z.max (CPWord.current_bar st) (rest_end_bar self st event)
  /\ CPWord.tick_at_current_bar st1
     = CPWord.tick_at_current_bar st
       + (if CPWord.current_bar st <? rest_end_bar self st event
          then (rest_end_bar self st event
                - (if CPWord.current_bar st =? -1 then 0
                   else CPWord.current_bar st))
               * CPWord.ticks_per_bar st
          else 0).
Proof.
  unfold CPWord.rest_block, rest_end_bar, rest_values, rest_gap, bar_of.
  intros -> Hrun.
  apply bind_Some in Hrun. destruct Hrun as [[rest_toks final] [Hrests Hrun]].
  apply bind_Some in Hrun. destruct Hrun as [q [Hq Hrun]].
  apply rest_tokens_spec in Hrests.
  destruct Hrests as [Hin [Hfinal [Hbars [Hnopos Hlen]]]].
  apply floordiv_Some in Hq. destruct Hq as [Htpb Hq].
  rewrite Hq, Hfinal in Hrun.
  destruct (CPWord.current_bar st <? _) eqn:Egrow;
    injection Hrun as <- <-;
    cbn [CPWord.current_bar CPWord.tick_at_current_bar
         CPWord.previous_note_end CPWord.previous_tick];
    (split; [repeat split|]);
    (split; [reflexivity|]); (split; [reflexivity|]);
    (split; [exact Hbars|]);
    (split; [exact Hnopos|]); (split; [exact Hin|]); (split; [exact Hlen|]).
  - apply Z.ltb_lt in Egrow. split; [lia | reflexivity].
  - apply Z.ltb_ge in Egrow. split; lia.
Qed.

(** The bar block: one Bar token per bar between the cursor and the bar of
    the event. *)
Lemma bar_block_spec (st st1 : CPWord.EncState) (event : Event F)
  (toks : list CPWord.CPToken) :
  CPWord.bar_block self st event = Some (st1, toks) ->
  same_grid st1 st
  /\ CPWord.previous_note_end st1 = CPWord.previous_note_end st
  /\ CPWord.previous_tick st1 = CPWord.previous_tick st
  /\ count_bars toks
     = Z.to_nat (bar_of st (time event) - CPWord.current_bar st)
  /\ rests_in self toks = []
  /\ existsb is_position_token toks = false
  /\ CPWord.current_bar st1
     = Z.max (CPWord.current_bar st) (bar_of st (time event)).
Proof.
  unfold CPWord.bar_block, bar_of. intros Hrun.
  apply bind_Some in Hrun. destruct Hrun as [q [Hq Hrun]].
  apply floordiv_Some in Hq. destruct Hq as [Htpb ->].
  destruct (1 <=? _) eqn:Enew.
  - apply bind_Some in Hrun. destruct Hrun as [bars [Hbars Hrun]].
    injection Hrun as <- <-.
    apply bar_tokens_spec in Hbars. destruct Hbars as [Hcount [Hrests Hnopos]].
    apply Z.leb_le in Enew.
    cbn [CPWord.current_bar CPWord.previous_note_end CPWord.previous_tick].
    repeat split; try assumption. lia.
  - injection Hrun as <- <-. apply Z.leb_gt in Enew.
    repeat split; try reflexivity.
    + unfold count_bars. cbn [filter List.length]. lia.
    + lia.
Qed.

(** The position block: one Position token, unless the event is a
    TimeSig. *)
Lemma position_block_spec (st : CPWord.EncState) (event : Event F)
  (toks : list CPWord.CPToken) :
  CPWord.position_block self st event = Some toks ->
  count_bars toks = 0%nat
  /\ rests_in self toks = []
  /\ existsb is_position_token toks
     = negb (String.eqb (type_ event) "TimeSig").
Proof.
  unfold CPWord.position_block. intros Hrun.
  destruct (negb (String.eqb (type_ event) "TimeSig")).
  - apply bind_Some in Hrun. destruct Hrun as [tok [Htok Hrun]].
    injection Hrun as <-.
    apply position_token_kind in Htok. destruct Htok as [Hbar [Hpos Hrest]].
    unfold count_bars. cbn [filter existsb rests_in].
    rewrite Hbar, Hpos, Hrest. repeat split.
  - injection Hrun as <-. repeat split.
Qed.

(** The note block emits at most a Note token, and leaves grid, cursor and
    previous tick alone. *)
Lemma note_block_spec (st st1 : CPWord.EncState) (event : Event F)
  (following : list (Event F)) (toks : list CPWord.CPToken) :
  CPWord.note_block self st event following = Some (st1, toks) ->
  same_grid st1 st
  /\ CPWord.previous_tick st1 = CPWord.previous_tick st
  /\ CPWord.current_bar st1 = CPWord.current_bar st
  /\ CPWord.tick_at_current_bar st1 = CPWord.tick_at_current_bar st
  /\ count_bars toks = 0%nat
  /\ rests_in self toks = []
  /\ existsb is_position_token toks = false.
Proof.
  unfold CPWord.note_block. intros Hrun.
  split_run Hrun;
    try (injection Hrun as <- <-; repeat split; reflexivity).
  all: injection Hrun as <- <-;
    match goal with
    | H : CPWord.__create_cp_token _ _ _ _ _ _ _ _ _ _ _ _ _ = Some _ |- _ =>
        apply note_token_kind in H; destruct H as [Hbar [Hpos Hrest]]
    end;
    unfold count_bars; cbn [filter existsb rests_in];
    rewrite Hbar, Hpos, Hrest; repeat split.
Qed.

End BuilderSteps.

Section BuilderEvents.

Context {F : Type} {fops : FloatOps F}.
Variable self : CPWord.Config (F := F).

Lemma same_grid_trans (a b c : CPWord.EncState (F := F)) :
  same_grid a b -> same_grid b c -> same_grid a c.
Proof.
  unfold same_grid. intros [H1 [H2 [H3 H4]]] [K1 [K2 [K3 K4]]].
  repeat split; congruence.
Qed.

Lemma bar_of_same_grid (a b : CPWord.EncState (F := F)) (tick : Z) :
  same_grid a b -> bar_of a tick = bar_of b tick.
Proof.
  unfold same_grid, bar_of. intros [-> [-> [-> _]]]. reflexivity.
Qed.

(** The time block of an event whose tick is the previous one: nothing. *)
Lemma time_block_same_tick (st st1 : CPWord.EncState) (event : Event F)
  (toks : list CPWord.CPToken) :
  time event = CPWord.previous_tick st ->
  CPWord.time_block self st event = Some (st1, toks) ->
  toks = [] /\ st1 = st.
Proof.
  unfold CPWord.time_block. intros ->. rewrite Z.eqb_refl. cbn [negb].
  intros [= <- <-]. split; reflexivity.
Qed.

(** The time block of an event on a new tick: rests, then bars, then a
    position. *)
Lemma time_block_new_tick (st st3 : CPWord.EncState) (event : Event F)
  (toks : list CPWord.CPToken) :
  time event <> CPWord.previous_tick st ->
  CPWord.time_block self st event = Some (st3, toks) ->
  exists st1 st2 rest_toks bar_toks pos_toks,
    CPWord.rest_block self st event = Some (st1, rest_toks)
    /\ CPWord.bar_block self st1 event = Some (st2, bar_toks)
    /\ CPWord.position_block self st2 event = Some pos_toks
    /\ st3 = CPWord.set_previous_tick st2 (time event)
    /\ toks = rest_toks ++ bar_toks ++ pos_toks.
Proof.
  unfold CPWord.time_block. intros Hne Hrun.
  apply Z.eqb_neq in Hne. rewrite Hne in Hrun. cbn [negb] in Hrun.
  apply bind_Some in Hrun. destruct Hrun as [[st1 rest_toks] [Hrest Hrun]].
  apply bind_Some in Hrun. destruct Hrun as [[st2 bar_toks] [Hbar Hrun]].
  apply bind_Some in Hrun. destruct Hrun as [pos_toks [Hpos Hrun]].
  injection Hrun as <- <-.
  exists st1, st2, rest_toks, bar_toks, pos_toks. repeat split; assumption.
Qed.

(** In either case the grid stays, the previous tick becomes the event's
    tick, and a Position token is there exactly when the tick is new and the
    event is not a TimeSig. *)
Lemma time_block_spec (st st1 : CPWord.EncState) (event : Event F)
  (toks : list CPWord.CPToken) :
  CPWord.time_block self st event = Some (st1, toks) ->
  same_grid st1 st
  /\ CPWord.previous_tick st1 = time event
  /\ CPWord.previous_note_end st1 = CPWord.previous_note_end st
  /\ existsb is_position_token toks
     = negb (time event =? CPWord.previous_tick st)
       && negb (String.eqb (type_ event) "TimeSig").
Proof.
  intros Hrun.
  destruct (Z.eq_dec (time event) (CPWord.previous_tick st)) as [Heq | Hne].
  - destruct (time_block_same_tick _ _ _ _ Heq Hrun) as [-> ->].
    rewrite Heq, Z.eqb_refl. repeat split.
  - destruct (time_block_new_tick _ _ _ _ Hne Hrun)
      as [sa [sb [rest_toks [bar_toks [pos_toks
            [Hrest [Hbar [Hpos [-> ->]]]]]]]]].
    apply Z.eqb_neq in Hne. rewrite Hne. cbn [negb andb].
    apply bar_block_spec in Hbar.
    destruct Hbar as [Hg2 [Hn2 [_ [_ [_ [Hp2 _]]]]]].
    apply position_block_spec in Hpos. destruct Hpos as [_ [_ Hp3]].
    assert (Hfirst : same_grid sa st
                     /\ CPWord.previous_note_end sa = CPWord.previous_note_end st
                     /\ existsb is_position_token rest_toks = false).
    { destruct (CPWord.use_rests self
                && (CPWord.min_rest self <=? rest_gap st event)) eqn:Edue.
      - destruct (rest_block_fires self _ _ _ _ Edue Hrest)
          as [Hg [Hn [_ [_ [Hp _]]]]].
        split; [exact Hg | split; assumption].
      - destruct (rest_block_idle self _ _ _ _ Edue Hrest) as [-> ->].
        repeat split. }
    destruct Hfirst as [Hg1 [Hn1 Hp1]].
    unfold CPWord.CPToken in *.
    rewrite !existsb_app, Hp1, Hp2, Hp3. cbn [orb].
    split; [ | split; [reflexivity | split; [ | reflexivity ]] ].
    + apply same_grid_trans with (b := sa); [ | exact Hg1 ].
      destruct Hg2 as [G1 [G2 [G3 G4]]]. repeat split; assumption.
    + cbn [CPWord.set_previous_tick CPWord.previous_note_end]. congruence.
Qed.

(** The greedy decomposition takes at least one rest as soon as one of the
    table fits in the gap. *)
Lemma largest_fitting_from (table : list (string * Z)) (gap : Z) :
  forall best : option (string * Z),
    best <> None \/ (exists entry, In entry table
                                   /\ 0 < snd entry /\ snd entry <= gap) ->
    fold_left
      (fun best entry =>
         if (0 <? snd entry) && (snd entry <=? gap) then
           match best with
           | Some b => if snd b <? snd entry then Some entry else best
           | None => Some entry
           end
         else best)
      table best <> None.
Proof.
  induction table as [|e more IH]; intros best Hsome; cbn [fold_left].
  - destruct Hsome as [Hbest | [entry [[] _]]]. exact Hbest.
  - apply IH.
    destruct Hsome as [Hbest | [entry [[<- | Hin] [Hpos Hfit]]]].
    + left. destruct ((0 <? snd e) && (snd e <=? gap)); [ | exact Hbest ].
      destruct best as [b|]; [ | discriminate ].
      destruct (snd b <? snd e); discriminate.
    + left.
      replace ((0 <? snd e) && (snd e <=? gap)) with true
        by (symmetry; apply andb_true_intro; split;
            [apply Z.ltb_lt | apply Z.leb_le]; assumption).
      destruct best as [b|]; [ | discriminate ].
      destruct (snd b <? snd e); discriminate.
    + right. exists entry. repeat split; assumption.
Qed.

Lemma rests_found (table : list (string * Z)) (gap : Z) (label : string)
  (ticks : Z) :
  In (label, ticks) table -> 0 < ticks -> ticks <= gap ->
  ticks_to_rest_tokens table gap <> [].
Proof.
  intros Hin Hpos Hfit. unfold ticks_to_rest_tokens.
  destruct (Z.to_nat gap) as [|fuel] eqn:Efuel; [lia|].
  cbn [greedy_rests].
  destruct (largest_fitting table gap) as [entry|] eqn:Efit; [discriminate|].
  exfalso. revert Efit. unfold largest_fitting.
  apply largest_fitting_from. right.
  exists (label, ticks). repeat split; assumption.
Qed.

Lemma with_starts_nil (start : Z) (values : list (string * Z)) :
  with_starts start values = [] -> values = [].
Proof. destruct values as [|[l t] more]; [reflexivity | discriminate]. Qed.

End BuilderEvents.

(** ** C8: a TimeSig event in the CPWord builder *)

Section TimeSigEvents.

Context {F : Type} {fops : FloatOps F}.
Variable self : CPWord.Config (F := F).

(** An event that is no Program event runs the three blocks in turn. *)
Lemma encode_event_blocks (st st' : CPWord.EncState) (event : Event F)
  (following : list (Event F)) (toks : list CPWord.CPToken) :
  type_ event <> "Program" ->
  CPWord.encode_event self st event following = Some (st', toks) ->
  exists st0 st1 st2 time_toks note_toks,
    st0 = (if String.eqb (type_ event) "Tempo"
           then CPWord.set_current_tempo st (value event) else st)
    /\ CPWord.time_block self st0 event = Some (st1, time_toks)
    /\ CPWord.time_sig_block self st1 event = Some st2
    /\ CPWord.note_block self st2 event following = Some (st', note_toks)
    /\ toks = time_toks ++ note_toks.
Proof.
  unfold CPWord.encode_event. intros Htype Hrun.
  apply String.eqb_neq in Htype. rewrite Htype in Hrun.
  apply bind_Some in Hrun. destruct Hrun as [[st1 time_toks] [Htime Hrun]].
  apply bind_Some in Hrun. destruct Hrun as [st2 [Hsig Hrun]].
  apply bind_Some in Hrun. destruct Hrun as [[st3 note_toks] [Hnote Hrun]].
  injection Hrun as <- <-.
  eexists _, st1, st2, time_toks, note_toks.
  repeat split; eassumption.
Qed.

Lemma time_sig_event_step (st st' : CPWord.EncState) (event : Event F)
  (following : list (Event F)) (toks : list CPWord.CPToken) :
  type_ event = "TimeSig" ->
  CPWord.encode_event self st event following = Some (st', toks) ->
  exists st1 ts,
    CPWord.time_block self st event = Some (st1, toks)
    /\ same_grid st1 st
    /\ existsb is_position_token toks = false
    /\ CPWord.event_time_sig (value event) = Some ts
    /\ CPWord.bar_at_last_ts_change st' = bar_of st (time event)
    /\ CPWord.tick_at_last_ts_change st' = time event
    /\ CPWord.ticks_per_bar st'
       = compute_ticks_per_bar ts (CPWord.time_division self)
    /\ CPWord.current_time_sig st' = ts
    /\ CPWord.previous_tick st1 = time event
    /\ CPWord.previous_tick st' = time event - 1.
Proof.
  intros Htype Hrun.
  apply encode_event_blocks in Hrun; [ | rewrite Htype; discriminate ].
  destruct Hrun as [st0 [st1 [st2 [time_toks [note_toks
                     [Hst0 [Htime [Hsig [Hnote ->]]]]]]]]].
  rewrite Htype in Hst0. cbn in Hst0. subst st0.
  pose proof (time_block_spec self _ _ _ _ Htime) as [Hgrid [Hprev [_ Hpos]]].
  rewrite Htype in Hpos. cbn in Hpos. rewrite andb_false_r in Hpos.
  unfold CPWord.time_sig_block in Hsig. rewrite Htype in Hsig. cbn in Hsig.
  apply bind_Some in Hsig. destruct Hsig as [ts [Hts Hsig]].
  apply bind_Some in Hsig. destruct Hsig as [q [Hq Hsig]].
  injection Hsig as <-.
  apply floordiv_Some in Hq. destruct Hq as [_ ->].
  assert (Hnote' : st' = CPWord.set_previous_note_end
                           {| CPWord.current_bar := CPWord.current_bar st1;
                              CPWord.bar_at_last_ts_change :=
                                CPWord.bar_at_last_ts_change st1
                                + (time event
                                   - CPWord.tick_at_last_ts_change st1)
                                  / CPWord.ticks_per_bar st1;
                              CPWord.previous_tick :=
                                CPWord.previous_tick st1 - 1;
                              CPWord.previous_note_end :=
                                CPWord.previous_note_end st1;
                              CPWord.tick_at_last_ts_change := time event;
                              CPWord.tick_at_current_bar :=
                                CPWord.tick_at_current_bar st1;
                              CPWord.current_time_sig := ts;
                              CPWord.current_tempo := CPWord.current_tempo st1;
                              CPWord.current_program :=
                                CPWord.current_program st1;
                              CPWord.ticks_per_bar :=
                                compute_ticks_per_bar ts
                                  (CPWord.time_division self) |}
                           (Z.max (CPWord.previous_note_end st1) (time event))
                   /\ note_toks = []).
  { unfold CPWord.note_block in Hnote. rewrite Htype in Hnote.
    destruct following as [|e1 [|e2 more]]; cbn in Hnote;
      injection Hnote as <- <-; split; reflexivity. }
  destruct Hnote' as [-> ->].
  exists st1, ts. rewrite app_nil_r.
  destruct Hgrid as [G1 [G2 [G3 G4]]].
  cbn. unfold bar_of. rewrite <- G1, <- G2, <- G3, Hprev.
  repeat split; try assumption; try reflexivity.
Qed.

(** After a TimeSig event, an event on the same tick gets its Position
    token. *)
Lemma position_after_time_sig (st st' : CPWord.EncState) (event : Event F)
  (following : list (Event F)) (toks : list CPWord.CPToken) (tick : Z) :
  CPWord.previous_tick st = tick - 1 ->
  time event = tick ->
  type_ event <> "Program" -> type_ event <> "TimeSig" ->
  CPWord.encode_event self st event following = Some (st', toks) ->
  existsb is_position_token toks = true.
Proof.
  intros Hprev Htick Hprog Hsig Hrun.
  apply encode_event_blocks in Hrun; [ | exact Hprog ].
  destruct Hrun as [st0 [st1 [st2 [time_toks [note_toks
                     [Hst0 [Htime [_ [_ ->]]]]]]]]].
  apply time_block_spec in Htime. destruct Htime as [_ [_ [_ Hpos]]].
  assert (Hp0 : CPWord.previous_tick st0 = tick - 1).
  { subst st0. destruct (String.eqb (type_ event) "Tempo"); exact Hprev. }
  rewrite Hp0, Htick in Hpos.
  replace (tick =? tick - 1) with false in Hpos
    by (symmetry; apply Z.eqb_neq; lia).
  apply String.eqb_neq in Hsig. rewrite Hsig in Hpos. cbn in Hpos.
  unfold CPWord.CPToken in *. rewrite existsb_app, Hpos. reflexivity.
Qed.

(** Program events set the program and [continue]: they emit no token and
    leave the previous tick as it is. *)
Lemma program_events_pass (programs : list (Event F)) :
  forall st : CPWord.EncState,
    Forall (fun p => type_ p = "Program") programs ->
    exists st_p,
      CPWord.encode_events self st programs = Some (st_p, [])
      /\ CPWord.previous_tick st_p = CPWord.previous_tick st.
Proof.
  induction programs as [|p programs IH]; intros st Hall.
  - exists st. split; reflexivity.
  - inversion Hall as [|? ? Hp Hmore]; subst.
    destruct (IH (CPWord.set_current_program st (value p)) Hmore)
      as [st_p [Hrun Hprev]].
    exists st_p. cbn [CPWord.encode_events].
    unfold CPWord.encode_event at 1. rewrite Hp.
    cbn [String.eqb Ascii.eqb Bool.eqb bind].
    rewrite Hrun. cbn [bind List.app].
    split; [reflexivity|exact Hprev].
Qed.

End TimeSigEvents.

(** C8 (amended).  For a TimeSig event the builder first runs the time block (rests,
    bars, position) on the grid as it stood, and what the event emits is
    what that block emits, with no Position token in it; only then it moves
    the grid: the anchor bar becomes the bar of the event under the old
    grid, the anchor tick the tick of the event, the bar length that of the
    new signature; the previous tick, which the time block left on the tick
    of the event, is decreased by one.  The Program events that follow emit
    nothing and leave the previous tick there, so that the first event after
    them on that tick, other than a TimeSig event, emits a Position
    token. *)
Theorem time_sig_event_is_applied_after_emission
  {F : Type} {fops : FloatOps F} (self : CPWord.Config (F := F))
  (st st' : CPWord.EncState) (event : Event F) (following : list (Event F))
  (toks : list CPWord.CPToken) :
  type_ event = "TimeSig" ->
  CPWord.encode_event self st event following = Some (st', toks) ->
  exists st1 ts,
    CPWord.time_block self st event = Some (st1, toks)
    /\ same_grid st1 st
    /\ existsb is_position_token toks = false
    /\ CPWord.event_time_sig (value event) = Some ts
    /\ CPWord.bar_at_last_ts_change st' = bar_of st (time event)
    /\ CPWord.tick_at_last_ts_change st' = time event
    /\ CPWord.ticks_per_bar st'
       = compute_ticks_per_bar ts (CPWord.time_division self)
    /\ CPWord.current_time_sig st' = ts
    /\ CPWord.previous_tick st1 = time event
    /\ CPWord.previous_tick st' = CPWord.previous_tick st1 - 1
    /\ (forall programs : list (Event F),
           Forall (fun p => type_ p = "Program") programs ->
           exists st_p,
             CPWord.encode_events self st' programs = Some (st_p, [])
             /\ CPWord.previous_tick st_p = CPWord.previous_tick st'
             /\ forall (next : Event F) (following' : list (Event F))
                       (st'' : CPWord.EncState) (toks' : list CPWord.CPToken),
                  time next = time event ->
                  type_ next <> "Program" -> type_ next <> "TimeSig" ->
                  CPWord.encode_event self st_p next following'
                  = Some (st'', toks') ->
                  existsb is_position_token toks' = true).
Proof.
  intros Htype Hrun.
  destruct (time_sig_event_step self st st' event following toks Htype Hrun)
    as [st1 [ts [Htime [Hgrid [Hnopos [Hts [Hbar [Htick [Htpb [Hsig
          [Hprev1 Hprev']]]]]]]]]]].
  exists st1, ts.
  repeat (split; [assumption|]).
  split; [ rewrite Hprev1; exact Hprev' | ].
  intros programs Hprograms.
  destruct (program_events_pass self programs st' Hprograms)
    as [st_p [Hpass Hkept]].
  exists st_p. split; [exact Hpass|]. split; [exact Hkept|].
  intros next following' st'' toks' Hsame Hprog Hnsig Hnext.
  eapply (position_after_time_sig self st_p); try eassumption.
  rewrite Hkept. exact Hprev'.
Qed.

(** C8 (witness): in a 4/4 piece at 8 ticks per quarter note, a change to
    3/4 on tick 32 opens bar 1 with a Bar token, sets the bar length to 24
    and leaves the previous tick on 31. *)
Lemma time_sig_event_witness :
  exists st' toks,
    CPWord.encode_event (Samples.cpword false false false false true false)
      (Samples.in_first_bar 8) (Samples.time_sig_event "3/4" 32) []
    = Some (st', toks)
    /\ count_bars toks = 1%nat
    /\ existsb is_position_token toks = false
    /\ CPWord.ticks_per_bar st' = 24
    /\ CPWord.bar_at_last_ts_change st' = 1
    /\ CPWord.previous_tick st' = 31.
Proof.
  destruct (CPWord.encode_event
              (Samples.cpword false false false false true false)
              (Samples.in_first_bar 8) (Samples.time_sig_event "3/4" 32) [])
    as [[st' toks]|] eqn:Hrun; [ | vm_compute in Hrun; discriminate Hrun ].
  exists st', toks. split; [reflexivity|].
  destruct (time_sig_event_is_applied_after_emission
              (Samples.cpword false false false false true false)
              (Samples.in_first_bar 8) st' (Samples.time_sig_event "3/4" 32)
              [] toks eq_refl Hrun)
    as [st1 [ts [Htime [_ [Hnopos [Hts [Hbar [_ [Htpb [_ [Hprev1 [Hprev' _]]]]]]]]]]]].
  vm_compute in Hts. injection Hts as <-.
  vm_compute in Htime. injection Htime as <- <-.
  split; [reflexivity|]. split; [exact Hnopos|].
  split; [rewrite Htpb; reflexivity|].
  split; [rewrite Hbar; reflexivity|].
  rewrite Hprev'. reflexivity.
Defined.

(** C8 as stated fails: the event after a TimeSig event need not emit a
    Position token.  With programs in use, a Program event on the tick of
    the change is the next event; it sets the program and goes on to the
    next event, without a token. *)
Lemma program_event_after_time_sig_gets_no_position :
  exists st' toks st'' toks',
    CPWord.encode_event (Samples.cpword true false false false true false)
      (Samples.in_first_bar 8) (Samples.time_sig_event "3/4" 32)
      [mkEvent "Program" (VInt 0) 32 VNone]
    = Some (st', toks)
    /\ CPWord.previous_tick st' = 31
    /\ CPWord.encode_event (Samples.cpword true false false false true false)
         st' (mkEvent "Program" (VInt 0) 32 VNone) []
       = Some (st'', toks')
    /\ toks' = []
    /\ existsb is_position_token toks' = false.
Proof.
  eexists _, _, _, _.
  split; [vm_compute; reflexivity|].
  split; [reflexivity|].
  split; [vm_compute; reflexivity|].
  split; reflexivity.
Qed.

(** ** C10: rests in the CPWord builder *)

(** C10 (amended).  With rests enabled and a threshold that is the length of
    a rest of the table, an event that reaches the time block (it is no
    Program event and its tick is not the previous one) emits Rest tokens
    exactly
    when its tick is at least the threshold after the end of the last note.
    Then the Rest tokens are those of the greedy decomposition of that gap,
    one per table entry taken, the first at the end of the last note and each
    next one where the previous rest ends; the rest block emits no Bar token
    and moves the bar cursor to the bar in which the rests end, by whole
    bars; the Bar tokens of the event are only those of the bars after it. *)
Theorem rests_fill_the_gap_after_the_last_note
  {F : Type} {fops : FloatOps F} (self : CPWord.Config (F := F))
  (st st' : CPWord.EncState) (event : Event F) (following : list (Event F))
  (toks : list CPWord.CPToken) (label : string) :
  CPWord.use_rests self = true ->
  In (label, CPWord.min_rest self) (CPWord.rests self) ->
  0 < CPWord.min_rest self ->
  type_ event <> "Program" ->
  time event <> CPWord.previous_tick st ->
  CPWord.encode_event self st event following = Some (st', toks) ->
  (rests_in self toks <> [] <-> CPWord.min_rest self <= rest_gap st event)
  /\ (CPWord.min_rest self <= rest_gap st event ->
      rests_in self toks
      = with_starts (CPWord.previous_note_end st) (rest_values self st event)
      /\ (exists st1 rest_toks,
             CPWord.rest_block self
               (if String.eqb (type_ event) "Tempo"
                then CPWord.set_current_tempo st (value event) else st)
               event = Some (st1, rest_toks)
             /\ List.length rest_toks = List.length (rest_values self st event)
             /\ count_bars rest_toks = 0%nat
             /\ CPWord.current_bar st1
                = Z.max (CPWord.current_bar st) (rest_end_bar self st event)
             /\ CPWord.tick_at_current_bar st1
                = CPWord.tick_at_current_bar st
                  + (if CPWord.current_bar st <? rest_end_bar self st event
                     then (rest_end_bar self st event
                           - (if CPWord.current_bar st =? -1 then 0
                              else CPWord.current_bar st))
                          * CPWord.ticks_per_bar st
                     else 0))
      /\ count_bars toks
         = Z.to_nat (bar_of st (time event)
                     - Z.max (CPWord.current_bar st)
                             (rest_end_bar self st event))).
Proof.
  intros Hrests Hentry Hmin Hprog Htick Hrun.
  apply encode_event_blocks in Hrun; [ | exact Hprog ].
  destruct Hrun as [st0 [st3 [st4 [time_toks [note_toks
                     [Hst0 [Htime [_ [Hnote ->]]]]]]]]].
  assert (Hsame : CPWord.previous_tick st0 = CPWord.previous_tick st
                  /\ CPWord.previous_note_end st0 = CPWord.previous_note_end st
                  /\ CPWord.current_bar st0 = CPWord.current_bar st
                  /\ CPWord.tick_at_current_bar st0
                     = CPWord.tick_at_current_bar st
                  /\ CPWord.ticks_per_bar st0 = CPWord.ticks_per_bar st
                  /\ rest_gap st0 event = rest_gap st event
                  /\ rest_values self st0 event = rest_values self st event
                  /\ rest_end_bar self st0 event = rest_end_bar self st event
                  /\ bar_of st0 (time event) = bar_of st (time event)).
  { subst st0. destruct (String.eqb (type_ event) "Tempo");
      repeat split; reflexivity. }
  destruct Hsame as [Hpt [Hpne [Hcb [Htcb [Htpb [Hgap [Hvals [Hreb Hbof]]]]]]]].
  rewrite <- Hst0.
  apply time_block_new_tick in Htime; [ | rewrite Hpt; exact Htick ].
  destruct Htime as [st1 [st2 [rest_toks [bar_toks [pos_toks
                      [Hrest [Hbar [Hpos [_ ->]]]]]]]]].
  apply bar_block_spec in Hbar.
  destruct Hbar as [_ [_ [_ [Hbars2 [Hrests2 _]]]]].
  apply position_block_spec in Hpos. destruct Hpos as [Hbars3 [Hrests3 _]].
  apply note_block_spec in Hnote.
  destruct Hnote as [_ [_ [_ [_ [Hbars4 [Hrests4 _]]]]]].
  unfold CPWord.CPToken in *.
  rewrite !rests_in_app, !count_bars_app, Hrests2, Hrests3, Hrests4,
    Hbars2, Hbars3, Hbars4, !app_nil_r, !Nat.add_0_r.
  destruct (CPWord.min_rest self <=? rest_gap st event) eqn:Edue.
  - assert (Hfire : CPWord.use_rests self
                    && (CPWord.min_rest self <=? rest_gap st0 event) = true)
      by (rewrite Hrests, Hgap, Edue; reflexivity).
    pose proof (rest_block_fires self _ _ _ _ Hfire Hrest)
      as [Hgrid [_ [_ [Hbars1 [_ [Hin [Hlen [Hcur Htac]]]]]]]].
    apply Z.leb_le in Edue.
    rewrite Hpne, Hvals in Hin. rewrite Hvals in Hlen.
    rewrite Hcb, Hreb in Hcur. rewrite Hcb, Hreb, Htcb, Htpb in Htac.
    split.
    + split; [intros _; exact Edue|]. intros _ Hnil.
      rewrite Hin in Hnil. apply with_starts_nil in Hnil.
      revert Hnil. unfold rest_values.
      apply rests_found with (label := label) (ticks := CPWord.min_rest self);
        assumption.
    + intros _. split; [exact Hin|]. split.
      * exists st1, rest_toks. repeat split; assumption.
      * rewrite Hbars1, (bar_of_same_grid _ _ _ Hgrid), Hbof, Hcur.
        reflexivity.
  - pose proof Edue as Elt. apply Z.leb_gt in Elt.
    assert (Hidle : CPWord.use_rests self
                    && (CPWord.min_rest self <=? rest_gap st0 event) = false)
      by (rewrite Hgap, Edue; apply andb_false_r).
    destruct (rest_block_idle self _ _ _ _ Hidle Hrest) as [-> ->].
    split; [ | intros Hle; lia ].
    split; [ intros Hne; exfalso; apply Hne; reflexivity | intros Hle; lia ].
Qed.

(** C10 (witness): a note has sounded from tick 0 to tick 9 and the next one
    starts on tick 64.  The 55 ticks between are covered by five rests from
    tick 9 on, which end on tick 63 in bar 1; the only Bar token is that of
    bar 2. *)
Lemma rests_fill_the_gap_witness :
  exists st' toks,
    CPWord.encode_event (Samples.cpword false false true false false false)
      (Samples.in_first_bar 9) (mkEvent "Pitch" (VInt 60) 64 (VInt 72))
      [ mkEvent "Velocity" (VInt 80) 64 (VStr "80");
        mkEvent "Duration" (VStr "1.0.8") 64 (VStr "8 ticks") ]
    = Some (st', toks)
    /\ rests_in (Samples.cpword false false true false false false) toks
       = [ ("2.0.8", 9); ("2.0.8", 25); ("2.0.8", 41); ("0.4.8", 57);
           ("0.2.8", 61) ]
    /\ count_bars toks = 1%nat.
Proof.
  destruct (CPWord.encode_event
              (Samples.cpword false false true false false false)
              (Samples.in_first_bar 9) (mkEvent "Pitch" (VInt 60) 64 (VInt 72))
              [ mkEvent "Velocity" (VInt 80) 64 (VStr "80");
                mkEvent "Duration" (VStr "1.0.8") 64 (VStr "8 ticks") ])
    as [[st' toks]|] eqn:Hrun; [ | vm_compute in Hrun; discriminate Hrun ].
  exists st', toks. split; [reflexivity|].
  destruct (rests_fill_the_gap_after_the_last_note
              (Samples.cpword false false true false false false)
              (Samples.in_first_bar 9) st'
              (mkEvent "Pitch" (VInt 60) 64 (VInt 72))
              [ mkEvent "Velocity" (VInt 80) 64 (VStr "80");
                mkEvent "Duration" (VStr "1.0.8") 64 (VStr "8 ticks") ]
              toks "0.2.8")
    as [_ Hdue].
  - reflexivity.
  - left. reflexivity.
  - reflexivity.
  - discriminate.
  - discriminate.
  - exact Hrun.
  - destruct Hdue as [Hrests [_ Hbars]]; [ vm_compute; discriminate | ].
    split; [rewrite Hrests | rewrite Hbars]; reflexivity.
Defined.

(** C10 as stated fails: a gap of at least the threshold does not always
    give Rest tokens.  With programs and rests in use, a Program event 24
    ticks after the end of the last note, on a new tick, sets the program
    and goes on to the next event: it emits no token, where a Pitch event in
    its place emits two Rest tokens. *)
Lemma program_event_after_a_gap_emits_no_rest :
  CPWord.min_rest (Samples.cpword true false true false false false)
  <= rest_gap (Samples.in_first_bar 8)
       (mkEvent (F := Z) "Program" (VInt 0) 32 VNone)
  /\ 32 <> CPWord.previous_tick (Samples.in_first_bar 8)
  /\ (exists st',
        CPWord.encode_event (Samples.cpword true false true false false false)
          (Samples.in_first_bar 8) (mkEvent "Program" (VInt 0) 32 VNone) []
        = Some (st', [])
        /\ rests_in (Samples.cpword true false true false false false) []
           = [])
  /\ (exists st' toks,
        CPWord.encode_event (Samples.cpword true false true false false false)
          (Samples.in_first_bar 8) (mkEvent "Pitch" (VInt 60) 32 (VInt 40)) []
        = Some (st', toks)
        /\ rests_in (Samples.cpword true false true false false false) toks
           = [("2.0.8", 8); ("1.0.8", 24)]).
Proof.
  split; [vm_compute; discriminate|].
  split; [vm_compute; discriminate|].
  split.
  - eexists. split; [vm_compute; reflexivity|reflexivity].
  - eexists _, _. split; vm_compute; reflexivity.
Qed.

(** ** C9: a change from 4/4 to 3/4 on tick 32 *)

(** C9 (amended).  At 8 ticks per quarter note a 3/4 bar is 24 ticks long.
    For a piece in 4/4 that changes to 3/4 on tick 32 and has a note on tick
    40, the builder emits a Bar token for each of the two bars, the second
    with the new signature, then Position 8 and the note; it ends in bar 1,
    which starts on tick 32, with bars of 24 ticks.  The decoder, on these
    tokens, ends in bar 1 as well, on tick 40, with bars of 24 ticks, and
    gives the note back on tick 40 with both signatures.  The same holds when
    the 4/4 is only the default and a note sounds in bar 0. *)
Theorem change_to_3_4_puts_tick_40_in_bar_1_at_position_8 :
  compute_ticks_per_bar (3, 4) 8 = 24
  /\ (exists st0 st toks,
        CPWord.init_state Samples.cpword_time_sigs Samples.change_to_3_4
        = Some st0
        /\ CPWord.encode_events Samples.cpword_time_sigs st0
             Samples.change_to_3_4 = Some (st, toks)
        /\ CPWord._add_time_events Samples.cpword_time_sigs
             Samples.change_to_3_4 = Some toks
        /\ Samples.strings toks
           = [ Samples.metric_token "Bar_None" "TimeSig_4/4";
               Samples.metric_token "Bar_None" "TimeSig_3/4";
               Samples.metric_token "Position_8" "Ignore_None";
               Samples.note_token "Pitch_60" "Velocity_80" "Duration_1.0.8" ]
        /\ CPWord.current_bar st = 1
        /\ CPWord.tick_at_current_bar st = 32
        /\ CPWord.ticks_per_bar st = 24
        /\ (exists dst,
              decode_alone Samples.cpword_time_sigs (Samples.strings toks)
              = Some dst
              /\ CPWord.d_current_bar dst = 1
              /\ CPWord.d_tick_at_current_bar dst = 32
              /\ CPWord.d_current_tick dst = 40
              /\ CPWord.d_ticks_per_bar dst = 24)
        /\ CPWord._tokens_to_midi Samples.cpword_time_sigs
             (CPWord.Sequences [Samples.strings toks]) None None
           = Some (mkScore 8
                     [mkTrack 0 false "Instrument" [mkNote 40 8 60 80]]
                     [mkTempo 0 12000]
                     [mkTimeSignature 0 4 4; mkTimeSignature 32 3 4]))
  /\ (exists toks,
        CPWord._add_time_events Samples.cpword_time_sigs
          Samples.change_to_3_4_after_a_note = Some toks
        /\ position_values (Samples.strings toks) = ["0"; "8"]
        /\ CPWord._tokens_to_midi Samples.cpword_time_sigs
             (CPWord.Sequences [Samples.strings toks]) None None
           = Some (mkScore 8
                     [mkTrack 0 false "Instrument"
                        [mkNote 0 8 62 80; mkNote 40 8 60 80]]
                     [mkTempo 0 12000]
                     [mkTimeSignature 0 4 4; mkTimeSignature 32 3 4])).
Proof.
  split; [reflexivity|]. split.
  - eexists _, _, _.
    split; [vm_compute; reflexivity|].
    split; [vm_compute; reflexivity|].
    split; [vm_compute; reflexivity|].
    split; [vm_compute; reflexivity|].
    split; [reflexivity|]. split; [reflexivity|]. split; [reflexivity|].
    split.
    + eexists. split; [vm_compute; reflexivity|]. repeat split.
    + vm_compute. reflexivity.
  - eexists. split; [vm_compute; reflexivity|].
    split; vm_compute; reflexivity.
Qed.

(** C9 (counterexample).  In that piece the note on tick 40 is not at
    position 16: the builder emits Position 8, and a Position 16 in bar 1
    would be decoded as tick 48. *)
Lemma tick_40_is_not_at_position_16 :
  (exists toks,
     CPWord._add_time_events Samples.cpword_time_sigs Samples.change_to_3_4
     = Some toks
     /\ position_values (Samples.strings toks) = ["8"]
     /\ position_values (Samples.strings toks) <> ["16"])
  /\ (exists dst,
        decode_alone Samples.cpword_time_sigs
          [ Samples.metric_token "Bar_None" "TimeSig_4/4";
            Samples.metric_token "Bar_None" "TimeSig_3/4";
            Samples.metric_token "Position_16" "Ignore_None" ]
        = Some dst
        /\ CPWord.d_current_bar dst = 1
        /\ CPWord.d_current_tick dst = 48
        /\ CPWord.d_current_tick dst <> 40).
Proof.
  split.
  - eexists. split; [vm_compute; reflexivity|].
    split; [vm_compute; reflexivity | vm_compute; discriminate].
  - eexists. split; [vm_compute; reflexivity|].
    repeat split. vm_compute. discriminate.
Qed.

(** Position 16 is what the builder gives when no 4/4 is in force before the
    change: its first loop then takes the 3/4 for the whole piece, bar 1
    starts on tick 24 and tick 32 is no bar start. *)
Lemma position_16_needs_3_4_from_the_start :
  exists st0 st toks,
    CPWord.init_state Samples.cpword_time_sigs Samples.only_3_4 = Some st0
    /\ CPWord.ticks_per_bar st0 = 24
    /\ CPWord.encode_events Samples.cpword_time_sigs st0 Samples.only_3_4
       = Some (st, toks)
    /\ position_values (Samples.strings toks) = ["16"]
    /\ CPWord.tick_at_current_bar st = 24.
Proof.
  eexists _, _, _.
  split; [vm_compute; reflexivity|]. split; [reflexivity|].
  split; [vm_compute; reflexivity|]. split; vm_compute; reflexivity.
Qed.

(** ** Token strings: splitting and numbers *)

Lemma split_no_underscore (s : string) :
  no_underscore s = true -> Py.split_on "_" s = [s].
Proof.
  induction s as [|c s IH]; cbn [no_underscore Py.split_on]; [reflexivity|].
  intros Hs. apply andb_prop in Hs. destruct Hs as [Hc Hs].
  apply negb_true_iff in Hc. rewrite Hc, (IH Hs). reflexivity.
Qed.

Lemma split_type_value (t v : string) :
  no_underscore t = true -> no_underscore v = true ->
  Py.split_on "_" (t ++ "_" ++ v) = [t; v].
Proof.
  intros Ht Hv. induction t as [|c t IH]; cbn [String.append Py.split_on].
  - change (Ascii.eqb "_" "_") with true. cbv iota.
    rewrite (split_no_underscore _ Hv). reflexivity.
  - cbn [no_underscore] in Ht. apply andb_prop in Ht. destruct Ht as [Hc Ht].
    apply negb_true_iff in Hc. rewrite Hc.
    change (t ++ String "_" v)%string with (t ++ "_" ++ v)%string.
    rewrite (IH Ht). reflexivity.
Qed.

Lemma no_underscore_uint (d : Decimal.uint) :
  no_underscore (NilEmpty.string_of_uint d) = true.
Proof. induction d; cbn; auto. Qed.

Lemma no_underscore_str (n : Z) : no_underscore (Py.str n) = true.
Proof.
  unfold Py.str, NilZero.string_of_int, NilZero.string_of_uint.
  destruct (Z.to_int n) as [d | d]; destruct d; cbn;
    try reflexivity; apply no_underscore_uint.
Qed.

Lemma int_str (n : Z) : Py.int (Py.str n) = Some n.
Proof.
  unfold Py.int, Py.str.
  rewrite NilZero.isi.
  - cbn [option_map]. rewrite DecimalZ.of_to. reflexivity.
  - destruct n as [|p|p]; cbn; try discriminate.
    intros [= H]. revert H. apply DecimalPos.Unsigned.to_uint_nonnil.
  - destruct n as [|p|p]; cbn; try discriminate.
    intros [= H]. revert H. apply DecimalPos.Unsigned.to_uint_nonnil.
Qed.

(** ** The token types the validator reads off the builder's tokens *)

Section TokenTypes.

Context {F : Type} {fops : FloatOps F}.

Ltac by_flags self :=
  destruct self as [up uc ur ut uts rdn lt ots tdv mbr mr dtm tps prs rts
                    tdt ins vlk];
  destruct up, uc, ur, ut, uts.

(** Evaluate the validator's reading of an explicit token, one sub-token of
    which is known by the way it splits only. *)
Ltac read_type Hsplit :=
  cbn [map]; unfold str_event; cbn [type_ value str_val];
  match type of Hsplit with
  | Py.split_on _ ?r = _ => set (x := r) in *; clearbody x
  end;
  cbv in Hsplit; cbv; rewrite Hsplit; reflexivity.

Lemma rest_token_type (self : CPWord.Config (F := F)) (t : Z)
  (label desc : string) (tok : CPWord.CPToken) :
  no_underscore label = true ->
  CPWord.__create_cp_token self t false None None VNone VNone None
    (Some label) None None None desc = Some tok ->
  CPWord.cp_token_type (map str_event tok) = Some ["Rest"; label].
Proof.
  intros Hlabel.
  pose proof (split_type_value "Rest" label eq_refl Hlabel) as Hsplit.
  by_flags self; cbn; intros Htok; try discriminate Htok;
    injection Htok as <-; read_type Hsplit.
Qed.

Lemma bar_token_type (self : CPWord.Config (F := F)) (t : Z)
  (time_signature : option string) (tok : CPWord.CPToken) :
  CPWord.__create_cp_token self t true None None VNone VNone None None None
    time_signature None "Bar" = Some tok ->
  CPWord.cp_token_type (map str_event tok) = Some ["Bar"; "None"].
Proof.
  by_flags self; destruct time_signature; cbn; intros Htok;
    try discriminate Htok; injection Htok as <-; reflexivity.
Qed.

Lemma position_token_type (self : CPWord.Config (F := F)) (t pos : Z)
  (chord tempo : option (pyval F)) (tok : CPWord.CPToken) :
  CPWord.__create_cp_token self t false (Some pos) None VNone VNone chord
    None tempo None None "Position" = Some tok ->
  CPWord.cp_token_type (map str_event tok) = Some ["Position"; Py.str pos].
Proof.
  pose proof (split_type_value "Position" (Py.str pos) eq_refl
                (no_underscore_str pos)) as Hsplit.
  by_flags self; destruct chord, tempo; cbn - [Py.str]; intros Htok;
    try discriminate Htok; injection Htok as <-.
  all: read_type Hsplit.
Qed.

Lemma note_token_type (self : CPWord.Config (F := F)) (t pitch : Z)
  (program : option (pyval F)) (vel dur : pyval F) (tok : CPWord.CPToken) :
  CPWord.__create_cp_token self t false None (Some (VInt pitch)) vel dur None
    None None None program "" = Some tok ->
  CPWord.cp_token_type (map str_event tok) = Some ["Pitch"; Py.str pitch].
Proof.
  pose proof (split_type_value "Pitch" (Py.str pitch) eq_refl
                (no_underscore_str pitch)) as Hsplit.
  by_flags self; destruct program; cbn - [Py.str]; intros Htok;
    try discriminate Htok; injection Htok as <-.
  all: read_type Hsplit.
Qed.

End TokenTypes.

(** ** The validator on one token of a known type *)

Section ValidatorSteps.

Context {F : Type} {fops : FloatOps F}.

(** The successions of the graph that the builder relies on. *)
Lemma allowed_table (self : CPWord.Config (F := F)) :
  allowed self "Bar" "Bar" = true
  /\ allowed self "Bar" "Position" = true
  /\ allowed self "Position" "Pitch" = true
  /\ allowed self "Pitch" "Pitch" = true
  /\ allowed self "Pitch" "Bar" = true
  /\ allowed self "Pitch" "Position" = true
  /\ (CPWord.use_rests self = true ->
      allowed self "Pitch" "Rest" = true
      /\ allowed self "Rest" "Rest" = true
      /\ allowed self "Rest" "Position" = true
      /\ allowed self "Rest" "Bar" = true)
  /\ (CPWord.use_tempos self = true ->
      allowed self "Position" "Position" = true
      /\ allowed self "Position" "Bar" = true
      /\ (CPWord.use_rests self = true ->
          allowed self "Position" "Rest" = true)).
Proof.
  destruct self as [up uc ur ut uts rdn lt ots tdv mbr mr dtm tps prs rts
                    tdt ins vlk].
  unfold allowed, CPWord._create_token_types_graph.
  cbn [CPWord.use_rests CPWord.use_tempos CPWord.use_chords].
  destruct uc, ur, ut; cbn; repeat split; try reflexivity;
    try discriminate; intros; repeat split; try reflexivity;
    try discriminate; intros; try reflexivity; discriminate.
Qed.

Variable self : CPWord.Config (F := F).

Local Abbreviation graph := (CPWord._create_token_types_graph self).

Lemma may_follow_check (vs : CPWord.ErrState) (ty : string) :
  may_follow self (Some vs) ty = true ->
  exists successors,
    CPWord.dict_get graph (CPWord.previous_type vs) = Some successors
    /\ Py.mem ty successors = true.
Proof.
  unfold may_follow, allowed.
  destruct (CPWord.dict_get graph (CPWord.previous_type vs)) as [l|];
    [ | discriminate ].
  intros Hmem. exists l. split; [reflexivity | exact Hmem].
Qed.

Lemma feed_bar (ovs : option CPWord.ErrState) (tok : list string) (v : string) :
  CPWord.cp_token_type tok = Some ["Bar"; v] ->
  may_follow self ovs "Bar" = true ->
  feed self graph ovs tok
  = Some (CPWord.mkErr (err_of ovs) "Bar" (-1) (program_of ovs)
            (CPWord.no_pitches self)).
Proof.
  intros Htype Hmay. destruct ovs as [vs|]; cbn [feed err_of program_of].
  - unfold CPWord.check_token. rewrite Htype. cbn [bind].
    apply may_follow_check in Hmay. destruct Hmay as [l [Hgraph Hmem]].
    rewrite Hgraph. cbn [bind]. rewrite Hmem.
    reflexivity.
  - rewrite Htype. reflexivity.
Qed.

Lemma feed_rest (ovs : option CPWord.ErrState) (tok : list string) (v : string) :
  CPWord.cp_token_type tok = Some ["Rest"; v] ->
  may_follow self ovs "Rest" = true ->
  feed self graph ovs tok
  = Some (CPWord.mkErr (err_of ovs) "Rest" (pos_of ovs) (program_of ovs)
            (pitches_of_state self ovs)).
Proof.
  intros Htype Hmay.
  destruct ovs as [vs|]; cbn [feed err_of program_of pos_of pitches_of_state].
  - unfold CPWord.check_token. rewrite Htype. cbn [bind].
    apply may_follow_check in Hmay. destruct Hmay as [l [Hgraph Hmem]].
    rewrite Hgraph. cbn [bind]. rewrite Hmem.
    cbn. rewrite andb_false_r. reflexivity.
  - rewrite Htype. reflexivity.
Qed.

Lemma feed_position (ovs : option CPWord.ErrState) (tok : list string)
  (pos : Z) :
  CPWord.cp_token_type tok = Some ["Position"; Py.str pos] ->
  may_follow self ovs "Position" = true ->
  type_of ovs = Some "Rest" \/ pos_of ovs < pos ->
  feed self graph ovs tok
  = Some (CPWord.mkErr (err_of ovs) "Position"
            (match ovs with Some _ => pos | None => -1 end)
            (program_of ovs) (CPWord.no_pitches self)).
Proof.
  intros Htype Hmay Hpos.
  destruct ovs as [vs|]; cbn [feed err_of program_of pos_of type_of option_map] in *.
  - unfold CPWord.check_token. rewrite Htype. cbn [bind].
    apply may_follow_check in Hmay. destruct Hmay as [l [Hgraph Hmem]].
    rewrite Hgraph. cbn [bind]. rewrite Hmem.
    cbn - [Py.str Py.int]. rewrite andb_false_r, int_str. cbn [bind].
    replace ((pos <=? CPWord.current_pos vs)
             && negb (String.eqb (CPWord.previous_type vs) "Rest")) with false;
      [reflexivity|].
    symmetry. destruct Hpos as [Hrest | Hlt].
    + injection Hrest as ->. apply andb_false_r.
    + apply andb_false_intro1. apply Z.leb_gt. exact Hlt.
  - rewrite Htype. reflexivity.
Qed.

(** A Note token when duplicated notes are not checked. *)
Lemma feed_note_unchecked (ovs : option CPWord.ErrState) (tok : list string)
  (v : string) :
  CPWord.remove_duplicated_notes self = false ->
  CPWord.cp_token_type tok = Some ["Pitch"; v] ->
  may_follow self ovs "Pitch" = true ->
  feed self graph ovs tok
  = Some (CPWord.mkErr (err_of ovs) "Pitch" (pos_of ovs) (program_of ovs)
            (pitches_of_state self ovs)).
Proof.
  intros Hdup Htype Hmay.
  destruct ovs as [vs|]; cbn [feed err_of program_of pos_of pitches_of_state].
  - unfold CPWord.check_token. rewrite Htype. cbn [bind].
    apply may_follow_check in Hmay. destruct Hmay as [l [Hgraph Hmem]].
    rewrite Hgraph. cbn [bind]. rewrite Hmem.
    rewrite Hdup. reflexivity.
  - rewrite Htype. reflexivity.
Qed.

(** A Note token when they are checked, under program 0. *)
Lemma feed_note_checked (ovs : option CPWord.ErrState) (tok : list string)
  (pitch : Z) (played : list Z) :
  CPWord.remove_duplicated_notes self = true ->
  CPWord.use_programs self = false ->
  CPWord.cp_token_type tok = Some ["Pitch"; Py.str pitch] ->
  may_follow self ovs "Pitch" = true ->
  program_of ovs = 0 ->
  CPWord.pitches_of (pitches_of_state self ovs) 0 = Some played ->
  CPWord.mem_Z pitch played = false ->
  feed self graph ovs tok
  = Some (CPWord.mkErr (err_of ovs) "Pitch" (pos_of ovs) 0
            (match ovs with
             | Some vs => CPWord.add_pitch (CPWord.current_pitches vs) 0 pitch
             | None => CPWord.no_pitches self
             end)).
Proof.
  intros Hdup Hprog Htype Hmay Hzero Hplayed Hnew.
  destruct ovs as [vs|];
    cbn [feed err_of program_of pos_of pitches_of_state] in *.
  - unfold CPWord.check_token. rewrite Htype. cbn [bind].
    apply may_follow_check in Hmay. destruct Hmay as [l [Hgraph Hmem]].
    rewrite Hgraph. cbn [bind]. rewrite Hmem.
    rewrite Hdup, Hprog. cbn - [Py.str Py.int].
    rewrite int_str. cbn [bind]. rewrite Hzero, Hplayed. cbn [bind].
    rewrite Hnew. reflexivity.
  - rewrite Htype. reflexivity.
Qed.

End ValidatorSteps.

(** ** The validator on the token runs of the builder *)

Section ValidatorRuns.

Context {F : Type} {fops : FloatOps F}.
Variable self : CPWord.Config (F := F).

Local Abbreviation graph := (CPWord._create_token_types_graph self).

Lemma feed_all_app (ovs : option CPWord.ErrState) (a b : list (list string)) :
  feed_all self graph ovs (a ++ b)
  = (x <- feed_all self graph ovs a ;; feed_all self graph x b).
Proof.
  revert ovs. induction a as [|tok a IH]; intros ovs.
  - reflexivity.
  - rewrite <- app_comm_cons. cbn [feed_all].
    destruct (feed self graph ovs tok) as [vs|]; cbn [bind];
      [apply IH | reflexivity].
Qed.

Lemma printed_app (a b : list (CPWord.CPToken (F := F))) :
  printed (a ++ b) = printed a ++ printed b.
Proof. unfold printed. apply map_app. Qed.

(** The rests that the greedy decomposition takes are entries of the table. *)
Lemma largest_fitting_in (table : list (string * Z)) (gap : Z)
  (entry : string * Z) :
  largest_fitting table gap = Some entry -> In entry table.
Proof.
  unfold largest_fitting.
  assert (Hgen : forall part best,
             incl part table ->
             (forall b, best = Some b -> In b table) ->
             fold_left
               (fun best entry =>
                  if (0 <? snd entry) && (snd entry <=? gap) then
                    match best with
                    | Some b => if snd b <? snd entry then Some entry else best
                    | None => Some entry
                    end
                  else best)
               part best = Some entry -> In entry table).
  { induction part as [|e part IH]; intros best Hincl Hbest; cbn [fold_left].
    - intros Hres. apply Hbest. exact Hres.
    - apply IH.
      + intros x Hx. apply Hincl. right. exact Hx.
      + assert (He : In e table) by (apply Hincl; left; reflexivity).
        intros b.
        destruct ((0 <? snd e) && (snd e <=? gap)); [ | apply Hbest ].
        destruct best as [b0|].
        * destruct (snd b0 <? snd e); [ intros [= <-]; exact He | apply Hbest ].
        * intros [= <-]. exact He. }
  apply (Hgen table None).
  - apply incl_refl.
  - discriminate.
Qed.

Lemma greedy_rests_in (table : list (string * Z)) (fuel : nat) :
  forall gap entry, In entry (greedy_rests fuel table gap) -> In entry table.
Proof.
  induction fuel as [|fuel IH]; intros gap entry; cbn [greedy_rests].
  - intros [].
  - destruct (largest_fitting table gap) as [e|] eqn:Efit; [ | intros [] ].
    intros [<- | Hin].
    + apply largest_fitting_in with (gap := gap). exact Efit.
    + apply IH with (gap := gap - snd e). exact Hin.
Qed.

Lemma rest_tokens_feed (event_time : Z) (values : list (string * Z)) :
  forall (start final : Z) (toks : list CPWord.CPToken)
         (ovs : option CPWord.ErrState),
    forallb (fun r => no_underscore (fst r)) values = true ->
    allowed self "Rest" "Rest" = true ->
    may_follow self ovs "Rest" = true ->
    CPWord.rest_tokens self event_time start values = Some (toks, final) ->
    feed_all self graph ovs (printed toks)
    = Some (match values with [] => ovs | _ :: _ => after_rest self ovs end).
Proof.
  induction values as [|[label ticks] more IH];
    intros start final toks ovs Hlabels Hrest Hmay Hrun.
  - injection Hrun as <- <-. reflexivity.
  - cbn [CPWord.rest_tokens] in Hrun.
    apply bind_Some in Hrun. destruct Hrun as [tok [Htok Hrun]].
    apply bind_Some in Hrun. destruct Hrun as [[toks' final'] [Hmore Hrun]].
    injection Hrun as <- <-.
    cbn [forallb fst] in Hlabels. apply andb_prop in Hlabels.
    destruct Hlabels as [Hlabel Hlabels].
    apply rest_token_type in Htok; [ | exact Hlabel ].
    unfold printed. cbn [map feed_all].
    rewrite (feed_rest self ovs _ label Htok Hmay). cbn [bind].
    fold (after_rest self ovs).
    change (map (map str_event) toks') with (printed toks').
    rewrite (IH _ _ _ (after_rest self ovs) Hlabels Hrest Hrest Hmore).
    destruct more; reflexivity.
Qed.

Lemma bar_tokens_feed (num_new_bars : Z) (st : CPWord.EncState)
  (event : Event F) (count : nat) :
  forall (i : Z) (time_sig_arg : option string) (toks : list CPWord.CPToken)
         (ovs : option CPWord.ErrState),
    (count <> 0%nat -> may_follow self ovs "Bar" = true) ->
    CPWord.bar_tokens self count i num_new_bars time_sig_arg st event
    = Some toks ->
    feed_all self graph ovs (printed toks)
    = Some (match count with O => ovs | S _ => after_bar self ovs end).
Proof.
  induction count as [|count IH]; intros i tsa toks ovs Hmay Hrun.
  - injection Hrun as <-. reflexivity.
  - cbn [CPWord.bar_tokens] in Hrun.
    apply bind_Some in Hrun. destruct Hrun as [tsa' [_ Hrun]].
    apply bind_Some in Hrun. destruct Hrun as [tok [Htok Hrun]].
    apply bind_Some in Hrun. destruct Hrun as [toks' [Hmore Hrun]].
    injection Hrun as <-.
    apply bar_token_type in Htok.
    unfold printed. cbn [map feed_all].
    rewrite (feed_bar self ovs _ "None" Htok (Hmay (Nat.neq_succ_0 _))).
    cbn [bind]. fold (after_bar self ovs).
    change (map (map str_event) toks') with (printed toks').
    assert (Hnext : count <> 0%nat ->
                    may_follow self (after_bar self ovs) "Bar" = true).
    { intros _. exact (proj1 (allowed_table self)). }
    rewrite (IH _ _ _ (after_bar self ovs) Hnext Hmore).
    destruct count; reflexivity.
Qed.

End ValidatorRuns.

(** ** The validator on the blocks of one event *)

Section GrammarBlocks.

Context {F : Type} {fops : FloatOps F}.
Variable self : CPWord.Config (F := F).

Local Abbreviation graph := (CPWord._create_token_types_graph self).

Lemma grammar_config_facts :
  grammar_config self = true ->
  0 < CPWord.time_division self
  /\ (CPWord.use_rests self = true ->
      CPWord.use_time_signatures self = false
      /\ 0 < CPWord.min_rest self
      /\ (exists label, In (label, CPWord.min_rest self) (CPWord.rests self))
      /\ forall r, In r (CPWord.rests self) -> no_underscore (fst r) = true)
  /\ (CPWord.remove_duplicated_notes self = true ->
      CPWord.use_programs self = false
      /\ CPWord.mem_Z 0 (CPWord.programs self) = true).
Proof.
  unfold grammar_config. intros Hcfg.
  apply andb_prop in Hcfg. destruct Hcfg as [Hcfg Hdup].
  apply andb_prop in Hcfg. destruct Hcfg as [Hcfg Hrests].
  apply andb_prop in Hcfg. destruct Hcfg as [Hboth Hdiv].
  split; [apply Z.ltb_lt; exact Hdiv|]. split.
  - intros Hr. rewrite Hr in Hboth, Hrests. cbn [negb andb orb] in Hboth, Hrests.
    apply andb_prop in Hrests. destruct Hrests as [Hrests Hlabels].
    apply andb_prop in Hrests. destruct Hrests as [Hmin Hfound].
    split; [destruct (CPWord.use_time_signatures self);
            [discriminate | reflexivity]|].
    split; [apply Z.ltb_lt; exact Hmin|]. split.
    + apply existsb_exists in Hfound. destruct Hfound as [[label ticks] [Hin Heq]].
      cbn [snd] in Heq. apply Z.eqb_eq in Heq. subst ticks.
      exists label. exact Hin.
    + intros r Hin. rewrite forallb_forall in Hlabels. apply Hlabels. exact Hin.
  - intros Hd. rewrite Hd in Hdup. cbn [negb orb] in Hdup.
    apply andb_prop in Hdup. destruct Hdup as [Hprog Hzero].
    split; [ | exact Hzero ].
    destruct (CPWord.use_programs self); [discriminate | reflexivity].
Qed.

Hypothesis Hconfig : grammar_config self = true.

Lemma rest_block_feed (st st1 : CPWord.EncState) (event : Event F)
  (toks : list CPWord.CPToken) (ovs : option CPWord.ErrState) :
  (CPWord.use_rests self = true -> may_follow self ovs "Rest" = true) ->
  CPWord.rest_block self st event = Some (st1, toks) ->
  (toks = [] /\ st1 = st)
  \/ (CPWord.use_rests self = true
      /\ feed_all self graph ovs (printed toks) = Some (after_rest self ovs)
      /\ same_grid st1 st).
Proof.
  intros Hmay Hrun.
  destruct (CPWord.use_rests self
            && (CPWord.min_rest self <=? rest_gap st event)) eqn:Efire.
  - right. apply andb_prop in Efire. destruct Efire as [Hrests Hgap].
    apply Z.leb_le in Hgap.
    destruct (grammar_config_facts Hconfig) as [_ [Htable _]].
    destruct (Htable Hrests) as [_ [Hmin [[label Hin] Hlabels]]].
    split; [exact Hrests|].
    assert (Hfire : CPWord.use_rests self
                    && (CPWord.min_rest self <=? rest_gap st event) = true).
    { rewrite Hrests. apply Z.leb_le. exact Hgap. }
    split; [ | apply (rest_block_fires self _ _ _ _ Hfire Hrun) ].
    unfold CPWord.rest_block in Hrun. fold (rest_gap st event) in Hrun.
    rewrite Hfire in Hrun. fold (rest_values self st event) in Hrun.
    apply bind_Some in Hrun. destruct Hrun as [[rtoks final] [Hrun Hnext]].
    apply bind_Some in Hnext. destruct Hnext as [q [_ Hnext]].
    assert (Htoks : toks = rtoks).
    { destruct (CPWord.current_bar st <? _); injection Hnext as _ <-;
        reflexivity. }
    subst toks.
    rewrite (rest_tokens_feed self _ (rest_values self st event) _ _ _ ovs)
      with (4 := Hrun).
    + pose proof (rests_found _ _ _ _ Hin Hmin Hgap) as Hsome.
      fold (rest_values self st event) in Hsome.
      destruct (rest_values self st event); [contradiction | reflexivity].
    + apply forallb_forall. intros r Hr. apply Hlabels.
      apply greedy_rests_in in Hr. exact Hr.
    + destruct (allowed_table self) as [_ [_ [_ [_ [_ [_ [Hr _]]]]]]].
      apply (Hr Hrests).
    + apply Hmay. exact Hrests.
  - left. apply (rest_block_idle self _ _ _ _ Efire Hrun).
Qed.

Lemma bar_block_feed (st1 st2 : CPWord.EncState) (event : Event F)
  (toks : list CPWord.CPToken) (ovs : option CPWord.ErrState) :
  0 < CPWord.ticks_per_bar st1 ->
  may_follow self ovs "Bar" = true ->
  CPWord.bar_block self st1 event = Some (st2, toks) ->
  same_grid st2 st1
  /\ CPWord.previous_tick st2 = CPWord.previous_tick st1
  /\ ((toks = [] /\ st2 = st1)
      \/ (feed_all self graph ovs (printed toks) = Some (after_bar self ovs)
          /\ CPWord.tick_at_current_bar st2 <= time event)).
Proof.
  intros Htpb Hmay Hrun.
  destruct (bar_block_spec self _ _ _ _ Hrun) as [Hgrid [_ [Hprev _]]].
  split; [exact Hgrid|]. split; [exact Hprev|].
  unfold CPWord.bar_block in Hrun.
  apply bind_Some in Hrun. destruct Hrun as [q [Hq Hrun]].
  apply floordiv_Some in Hq. destruct Hq as [_ ->].
  destruct (1 <=? _) eqn:Enew.
  - right. apply Z.leb_le in Enew.
    apply bind_Some in Hrun. destruct Hrun as [bars [Hbars Hrun]].
    injection Hrun as <- <-. cbn [CPWord.tick_at_current_bar]. split.
    + rewrite (bar_tokens_feed self _ _ _ _ _ _ _ ovs (fun _ => Hmay) Hbars).
      destruct (Z.to_nat _) eqn:Ecount; [lia | reflexivity].
    + pose proof (Z.mul_div_le
                    (time event - CPWord.tick_at_last_ts_change st1)
                    (CPWord.ticks_per_bar st1) Htpb) as Hle.
      nia.
  - left. injection Hrun as <- <-. split; reflexivity.
Qed.

Lemma position_block_feed (st2 : CPWord.EncState) (event : Event F)
  (toks : list CPWord.CPToken) (ovs : option CPWord.ErrState) :
  String.eqb (type_ event) "TimeSig" = false ->
  may_follow self ovs "Position" = true ->
  type_of ovs = Some "Rest"
  \/ pos_of ovs < time event - CPWord.tick_at_current_bar st2 ->
  CPWord.position_block self st2 event = Some toks ->
  feed_all self graph ovs (printed toks)
  = Some (after_position self ovs
            (time event - CPWord.tick_at_current_bar st2)).
Proof.
  intros Hty Hmay Hpos Hrun. unfold CPWord.position_block in Hrun.
  rewrite Hty in Hrun. cbn [negb] in Hrun.
  apply bind_Some in Hrun. destruct Hrun as [tok [Htok Hrun]].
  injection Hrun as <-.
  apply position_token_type in Htok.
  unfold printed. cbn [map feed_all].
  rewrite (feed_position self ovs _ _ Htok Hmay Hpos). reflexivity.
Qed.

End GrammarBlocks.

(** ** The validator on the time block of an event *)

Section GrammarTimeBlock.

Context {F : Type} {fops : FloatOps F}.
Variable self : CPWord.Config (F := F).
Hypothesis Hconfig : grammar_config self = true.

Local Abbreviation graph := (CPWord._create_token_types_graph self).

Lemma type_of_Some (vs : CPWord.ErrState) (ty : string) :
  type_of (Some vs) = Some ty -> CPWord.previous_type vs = ty.
Proof. cbn. intros [= Heq]. exact Heq. Qed.

Lemma may_begin_tick_follows (ovs : option CPWord.ErrState) :
  may_begin_tick self ovs ->
  may_follow self ovs "Bar" = true
  /\ may_follow self ovs "Position" = true
  /\ (CPWord.use_rests self = true -> may_follow self ovs "Rest" = true).
Proof.
  destruct (allowed_table self)
    as [Hbb [Hbp [_ [_ [Hnb [Hnp [Hrests Htempos]]]]]]].
  intros Hty. destruct ovs as [vs|]; [ | repeat split ].
  unfold may_follow.
  destruct Hty as [Hty | [Hty | [[Hty Ht] | [Hty Hr]]]].
  - discriminate Hty.
  - apply type_of_Some in Hty. rewrite Hty.
    split; [exact Hnb|]. split; [exact Hnp|].
    intros Hr. apply (Hrests Hr).
  - apply type_of_Some in Hty. rewrite Hty.
    destruct (Htempos Ht) as [Hpp [Hpb Hpr]].
    split; [exact Hpb|]. split; [exact Hpp|]. exact Hpr.
  - apply type_of_Some in Hty. rewrite Hty.
    split; [exact Hbb|]. split; [exact Hbp|].
    intros Hr'. rewrite Hr in Hr'. discriminate Hr'.
Qed.

Lemma time_block_feed (st st3 : CPWord.EncState) (event : Event F)
  (toks : list CPWord.CPToken) (ovs : option CPWord.ErrState) :
  CPWord.previous_tick st < time event ->
  0 < CPWord.ticks_per_bar st ->
  pos_of ovs <= CPWord.previous_tick st - CPWord.tick_at_current_bar st ->
  may_begin_tick self ovs ->
  CPWord.time_block self st event = Some (st3, toks) ->
  exists ovs3,
    feed_all self graph ovs (printed toks) = Some ovs3
    /\ err_of ovs3 = err_of ovs
    /\ program_of ovs3 = program_of ovs
    /\ CPWord.previous_tick st3 = time event
    /\ same_grid st3 st
    /\ (if String.eqb (type_ event) "TimeSig" then
          CPWord.use_rests self = false ->
          (ovs3 = ovs
           /\ CPWord.tick_at_current_bar st3 = CPWord.tick_at_current_bar st)
          \/ (ovs3 = after_bar self ovs
              /\ CPWord.tick_at_current_bar st3 <= time event)
        else
          type_of ovs3 = Some "Position"
          /\ pos_of ovs3 <= time event - CPWord.tick_at_current_bar st3
          /\ pitches_of_state self ovs3 = CPWord.no_pitches self).
Proof.
  intros Hfresh Htpb Hpos Hty Hrun.
  destruct (time_block_spec self _ _ _ _ Hrun) as [Hgrid [Hprev _]].
  destruct (may_begin_tick_follows ovs Hty) as [Hbar [Hposn Hrest]].
  destruct (allowed_table self)
    as [_ [Hbp [_ [_ [_ [_ [Hrests _]]]]]]].
  apply time_block_new_tick in Hrun; [ | lia ].
  destruct Hrun as [st1 [st2 [rest_toks [bar_toks [pos_toks
                     [Hrb [Hbb [Hpb [-> ->]]]]]]]]].
  rewrite !printed_app.
  cbn [CPWord.tick_at_current_bar CPWord.set_previous_tick].
  assert (Hsteps :
    exists ovs1 ovs2,
      feed_all self graph ovs (printed rest_toks) = Some ovs1
      /\ feed_all self graph ovs1 (printed bar_toks) = Some ovs2
      /\ err_of ovs2 = err_of ovs /\ program_of ovs2 = program_of ovs
      /\ ((ovs2 = ovs
           /\ CPWord.tick_at_current_bar st2 = CPWord.tick_at_current_bar st)
          \/ (CPWord.use_rests self = true /\ type_of ovs2 = Some "Rest")
          \/ (type_of ovs2 = Some "Bar" /\ pos_of ovs2 = -1
              /\ CPWord.tick_at_current_bar st2 <= time event
              /\ (CPWord.use_rests self = false -> ovs2 = after_bar self ovs)))).
  { destruct (rest_block_feed self Hconfig _ _ _ _ ovs Hrest Hrb)
      as [[-> ->] | [Hr [Hfeed Hgrid1]]].
    - destruct (bar_block_feed self _ _ _ _ ovs Htpb Hbar Hbb)
        as [_ [_ [[-> ->] | [Hfeed Hle]]]].
      + exists ovs, ovs. split; [reflexivity|]. split; [reflexivity|].
        repeat split. left. split; reflexivity.
      + exists ovs, (after_bar self ovs). split; [reflexivity|].
        split; [exact Hfeed|]. split; [reflexivity|]. split; [reflexivity|].
        right. right. split; [reflexivity|]. split; [reflexivity|].
        split; [exact Hle | reflexivity].
    - assert (Htpb1 : 0 < CPWord.ticks_per_bar st1).
      { destruct Hgrid1 as [_ [_ [-> _]]]. exact Htpb. }
      destruct (Hrests Hr) as [_ [_ [_ Hrb']]].
      destruct (bar_block_feed self _ _ _ _ (after_rest self ovs) Htpb1 Hrb' Hbb)
        as [_ [_ [[-> ->] | [Hfeed2 Hle]]]].
      + exists (after_rest self ovs), (after_rest self ovs).
        split; [exact Hfeed|]. split; [reflexivity|].
        repeat split. right. left. split; [exact Hr | reflexivity].
      + exists (after_rest self ovs), (after_bar self (after_rest self ovs)).
        split; [exact Hfeed|]. split; [exact Hfeed2|]. split; [reflexivity|]. split; [reflexivity|].
        right. right. split; [reflexivity|]. split; [reflexivity|].
        split; [exact Hle|].
        intros Hr'. rewrite Hr in Hr'. discriminate Hr'. }
  destruct Hsteps as [ovs1 [ovs2 [Hfeed1 [Hfeed2 [Herr2 [Hprog2 Hcases]]]]]].
  rewrite feed_all_app, Hfeed1. cbn [bind].
  rewrite feed_all_app, Hfeed2. cbn [bind].
  destruct (String.eqb (type_ event) "TimeSig") eqn:Ets.
  - unfold CPWord.position_block in Hpb. rewrite Ets in Hpb.
    injection Hpb as <-. exists ovs2. cbn [printed map feed_all].
    split; [reflexivity|]. split; [exact Herr2|]. split; [exact Hprog2|].
    split; [exact Hprev|]. split; [exact Hgrid|].
    intros Hr. destruct Hcases as [[-> Htick] | [[Hr' _] | [_ [_ [Hle Hafter]]]]].
    + left. split; [reflexivity | exact Htick].
    + rewrite Hr in Hr'. discriminate Hr'.
    + right. split; [apply Hafter; exact Hr | exact Hle].
  - exists (after_position self ovs2
              (time event - CPWord.tick_at_current_bar st2)).
    assert (Hready : may_follow self ovs2 "Position" = true
                     /\ (type_of ovs2 = Some "Rest"
                         \/ pos_of ovs2
                            < time event - CPWord.tick_at_current_bar st2)).
    { destruct Hcases as [[-> Htick] | [[Hr Htype] | [Htype [Hm1 [Hle _]]]]].
      - split; [exact Hposn|]. right. lia.
      - split; [ | left; exact Htype ].
        destruct ovs2 as [vs|]; [ | reflexivity ].
        apply type_of_Some in Htype. unfold may_follow. rewrite Htype.
        apply (Hrests Hr).
      - split; [ | right; lia ].
        destruct ovs2 as [vs|]; [ | reflexivity ].
        apply type_of_Some in Htype. unfold may_follow. rewrite Htype.
        exact Hbp. }
    destruct Hready as [Hmay Hnew].
    split; [exact (position_block_feed self _ _ _ _ Ets Hmay Hnew Hpb)|].
    split; [exact Herr2|]. split; [exact Hprog2|].
    split; [exact Hprev|]. split; [exact Hgrid|].
    split; [reflexivity|]. split; [ | reflexivity ].
    cbn [after_position pos_of CPWord.current_pos].
    destruct ovs2 as [vs|]; [lia|].
    destruct Hnew as [Hrest' | Hlt]; [discriminate Hrest'|].
    cbn [pos_of] in Hlt. lia.
Qed.

End GrammarTimeBlock.

(** ** The validator on one event *)

Section GrammarEvents.

Context {F : Type} {fops : FloatOps F}.
Variable self : CPWord.Config (F := F).
Hypothesis Hconfig : grammar_config self = true.

Local Abbreviation graph := (CPWord._create_token_types_graph self).

Lemma pitches_no_pitches :
  CPWord.mem_Z 0 (CPWord.programs self) = true ->
  CPWord.pitches_of (CPWord.no_pitches self) 0 = Some [].
Proof.
  unfold CPWord.no_pitches, CPWord.mem_Z.
  induction (CPWord.programs self) as [|p more IH]; cbn [existsb map].
  - discriminate.
  - cbn [CPWord.pitches_of]. rewrite (Z.eqb_sym p 0).
    destruct (0 =? p); [reflexivity | exact IH].
Qed.

Lemma pitches_add_pitch (cp : list (Z * list Z)) (prog pitch : Z)
  (played : list Z) :
  CPWord.pitches_of cp prog = Some played ->
  CPWord.pitches_of (CPWord.add_pitch cp prog pitch) prog
  = Some (played ++ [pitch]).
Proof.
  induction cp as [|[p l] more IH]; cbn [CPWord.pitches_of CPWord.add_pitch].
  - discriminate.
  - destruct (p =? prog) eqn:Ep; cbn [CPWord.pitches_of]; rewrite Ep.
    + intros [= <-]. reflexivity.
    + exact IH.
Qed.

Lemma mem_Z_incl (x : Z) (played seen : list Z) :
  incl played seen ->
  CPWord.mem_Z x seen = false -> CPWord.mem_Z x played = false.
Proof.
  unfold CPWord.mem_Z. intros Hincl Hseen.
  destruct (existsb (Z.eqb x) played) eqn:Eplayed; [ | reflexivity ].
  apply existsb_exists in Eplayed. destruct Eplayed as [y [Hin Heq]].
  rewrite <- Hseen. symmetry. apply existsb_exists.
  exists y. split; [apply Hincl; exact Hin | exact Heq].
Qed.

(** A Program event: the loop continues at once. *)
Lemma program_event_in_step (st st' : CPWord.EncState) (event : Event F)
  (following : list (Event F)) (toks : list CPWord.CPToken)
  (ovs : option CPWord.ErrState) (prev last : Z) (pending : bool)
  (seen : list Z) :
  type_ event = "Program" ->
  last <= time event ->
  in_step self st ovs prev last pending seen ->
  CPWord.encode_event self st event following = Some (st', toks) ->
  toks = [] /\ in_step self st' ovs prev (time event) pending seen.
Proof.
  intros Hty Hlast Hstep. unfold CPWord.encode_event. rewrite Hty.
  cbn [String.eqb Ascii.eqb Bool.eqb]. intros [= <- <-].
  split; [reflexivity|].
  destruct Hstep as [Hprev [Hle [Htpb [Herr [Hpos [Htype [Hpend Hdup]]]]]]].
  unfold in_step. cbn.
  split; [exact Hprev|]. split; [lia|]. split; [exact Htpb|].
  split; [exact Herr|]. split; [exact Hpos|].
  split; [ | split; [exact Hpend | exact Hdup] ].
  destruct Htype as [H | [H | [H | [H [Hr Hlt]]]]]; auto.
  right. right. right. split; [exact H|]. split; [exact Hr | lia].
Qed.

(** The time block of an event that is no TimeSig event, on the tick of the
    event before it or on a new one. *)
Lemma tick_step (st st1 : CPWord.EncState) (event : Event F)
  (toks : list CPWord.CPToken) (ovs : option CPWord.ErrState)
  (prev last : Z) (pending : bool) (seen : list Z) :
  String.eqb (type_ event) "TimeSig" = false ->
  last <= time event ->
  (pending = true -> time event = prev) ->
  in_step self st ovs prev last pending seen ->
  CPWord.time_block self st event = Some (st1, toks) ->
  exists ovs1,
    feed_all self graph ovs (printed toks) = Some ovs1
    /\ CPWord.previous_tick st1 = time event
    /\ 0 < CPWord.ticks_per_bar st1
    /\ err_of ovs1 = 0
    /\ pos_of ovs1 <= time event - CPWord.tick_at_current_bar st1
    /\ (CPWord.remove_duplicated_notes self = true ->
        program_of ovs1 = 0
        /\ exists played,
             CPWord.pitches_of (pitches_of_state self ovs1) 0 = Some played
             /\ incl played (if negb (time event =? prev) then [] else seen))
    /\ ((time event = prev /\ ovs1 = ovs)
        \/ (prev < time event /\ type_of ovs1 = Some "Position")).
Proof.
  intros Hts Hlast Hsame Hstep Hrun.
  destruct Hstep as [Hprev [Hle [Htpb [Herr [Hpos [Htype [Hpend Hdup]]]]]]].
  destruct (Z.eq_dec (time event) prev) as [Heq | Hne].
  - assert (Hnow : time event = CPWord.previous_tick st) by congruence.
    destruct (time_block_same_tick self _ _ _ _ Hnow Hrun) as [-> ->].
    exists ovs. split; [reflexivity|]. split; [congruence|].
    split; [exact Htpb|]. split; [exact Herr|]. split; [lia|].
    split; [ | left; split; [exact Heq | reflexivity] ].
    rewrite Heq, Z.eqb_refl. exact Hdup.
  - assert (Hidle : pending = false).
    { destruct pending; [ | reflexivity ]. elim Hne. apply Hsame. reflexivity. }
    subst pending.
    assert (Hbegin : may_begin_tick self ovs).
    { destruct Htype as [H | [H | [[H [Ht | Hp]] | [H [Hr _]]]]].
      - left. exact H.
      - right. left. exact H.
      - right. right. left. split; assumption.
      - discriminate Hp.
      - right. right. right. split; assumption. }
    assert (Hfresh : CPWord.previous_tick st < time event) by lia.
    rewrite <- Hprev in Hpos.
    destruct (time_block_feed self Hconfig _ _ _ _ ovs Hfresh Htpb Hpos
                Hbegin Hrun)
      as [ovs3 [Hfeed [Herr3 [Hprog3 [Hprev3 [Hgrid3 Hend]]]]]].
    rewrite Hts in Hend. destruct Hend as [Htype3 [Hpos3 Hpitches3]].
    exists ovs3. split; [exact Hfeed|]. split; [exact Hprev3|].
    split; [destruct Hgrid3 as [_ [_ [-> _]]]; exact Htpb|].
    split; [congruence|]. split; [exact Hpos3|].
    split; [ | right; split; [lia | exact Htype3] ].
    intros Hd. destruct (Hdup Hd) as [Hzero _].
    split; [congruence|]. exists []. rewrite Hpitches3.
    split; [ | apply incl_nil_l ].
    apply pitches_no_pitches.
    destruct (grammar_config_facts self Hconfig) as [_ [_ Hcfg]].
    apply (Hcfg Hd).
Qed.

End GrammarEvents.

Section GrammarMarkers.

Context {F : Type} {fops : FloatOps F}.
Variable self : CPWord.Config (F := F).
Hypothesis Hconfig : grammar_config self = true.

Local Abbreviation graph := (CPWord._create_token_types_graph self).

(** A Tempo or a Chord event runs the time block and keeps the end of the
    last note up to date; it emits no token of its own. *)
Lemma marker_event_blocks (st st' : CPWord.EncState) (event : Event F)
  (following : list (Event F)) (toks : list CPWord.CPToken) :
  type_ event = "Tempo" \/ type_ event = "Chord" ->
  CPWord.encode_event self st event following = Some (st', toks) ->
  exists st0 st1,
    (st0 = st \/ st0 = CPWord.set_current_tempo st (value event))
    /\ CPWord.time_block self st0 event = Some (st1, toks)
    /\ st' = CPWord.set_previous_note_end st1
               (Z.max (CPWord.previous_note_end st1) (time event)).
Proof.
  intros Hkind Hrun.
  apply encode_event_blocks in Hrun;
    [ | destruct Hkind as [-> | ->]; discriminate ].
  destruct Hrun as [st0 [st1 [st2 [time_toks [note_toks
                     [Hst0 [Htime [Hsig [Hnote ->]]]]]]]]].
  exists st0, st1.
  split; [destruct (String.eqb (type_ event) "Tempo"); [right | left];
          exact Hst0|].
  unfold CPWord.time_sig_block in Hsig. unfold CPWord.note_block in Hnote.
  destruct Hkind as [Hty | Hty]; rewrite Hty in Hsig, Hnote;
    cbn in Hsig; injection Hsig as <-;
    destruct following as [|e1 [|e2 more]]; cbn in Hnote;
    injection Hnote as <- <-; rewrite app_nil_r;
    (split; [exact Htime | reflexivity]).
Qed.

Lemma tempo_event_in_step (st st' : CPWord.EncState) (event : Event F)
  (following : list (Event F)) (toks : list CPWord.CPToken)
  (ovs : option CPWord.ErrState) (prev last : Z) (seen : list Z) :
  type_ event = "Tempo" ->
  CPWord.use_tempos self = true ->
  last <= time event ->
  in_step self st ovs prev last false seen ->
  CPWord.encode_event self st event following = Some (st', toks) ->
  exists ovs',
    feed_all self graph ovs (printed toks) = Some ovs'
    /\ in_step self st' ovs' (time event) (time event) false
         (if negb (time event =? prev) then [] else seen).
Proof.
  intros Hty Htempos Hlast Hstep Hrun.
  apply marker_event_blocks in Hrun; [ | left; exact Hty ].
  destruct Hrun as [st0 [st1 [Hst0 [Htime ->]]]].
  assert (Hstep0 : in_step self st0 ovs prev last false seen).
  { destruct Hst0 as [-> | ->]; exact Hstep. }
  assert (Hts : String.eqb (type_ event) "TimeSig" = false)
    by (rewrite Hty; reflexivity).
  destruct (tick_step self Hconfig _ _ _ _ _ _ _ _ _ Hts Hlast
              (fun H => False_ind _ (Bool.diff_false_true H)) Hstep0 Htime)
    as [ovs1 [Hfeed [Hprev1 [Htpb1 [Herr1 [Hpos1 [Hdup1 Hcase]]]]]]].
  exists ovs1. split; [exact Hfeed|].
  unfold in_step. cbn [CPWord.set_previous_note_end CPWord.previous_tick
                       CPWord.ticks_per_bar CPWord.tick_at_current_bar].
  split; [exact Hprev1|]. split; [lia|]. split; [exact Htpb1|].
  split; [exact Herr1|]. split; [exact Hpos1|].
  split; [ | split; [discriminate | exact Hdup1] ].
  destruct Hcase as [[Heq ->] | [_ Htype]].
  - destruct Hstep as [_ [Hle [_ [_ [_ [Htype _]]]]]].
    destruct Htype as [H | [H | [[H _] | [_ [_ Hlt]]]]].
    + left. exact H.
    + right. left. exact H.
    + right. right. left. split; [exact H | left; exact Htempos].
    + lia.
  - right. right. left. split; [exact Htype | left; exact Htempos].
Qed.

Lemma chord_event_in_step (st st' : CPWord.EncState) (event : Event F)
  (following : list (Event F)) (toks : list CPWord.CPToken)
  (ovs : option CPWord.ErrState) (prev last : Z) (pending : bool)
  (seen : list Z) :
  type_ event = "Chord" ->
  last <= time event ->
  (pending = true -> time event = prev) ->
  in_step self st ovs prev last pending seen ->
  CPWord.encode_event self st event following = Some (st', toks) ->
  exists ovs',
    feed_all self graph ovs (printed toks) = Some ovs'
    /\ in_step self st' ovs' (time event) (time event)
         (if negb (time event =? prev)
          then negb (CPWord.use_tempos self) else pending)
         (if negb (time event =? prev) then [] else seen).
Proof.
  intros Hty Hlast Hsame Hstep Hrun.
  apply marker_event_blocks in Hrun; [ | right; exact Hty ].
  destruct Hrun as [st0 [st1 [Hst0 [Htime ->]]]].
  assert (Hstep0 : in_step self st0 ovs prev last pending seen).
  { destruct Hst0 as [-> | ->]; exact Hstep. }
  assert (Hts : String.eqb (type_ event) "TimeSig" = false)
    by (rewrite Hty; reflexivity).
  destruct (tick_step self Hconfig _ _ _ _ _ _ _ _ _ Hts Hlast Hsame
              Hstep0 Htime)
    as [ovs1 [Hfeed [Hprev1 [Htpb1 [Herr1 [Hpos1 [Hdup1 Hcase]]]]]]].
  exists ovs1. split; [exact Hfeed|].
  unfold in_step. cbn [CPWord.set_previous_note_end CPWord.previous_tick
                       CPWord.ticks_per_bar CPWord.tick_at_current_bar].
  split; [exact Hprev1|]. split; [lia|]. split; [exact Htpb1|].
  split; [exact Herr1|]. split; [exact Hpos1|].
  destruct Hstep as [_ [Hle [_ [_ [_ [Htype [Hpend _]]]]]]].
  destruct Hcase as [[Heq ->] | [Hlt Htype1]].
  - rewrite Heq, Z.eqb_refl in *. cbn [negb] in *.
    split; [ | split; [exact Hpend | exact Hdup1] ].
    destruct Htype as [H | [H | [H | [_ [_ Hlt]]]]].
    + left. exact H.
    + right. left. exact H.
    + right. right. left. exact H.
    + lia.
  - assert (Hne : (time event =? prev) = false) by (apply Z.eqb_neq; lia).
    rewrite Hne in *. cbn [negb] in *.
    split; [ | split; [intros _; exact Htype1 | exact Hdup1] ].
    right. right. left. split; [exact Htype1|].
    destruct (CPWord.use_tempos self); [left | right]; reflexivity.
Qed.

End GrammarMarkers.

Section GrammarNotes.

Context {F : Type} {fops : FloatOps F}.
Variable self : CPWord.Config (F := F).
Hypothesis Hconfig : grammar_config self = true.

Local Abbreviation graph := (CPWord._create_token_types_graph self).

(** The Velocity and Duration events of a note, on the tick of its Pitch
    event, go through the loop without a trace. *)
Lemma silent_event (st : CPWord.EncState) (event : Event F)
  (following : list (Event F)) :
  type_ event = "Velocity" \/ type_ event = "Duration" ->
  time event = CPWord.previous_tick st ->
  CPWord.encode_event self st event following = Some (st, []).
Proof.
  intros Hkind Hnow.
  unfold CPWord.encode_event, CPWord.time_block, CPWord.time_sig_block,
    CPWord.note_block.
  destruct Hkind as [-> | ->]; cbn - [Z.eqb];
    rewrite Hnow, Z.eqb_refl; cbn;
    destruct following as [|e1 [|e2 more]]; reflexivity.
Qed.

Lemma time_sig_event_in_step (st st' : CPWord.EncState) (event : Event F)
  (following : list (Event F)) (toks : list CPWord.CPToken)
  (ovs : option CPWord.ErrState) (prev last : Z) (seen : list Z) :
  type_ event = "TimeSig" ->
  CPWord.use_time_signatures self = true ->
  last < time event ->
  time_sig_ok self event = true ->
  in_step self st ovs prev last false seen ->
  CPWord.encode_event self st event following = Some (st', toks) ->
  exists ovs',
    feed_all self graph ovs (printed toks) = Some ovs'
    /\ in_step self st' ovs' (time event - 1) (time event) false seen.
Proof.
  intros Hty Hsigs Hlast Hok Hstep Hrun.
  assert (Hrests : CPWord.use_rests self = false).
  { destruct (grammar_config_facts self Hconfig) as [_ [Hr _]].
    destruct (CPWord.use_rests self); [ | reflexivity ].
    destruct (Hr eq_refl) as [Hoff _]. congruence. }
  apply encode_event_blocks in Hrun; [ | rewrite Hty; discriminate ].
  destruct Hrun as [st0 [st1 [st2 [time_toks [note_toks
                     [Hst0 [Htime [Hsig [Hnote ->]]]]]]]]].
  rewrite Hty in Hst0. cbn in Hst0. subst st0.
  destruct Hstep as [Hprev [Hle [Htpb [Herr [Hpos [Htype [_ Hdup]]]]]]].
  assert (Hbegin : may_begin_tick self ovs).
  { destruct Htype as [H | [H | [[H [Ht | Hp]] | [H [Hr _]]]]].
    - left. exact H.
    - right. left. exact H.
    - right. right. left. split; assumption.
    - discriminate Hp.
    - right. right. right. split; assumption. }
  assert (Hfresh : CPWord.previous_tick st < time event) by lia.
  rewrite <- Hprev in Hpos.
  destruct (time_block_feed self Hconfig _ _ _ _ ovs Hfresh Htpb Hpos
              Hbegin Htime)
    as [ovs3 [Hfeed [Herr3 [Hprog3 [Hprev3 [Hgrid3 Hend]]]]]].
  rewrite Hty in Hend. cbn in Hend. specialize (Hend Hrests).
  unfold CPWord.time_sig_block in Hsig. rewrite Hty in Hsig. cbn in Hsig.
  apply bind_Some in Hsig. destruct Hsig as [ts [Hparse Hsig]].
  apply bind_Some in Hsig. destruct Hsig as [q [_ Hsig]].
  injection Hsig as <-.
  unfold time_sig_ok in Hok. rewrite Hty, Hparse in Hok. cbn in Hok.
  apply Z.ltb_lt in Hok.
  unfold CPWord.note_block in Hnote. rewrite Hty in Hnote.
  assert (Hst' : st' = CPWord.set_previous_note_end
                         {| CPWord.current_bar := CPWord.current_bar st1;
                            CPWord.bar_at_last_ts_change :=
                              CPWord.bar_at_last_ts_change st1 + q;
                            CPWord.previous_tick := CPWord.previous_tick st1 - 1;
                            CPWord.previous_note_end :=
                              CPWord.previous_note_end st1;
                            CPWord.tick_at_last_ts_change := time event;
                            CPWord.tick_at_current_bar :=
                              CPWord.tick_at_current_bar st1;
                            CPWord.current_time_sig := ts;
                            CPWord.current_tempo := CPWord.current_tempo st1;
                            CPWord.current_program := CPWord.current_program st1;
                            CPWord.ticks_per_bar :=
                              compute_ticks_per_bar ts
                                (CPWord.time_division self) |}
                         (Z.max (CPWord.previous_note_end st1) (time event))
                /\ note_toks = []).
  { destruct following as [|e1 [|e2 more]]; cbn in Hnote;
      injection Hnote as <- <-; split; reflexivity. }
  destruct Hst' as [-> ->]. rewrite app_nil_r.
  exists ovs3. split; [exact Hfeed|].
  unfold in_step. cbn [CPWord.set_previous_note_end CPWord.previous_tick
                       CPWord.ticks_per_bar CPWord.tick_at_current_bar].
  split; [lia|]. split; [lia|]. split; [exact Hok|].
  split; [congruence|].
  destruct Hend as [[-> Htick] | [-> Htick]].
  - split; [lia|]. split; [ | split; [discriminate | exact Hdup] ].
    destruct Htype as [H | [H | [H | [H _]]]].
    + left. exact H.
    + right. left. exact H.
    + right. right. left. exact H.
    + right. right. right. split; [exact H|]. split; [exact Hrests | lia].
  - cbn [after_bar pos_of CPWord.current_pos]. split; [lia|].
    split; [ | split; [discriminate|] ].
    + right. right. right. split; [reflexivity|]. split; [exact Hrests | lia].
    + intros Hd. destruct (Hdup Hd) as [Hzero _].
      split; [exact Hzero|]. exists [].
      split; [ | apply incl_nil_l ].
      apply pitches_no_pitches.
      destruct (grammar_config_facts self Hconfig) as [_ [_ Hcfg]].
      apply (Hcfg Hd).
Qed.

Lemma pitch_event_in_step (st st' : CPWord.EncState) (event v d : Event F)
  (more : list (Event F)) (toks : list CPWord.CPToken)
  (ovs : option CPWord.ErrState) (prev last : Z) (pending : bool)
  (seen : list Z) (pitch note_end : Z) :
  type_ event = "Pitch" ->
  value event = VInt pitch ->
  desc event = VInt note_end ->
  last <= time event ->
  (pending = true -> time event = prev) ->
  (CPWord.remove_duplicated_notes self = true ->
   CPWord.mem_Z pitch (if negb (time event =? prev) then [] else seen)
   = false) ->
  in_step self st ovs prev last pending seen ->
  CPWord.encode_event self st event (v :: d :: more) = Some (st', toks) ->
  exists ovs',
    feed_all self graph ovs (printed toks) = Some ovs'
    /\ in_step self st' ovs' (time event) (time event) false
         (pitch :: (if negb (time event =? prev) then [] else seen)).
Proof.
  intros Hty Hvalue Hdesc Hlast Hsame Hnew Hstep Hrun.
  apply encode_event_blocks in Hrun; [ | rewrite Hty; discriminate ].
  destruct Hrun as [st0 [st1 [st2 [time_toks [note_toks
                     [Hst0 [Htime [Hsig [Hnote ->]]]]]]]]].
  rewrite Hty in Hst0. cbn in Hst0. subst st0.
  assert (Hts : String.eqb (type_ event) "TimeSig" = false)
    by (rewrite Hty; reflexivity).
  destruct (tick_step self Hconfig _ _ _ _ _ _ _ _ _ Hts Hlast Hsame
              Hstep Htime)
    as [ovs1 [Hfeed [Hprev1 [Htpb1 [Herr1 [Hpos1 [Hdup1 Hcase]]]]]]].
  unfold CPWord.time_sig_block in Hsig. rewrite Hts in Hsig.
  injection Hsig as <-.
  unfold CPWord.note_block in Hnote. rewrite Hty, Hvalue, Hdesc in Hnote.
  cbn [String.eqb Ascii.eqb Bool.eqb opt_of] in Hnote.
  apply bind_Some in Hnote. destruct Hnote as [tok [Htok Hnote]].
  injection Hnote as <- <-.
  apply note_token_type in Htok.
  destruct (allowed_table self) as [_ [_ [Hpn [Hnn _]]]].
  assert (Hmay : may_follow self ovs1 "Pitch" = true).
  { destruct ovs1 as [vs1|]; [ | reflexivity ]. unfold may_follow.
    destruct Hcase as [[Heq Hkept] | [_ Htype1]].
    - subst ovs. destruct Hstep as [_ [Hle [_ [_ [_ [Htype _]]]]]].
      destruct Htype as [H | [H | [[H _] | [_ [_ Hlt]]]]].
      + discriminate H.
      + apply type_of_Some in H. rewrite H. exact Hnn.
      + apply type_of_Some in H. rewrite H. exact Hpn.
      + lia.
    - apply type_of_Some in Htype1. rewrite Htype1. exact Hpn. }
  rewrite printed_app, feed_all_app, Hfeed. cbn [bind printed map feed_all].
  destruct (CPWord.remove_duplicated_notes self) eqn:Edup.
  - destruct (grammar_config_facts self Hconfig) as [_ [_ Hcfg]].
    rewrite Edup in Hcfg. destruct (Hcfg eq_refl) as [Hprogs Hzero].
    destruct (Hdup1 eq_refl) as [Hprog1 [played [Hplayed Hincl]]].
    rewrite (feed_note_checked self ovs1 _ pitch played Edup Hprogs Htok Hmay
               Hprog1 Hplayed (mem_Z_incl _ _ _ Hincl (Hnew eq_refl))).
    cbn [bind]. eexists. split; [reflexivity|].
    unfold in_step.
    cbn [CPWord.set_previous_note_end CPWord.previous_tick type_of option_map
         CPWord.ticks_per_bar CPWord.tick_at_current_bar err_of pos_of
         program_of pitches_of_state CPWord.err CPWord.current_pos
         CPWord.previous_type CPWord.err_program CPWord.current_pitches].
    split; [exact Hprev1|]. split; [lia|]. split; [exact Htpb1|].
    split; [exact Herr1|]. split; [exact Hpos1|].
    split; [right; left; reflexivity|]. split; [discriminate|].
    intros _. split; [reflexivity|].
    destruct ovs1 as [vs1|]; cbn [pitches_of_state] in Hplayed.
    + exists (played ++ [pitch]).
      split; [apply pitches_add_pitch; exact Hplayed|].
      intros x Hx. apply in_app_or in Hx. destruct Hx as [Hx | [<- | []]].
      * right. apply Hincl. exact Hx.
      * left. reflexivity.
    + exists played. split; [exact Hplayed|].
      intros x Hx. right. apply Hincl. exact Hx.
  - rewrite (feed_note_unchecked self ovs1 _ _ Edup Htok Hmay).
    cbn [bind]. eexists. split; [reflexivity|].
    unfold in_step.
    cbn [CPWord.set_previous_note_end CPWord.previous_tick type_of option_map
         CPWord.ticks_per_bar CPWord.tick_at_current_bar err_of pos_of
         program_of pitches_of_state CPWord.err CPWord.current_pos
         CPWord.previous_type CPWord.err_program CPWord.current_pitches].
    split; [exact Hprev1|]. split; [lia|]. split; [exact Htpb1|].
    split; [exact Herr1|]. split; [exact Hpos1|].
    split; [right; left; reflexivity|].
    split; [discriminate | rewrite Edup; discriminate].
Qed.

End GrammarNotes.

(** ** The validator on the whole output of the builder *)

Section GrammarStreams.

Context {F : Type} {fops : FloatOps F}.
Variable self : CPWord.Config (F := F).
Hypothesis Hconfig : grammar_config self = true.

Local Abbreviation graph := (CPWord._create_token_types_graph self).

Lemma encode_events_in_step (n : nat) :
  forall (events : list (Event F)),
    (List.length events <= n)%nat ->
    forall (st st' : CPWord.EncState) (ovs : option CPWord.ErrState)
           (prev last : Z) (pending : bool) (seen : list Z)
           (toks : list CPWord.CPToken),
      in_step self st ovs prev last pending seen ->
      well_formed self prev last pending seen events = true ->
      forallb (time_sig_ok self) events = true ->
      CPWord.encode_events self st events = Some (st', toks) ->
      exists ovs',
        feed_all self graph ovs (printed toks) = Some ovs'
        /\ err_of ovs' = 0.
Proof.
  induction n as [|n IH]; intros events Hlen st st' ovs prev last pending seen
    toks Hstep Hwf Hok Hrun.
  - destruct events; [ | cbn in Hlen; lia ].
    injection Hrun as <- <-. exists ovs. split; [reflexivity|].
    apply Hstep.
  - destruct events as [|e rest].
    { injection Hrun as <- <-. exists ovs. split; [reflexivity|].
      apply Hstep. }
    cbn [List.length] in Hlen.
    cbn [CPWord.encode_events] in Hrun.
    apply bind_Some in Hrun. destruct Hrun as [[st1 toks1] [Hevent Hrun]].
    cbn [forallb] in Hok. apply andb_prop in Hok. destruct Hok as [Hok1 Hok].
    cbn [well_formed] in Hwf.
    apply andb_prop in Hwf. destruct Hwf as [Hwf Hkind].
    apply andb_prop in Hwf. destruct Hwf as [Hwf Hsame].
    apply andb_prop in Hwf. destruct Hwf as [_ Hlast].
    apply Z.leb_le in Hlast.
    assert (Hsame' : pending = true -> time e = prev).
    { intros ->. cbn [negb orb] in Hsame. apply Z.eqb_eq. exact Hsame. }
    assert (Hrest : forall ovs1 prev1 last1 pending1 seen1 toks2 st2,
               in_step self st1 ovs1 prev1 last1 pending1 seen1 ->
               well_formed self prev1 last1 pending1 seen1 rest = true ->
               CPWord.encode_events self st1 rest = Some (st2, toks2) ->
               exists ovs',
                 feed_all self graph ovs1 (printed toks2) = Some ovs'
                 /\ err_of ovs' = 0).
    { intros ovs1 prev1 last1 pending1 seen1 toks2 st2 Hstep1 Hwf1 Hrun1.
      apply (IH rest ltac:(lia) st1 st2 ovs1 prev1 last1 pending1 seen1 toks2
               Hstep1 Hwf1 Hok Hrun1). }
    destruct (String.eqb (type_ e) "Program") eqn:Eprogram.
    { apply String.eqb_eq in Eprogram.
      apply andb_prop in Hkind. destruct Hkind as [_ Hwf1].
      destruct (program_event_in_step self _ _ _ _ _ _ _ _ _ _ Eprogram Hlast
                  Hstep Hevent) as [-> Hstep1].
      apply bind_Some in Hrun. destruct Hrun as [[st2 more] [Hmore Hrun]].
      injection Hrun as <- <-. cbn [app].
      apply (Hrest _ _ _ _ _ _ _ Hstep1 Hwf1 Hmore). }
    destruct (String.eqb (type_ e) "Tempo") eqn:Etempo.
    { apply String.eqb_eq in Etempo.
      apply andb_prop in Hkind. destruct Hkind as [Hkind Hwf1].
      apply andb_prop in Hkind. destruct Hkind as [Htempos Hidle].
      destruct pending; [discriminate Hidle|].
      destruct (tempo_event_in_step self Hconfig _ _ _ _ _ _ _ _ _ Etempo
                  Htempos Hlast Hstep Hevent) as [ovs1 [Hfeed1 Hstep1]].
      apply bind_Some in Hrun. destruct Hrun as [[st2 more] [Hmore Hrun]].
      injection Hrun as <- <-.
      destruct (Hrest _ _ _ _ _ _ _ Hstep1 Hwf1 Hmore) as [ovs' [Hfeed' Herr']].
      exists ovs'. split; [ | exact Herr' ].
      rewrite printed_app, feed_all_app, Hfeed1. exact Hfeed'. }
    destruct (String.eqb (type_ e) "Chord") eqn:Echord.
    { apply String.eqb_eq in Echord.
      apply andb_prop in Hkind. destruct Hkind as [_ Hwf1].
      destruct (chord_event_in_step self Hconfig _ _ _ _ _ _ _ _ _ _ Echord
                  Hlast Hsame' Hstep Hevent) as [ovs1 [Hfeed1 Hstep1]].
      apply bind_Some in Hrun. destruct Hrun as [[st2 more] [Hmore Hrun]].
      injection Hrun as <- <-.
      destruct (Hrest _ _ _ _ _ _ _ Hstep1 Hwf1 Hmore) as [ovs' [Hfeed' Herr']].
      exists ovs'. split; [ | exact Herr' ].
      rewrite printed_app, feed_all_app, Hfeed1. exact Hfeed'. }
    destruct (String.eqb (type_ e) "TimeSig") eqn:Esig.
    { apply String.eqb_eq in Esig.
      apply andb_prop in Hkind. destruct Hkind as [Hkind Hwf1].
      apply andb_prop in Hkind. destruct Hkind as [Hkind Hlater].
      apply andb_prop in Hkind. destruct Hkind as [Hsigs Hidle].
      apply Z.ltb_lt in Hlater.
      destruct pending; [discriminate Hidle|].
      destruct (time_sig_event_in_step self Hconfig _ _ _ _ _ _ _ _ _ Esig
                  Hsigs Hlater Hok1 Hstep Hevent) as [ovs1 [Hfeed1 Hstep1]].
      apply bind_Some in Hrun. destruct Hrun as [[st2 more] [Hmore Hrun]].
      injection Hrun as <- <-.
      destruct (Hrest _ _ _ _ _ _ _ Hstep1 Hwf1 Hmore) as [ovs' [Hfeed' Herr']].
      exists ovs'. split; [ | exact Herr' ].
      rewrite printed_app, feed_all_app, Hfeed1. exact Hfeed'. }
    destruct (String.eqb (type_ e) "Pitch") eqn:Epitch; [ | discriminate Hkind ].
    apply String.eqb_eq in Epitch.
    destruct (value e) as [pitch| | |] eqn:Evalue; try discriminate Hkind.
    destruct (desc e) as [note_end| | |] eqn:Edesc; try discriminate Hkind.
    destruct rest as [|v [|d rest']]; try discriminate Hkind.
    apply andb_prop in Hkind. destruct Hkind as [Hkind Hwf1].
    apply andb_prop in Hkind. destruct Hkind as [Hkind Hnew].
    apply andb_prop in Hkind. destruct Hkind as [Hkind Hdtime].
    apply andb_prop in Hkind. destruct Hkind as [Hkind Hvtime].
    apply andb_prop in Hkind. destruct Hkind as [Hvtype Hdtype].
    apply String.eqb_eq in Hvtype. apply String.eqb_eq in Hdtype.
    apply Z.eqb_eq in Hvtime. apply Z.eqb_eq in Hdtime.
    assert (Hnew' : CPWord.remove_duplicated_notes self = true ->
                    CPWord.mem_Z pitch
                      (if negb (time e =? prev) then [] else seen) = false).
    { intros Hd. rewrite Hd in Hnew. cbn [negb orb] in Hnew.
      apply negb_true_iff. exact Hnew. }
    destruct (pitch_event_in_step self Hconfig _ _ _ _ _ _ _ _ _ _ _ _ _ _
                Epitch Evalue Edesc Hlast Hsame' Hnew' Hstep Hevent)
      as [ovs1 [Hfeed1 Hstep1]].
    assert (Hnow : CPWord.previous_tick st1 = time e) by apply Hstep1.
    cbn [CPWord.encode_events] in Hrun.
    rewrite (silent_event self st1 v (d :: rest') (or_introl Hvtype))
      in Hrun by congruence.
    cbn [bind] in Hrun.
    rewrite (silent_event self st1 d rest' (or_intror Hdtype))
      in Hrun by congruence.
    cbn [bind] in Hrun.
    destruct (CPWord.encode_events self st1 rest') as [[st2 more]|] eqn:Hmore;
      cbn [bind app] in Hrun; [ | discriminate Hrun ].
    injection Hrun as <- <-.
    cbn [forallb] in Hok.
    apply andb_prop in Hok. destruct Hok as [_ Hok].
    apply andb_prop in Hok. destruct Hok as [_ Hok].
    cbn [List.length] in Hlen.
    destruct (IH rest' ltac:(lia) st1 st2 ovs1 _ _ _ _ more Hstep1 Hwf1 Hok
                Hmore) as [ovs' [Hfeed' Herr']].
    exists ovs'. split; [ | exact Herr' ].
    rewrite printed_app, feed_all_app, Hfeed1. exact Hfeed'.
Qed.

End GrammarStreams.

(** ** C2: the builder and the validator *)

Section GrammarSoundness.

Context {F : Type} {fops : FloatOps F}.
Variable self : CPWord.Config (F := F).

Local Abbreviation graph := (CPWord._create_token_types_graph self).

Lemma feed_all_checked (more : list (list string)) :
  forall vs : CPWord.ErrState,
    feed_all self graph (Some vs) more
    = option_map Some (CPWord.check_tokens self graph vs more).
Proof.
  induction more as [|tok more IH]; intros vs;
    cbn [feed_all feed CPWord.check_tokens].
  - reflexivity.
  - destruct (CPWord.check_token self graph vs tok) as [vs1|]; cbn [bind];
      [apply IH | reflexivity].
Qed.

Lemma tokens_errors_feed (toks : list (list string))
  (ovs : option CPWord.ErrState) :
  toks <> [] ->
  feed_all self graph None toks = Some ovs ->
  CPWord._tokens_errors self graph toks = Some (err_of ovs).
Proof.
  destruct toks as [|first more]; [intros H; elim H; reflexivity|].
  intros _. cbn [feed_all feed]. unfold CPWord._tokens_errors.
  destruct (CPWord.cp_token_type first) as [tv|]; cbn [bind];
    [ | discriminate ].
  destruct (nth_error tv 0) as [ty|]; cbn [bind]; [ | discriminate ].
  rewrite feed_all_checked.
  destruct (CPWord.check_tokens self graph _ more) as [vs|]; cbn;
    [ | discriminate ].
  intros [= <-]. reflexivity.
Qed.

Lemma first_time_sig_ok (events : list (Event F)) (ts : Z * Z) :
  CPWord.first_time_sig events = Some (Some ts) ->
  forallb (time_sig_ok self) events = true ->
  0 < compute_ticks_per_bar ts (CPWord.time_division self).
Proof.
  induction events as [|e rest IH]; cbn [CPWord.first_time_sig forallb].
  - discriminate.
  - intros Hfirst Hok. apply andb_prop in Hok. destruct Hok as [Hok1 Hok].
    unfold time_sig_ok in Hok1.
    destruct (String.eqb (type_ e) "TimeSig").
    + destruct (CPWord.event_time_sig (value e)) as [ts'|];
        [ | discriminate Hfirst ].
      cbn [bind] in Hfirst. injection Hfirst as <-.
      apply Z.ltb_lt. exact Hok1.
    + destruct (Py.mem (type_ e) CPWord.note_types); [discriminate Hfirst|].
      apply (IH Hfirst Hok).
Qed.

Lemma init_state_in_step (events : list (Event F)) (st : CPWord.EncState) :
  grammar_config self = true ->
  forallb (time_sig_ok self) events = true ->
  CPWord.init_state self events = Some st ->
  in_step self st None (-1) (-1) false [].
Proof.
  intros Hconfig Hok Hinit.
  destruct (grammar_config_facts self Hconfig) as [Hdiv [_ Hdup]].
  unfold CPWord.init_state in Hinit.
  apply bind_Some in Hinit. destruct Hinit as [tempo0 [_ Hinit]].
  apply bind_Some in Hinit. destruct Hinit as [ts [Hts Hinit]].
  injection Hinit as <-.
  unfold in_step. cbn.
  split; [reflexivity|]. split; [lia|]. split.
  { destruct ts as [ts|].
    - destruct (CPWord.use_time_signatures self); [ | discriminate Hts ].
      apply (first_time_sig_ok events ts Hts Hok).
    - unfold compute_ticks_per_bar, TIME_SIGNATURE. cbn [fst snd].
      apply Z.div_str_pos. lia. }
  split; [reflexivity|]. split; [lia|]. split; [left; reflexivity|].
  split; [discriminate|].
  intros Hd. split; [reflexivity|]. exists [].
  split; [ | apply incl_nil_l ].
  apply pitches_no_pitches. apply (Hdup Hd).
Qed.

End GrammarSoundness.

(** C2 (amended).  CPWord, in a configuration that does not combine rests
    with time signatures, whose time division is positive, whose rest
    threshold (when rests are used) is positive and is the length of a rest
    of the table, the labels of which have no underscore, and which checks
    duplicated notes only without programs and with program 0 configured.
    For every event stream as the event normaliser hands it over (ticks not
    negative and not decreasing; each Pitch event followed at once by its
    Velocity and Duration events on its tick; optional events only when
    their option is on; a TimeSig event strictly later than the event before
    it and with bars of at least one tick; a note on the tick of a Chord
    that opens a position when tempos are off; no pitch twice at a position
    when duplicated notes are checked): if [_add_time_events] returns a
    stream with at least one token, [_tokens_errors], over the graph of
    [_create_token_types_graph], returns 0 on the strings of that stream. *)
Theorem builder_output_passes_the_validator
  {F : Type} {fops : FloatOps F} (self : CPWord.Config (F := F))
  (events : list (Event F)) (toks : list CPWord.CPToken) :
  grammar_config self = true ->
  well_formed_events self events = true ->
  CPWord._add_time_events self events = Some toks ->
  toks <> [] ->
  CPWord._tokens_errors self (CPWord._create_token_types_graph self)
    (printed toks) = Some 0.
Proof.
  intros Hconfig Hwf Hrun Hsome.
  unfold well_formed_events in Hwf.
  apply andb_prop in Hwf. destruct Hwf as [Hwf Hok].
  unfold CPWord._add_time_events in Hrun.
  apply bind_Some in Hrun. destruct Hrun as [st [Hinit Hrun]].
  apply bind_Some in Hrun. destruct Hrun as [[st' all_events] [Hloop Hrun]].
  injection Hrun as <-.
  pose proof (init_state_in_step self events st Hconfig Hok Hinit) as Hstep.
  destruct (encode_events_in_step self Hconfig (List.length events) events
              (le_n _) st st' None (-1) (-1) false [] all_events Hstep Hwf Hok
              Hloop) as [ovs' [Hfeed Herr]].
  rewrite <- Herr. apply tokens_errors_feed; [ | exact Hfeed ].
  intros Hnil. apply Hsome. unfold printed in Hnil.
  apply map_eq_nil in Hnil. exact Hnil.
Qed.

Lemma builder_output_passes_the_validator_witness :
  exists toks,
    CPWord._add_time_events Samples.cpword_rests_tempos Samples.notes_apart
    = Some toks
    /\ CPWord._tokens_errors Samples.cpword_rests_tempos
         (CPWord._create_token_types_graph Samples.cpword_rests_tempos)
         (printed toks) = Some 0.
Proof.
  destruct (CPWord._add_time_events Samples.cpword_rests_tempos
              Samples.notes_apart) as [toks|] eqn:Hrun;
    [ | vm_compute in Hrun; discriminate Hrun ].
  exists toks. split; [reflexivity|].
  apply (builder_output_passes_the_validator Samples.cpword_rests_tempos
           Samples.notes_apart toks).
  - vm_compute. reflexivity.
  - vm_compute. reflexivity.
  - exact Hrun.
  - intros ->. vm_compute in Hrun. discriminate Hrun.
Defined.

(** C2 as stated fails: with rests and time signatures together, the Bar
    token of a change of signature is followed by the Rest tokens of the gap
    before the next note, a succession that the graph does not list; the
    validator counts one error. *)
Lemma rest_after_a_bar_is_counted :
  (toks <- CPWord._add_time_events Samples.cpword_rests_time_sigs
             Samples.rest_after_change ;;
   CPWord._tokens_errors Samples.cpword_rests_time_sigs
     (CPWord._create_token_types_graph Samples.cpword_rests_time_sigs)
     (printed toks))
  = Some 1.
Proof. vm_compute. reflexivity. Qed.

(** ** MuMIDI: the decoder on the time steps of the encoder *)

Section MuMIDIDecoderSteps.

Context {F : Type} {fops : FloatOps F}.
Variable self : MuMIDI.Tokenizer (F := F).

Local Abbreviation td := (MuMIDI.time_division self).
Local Abbreviation tps := (MuMIDI.time_division self / MuMIDI.max_beat_res self).

Lemma index_minus_one {A : Type} (l : list A) :
  l <> [] -> exists x, Py.index l (-1) = Some x.
Proof.
  intros Hl. destruct (exists_last Hl) as [l' [x ->]].
  exists x. apply index_last.
Qed.

Lemma tok_value_tagged (t v : string) :
  no_underscore t = true -> no_underscore v = true ->
  MuMIDI.tok_value (t ++ "_" ++ v) = Some v.
Proof.
  intros Ht Hv. unfold MuMIDI.tok_value.
  rewrite (split_type_value t v Ht Hv). reflexivity.
Qed.

(** The tempo sub-token, the fourth of every time step when tempos are
    used, is read at the end of the iteration; it may add a tempo change. *)
Lemma decode_tempo_step (ds : MuMIDI.DecState) (a b c : string)
  (rest : list string) (x : F) :
  tempo_ok self x = true ->
  MuMIDI.d_tempos ds <> [] ->
  exists tempos',
    tempos' <> []
    /\ MuMIDI.decode_tempo self ds
         (a :: b :: c :: MuMIDI.tempo_field self x ++ rest)
       = Some (MuMIDI.mkDec (MuMIDI.d_tracks ds) tempos'
                 (MuMIDI.d_current_tick ds) (MuMIDI.d_current_bar ds)
                 (MuMIDI.d_current_track ds)).
Proof.
  unfold tempo_ok, MuMIDI.decode_tempo, MuMIDI.tempo_field.
  intros Hok Hsome.
  destruct (MuMIDI.use_tempos self).
  - cbn [negb orb] in Hok. apply andb_prop in Hok. destruct Hok as [Hplain Hparse].
    cbn [List.app]. cbn [nth_error bind].
    change ("Tempo_" ++ string_of_float x)%string
      with ("Tempo" ++ "_" ++ string_of_float x)%string.
    rewrite (tok_value_tagged "Tempo" _ eq_refl Hplain).
    cbn [bind].
    destruct (float_of_string (string_of_float x)) as [y|];
      [ | discriminate Hparse ].
    cbn [bind].
    destruct (index_minus_one _ Hsome) as [last ->]. cbn [bind].
    destruct (negb (float_eqb y (tempo_value last))).
    + eexists. split; [ | reflexivity ].
      intros Hnil. apply app_eq_nil in Hnil. destruct Hnil as [_ Hnil].
      discriminate Hnil.
    + exists (MuMIDI.d_tempos ds). split; [exact Hsome|].
      destruct ds; reflexivity.
  - exists (MuMIDI.d_tempos ds). split; [exact Hsome|].
    destruct ds; reflexivity.
Qed.

Lemma decode_bar_step (ds : MuMIDI.DecState) (b c : string) (x : F) :
  tempo_ok self x = true ->
  MuMIDI.d_tempos ds <> [] ->
  exists tempos',
    tempos' <> []
    /\ MuMIDI.decode_step self td tps ds
         (["Bar_None"; b; c] ++ MuMIDI.tempo_field self x)
       = Some (MuMIDI.mkDec (MuMIDI.d_tracks ds) tempos'
                 ((MuMIDI.d_current_bar ds + 1) * td * 4)
                 (MuMIDI.d_current_bar ds + 1)
                 (MuMIDI.d_current_track ds)).
Proof.
  intros Hok Hsome. unfold MuMIDI.decode_step, MuMIDI.decode_head.
  cbn [List.app]. rewrite <- (app_nil_r (MuMIDI.tempo_field self x)).
  cbn [nth_error bind].
  change (Py.split_on "_" "Bar_None") with ["Bar"; "None"].
  cbn [String.eqb Ascii.eqb Bool.eqb bind].
  apply (decode_tempo_step
           (MuMIDI.mkDec (MuMIDI.d_tracks ds) (MuMIDI.d_tempos ds)
              ((MuMIDI.d_current_bar ds + 1) * td * 4)
              (MuMIDI.d_current_bar ds + 1) (MuMIDI.d_current_track ds))
           _ _ _ _ x Hok Hsome).
Qed.

Lemma decode_bar_steps (count : nat) :
  forall (ds : MuMIDI.DecState) (i current_bar : Z) (x : F),
    tempo_ok self x = true ->
    MuMIDI.d_tempos ds <> [] ->
    exists tempos',
      tempos' <> []
      /\ MuMIDI.decode_steps self td tps ds
           (MuMIDI.bar_tokens self count i current_bar x)
         = Some (MuMIDI.mkDec (MuMIDI.d_tracks ds) tempos'
                   (match count with
                    | O => MuMIDI.d_current_tick ds
                    | S _ =>
                        (MuMIDI.d_current_bar ds + Z.of_nat count) * td * 4
                    end)
                   (MuMIDI.d_current_bar ds + Z.of_nat count)
                   (MuMIDI.d_current_track ds)).
Proof.
  induction count as [|count IH]; intros ds i current_bar x Hok Hsome.
  - exists (MuMIDI.d_tempos ds). split; [exact Hsome|].
    cbn [MuMIDI.bar_tokens MuMIDI.decode_steps].
    rewrite Z.add_0_r. destruct ds; reflexivity.
  - cbn [MuMIDI.bar_tokens MuMIDI.decode_steps].
    destruct (decode_bar_step ds
                ("BarPosEnc_" ++ Py.str (current_bar + i + 1))
                "PositionPosEnc_None" x Hok Hsome) as [tempos1 [Hsome1 Hstep]].
    rewrite Hstep. cbn [bind].
    destruct (IH (MuMIDI.mkDec (MuMIDI.d_tracks ds) tempos1
                    ((MuMIDI.d_current_bar ds + 1) * td * 4)
                    (MuMIDI.d_current_bar ds + 1) (MuMIDI.d_current_track ds))
                (i + 1) current_bar x Hok Hsome1) as [tempos2 [Hsome2 Hrest]].
    exists tempos2. split; [exact Hsome2|].
    rewrite Hrest.
    cbn [MuMIDI.d_tracks MuMIDI.d_current_tick MuMIDI.d_current_bar
         MuMIDI.d_current_track].
    replace (MuMIDI.d_current_bar ds + 1 + Z.of_nat count)
      with (MuMIDI.d_current_bar ds + Z.of_nat (S count)) by lia.
    destruct count; reflexivity.
Qed.

Lemma decode_position_step (ds : MuMIDI.DecState) (b c : string) (pos : Z)
  (x : F) :
  tempo_ok self x = true ->
  MuMIDI.d_tempos ds <> [] ->
  MuMIDI.d_current_bar ds <> -1 ->
  exists tempos',
    tempos' <> []
    /\ MuMIDI.decode_step self td tps ds
         ([("Position_" ++ Py.str pos)%string; b; c]
          ++ MuMIDI.tempo_field self x)
       = Some (MuMIDI.mkDec (MuMIDI.d_tracks ds) tempos'
                 (MuMIDI.d_current_bar ds * td * 4 + pos * tps)
                 (MuMIDI.d_current_bar ds)
                 (MuMIDI.d_current_track ds)).
Proof.
  intros Hok Hsome Hbar. unfold MuMIDI.decode_step, MuMIDI.decode_head.
  cbn [List.app]. rewrite <- (app_nil_r (MuMIDI.tempo_field self x)).
  cbn [nth_error bind].
  change ("Position_" ++ Py.str pos)%string
    with ("Position" ++ "_" ++ Py.str pos)%string.
  rewrite (split_type_value "Position" _ eq_refl (no_underscore_str pos)).
  cbn [String.eqb Ascii.eqb Bool.eqb].
  rewrite int_str. cbn [bind].
  apply Z.eqb_neq in Hbar. rewrite Hbar.
  apply (decode_tempo_step
           (MuMIDI.mkDec (MuMIDI.d_tracks ds) (MuMIDI.d_tempos ds)
              (MuMIDI.d_current_bar ds * td * 4 + pos * tps)
              (MuMIDI.d_current_bar ds) (MuMIDI.d_current_track ds))
           _ _ _ _ x Hok Hsome).
Qed.

Lemma decode_program_step (ds : MuMIDI.DecState) (b c : string) (key : Z)
  (x : F) :
  tempo_ok self x = true ->
  MuMIDI.d_tempos ds <> [] ->
  exists tempos',
    tempos' <> []
    /\ MuMIDI.decode_step self td tps ds
         ([("Program_" ++ Py.str key)%string; b; c]
          ++ MuMIDI.tempo_field self x)
       = Some (MuMIDI.mkDec
                 (if MuMIDI.has_key (MuMIDI.d_tracks ds) (Py.str key)
                  then MuMIDI.d_tracks ds
                  else MuMIDI.d_tracks ds ++ [(Py.str key, [])])
                 tempos' (MuMIDI.d_current_tick ds) (MuMIDI.d_current_bar ds)
                 (Some (Py.str key))).
Proof.
  intros Hok Hsome. unfold MuMIDI.decode_step, MuMIDI.decode_head.
  cbn [List.app]. rewrite <- (app_nil_r (MuMIDI.tempo_field self x)).
  cbn [nth_error bind].
  change ("Program_" ++ Py.str key)%string
    with ("Program" ++ "_" ++ Py.str key)%string.
  rewrite (split_type_value "Program" _ eq_refl (no_underscore_str key)).
  cbn [String.eqb Ascii.eqb Bool.eqb bind].
  apply (decode_tempo_step
           (MuMIDI.mkDec
              (if MuMIDI.has_key (MuMIDI.d_tracks ds) (Py.str key)
               then MuMIDI.d_tracks ds
               else MuMIDI.d_tracks ds ++ [(Py.str key, [])])
              (MuMIDI.d_tempos ds) (MuMIDI.d_current_tick ds)
              (MuMIDI.d_current_bar ds) (Some (Py.str key)))
           _ _ _ _ x Hok Hsome).
Qed.

Lemma append_note_place (tracks : list (string * list Note)) (k : string)
  (n : Note) :
  MuMIDI.has_key tracks k = true ->
  MuMIDI.append_note tracks k n = Some (place tracks k n).
Proof.
  induction tracks as [|[k' ns] more IH];
    cbn [MuMIDI.has_key MuMIDI.append_note place].
  - discriminate.
  - destruct (String.eqb k k'); cbn [orb]; [reflexivity|].
    intros Hkey. rewrite (IH Hkey). reflexivity.
Qed.

Lemma index_before_last {A : Type} (l : list A) (x y : A) :
  Py.index (l ++ [x; y]) (-2) = Some x /\ Py.index (l ++ [x; y]) (-1) = Some y.
Proof.
  split.
  - unfold Py.index. rewrite length_app. cbn [List.length].
    replace (0 <=? -2) with false by reflexivity. cbn [andb].
    replace (- Z.of_nat (List.length l + 2) <=? -2) with true
      by (symmetry; apply Z.leb_le; lia).
    cbn [andb]. replace (-2 <? 0) with true by reflexivity.
    replace (Z.to_nat (Z.of_nat (List.length l + 2) + -2)) with (List.length l)
      by lia.
    rewrite nth_error_app2 by lia.
    rewrite Nat.sub_diag. reflexivity.
  - change (l ++ [x; y]) with (l ++ [x] ++ [y]). rewrite app_assoc.
    apply index_last.
Qed.

Lemma str_is_not_none (n : Z) : String.eqb (Py.str n) "None" = false.
Proof.
  apply String.eqb_neq. intros Heq.
  pose proof (int_str n) as Hint. rewrite Heq in Hint.
  vm_compute in Hint. discriminate Hint.
Qed.

(** The time step of a note: the note goes under the key of the track at
    hand. *)
Lemma decode_note_step (ds : MuMIDI.DecState) (t : MuMIDI.NoteToken)
  (b c key : string) (x : F) :
  step_ok self t ->
  tempo_ok self x = true ->
  MuMIDI.d_tempos ds <> [] ->
  MuMIDI.d_current_tick ds = MuMIDI.ne_time (fst t) ->
  MuMIDI.d_current_track ds = Some key ->
  MuMIDI.has_key (MuMIDI.d_tracks ds) key = true ->
  exists tempos',
    tempos' <> []
    /\ MuMIDI.decode_step self td tps ds
         ([MuMIDI.str_note_event (fst t); b; c]
          ++ MuMIDI.tempo_field self x ++ snd t)
       = Some (MuMIDI.mkDec (place (MuMIDI.d_tracks ds) key (note_of self t))
                 tempos' (MuMIDI.d_current_tick ds) (MuMIDI.d_current_bar ds)
                 (MuMIDI.d_current_track ds)).
Proof.
  intros Hstep Hok Hsome Htick Htrack Hkey.
  destruct t as [[ty value time desc] fields].
  destruct Hstep as [Hty [[pitch Hvalue] [_ [_ [_ [velocity [label
                      [Hfields [Hplain [Hlabel Hticks]]]]]]]]]].
  cbn [fst snd MuMIDI.ne_type MuMIDI.ne_value MuMIDI.ne_time] in *.
  subst value fields.
  destruct (MuMIDI.token_duration_to_ticks self label td) as [ticks|] eqn:Eticks;
    [ | elim Hticks; reflexivity ].
  assert (Hnote : note_of self
                    (MuMIDI.mkNoteEvent ty (VInt pitch) time desc,
                     [("Velocity_" ++ Py.str velocity)%string;
                      ("Duration_" ++ label)%string])
                  = mkNote time ticks pitch velocity).
  { unfold note_of. cbn [fst snd MuMIDI.ne_time MuMIDI.ne_value].
    change ("Velocity_" ++ Py.str velocity)%string
      with ("Velocity" ++ "_" ++ Py.str velocity)%string.
    change ("Duration_" ++ label)%string
      with ("Duration" ++ "_" ++ label)%string.
    rewrite (tok_value_tagged "Velocity" _ eq_refl (no_underscore_str velocity)).
    rewrite (tok_value_tagged "Duration" _ eq_refl Hplain).
    rewrite int_str, Eticks. reflexivity. }
  rewrite Hnote.
  unfold MuMIDI.decode_step, MuMIDI.decode_head.
  cbn [List.app nth_error bind].
  unfold MuMIDI.str_note_event. cbn [MuMIDI.ne_type MuMIDI.ne_value str_val].
  set (step := ((ty ++ "_" ++ Py.str pitch)%string :: b :: c
                :: MuMIDI.tempo_field self x)).
  change ((ty ++ "_" ++ Py.str pitch)%string :: b :: c
          :: MuMIDI.tempo_field self x
             ++ [("Velocity_" ++ Py.str velocity)%string;
                 ("Duration_" ++ label)%string])
    with (step ++ [("Velocity_" ++ Py.str velocity)%string;
                   ("Duration_" ++ label)%string]).
  destruct (index_before_last step ("Velocity_" ++ Py.str velocity)%string
              ("Duration_" ++ label)%string) as [Hvel Hdur].
  assert (Hhead : Py.split_on "_" (ty ++ "_" ++ Py.str pitch)
                  = [ty; Py.str pitch]).
  { apply split_type_value; [ | apply no_underscore_str ].
    destruct Hty as [-> | ->]; reflexivity. }
  rewrite Hhead, Hvel, Hdur. cbn [bind].
  change ("Velocity_" ++ Py.str velocity)%string
    with ("Velocity" ++ "_" ++ Py.str velocity)%string.
  change ("Duration_" ++ label)%string
    with ("Duration" ++ "_" ++ label)%string.
  rewrite (tok_value_tagged "Velocity" _ eq_refl (no_underscore_str velocity)).
  rewrite (tok_value_tagged "Duration" _ eq_refl Hplain).
  cbn [bind].
  rewrite str_is_not_none.
  apply String.eqb_neq in Hlabel. rewrite Hlabel. cbn [orb].
  rewrite !int_str, Eticks, Htrack. cbn [bind].
  rewrite Htick. cbn [MuMIDI.ne_time fst].
  rewrite (append_note_place _ _ _ Hkey). cbn [bind].
  assert (Hkind : (String.eqb ty "Bar" = false)
                  /\ (String.eqb ty "Position" = false)
                  /\ (String.eqb ty "Program" = false)
                  /\ (String.eqb ty "Pitch" || String.eqb ty "DrumPitch"
                      = true)).
  { destruct Hty as [-> | ->]; repeat split. }
  destruct Hkind as [-> [-> [-> ->]]]. cbn [bind].
  subst step.
  destruct (decode_tempo_step
              (MuMIDI.mkDec
                 (place (MuMIDI.d_tracks ds) key (mkNote time ticks pitch velocity))
                 (MuMIDI.d_tempos ds) time (MuMIDI.d_current_bar ds)
                 (Some key))
              (ty ++ "_" ++ Py.str pitch)%string b c
              [("Velocity" ++ "_" ++ Py.str velocity)%string;
               ("Duration" ++ "_" ++ label)%string] x Hok Hsome)
    as [tempos' [Hsome' Htempo]].
  exists tempos'. split; [exact Hsome' | exact Htempo].
Qed.

End MuMIDIDecoderSteps.

(** ** MuMIDI: the encoder and the decoder in step *)

Section MuMIDISimulation.

Context {F : Type} {fops : FloatOps F}.
Variable self : MuMIDI.Tokenizer (F := F).

Local Abbreviation td := (MuMIDI.time_division self).
Local Abbreviation tps := (MuMIDI.time_division self / MuMIDI.max_beat_res self).

Hypothesis Htd : 0 < td.
Hypothesis Hres : 0 < MuMIDI.max_beat_res self.
Hypothesis Hdiv : td mod MuMIDI.max_beat_res self = 0.

Lemma decode_steps_app (ds : MuMIDI.DecState) (a b : list (list string)) :
  MuMIDI.decode_steps self td tps ds (a ++ b)
  = (ds1 <- MuMIDI.decode_steps self td tps ds a ;;
     MuMIDI.decode_steps self td tps ds1 b).
Proof.
  revert ds. induction a as [|step a IH]; intros ds.
  - reflexivity.
  - rewrite <- app_comm_cons. cbn [MuMIDI.decode_steps].
    destruct (MuMIDI.decode_step self td tps ds step) as [ds1|]; cbn [bind];
      [apply IH | reflexivity].
Qed.

(** A tick of the grid is the start of its bar plus its position times the
    length of a sample. *)
Lemma grid_position (tick : Z) :
  0 <= tick -> tick mod tps = 0 ->
  tick / (td * 4) * td * 4
  + Z.quot ((tick mod (td * 4)) * MuMIDI.max_beat_res self) td * tps
  = tick.
Proof.
  intros Hpos Hgrid.
  set (m := MuMIDI.max_beat_res self) in *.
  set (s := td / m) in *.
  assert (Htd' : td = s * m).
  { unfold s. rewrite Z.mul_comm. apply Z_div_exact_full_2; [lia | exact Hdiv]. }
  assert (Hs : 0 < s) by nia.
  set (x := tick mod (td * 4)).
  assert (Hx : 0 <= x < td * 4) by (apply Z.mod_pos_bound; lia).
  assert (Hxs : x mod s = 0).
  { unfold x. rewrite Htd'.
    replace (s * m * 4) with (s * (m * 4)) by ring.
    rewrite Z.rem_mul_r by lia.
    rewrite Hgrid, Z.add_0_l.
    rewrite (Z.mul_comm s), Z.mod_mul by lia. reflexivity. }
  rewrite Z.quot_div_nonneg by nia.
  replace (x * m / td) with (x / s).
  - pose proof (Z.div_mod tick (td * 4) ltac:(lia)) as Hsplit.
    pose proof (Z.div_mod x s ltac:(lia)) as Hxsplit.
    fold x in Hsplit. rewrite Hxs in Hxsplit. nia.
  - rewrite Htd'. rewrite Z.div_mul_cancel_r by lia. reflexivity.
Qed.

Lemma has_key_place (tracks : list (string * list Note)) (k : string)
  (n : Note) :
  MuMIDI.has_key (place tracks k n) k = true.
Proof.
  induction tracks as [|[k' ns] more IH]; cbn [place MuMIDI.has_key].
  - rewrite String.eqb_refl. reflexivity.
  - destruct (String.eqb k k') eqn:Ek; cbn [MuMIDI.has_key]; rewrite Ek.
    + reflexivity.
    + exact IH.
Qed.

Lemma has_key_added (tracks : list (string * list Note)) (k : string) :
  MuMIDI.has_key
    (if MuMIDI.has_key tracks k then tracks else tracks ++ [(k, [])]) k = true.
Proof.
  destruct (MuMIDI.has_key tracks k) eqn:Ekey; [exact Ekey|].
  induction tracks as [|[k' ns] more IH]; cbn [List.app MuMIDI.has_key].
  - rewrite String.eqb_refl. reflexivity.
  - cbn [MuMIDI.has_key] in Ekey. apply orb_false_elim in Ekey.
    destruct Ekey as [-> Ekey]. apply IH. exact Ekey.
Qed.

Lemma place_added (tracks : list (string * list Note)) (k : string)
  (n : Note) :
  place (if MuMIDI.has_key tracks k then tracks else tracks ++ [(k, [])]) k n
  = place tracks k n.
Proof.
  destruct (MuMIDI.has_key tracks k) eqn:Ekey; [reflexivity|].
  induction tracks as [|[k' ns] more IH]; cbn [List.app place].
  - rewrite String.eqb_refl. reflexivity.
  - cbn [MuMIDI.has_key] in Ekey. apply orb_false_elim in Ekey.
    destruct Ekey as [Ek Ekey]. rewrite Ek. rewrite (IH Ekey). reflexivity.
Qed.

(** The Bar steps and the Position step of a new tick bring the decoder to
    that tick. *)
Lemma decode_time_part (ds : MuMIDI.DecState) (cb tick : Z) (b c : string)
  (x : F) :
  tempo_ok self x = true ->
  MuMIDI.d_tempos ds <> [] ->
  MuMIDI.d_current_bar ds = cb ->
  -1 <= cb <= tick / (td * 4) ->
  0 <= tick -> tick mod tps = 0 ->
  exists tempos',
    tempos' <> []
    /\ MuMIDI.decode_steps self td tps ds
         ((if cb <? tick / (td * 4)
           then MuMIDI.bar_tokens self (Z.to_nat (tick / (td * 4) - cb)) 0 cb x
           else [])
          ++ [ [ ("Position_"
                  ++ Py.str (Z.quot ((tick mod (td * 4))
                                     * MuMIDI.max_beat_res self) td))%string;
                 b; c ] ++ MuMIDI.tempo_field self x ])
       = Some (MuMIDI.mkDec (MuMIDI.d_tracks ds) tempos' tick
                 (tick / (td * 4)) (MuMIDI.d_current_track ds)).
Proof.
  intros Hok Hsome Hbar Hcb Htick Hgrid.
  assert (Hq : 0 <= tick / (td * 4)) by (apply Z.div_pos; lia).
  rewrite decode_steps_app.
  destruct (cb <? tick / (td * 4)) eqn:Enew.
  - apply Z.ltb_lt in Enew.
    destruct (decode_bar_steps self (Z.to_nat (tick / (td * 4) - cb)) ds 0 cb
                x Hok Hsome) as [tempos1 [Hsome1 Hbars]].
    rewrite Hbars. cbn [bind MuMIDI.decode_steps].
    set (ds1 := MuMIDI.mkDec _ _ _ _ _).
    destruct (decode_position_step self ds1 b c
                (Z.quot ((tick mod (td * 4)) * MuMIDI.max_beat_res self) td)
                x Hok Hsome1) as [tempos2 [Hsome2 Hpos]].
    { unfold ds1. cbn [MuMIDI.d_current_bar]. lia. }
    rewrite Hpos. cbn [bind]. exists tempos2. split; [exact Hsome2|].
    unfold ds1. cbn [MuMIDI.d_current_bar MuMIDI.d_tracks MuMIDI.d_current_track].
    replace (MuMIDI.d_current_bar ds
             + Z.of_nat (Z.to_nat (tick / (td * 4) - cb)))
      with (tick / (td * 4)) by lia.
    rewrite (grid_position tick Htick Hgrid). reflexivity.
  - apply Z.ltb_ge in Enew.
    assert (Hsame : cb = tick / (td * 4)) by lia.
    cbn [bind MuMIDI.decode_steps].
    destruct (decode_position_step self ds b c
                (Z.quot ((tick mod (td * 4)) * MuMIDI.max_beat_res self) td)
                x Hok Hsome) as [tempos2 [Hsome2 Hpos]]; [lia|].
    rewrite Hpos. cbn [bind]. exists tempos2. split; [exact Hsome2|].
    rewrite Hbar, Hsame.
    rewrite (grid_position tick Htick Hgrid). reflexivity.
Qed.

(** The Program step, when the track changes, and the step of the note put
    the note under the key of its track. *)
Lemma decode_track_part (ds : MuMIDI.DecState) (t : MuMIDI.NoteToken)
  (trk : Z) (b c b' c' : string) (x : F) :
  step_ok self t ->
  tempo_ok self x = true ->
  MuMIDI.d_tempos ds <> [] ->
  MuMIDI.d_current_tick ds = MuMIDI.ne_time (fst t) ->
  (MuMIDI.ne_desc (fst t) = trk ->
   MuMIDI.d_current_track ds = Some (Py.str trk)
   /\ MuMIDI.has_key (MuMIDI.d_tracks ds) (Py.str trk) = true) ->
  exists tempos',
    tempos' <> []
    /\ MuMIDI.decode_steps self td tps ds
         ((if negb (MuMIDI.ne_desc (fst t) =? trk)
           then [ [ ("Program_" ++ Py.str (MuMIDI.ne_desc (fst t)))%string;
                    b; c ] ++ MuMIDI.tempo_field self x ]
           else [])
          ++ [ [MuMIDI.str_note_event (fst t); b'; c']
               ++ MuMIDI.tempo_field self x ++ snd t ])
       = Some (MuMIDI.mkDec
                 (place (MuMIDI.d_tracks ds)
                    (Py.str (MuMIDI.ne_desc (fst t))) (note_of self t))
                 tempos' (MuMIDI.d_current_tick ds) (MuMIDI.d_current_bar ds)
                 (Some (Py.str (MuMIDI.ne_desc (fst t))))).
Proof.
  intros Hstep Hok Hsome Htick Hkept.
  rewrite decode_steps_app.
  destruct (MuMIDI.ne_desc (fst t) =? trk) eqn:Etrk; cbn [negb].
  - apply Z.eqb_eq in Etrk. destruct (Hkept Etrk) as [Htrack Hkey].
    rewrite <- Etrk in Htrack, Hkey.
    cbn [bind MuMIDI.decode_steps].
    destruct (decode_note_step self ds t b' c' _ x Hstep Hok Hsome Htick
                Htrack Hkey) as [tempos1 [Hsome1 Hnote]].
    rewrite Hnote. cbn [bind]. exists tempos1. split; [exact Hsome1|].
    rewrite Htrack. reflexivity.
  - cbn [bind MuMIDI.decode_steps].
    destruct (decode_program_step self ds b c (MuMIDI.ne_desc (fst t)) x Hok
                Hsome) as [tempos1 [Hsome1 Hprog]].
    rewrite Hprog. cbn [bind].
    set (ds1 := MuMIDI.mkDec _ _ _ _ _).
    destruct (decode_note_step self ds1 t b' c'
                (Py.str (MuMIDI.ne_desc (fst t))) x Hstep Hok Hsome1 Htick
                eq_refl (has_key_added _ _)) as [tempos2 [Hsome2 Hnote]].
    rewrite Hnote. cbn [bind]. exists tempos2. split; [exact Hsome2|].
    unfold ds1. cbn [MuMIDI.d_tracks MuMIDI.d_current_tick
                     MuMIDI.d_current_bar MuMIDI.d_current_track].
    rewrite place_added. reflexivity.
Qed.

Lemma advance_tempo_ok (incoming : list (Tempo F)) (now : Z) :
  forall (idx : nat) (tempo : F),
    Forall (fun t => tempo_ok self (float_round2 (tempo_value t)) = true)
      incoming ->
    tempo_ok self tempo = true ->
    tempo_ok self (snd (MuMIDI.advance_tempo incoming now idx tempo)) = true.
Proof.
  induction incoming as [|change more IH]; intros idx tempo Hall Hok;
    cbn [MuMIDI.advance_tempo].
  - exact Hok.
  - inversion Hall as [|? ? Hchange Hmore]; subst.
    destruct (tempo_time change <=? now); [ | exact Hok ].
    apply IH; assumption.
Qed.

Lemma Forall_skipn_of {A : Type} (P : A -> Prop) (n : nat) :
  forall l : list A, Forall P l -> Forall P (skipn n l).
Proof.
  induction n as [|n IH]; intros l Hall; [exact Hall|].
  destruct l as [|x l]; [exact Hall|].
  inversion Hall; subst. cbn [skipn]. apply IH. assumption.
Qed.

Variable midi : Score F.
Hypothesis Htpq : ticks_per_quarter midi = td.
Hypothesis Htempos :
  Forall (fun t => tempo_ok self (float_round2 (tempo_value t)) = true)
    (score_tempos midi).

(** One iteration of the encoder, and the decoder on what it emits. *)
Lemma encode_decode_step (st : MuMIDI.EncState) (ds : MuMIDI.DecState)
  (t : MuMIDI.NoteToken) :
  step_ok self t ->
  in_tune self st ds ->
  MuMIDI.current_tick st <= MuMIDI.ne_time (fst t) ->
  exists st1 out ds1,
    MuMIDI.encode_token self midi (td * 4) st t = Some (st1, out)
    /\ MuMIDI.decode_steps self td tps ds out = Some ds1
    /\ in_tune self st1 ds1
    /\ MuMIDI.d_tracks ds1
       = place (MuMIDI.d_tracks ds) (Py.str (MuMIDI.ne_desc (fst t)))
           (note_of self t)
    /\ MuMIDI.current_tick st1 = MuMIDI.ne_time (fst t).
Proof.
  intros Hstep Htune Horder.
  pose proof Hstep as [_ [_ [Htime [Hgrid [Hdesc _]]]]].
  destruct Htune as [Hbar [Hok [Hsome Hwhere]]].
  unfold MuMIDI.encode_token. rewrite Htpq.
  match goal with
  | |- context [match ?e with pair _ _ => _ end] =>
      lazymatch type of e with
      | (nat * F)%type => set (pair := e)
      end
  end.
  assert (Hpair : tempo_ok self (snd pair) = true).
  { unfold pair.
    destruct (MuMIDI.use_tempos self && _); [ | exact Hok ].
    apply advance_tempo_ok; [ | exact Hok ].
    apply Forall_skipn_of. exact Htempos. }
  destruct pair as [idx tempo]. cbn [snd] in Hpair.
  destruct (MuMIDI.ne_time (fst t) =? MuMIDI.current_tick st) eqn:Etick;
    cbn [negb bind].
  - apply Z.eqb_eq in Etick.
    destruct Hwhere as [[Hfirst _] | [_ [Htick [Hq [Htrack Hkey]]]]]; [lia|].
    rewrite <- Etick in Htick.
    epose proof (decode_track_part ds t (MuMIDI.current_track st) _ _ _ _
                   tempo Hstep Hpair Hsome Htick
                   (fun _ => conj Htrack Hkey)) as [tempos' [Hsome' Hdec]].
    destruct (MuMIDI.ne_desc (fst t) =? MuMIDI.current_track st) eqn:Etrk;
      cbn [negb] in *.
    + apply Z.eqb_eq in Etrk.
      eexists _, _, _. split; [reflexivity|].
      split; [cbn [List.app]; exact Hdec|].
      split; [ | split; [reflexivity | symmetry; exact Etick] ].
      unfold in_tune.
      cbn [MuMIDI.d_current_bar MuMIDI.d_tempos MuMIDI.d_current_tick
           MuMIDI.d_current_track MuMIDI.d_tracks MuMIDI.current_bar
           MuMIDI.current_tempo MuMIDI.current_tick MuMIDI.current_track].
      split; [exact Hbar|]. split; [exact Hpair|]. split; [exact Hsome'|].
      right. split; [lia|]. split; [congruence|]. split; [exact Hq|].
      rewrite <- Etrk. split; [reflexivity | apply has_key_place].
    + eexists _, _, _. split; [reflexivity|].
      split; [cbn [List.app]; exact Hdec|].
      split; [ | split; [reflexivity | symmetry; exact Etick] ].
      unfold in_tune.
      cbn [MuMIDI.d_current_bar MuMIDI.d_tempos MuMIDI.d_current_tick
           MuMIDI.d_current_track MuMIDI.d_tracks MuMIDI.current_bar
           MuMIDI.current_tempo MuMIDI.current_tick MuMIDI.current_track].
      split; [exact Hbar|]. split; [exact Hpair|]. split; [exact Hsome'|].
      right. split; [lia|]. split; [congruence|]. split; [exact Hq|].
      split; [reflexivity | apply has_key_place].
  - apply Z.eqb_neq in Etick.
    assert (Hcb : -1 <= MuMIDI.current_bar st
                  <= MuMIDI.ne_time (fst t) / (td * 4)).
    { assert (0 <= MuMIDI.ne_time (fst t) / (td * 4))
        by (apply Z.div_pos; lia).
      destruct Hwhere as [[_ ->] | [Hpos [_ [-> _]]]]; [lia|].
      split; [ | apply Z.div_le_mono; lia ].
      assert (0 <= MuMIDI.current_tick st / (td * 4))
        by (apply Z.div_pos; lia).
      lia. }
    epose proof (decode_time_part ds (MuMIDI.current_bar st)
                   (MuMIDI.ne_time (fst t)) _ _ tempo Hpair Hsome Hbar Hcb
                   Htime Hgrid) as [tempos1 [Hsome1 Hdec1]].
    set (ds1 := MuMIDI.mkDec (MuMIDI.d_tracks ds) tempos1
                  (MuMIDI.ne_time (fst t))
                  (MuMIDI.ne_time (fst t) / (td * 4))
                  (MuMIDI.d_current_track ds)) in *.
    epose proof (decode_track_part ds1 t (-2) _ _ _ _ tempo Hstep Hpair
                   Hsome1 eq_refl ltac:(intros; lia))
      as [tempos2 [Hsome2 Hdec2]].
    assert (Hnew : (MuMIDI.ne_desc (fst t) =? -2) = false)
      by (apply Z.eqb_neq; lia).
    rewrite Hnew in *. cbn [negb] in *.
    eexists _, _, _. split; [reflexivity|].
    split.
    { rewrite decode_steps_app, Hdec1. cbn [bind]. exact Hdec2. }
    split; [ | split; reflexivity ].
    unfold in_tune.
    cbn [MuMIDI.d_current_bar MuMIDI.d_tempos MuMIDI.d_current_tick
         MuMIDI.d_current_track MuMIDI.d_tracks MuMIDI.current_bar
         MuMIDI.current_tempo MuMIDI.current_tick MuMIDI.current_track ds1].
    assert (Hbar' : (if MuMIDI.current_bar st
                        <? MuMIDI.ne_time (fst t) / (td * 4)
                     then MuMIDI.current_bar st
                          + (MuMIDI.ne_time (fst t) / (td * 4)
                             - MuMIDI.current_bar st)
                     else MuMIDI.current_bar st)
                    = MuMIDI.ne_time (fst t) / (td * 4)).
    { destruct (MuMIDI.current_bar st <? _) eqn:Elt; [lia|].
      apply Z.ltb_ge in Elt. lia. }
    rewrite Hbar'.
    split; [reflexivity|]. split; [exact Hpair|]. split; [exact Hsome2|].
    right. split; [exact Htime|]. split; [reflexivity|].
    split; [reflexivity|].
    split; [reflexivity | apply has_key_place].
Qed.

(** The whole loop: the decoder ends with the notes of the time steps,
    each under the key of its track. *)
Lemma encode_decode_tokens (steps : list MuMIDI.NoteToken) :
  forall (st : MuMIDI.EncState) (ds : MuMIDI.DecState),
    Forall (step_ok self) steps ->
    in_tune self st ds ->
    in_time_order (MuMIDI.current_tick st) steps ->
    exists out ds1,
      MuMIDI.encode_tokens self midi (td * 4) st steps = Some out
      /\ MuMIDI.decode_steps self td tps ds out = Some ds1
      /\ MuMIDI.d_tracks ds1 = collect self (MuMIDI.d_tracks ds) steps.
Proof.
  induction steps as [|t more IH]; intros st ds Hall Htune Horder.
  - exists [], ds. repeat split.
  - inversion Hall as [|? ? Hstep Hmore]; subst.
    destruct Horder as [Hnow Hlater].
    destruct (encode_decode_step st ds t Hstep Htune Hnow)
      as [st1 [out1 [ds1 [Henc [Hdec [Htune1 [Htracks Htick]]]]]]].
    rewrite <- Htick in Hlater.
    destruct (IH st1 ds1 Hmore Htune1 Hlater)
      as [out2 [ds2 [Henc2 [Hdec2 Htracks2]]]].
    exists (out1 ++ out2), ds2.
    cbn [MuMIDI.encode_tokens]. rewrite Henc. cbn [bind].
    rewrite Henc2. cbn [bind]. split; [reflexivity|].
    rewrite decode_steps_app, Hdec. cbn [bind].
    split; [exact Hdec2|].
    rewrite Htracks2, Htracks. reflexivity.
Qed.

(** The first time step that the encoder emits is a Bar step, with a tempo
    that the decoder can read. *)
Lemma encode_token_first (st : MuMIDI.EncState) (t : MuMIDI.NoteToken) :
  MuMIDI.current_tick st = -1 ->
  MuMIDI.current_bar st = -1 ->
  tempo_ok self (MuMIDI.current_tempo st) = true ->
  0 <= MuMIDI.ne_time (fst t) ->
  exists st1 b c x rest,
    MuMIDI.encode_token self midi (td * 4) st t
    = Some (st1, (["Bar_None"; b; c] ++ MuMIDI.tempo_field self x) :: rest)
    /\ tempo_ok self x = true.
Proof.
  intros Htick Hbar Hok Htime.
  unfold MuMIDI.encode_token. rewrite Htpq.
  match goal with
  | |- context [match ?e with pair _ _ => _ end] =>
      lazymatch type of e with
      | (nat * F)%type => set (pair := e)
      end
  end.
  assert (Hpair : tempo_ok self (snd pair) = true).
  { unfold pair.
    destruct (MuMIDI.use_tempos self && _); [ | exact Hok ].
    apply advance_tempo_ok; [ | exact Hok ].
    apply Forall_skipn_of. exact Htempos. }
  destruct pair as [idx tempo]. cbn [snd] in Hpair.
  assert (Hq : 0 <= MuMIDI.ne_time (fst t) / (td * 4))
    by (apply Z.div_pos; lia).
  rewrite Htick, Hbar.
  replace (MuMIDI.ne_time (fst t) =? -1) with false
    by (symmetry; apply Z.eqb_neq; lia).
  replace (-1 <? MuMIDI.ne_time (fst t) / (td * 4)) with true
    by (symmetry; apply Z.ltb_lt; lia).
  cbn [negb bind].
  destruct (Z.to_nat (MuMIDI.ne_time (fst t) / (td * 4) - -1)) as [|count]
    eqn:Ecount; [lia|].
  cbn [MuMIDI.bar_tokens].
  destruct (negb (MuMIDI.ne_desc (fst t) =? -2));
    eexists _, _, _, tempo, _; (split; [ | exact Hpair ]);
    rewrite <- !app_comm_cons; reflexivity.
Qed.

End MuMIDISimulation.

(** ** MuMIDI: the sort of the time steps *)

Section MuMIDISorting.

Context {F : Type} {fops : FloatOps F}.

Local Abbreviation step := (MuMIDI.NoteToken (F := F)).

Lemma key_le_spec (a b : step) :
  MuMIDI.key_le a b = true
  <-> MuMIDI.ne_time (fst a) < MuMIDI.ne_time (fst b)
      \/ (MuMIDI.ne_time (fst a) = MuMIDI.ne_time (fst b)
          /\ MuMIDI.ne_desc (fst a) <= MuMIDI.ne_desc (fst b)).
Proof.
  unfold MuMIDI.key_le.
  rewrite orb_true_iff, andb_true_iff, Z.ltb_lt, Z.eqb_eq, Z.leb_le.
  reflexivity.
Qed.

Lemma key_le_total (a b : step) :
  MuMIDI.key_le a b = false -> MuMIDI.key_le b a = true.
Proof.
  intros Hab. apply key_le_spec.
  destruct (MuMIDI.key_le b a) eqn:Hba.
  - apply key_le_spec in Hba. exact Hba.
  - assert (Hnab : ~ MuMIDI.key_le a b = true) by congruence.
    rewrite key_le_spec in Hnab. lia.
Qed.

Lemma key_le_trans (a b c : step) :
  MuMIDI.key_le a b = true -> MuMIDI.key_le b c = true ->
  MuMIDI.key_le a c = true.
Proof. rewrite !key_le_spec. lia. Qed.

(** Where [x] is before every element, it goes in front. *)
Lemma insert_front (x : step) (l : list step) :
  Forall (fun y => MuMIDI.key_le x y = true) l ->
  MuMIDI.insert_token x l = x :: l.
Proof.
  intros Hall. destruct l as [|y more]; [reflexivity|].
  inversion Hall as [|? ? Hy _]; subst.
  cbn [MuMIDI.insert_token]. rewrite Hy. reflexivity.
Qed.

Lemma insert_token_Forall (P : step -> Prop) (x : step) (l : list step) :
  P x -> Forall P l -> Forall P (MuMIDI.insert_token x l).
Proof.
  intros Hx. induction l as [|y more IH]; intros Hall;
    cbn [MuMIDI.insert_token].
  - constructor; [exact Hx | constructor].
  - inversion Hall as [|? ? Hy Hmore]; subst.
    destruct (MuMIDI.key_le x y).
    + constructor; [exact Hx | exact Hall].
    + constructor; [exact Hy | apply IH; exact Hmore].
Qed.

Lemma sort_tokens_Forall (P : step -> Prop) (l : list step) :
  Forall P l -> Forall P (MuMIDI.sort_tokens l).
Proof.
  induction l as [|x more IH]; intros Hall; [constructor|].
  inversion Hall; subst. cbn [MuMIDI.sort_tokens fold_right].
  apply insert_token_Forall; [assumption|]. apply IH. assumption.
Qed.

Lemma insert_token_sorted (x : step) (l : list step) :
  StronglySorted (fun a b => MuMIDI.key_le a b = true) l ->
  StronglySorted (fun a b => MuMIDI.key_le a b = true)
    (MuMIDI.insert_token x l).
Proof.
  induction l as [|y more IH]; intros Hsorted; cbn [MuMIDI.insert_token].
  - constructor; constructor.
  - inversion Hsorted as [|? ? Hmore Hy]; subst.
    destruct (MuMIDI.key_le x y) eqn:Exy.
    + constructor; [exact Hsorted|].
      constructor; [exact Exy|].
      apply Forall_forall. intros z Hz.
      rewrite Forall_forall in Hy.
      apply (key_le_trans x y z Exy (Hy z Hz)).
    + constructor; [apply IH; exact Hmore|].
      apply insert_token_Forall; [apply key_le_total; exact Exy | exact Hy].
Qed.

Lemma sort_tokens_sorted (l : list step) :
  StronglySorted (fun a b => MuMIDI.key_le a b = true) (MuMIDI.sort_tokens l).
Proof.
  induction l as [|x more IH]; [constructor|].
  cbn [MuMIDI.sort_tokens fold_right]. apply insert_token_sorted. exact IH.
Qed.

(** The sort is stable, so it commutes with the choice of the time steps of
    a track. *)
Lemma filter_insert_token (p : step -> bool) (x : step) (l : list step) :
  StronglySorted (fun a b => MuMIDI.key_le a b = true) l ->
  filter p (MuMIDI.insert_token x l)
  = if p x then MuMIDI.insert_token x (filter p l) else filter p l.
Proof.
  induction l as [|y more IH]; intros Hsorted;
    cbn [MuMIDI.insert_token filter].
  - destruct (p x); reflexivity.
  - inversion Hsorted as [|? ? Hmore Hy]; subst.
    destruct (MuMIDI.key_le x y) eqn:Exy.
    + cbn [filter]. destruct (p x); [ | reflexivity ].
      symmetry. apply insert_front.
      assert (Hall : Forall (fun z => MuMIDI.key_le x z = true) (y :: more)).
      { constructor; [exact Exy|].
        apply Forall_forall. intros z Hz. rewrite Forall_forall in Hy.
        apply (key_le_trans x y z Exy (Hy z Hz)). }
      apply Forall_forall. intros z Hz.
      change (In z (filter p (y :: more))) in Hz. apply filter_In in Hz.
      rewrite Forall_forall in Hall. apply Hall. apply Hz.
    + cbn [filter]. rewrite (IH Hmore).
      destruct (p y), (p x); cbn [MuMIDI.insert_token]; try rewrite Exy;
        reflexivity.
Qed.

Lemma filter_sort_tokens (p : step -> bool) (l : list step) :
  filter p (MuMIDI.sort_tokens l) = MuMIDI.sort_tokens (filter p l).
Proof.
  induction l as [|x more IH]; [reflexivity|].
  cbn [MuMIDI.sort_tokens fold_right filter].
  rewrite filter_insert_token by apply sort_tokens_sorted.
  fold (MuMIDI.sort_tokens more). rewrite IH.
  destruct (p x); reflexivity.
Qed.

(** Time steps already in order stay as they are. *)
Lemma sort_tokens_sorted_input (l : list step) :
  key_sorted l -> MuMIDI.sort_tokens l = l.
Proof.
  induction l as [|a more IH]; intros Hsorted; [reflexivity|].
  cbn [MuMIDI.sort_tokens fold_right]. fold (MuMIDI.sort_tokens more).
  destruct more as [|b more'].
  - reflexivity.
  - destruct Hsorted as [Hab Hmore]. rewrite (IH Hmore).
    cbn [MuMIDI.insert_token]. unfold key_before in Hab. rewrite Hab.
    reflexivity.
Qed.

Lemma sorted_in_time_order (l : list step) (last : Z) :
  StronglySorted (fun a b => MuMIDI.key_le a b = true) l ->
  Forall (fun t => last <= MuMIDI.ne_time (fst t)) l ->
  in_time_order last l.
Proof.
  revert last. induction l as [|a more IH]; intros last Hsorted Hlast;
    cbn [in_time_order]; [exact I|].
  inversion Hsorted as [|? ? Hmore Ha]; subst.
  inversion Hlast as [|? ? Hfirst _]; subst.
  split; [exact Hfirst|]. apply IH; [exact Hmore|].
  apply Forall_forall. intros z Hz. rewrite Forall_forall in Ha.
  specialize (Ha z Hz). apply key_le_spec in Ha. lia.
Qed.

End MuMIDISorting.

(** ** MuMIDI: the time steps of the tracks *)

Section MuMIDITracks.

Context {F : Type} {fops : FloatOps F}.
Variable self : MuMIDI.Tokenizer (F := F).
Hypothesis Hchords : MuMIDI.use_chords self = false.
Hypothesis Hdurations : durations_ok self = true.

Lemma closest_duration_in (table : list (string * Z)) (duration : Z)
  (entry : string * Z) :
  MuMIDI.closest_duration table duration = Some entry -> In entry table.
Proof.
  unfold MuMIDI.closest_duration. destruct table as [|d more]; [discriminate|].
  intros [= <-].
  assert (Hgen : forall rest best,
             In best (d :: more) -> incl rest (d :: more) ->
             In (fold_left
                   (fun best entry =>
                      if Z.abs (snd entry - duration)
                         <? Z.abs (snd best - duration)
                      then entry else best) rest best) (d :: more)).
  { induction rest as [|e rest IH]; intros best Hbest Hincl; cbn [fold_left].
    - exact Hbest.
    - apply IH.
      + destruct (_ <? _); [apply Hincl; left; reflexivity | exact Hbest].
      + intros x Hx. apply Hincl. right. exact Hx. }
  apply Hgen; [left; reflexivity|].
  intros x Hx. right. exact Hx.
Qed.

Lemma closest_duration_some (duration : Z) :
  exists entry,
    MuMIDI.closest_duration (MuMIDI.durations self) duration = Some entry
    /\ duration_ok self entry = true.
Proof.
  unfold durations_ok in Hdurations.
  destruct (MuMIDI.durations self) as [|d more] eqn:Etable; [discriminate|].
  destruct (MuMIDI.closest_duration (d :: more) duration) as [entry|] eqn:Ec;
    [ | discriminate Ec ].
  exists entry. split; [reflexivity|].
  rewrite forallb_forall in Hdurations. apply Hdurations.
  apply (closest_duration_in _ _ _ Ec).
Qed.

(** The time step of one note. *)
Lemma note_token_step (tr : Track) (n : Note) :
  on_grid self n = true ->
  -1 <= track_key tr ->
  exists t,
    MuMIDI.note_token self tr n = Some t
    /\ step_ok self t
    /\ MuMIDI.ne_desc (fst t) = track_key tr
    /\ MuMIDI.ne_time (fst t) = note_start n
    /\ note_of self t = quantized self n.
Proof.
  intros Hgrid Hkey. unfold on_grid in Hgrid.
  apply andb_prop in Hgrid. destruct Hgrid as [Hpos Hmod].
  apply Z.leb_le in Hpos. apply Z.eqb_eq in Hmod.
  destruct (closest_duration_some (note_end n - note_start n))
    as [[label ticks] [Hclosest Hentry]].
  unfold duration_ok in Hentry. cbn [fst snd] in Hentry.
  apply andb_prop in Hentry. destruct Hentry as [Hentry Hticks].
  apply andb_prop in Hentry. destruct Hentry as [Hplain Hlabel].
  apply negb_true_iff in Hlabel. apply String.eqb_neq in Hlabel.
  destruct (MuMIDI.token_duration_to_ticks self label
              (MuMIDI.time_division self)) as [ticks'|] eqn:Eticks;
    [ | discriminate Hticks ].
  apply Z.eqb_eq in Hticks. subst ticks'.
  unfold MuMIDI.note_token. rewrite Hclosest. cbn [bind fst].
  eexists. split; [reflexivity|].
  assert (Hnote : forall ty,
             note_of self
               (MuMIDI.mkNoteEvent ty (VInt (note_pitch n)) (note_start n)
                  (track_key tr),
                [("Velocity_" ++ Py.str (note_velocity n))%string;
                 ("Duration_" ++ label)%string])
             = quantized self n).
  { intros ty. unfold note_of, quantized, nearest_ticks.
    cbn [fst snd MuMIDI.ne_time MuMIDI.ne_value].
    change ("Velocity_" ++ Py.str (note_velocity n))%string
      with ("Velocity" ++ "_" ++ Py.str (note_velocity n))%string.
    change ("Duration_" ++ label)%string
      with ("Duration" ++ "_" ++ label)%string.
    rewrite (tok_value_tagged "Velocity" _ eq_refl
               (no_underscore_str (note_velocity n))).
    rewrite (tok_value_tagged "Duration" _ eq_refl Hplain).
    rewrite int_str, Eticks, Hclosest. reflexivity. }
  unfold track_key in *.
  destruct (is_drum tr); cbn [negb fst snd MuMIDI.ne_desc MuMIDI.ne_time].
  - split; [ | split; [reflexivity | split; [reflexivity | apply Hnote]] ].
    unfold step_ok.
    cbn [fst snd MuMIDI.ne_type MuMIDI.ne_value MuMIDI.ne_time MuMIDI.ne_desc].
    split; [right; reflexivity|]. split; [eexists; reflexivity|].
    split; [exact Hpos|]. split; [exact Hmod|]. split; [lia|].
    exists (note_velocity n), label. split; [reflexivity|].
    split; [exact Hplain|]. split; [exact Hlabel|].
    rewrite Eticks. discriminate.
  - split; [ | split; [reflexivity | split; [reflexivity | apply Hnote]] ].
    unfold step_ok.
    cbn [fst snd MuMIDI.ne_type MuMIDI.ne_value MuMIDI.ne_time MuMIDI.ne_desc].
    split; [left; reflexivity|]. split; [eexists; reflexivity|].
    split; [exact Hpos|]. split; [exact Hmod|]. split; [exact Hkey|].
    exists (note_velocity n), label. split; [reflexivity|].
    split; [exact Hplain|]. split; [exact Hlabel|].
    rewrite Eticks. discriminate.
Qed.

Lemma note_tokens_of_steps (tr : Track) (ns : list Note) :
  forallb (on_grid self) ns = true ->
  -1 <= track_key tr ->
  exists steps,
    MuMIDI.note_tokens_of self tr ns = Some steps
    /\ Forall (step_ok self) steps
    /\ Forall (fun t => MuMIDI.ne_desc (fst t) = track_key tr) steps
    /\ map (fun t => MuMIDI.ne_time (fst t)) steps = map note_start ns
    /\ map (note_of self) steps = map (quantized self) ns.
Proof.
  intros Hgrid Hkey. induction ns as [|n more IH].
  - exists []. repeat split; constructor.
  - cbn [forallb] in Hgrid. apply andb_prop in Hgrid.
    destruct Hgrid as [Hn Hmore].
    destruct (note_token_step tr n Hn Hkey)
      as [t [Htok [Hstep [Hdesc [Htime Hnote]]]]].
    destruct (IH Hmore) as [steps [Hrun [Hsteps [Hdescs [Htimes Hnotes]]]]].
    exists (t :: steps). cbn [MuMIDI.note_tokens_of].
    rewrite Htok, Hrun. cbn [bind map].
    split; [reflexivity|]. split; [constructor; assumption|].
    split; [constructor; assumption|].
    split; [rewrite Htime, Htimes | rewrite Hnote, Hnotes]; reflexivity.
Qed.

Lemma steps_key_sorted (k : Z) (steps : list (MuMIDI.NoteToken (F := F))) :
  forall ns : list Note,
    map (fun t => MuMIDI.ne_time (fst t)) steps = map note_start ns ->
    Forall (fun t => MuMIDI.ne_desc (fst t) = k) steps ->
    sorted_by_start ns = true ->
    key_sorted steps.
Proof.
  induction steps as [|a more IH]; intros ns Htimes Hdesc Hsorted;
    [exact I|].
  destruct ns as [|n ns]; [discriminate Htimes|].
  cbn [map] in Htimes. injection Htimes as Ha Htimes.
  inversion Hdesc as [|? ? Hka Hmore]; subst.
  destruct more as [|b more']; [exact I|].
  destruct ns as [|n' ns]; [discriminate Htimes|].
  cbn [sorted_by_start] in Hsorted. apply andb_prop in Hsorted.
  destruct Hsorted as [Hle Hsorted]. apply Z.leb_le in Hle.
  split; [ | apply (IH (n' :: ns) Htimes Hmore Hsorted) ].
  cbn [map] in Htimes. injection Htimes as Hb _.
  inversion Hmore as [|? ? Hkb _]; subst.
  unfold key_before. apply key_le_spec. lia.
Qed.

Lemma track_to_tokens_steps (tr : Track) (tpq : Z) :
  track_ok self tr = true ->
  exists steps,
    MuMIDI._track_to_tokens self tr tpq = Some steps
    /\ track_steps self tr steps.
Proof.
  unfold track_ok. intros Hok.
  apply andb_prop in Hok. destruct Hok as [Hok Hsorted].
  apply andb_prop in Hok. destruct Hok as [Hok Hgrid].
  apply andb_prop in Hok. destruct Hok as [_ Hprog].
  assert (Hkey : key_ok self (track_key tr)).
  { unfold key_ok, track_key. destruct (is_drum tr); [left; reflexivity|].
    right. cbn [orb] in Hprog. apply andb_prop in Hprog.
    destruct Hprog as [Hlo Hhi]. apply Z.leb_le in Hlo. apply Z.ltb_lt in Hhi.
    lia. }
  assert (Hlow : -1 <= track_key tr) by (destruct Hkey; lia).
  destruct (note_tokens_of_steps tr (notes tr) Hgrid Hlow)
    as [steps [Hrun [Hsteps [Hdescs [Htimes Hnotes]]]]].
  exists steps. unfold MuMIDI._track_to_tokens.
  rewrite Hrun, Hchords. cbn [bind andb].
  split; [reflexivity|].
  unfold track_steps. split; [exact Hsteps|]. split; [exact Hdescs|].
  split; [exact Hkey|]. split; [ | exact Hnotes ].
  apply (steps_key_sorted (track_key tr) steps (notes tr) Htimes Hdescs Hsorted).
Qed.

Lemma all_note_tokens_steps (tpq : Z) (trs : list Track) :
  forallb (track_ok self) trs = true ->
  exists lists,
    MuMIDI.all_note_tokens self tpq trs = Some (List.concat lists)
    /\ Forall2 (track_steps self) trs lists.
Proof.
  induction trs as [|tr more IH]; intros Hall.
  - exists []. split; [reflexivity | constructor].
  - cbn [forallb] in Hall. apply andb_prop in Hall. destruct Hall as [Hok Hall].
    destruct (track_to_tokens_steps tr tpq Hok) as [steps [Hrun Hsteps]].
    destruct (IH Hall) as [lists [Hmore Hlists]].
    exists (steps :: lists). cbn [MuMIDI.all_note_tokens].
    assert (Hprog : existsb (Z.eqb (program tr)) (MuMIDI.programs self) = true).
    { unfold track_ok in Hok. apply andb_prop in Hok. destruct Hok as [Hok _].
      apply andb_prop in Hok. destruct Hok as [Hok _].
      apply andb_prop in Hok. apply Hok. }
    rewrite Hprog, Hrun, Hmore. cbn [bind List.concat].
    split; [reflexivity | constructor; assumption].
Qed.

End MuMIDITracks.

(** ** MuMIDI: the dictionary of tracks *)

Section MuMIDIDictionary.

Context {F : Type} {fops : FloatOps F}.
Variable self : MuMIDI.Tokenizer (F := F).

Lemma str_inj (a b : Z) : Py.str a = Py.str b -> a = b.
Proof.
  intros Heq. pose proof (int_str a) as Ha. rewrite Heq, int_str in Ha.
  injection Ha as ->. reflexivity.
Qed.

Lemma notes_under_place (tracks : list (string * list Note)) (k k' : string)
  (n : Note) :
  notes_under (place tracks k' n) k
  = if String.eqb k k'
    then Some (match notes_under tracks k with
               | Some old => old ++ [n]
               | None => [n]
               end)
    else notes_under tracks k.
Proof.
  induction tracks as [|[k0 ns0] more IH]; cbn [place notes_under].
  - destruct (String.eqb k k'); reflexivity.
  - destruct (String.eqb_spec k' k0) as [-> | Hne0]; cbn [notes_under].
    + destruct (String.eqb k k0); reflexivity.
    + rewrite IH.
      destruct (String.eqb_spec k k0) as [-> | Hne]; [ | reflexivity ].
      destruct (String.eqb_spec k0 k') as [Heq | _]; [ | reflexivity ].
      elim Hne0. symmetry. exact Heq.
Qed.

(** The notes under the key of a track are those of its time steps, in
    their order. *)
Lemma notes_under_collect (steps : list (MuMIDI.NoteToken (F := F))) (k : Z) :
  forall tracks : list (string * list Note),
    notes_under (collect self tracks steps) (Py.str k)
    = let ns := map (note_of self)
                  (filter (fun t => MuMIDI.ne_desc (fst t) =? k) steps) in
      match notes_under tracks (Py.str k) with
      | Some old => Some (old ++ ns)
      | None => match ns with [] => None | _ :: _ => Some ns end
      end.
Proof.
  induction steps as [|t more IH]; intros tracks; cbn zeta.
  - cbn [filter map collect fold_left].
    destruct (notes_under tracks (Py.str k)) as [old|]; [ | reflexivity ].
    rewrite app_nil_r. reflexivity.
  - unfold collect. cbn [fold_left]. fold (collect self).
    change (fold_left
              (fun acc t0 =>
                 place acc (Py.str (MuMIDI.ne_desc (fst t0))) (note_of self t0))
              more
              (place tracks (Py.str (MuMIDI.ne_desc (fst t))) (note_of self t)))
      with (collect self
              (place tracks (Py.str (MuMIDI.ne_desc (fst t))) (note_of self t))
              more).
    rewrite IH. cbn zeta. rewrite notes_under_place. cbn [filter].
    destruct (Z.eqb_spec (MuMIDI.ne_desc (fst t)) k) as [-> | Hne].
    + rewrite String.eqb_refl. cbn [map].
      destruct (notes_under tracks (Py.str k)) as [old|].
      * rewrite <- app_assoc. reflexivity.
      * reflexivity.
    + destruct (String.eqb_spec (Py.str k) (Py.str (MuMIDI.ne_desc (fst t))))
        as [Heq | _]; [ | reflexivity ].
      elim Hne. symmetry. apply str_inj. exact Heq.
Qed.

Lemma notes_under_In (tracks : list (string * list Note)) (k : string)
  (ns : list Note) :
  notes_under tracks k = Some ns -> In (k, ns) tracks.
Proof.
  induction tracks as [|[k0 ns0] more IH]; cbn [notes_under];
    [discriminate|].
  destruct (String.eqb_spec k k0) as [-> | _].
  - intros [= ->]. left. reflexivity.
  - intros Hmore. right. apply IH. exact Hmore.
Qed.

Lemma place_keys (P : string -> Prop) (tracks : list (string * list Note))
  (k : string) (n : Note) :
  P k -> Forall (fun e => P (fst e)) tracks ->
  Forall (fun e => P (fst e)) (place tracks k n).
Proof.
  intros Hk. induction tracks as [|[k0 ns0] more IH]; intros Hall;
    cbn [place].
  - constructor; [exact Hk | constructor].
  - inversion Hall as [|? ? H0 Hmore]; subst.
    destruct (String.eqb k k0); constructor; try assumption.
    apply IH. exact Hmore.
Qed.

Lemma collect_keys (P : string -> Prop)
  (steps : list (MuMIDI.NoteToken (F := F))) :
  forall tracks : list (string * list Note),
    Forall (fun t => P (Py.str (MuMIDI.ne_desc (fst t)))) steps ->
    Forall (fun e => P (fst e)) tracks ->
    Forall (fun e => P (fst e)) (collect self tracks steps).
Proof.
  induction steps as [|t more IH]; intros tracks Hsteps Htracks.
  - exact Htracks.
  - inversion Hsteps as [|? ? Ht Hmore]; subst.
    unfold collect. cbn [fold_left]. apply IH; [exact Hmore|].
    apply place_keys; assumption.
Qed.

Lemma index_inside {A : Type} (l : list A) (i : Z) :
  0 <= i < Z.of_nat (List.length l) -> exists x, Py.index l i = Some x.
Proof.
  intros Hi. unfold Py.index.
  replace (0 <=? i) with true by (symmetry; apply Z.leb_le; lia).
  replace (i <? Z.of_nat (List.length l)) with true
    by (symmetry; apply Z.ltb_lt; lia).
  cbn [andb].
  destruct (nth_error l (Z.to_nat i)) as [x|] eqn:Enth.
  - exists x. reflexivity.
  - apply nth_error_None in Enth. lia.
Qed.

(** The tracks that the decoder makes of the dictionary. *)
Lemma make_tracks_decoded (tracks : list (string * list Note)) :
  Forall (fun e => exists j, fst e = Py.str j /\ key_ok self j) tracks ->
  exists trs,
    MuMIDI.make_tracks self tracks = Some trs
    /\ forall j ns,
         In (Py.str j, ns) tracks ->
         exists tr, In tr trs /\ decoded_track j ns tr.
Proof.
  induction tracks as [|[k ns] more IH]; intros Hall.
  - exists []. split; [reflexivity|]. intros j ns' [].
  - inversion Hall as [|? ? [j [Hk Hj]] Hmore]; subst.
    cbn [fst] in Hk. subst k.
    destruct (IH Hmore) as [trs [Hrun Hin]].
    cbn [MuMIDI.make_tracks]. rewrite int_str. cbn [bind].
    assert (Hone : exists tr,
               (if j =? -1 then Some (mkTrack 0 true "Drums" ns)
                else nm <- Py.index (MuMIDI.instrument_names self) j ;;
                     Some (mkTrack j false nm ns)) = Some tr
               /\ decoded_track j ns tr).
    { destruct (Z.eqb_spec j (-1)) as [-> | Hne].
      - eexists. split; [reflexivity|]. repeat split.
      - destruct Hj as [Hj | Hj]; [contradiction|].
        destruct (index_inside _ _ Hj) as [nm ->]. cbn [bind].
        eexists. split; [reflexivity|].
        unfold decoded_track. cbn [notes is_drum program].
        apply Z.eqb_neq in Hne. rewrite Hne. repeat split. }
    destruct Hone as [tr [-> Htr]]. cbn [bind]. rewrite Hrun. cbn [bind].
    exists (tr :: trs). split; [reflexivity|].
    intros j' ns' [Heq | Hlater].
    + injection Heq as Hj' ->. apply str_inj in Hj'. subst j'.
      exists tr. split; [left; reflexivity | exact Htr].
    + destruct (Hin j' ns' Hlater) as [tr' [Htr' Hdec]].
      exists tr'. split; [right; exact Htr' | exact Hdec].
Qed.

End MuMIDIDictionary.

(** ** MuMIDI: the round trip *)

Section MuMIDIRoundTrip.

Context {F : Type} {fops : FloatOps F}.
Variable self : MuMIDI.Tokenizer (F := F).

Lemma filter_one_key (k k' : Z) (steps : list (MuMIDI.NoteToken (F := F))) :
  Forall (fun t => MuMIDI.ne_desc (fst t) = k') steps ->
  filter (fun t => MuMIDI.ne_desc (fst t) =? k) steps
  = if k' =? k then steps else [].
Proof.
  induction steps as [|t more IH]; intros Hall; cbn [filter].
  - destruct (k' =? k); reflexivity.
  - inversion Hall as [|? ? Ht Hmore]; subst.
    rewrite (IH Hmore). destruct (MuMIDI.ne_desc (fst t) =? k); reflexivity.
Qed.

Lemma filter_concat_other (k : Z) (trs : list Track)
  (lists : list (list (MuMIDI.NoteToken (F := F)))) :
  Forall2 (track_steps self) trs lists ->
  existsb (fun u => track_key u =? k) trs = false ->
  filter (fun t => MuMIDI.ne_desc (fst t) =? k) (List.concat lists) = [].
Proof.
  induction 1 as [|tr l trs lists Hsteps _ IH]; intros Hother;
    cbn [List.concat]; [reflexivity|].
  cbn [existsb] in Hother. apply orb_false_elim in Hother.
  destruct Hother as [Hne Hother].
  unfold MuMIDI.NoteToken in *.
  rewrite filter_app, (IH Hother), app_nil_r.
  destruct Hsteps as [_ [Hdesc _]].
  rewrite (filter_one_key k (track_key tr) l Hdesc), Hne. reflexivity.
Qed.

(** Among the time steps of all tracks, those under the key of a track are
    the time steps of that track. *)
Lemma filter_concat_own (tr : Track) (trs : list Track)
  (lists : list (list (MuMIDI.NoteToken (F := F)))) :
  Forall2 (track_steps self) trs lists ->
  distinct_keys trs = true ->
  In tr trs ->
  exists steps,
    track_steps self tr steps
    /\ filter (fun t => MuMIDI.ne_desc (fst t) =? track_key tr)
         (List.concat lists) = steps.
Proof.
  induction 1 as [|tr0 l trs lists Hsteps Hrest IH]; intros Hdistinct Hin;
    [destruct Hin|].
  cbn [distinct_keys] in Hdistinct. apply andb_prop in Hdistinct.
  destruct Hdistinct as [Hfresh Hdistinct]. apply negb_true_iff in Hfresh.
  cbn [List.concat]. unfold MuMIDI.NoteToken in *. rewrite filter_app.
  pose proof Hsteps as [_ [Hdesc _]].
  destruct Hin as [-> | Hin].
  - exists l. split; [exact Hsteps|].
    rewrite (filter_one_key _ _ l Hdesc), Z.eqb_refl.
    pose proof (filter_concat_other _ _ _ Hrest Hfresh) as Hnil.
    unfold MuMIDI.NoteToken in Hnil. rewrite Hnil. apply app_nil_r.
  - destruct (IH Hdistinct Hin) as [steps [Hown Hfilter]].
    exists steps. split; [exact Hown|].
    rewrite (filter_one_key _ _ l Hdesc).
    assert (Hne : (track_key tr0 =? track_key tr) = false).
    { destruct (track_key tr0 =? track_key tr) eqn:Eq; [ | reflexivity ].
      rewrite <- Hfresh. symmetry. apply existsb_exists.
      exists tr. split; [exact Hin|]. rewrite Z.eqb_sym. exact Eq. }
    rewrite Hne. exact Hfilter.
Qed.

Lemma concat_Forall (P : MuMIDI.NoteToken (F := F) -> Prop) (trs : list Track)
  (lists : list (list (MuMIDI.NoteToken (F := F)))) :
  Forall2 (track_steps self) trs lists ->
  (forall tr steps, track_steps self tr steps -> Forall P steps) ->
  Forall P (List.concat lists).
Proof.
  intros Hall Hp. induction Hall as [|tr l trs lists Hsteps _ IH];
    cbn [List.concat]; [constructor|].
  apply Forall_app. split; [apply (Hp tr l Hsteps) | exact IH].
Qed.

Lemma mumidi_ready_facts (midi : Score F) :
  mumidi_ready self midi = true ->
  MuMIDI.use_chords self = false
  /\ 0 < MuMIDI.time_division self
  /\ ticks_per_quarter midi = MuMIDI.time_division self
  /\ 0 < MuMIDI.max_beat_res self
  /\ MuMIDI.time_division self mod MuMIDI.max_beat_res self = 0
  /\ durations_ok self = true
  /\ tempos_ok self midi = true
  /\ forallb (track_ok self) (tracks midi) = true
  /\ distinct_keys (tracks midi) = true.
Proof.
  unfold mumidi_ready. intros H.
  apply andb_prop in H. destruct H as [H Hkeys].
  apply andb_prop in H. destruct H as [H Htracks].
  apply andb_prop in H. destruct H as [H Htempos].
  apply andb_prop in H. destruct H as [H Hdurations].
  apply andb_prop in H. destruct H as [H Hdiv].
  apply andb_prop in H. destruct H as [H Hres].
  apply andb_prop in H. destruct H as [H Htpq].
  apply andb_prop in H. destruct H as [Hchords Htd].
  apply negb_true_iff in Hchords.
  apply Z.ltb_lt in Htd. apply Z.eqb_eq in Htpq. apply Z.ltb_lt in Hres.
  apply Z.eqb_eq in Hdiv.
  repeat split; assumption.
Qed.

Lemma tempos_ok_facts (midi : Score F) :
  tempos_ok self midi = true ->
  (exists first, nth_error (score_tempos midi) 0 = Some first
                 /\ tempo_ok self (float_round2 (tempo_value first)) = true)
  /\ Forall (fun t => tempo_ok self (float_round2 (tempo_value t)) = true)
       (score_tempos midi).
Proof.
  unfold tempos_ok. destruct (score_tempos midi) as [|first more];
    [discriminate|].
  intros Hall. rewrite forallb_forall in Hall. split.
  - exists first. split; [reflexivity|]. apply Hall. left. reflexivity.
  - apply Forall_forall. exact Hall.
Qed.

(** The first tempo that the decoder reads off the first time step. *)
Lemma first_tempo_read (x : F) (b c : string) (rest : list (list string)) :
  tempo_ok self x = true ->
  exists first_tempo,
    (if MuMIDI.use_tempos self
     then f <- nth_error (["Bar_None"; b; c] ++ MuMIDI.tempo_field self x) 3 ;;
          v <- MuMIDI.tok_value f ;; float_of_string v
     else Some (MuMIDI.default_tempo self)) = Some first_tempo.
Proof.
  unfold tempo_ok, MuMIDI.tempo_field. intros Hok.
  destruct (MuMIDI.use_tempos self); [ | eexists; reflexivity ].
  cbn [negb orb] in Hok. apply andb_prop in Hok. destruct Hok as [Hplain Hparse].
  cbn [List.app]. cbn [nth_error bind].
  change ("Tempo_" ++ string_of_float x)%string
    with ("Tempo" ++ "_" ++ string_of_float x)%string.
  rewrite (tok_value_tagged "Tempo" _ eq_refl Hplain). cbn [bind].
  destruct (float_of_string (string_of_float x)) as [y|];
    [ | discriminate Hparse ].
  exists y. reflexivity.
Qed.

(** The round trip once the vocabulary is settled. *)
Lemma mumidi_body_round_trip (midi : Score F) :
  mumidi_ready self midi = true ->
  exists toks out,
    MuMIDI.midi_to_tokens_body self midi = Some toks
    /\ MuMIDI.tokens_to_midi_body self toks None = Some out
    /\ ticks_per_quarter out = ticks_per_quarter midi
    /\ forall tr,
         In tr (tracks midi) -> notes tr <> [] ->
         exists tr',
           In tr' (tracks out)
           /\ decoded_track (track_key tr)
                (map (quantized self) (notes tr)) tr'.
Proof.
  intros Hready.
  destruct (mumidi_ready_facts midi Hready)
    as [Hchords [Htd [Htpq [Hres [Hdiv [Hdurations [Htempos [Htracks
        Hkeys]]]]]]]].
  destruct (tempos_ok_facts midi Htempos) as [[first [Hfirst Hfirst_ok]] Hall].
  destruct (all_note_tokens_steps self Hchords Hdurations
              (ticks_per_quarter midi) (tracks midi) Htracks)
    as [lists [Hnotes Hlists]].
  set (steps := MuMIDI.sort_tokens (List.concat lists)).
  assert (Hsteps : Forall (step_ok self) steps).
  { apply sort_tokens_Forall. apply (concat_Forall _ _ _ Hlists).
    intros tr l Hl. apply Hl. }
  assert (Hkeys_ok : Forall (fun t => key_ok self (MuMIDI.ne_desc (fst t)))
                       steps).
  { apply sort_tokens_Forall. apply (concat_Forall _ _ _ Hlists).
    intros tr l [_ [Hdesc [Hkey _]]].
    apply Forall_forall. intros t Ht. rewrite Forall_forall in Hdesc.
    rewrite (Hdesc t Ht). exact Hkey. }
  set (st0 := MuMIDI.mkEnc (-1) (-1) (-1) (-2) 0
                (float_round2 (tempo_value first))).
  assert (Horder : in_time_order (MuMIDI.current_tick st0) steps).
  { apply sorted_in_time_order; [apply sort_tokens_sorted|].
    apply Forall_forall. intros t Ht. rewrite Forall_forall in Hsteps.
    destruct (Hsteps t Ht) as [_ [_ [Htime _]]]. cbn. lia. }
  assert (Hbody : forall out,
             MuMIDI.encode_tokens self midi (MuMIDI.time_division self * 4)
               st0 steps = Some out ->
             MuMIDI.midi_to_tokens_body self midi = Some out).
  { intros out Hout. unfold MuMIDI.midi_to_tokens_body.
    rewrite Hnotes. cbn [bind].
    replace (MuMIDI.max_beat_res self =? 0) with false
      by (symmetry; apply Z.eqb_neq; lia).
    rewrite Hfirst. cbn [bind]. rewrite Htpq. exact Hout. }
  assert (Hfirst_tempo : forall out,
             MuMIDI.encode_tokens self midi (MuMIDI.time_division self * 4)
               st0 steps = Some out ->
             exists first_tempo,
               match out with
               | first_step :: _ =>
                   if MuMIDI.use_tempos self
                   then f <- nth_error first_step 3 ;;
                        v <- MuMIDI.tok_value f ;; float_of_string v
                   else Some (MuMIDI.default_tempo self)
               | [] => Some (MuMIDI.default_tempo self)
               end = Some first_tempo).
  { intros out Hout. destruct steps as [|t more] eqn:Esteps.
    - injection Hout as <-. eexists. reflexivity.
    - inversion Hsteps as [|? ? [_ [_ [Htime _]]] _]; subst.
      destruct (encode_token_first self Htd midi Htpq Hall st0 t eq_refl
                  eq_refl Hfirst_ok Htime)
        as [st1 [b [c [x [rest [Henc Hx]]]]]].
      cbn [MuMIDI.encode_tokens] in Hout. rewrite Henc in Hout.
      cbn [bind] in Hout.
      destruct (MuMIDI.encode_tokens self midi _ st1 more) as [out2|];
        [ | discriminate Hout ].
      cbn [bind] in Hout. injection Hout as <-.
      cbn [List.app].
      apply (first_tempo_read x b c rest Hx). }
  assert (Hrun : forall ds0,
             in_tune self st0 ds0 ->
             exists out ds1,
               MuMIDI.encode_tokens self midi (MuMIDI.time_division self * 4)
                 st0 steps = Some out
               /\ MuMIDI.decode_steps self (MuMIDI.time_division self)
                    (MuMIDI.time_division self / MuMIDI.max_beat_res self)
                    ds0 out = Some ds1
               /\ MuMIDI.d_tracks ds1
                  = collect self (MuMIDI.d_tracks ds0) steps).
  { intros ds0 Htune.
    apply (encode_decode_tokens self Htd Hres Hdiv midi Htpq Hall steps st0
             ds0 Hsteps Htune Horder). }
  destruct (Hrun (MuMIDI.mkDec [] [mkTempo 0 (MuMIDI.default_tempo self)] 0
                    (-1) None)) as [out [_ [Hout _]]].
  { unfold in_tune. cbn. split; [reflexivity|]. split; [exact Hfirst_ok|].
    split; [discriminate | left; split; reflexivity]. }
  destruct (Hfirst_tempo out Hout) as [first_tempo Hread].
  destruct (Hrun (MuMIDI.mkDec [] [mkTempo 0 first_tempo] 0 (-1) None))
    as [out' [ds1 [Hout' [Hdec Hcollect]]]].
  { unfold in_tune. cbn. split; [reflexivity|]. split; [exact Hfirst_ok|].
    split; [discriminate | left; split; reflexivity]. }
  rewrite Hout in Hout'. injection Hout' as <-.
  cbn [MuMIDI.d_tracks] in Hcollect.
  destruct (make_tracks_decoded self (MuMIDI.d_tracks ds1))
    as [trs [Hmake Hdecoded]].
  { rewrite Hcollect.
    apply (collect_keys self
             (fun k => exists j, k = Py.str j /\ key_ok self j));
      [ | constructor ].
    apply Forall_forall. intros t Ht. rewrite Forall_forall in Hkeys_ok.
    exists (MuMIDI.ne_desc (fst t)). split; [reflexivity|].
    apply (Hkeys_ok t Ht). }
  exists out, (mkScore (MuMIDI.time_division self) trs (MuMIDI.d_tempos ds1) []).
  split; [apply (Hbody out Hout)|]. split.
  { unfold MuMIDI.tokens_to_midi_body.
    replace (MuMIDI.max_beat_res self =? 0) with false
      by (symmetry; apply Z.eqb_neq; lia).
    rewrite Hdiv. cbn [orb negb Z.eqb].
    rewrite Hread. cbn [bind]. rewrite Hdec. cbn [bind].
    rewrite Hmake. reflexivity. }
  split; [symmetry; exact Htpq|].
  intros tr Hin Hnotes_tr. cbn [tracks].
  destruct (filter_concat_own tr (tracks midi) lists Hlists Hkeys Hin)
    as [own [Hown Hfilter]].
  destruct Hown as [_ [_ [_ [Hsorted Hread_notes]]]].
  apply Hdecoded. rewrite Hcollect. apply notes_under_In.
  rewrite notes_under_collect. cbn zeta. cbn [notes_under].
  unfold steps.
  pose proof (filter_sort_tokens
                (fun t => MuMIDI.ne_desc (fst t) =? track_key tr)
                (List.concat lists)) as Hcommute.
  pose proof (sort_tokens_sorted_input own Hsorted) as Hkept.
  unfold MuMIDI.NoteToken in *.
  rewrite Hcommute, Hfilter, Hkept, Hread_notes.
  destruct (notes tr) as [|n ns]; [elim Hnotes_tr; reflexivity|].
  reflexivity.
Qed.

End MuMIDIRoundTrip.

Section MuMIDIMethods.

Context {F : Type} {fops : FloatOps F}.
Variable self : MuMIDI.Tokenizer (F := F).

(** Growing the vocabulary changes nothing that the token loops read. *)
Lemma mumidi_body_round_trip_grown (max_bar : Z) (v : list (list string))
  (midi : Score F) :
  mumidi_ready self midi = true ->
  exists toks out,
    MuMIDI.midi_to_tokens_body (MuMIDI.set_vocab self max_bar v) midi
    = Some toks
    /\ MuMIDI.tokens_to_midi_body (MuMIDI.set_vocab self max_bar v) toks None
       = Some out
    /\ ticks_per_quarter out = ticks_per_quarter midi
    /\ forall tr,
         In tr (tracks midi) -> notes tr <> [] ->
         exists tr',
           In tr' (tracks out)
           /\ decoded_track (track_key tr)
                (map (quantized self) (notes tr)) tr'.
Proof.
  intros Hready.
  exact (mumidi_body_round_trip (MuMIDI.set_vocab self max_bar v) midi Hready).
Qed.

(** The same through the two methods: the tokenizer that comes back from
    the encoder, its vocabulary grown, is the one that decodes. *)
Lemma mumidi_round_trip (midi : Score F) :
  mumidi_ready self midi = true ->
  sequence_completes self midi ->
  exists toks out,
    snd (MuMIDI._midi_to_tokens self midi) = Some toks
    /\ snd (MuMIDI._tokens_to_midi (fst (MuMIDI._midi_to_tokens self midi))
              toks None) = Some out
    /\ ticks_per_quarter out = ticks_per_quarter midi
    /\ forall tr,
         In tr (tracks midi) -> notes tr <> [] ->
         exists tr',
           In tr' (tracks out)
           /\ decoded_track (track_key tr)
                (map (quantized self) (notes tr)) tr'.
Proof.
  intros Hready Hcompletes.
  destruct (mumidi_ready_facts self midi Hready) as [_ [Htd [Htpq _]]].
  unfold sequence_completes in Hcompletes.
  unfold MuMIDI._midi_to_tokens, MuMIDI._tokens_to_midi in *.
  replace (ticks_per_quarter midi * 4 =? 0) with false in *
    by (symmetry; apply Z.eqb_neq; lia).
  cbn [fst snd] in *.
  destruct (MuMIDI.max_bar_embedding self <? _).
  - match type of Hcompletes with
    | forall toks, MuMIDI.midi_to_tokens_body
                     (MuMIDI.set_vocab _ ?max_bar ?v) _ = _ -> _ =>
        destruct (mumidi_body_round_trip_grown max_bar v midi Hready)
          as [toks [out [Henc Hdec]]]
    end.
    exists toks, out. rewrite Henc. cbn [bind].
    rewrite (Hcompletes toks Henc). cbn [bind].
    split; [reflexivity|exact Hdec].
  - destruct (mumidi_body_round_trip self midi Hready)
      as [toks [out [Henc Hdec]]].
    exists toks, out. rewrite Henc. cbn [bind].
    rewrite (Hcompletes toks Henc). cbn [bind].
    split; [reflexivity|exact Hdec].
Qed.

End MuMIDIMethods.

(** ** CPWord: the sub-tokens of the compound tokens of the builder *)

Section CPWordFields.

Context {F : Type} {fops : FloatOps F}.

Ltac by_flags self :=
  destruct self as [up uc ur ut uts rdn lt ots tdv mbr mr dtm tps prs rts
                    tdt ins vlk];
  destruct up, uc, ur, ut, uts.

Lemma cp_tok_value_tagged (t v : string) :
  no_underscore t = true -> no_underscore v = true ->
  CPWord.tok_value (t ++ "_" ++ v) = Some v.
Proof.
  intros Ht Hv. unfold CPWord.tok_value.
  rewrite (split_type_value t v Ht Hv). reflexivity.
Qed.

Lemma cp_tok_type_tagged (t v : string) :
  no_underscore t = true -> no_underscore v = true ->
  CPWord.tok_type (t ++ "_" ++ v) = Some t.
Proof.
  intros Ht Hv. unfold CPWord.tok_type.
  rewrite (split_type_value t v Ht Hv). reflexivity.
Qed.

Lemma bar_token_fields (self : CPWord.Config (F := F)) (t : Z)
  (time_signature : option string) (tok : CPWord.CPToken) :
  CPWord.__create_cp_token self t true None None VNone VNone None None None
    time_signature None "Bar" = Some tok ->
  nth_error (map str_event tok) 0 = Some "Family_Metric"
  /\ nth_error (map str_event tok) 1 = Some "Bar_None".
Proof.
  by_flags self; destruct time_signature; cbn; intros Htok;
    try discriminate Htok; injection Htok as <-; split; reflexivity.
Qed.

Lemma position_token_fields (self : CPWord.Config (F := F)) (t pos : Z)
  (tempo : option (pyval F)) (tok : CPWord.CPToken) :
  CPWord.__create_cp_token self t false (Some pos) None VNone VNone None
    None tempo None None "Position" = Some tok ->
  nth_error (map str_event tok) 0 = Some "Family_Metric"
  /\ nth_error (map str_event tok) 1
     = Some ("Position" ++ "_" ++ Py.str pos)%string
  /\ forall x,
       tempo = Some (VFloat x) ->
       CPWord.get_field self (map str_event tok) "Tempo"
       = Some ("Tempo" ++ "_" ++ string_of_float x)%string.
Proof.
  by_flags self; destruct tempo as [[n|s|x|]|]; cbn - [Py.str];
    intros Htok; try discriminate Htok; injection Htok as <-;
    (split; [reflexivity|]); (split; [reflexivity|]);
    intros y Hy; try discriminate Hy; injection Hy as <-; reflexivity.
Qed.

Lemma note_token_fields (self : CPWord.Config (F := F)) (t pitch vel : Z)
  (label : string) (tok : CPWord.CPToken) :
  CPWord.use_programs self = false ->
  CPWord.__create_cp_token self t false None (Some (VInt pitch)) (VInt vel)
    (VStr label) None None None None None "" = Some tok ->
  nth_error (map str_event tok) 0 = Some "Family_Note"
  /\ Py.slice (map str_event tok) 2 5
     = [ ("Pitch" ++ "_" ++ Py.str pitch)%string;
         ("Velocity" ++ "_" ++ Py.str vel)%string;
         ("Duration" ++ "_" ++ label)%string ]
  /\ nth_error (map str_event tok) 2
     = Some ("Pitch" ++ "_" ++ Py.str pitch)%string
  /\ nth_error (map str_event tok) 3
     = Some ("Velocity" ++ "_" ++ Py.str vel)%string
  /\ nth_error (map str_event tok) 4
     = Some ("Duration" ++ "_" ++ label)%string.
Proof.
  by_flags self; cbn - [Py.str]; intros Hprog Htok;
    try discriminate Hprog; try discriminate Htok; injection Htok as <-;
    repeat split; reflexivity.
Qed.

End CPWordFields.

(** ** CPWord: the decoder on the compound tokens of the builder *)

Section CPWordDecoderSteps.

Context {F : Type} {fops : FloatOps F}.
Variable self : CPWord.Config (F := F).
Hypothesis Hsigs : CPWord.use_time_signatures self = false.
Hypothesis Hprogs : CPWord.use_programs self = false.
Hypothesis Hstream : CPWord.one_token_stream self = false.

Lemma decode_bar_token (ds : CPWord.DecState) (td tps : Z)
  (strs : list string) :
  nth_error strs 0 = Some "Family_Metric" ->
  nth_error strs 1 = Some "Bar_None" ->
  CPWord.decode_token self 0 td tps ds strs
  = let tick :=
      if 0 <? CPWord.d_current_bar ds + 1
      then CPWord.d_tick_at_current_bar ds + CPWord.d_ticks_per_bar ds
      else CPWord.d_current_tick ds in
    Some (moved ds tick tick (CPWord.d_current_bar ds + 1)
            (CPWord.d_tempo_changes ds) (CPWord.d_current_instrument ds)
            (Z.max (CPWord.d_previous_note_end ds) tick)).
Proof.
  intros Hfamily Hbar.
  unfold CPWord.decode_token, CPWord.decode_metric, CPWord.decode_bar.
  rewrite Hfamily, Hbar, Hsigs. reflexivity.
Qed.

Lemma decode_position_token (ds : CPWord.DecState) (td tps pos : Z)
  (strs : list string) (x : F) :
  nth_error strs 0 = Some "Family_Metric" ->
  nth_error strs 1 = Some ("Position" ++ "_" ++ Py.str pos)%string ->
  (CPWord.use_tempos self = true ->
   CPWord.get_field self strs "Tempo"
   = Some ("Tempo" ++ "_" ++ string_of_float x)%string
   /\ no_underscore (string_of_float x) = true
   /\ float_of_string (string_of_float x) <> None) ->
  CPWord.d_tempo_changes ds <> [] ->
  exists tempo_changes,
    tempo_changes <> []
    /\ CPWord.decode_token self 0 td tps ds strs
       = let tick := CPWord.d_tick_at_current_bar ds + pos * tps in
         Some (moved ds tick (CPWord.d_tick_at_current_bar ds)
                 (if CPWord.d_current_bar ds =? -1 then 0
                  else CPWord.d_current_bar ds)
                 tempo_changes (CPWord.d_current_instrument ds)
                 (Z.max (CPWord.d_previous_note_end ds) tick)).
Proof.
  intros Hfamily Hpos Htempo Hsome.
  unfold CPWord.decode_token, CPWord.decode_metric, CPWord.decode_position.
  rewrite Hfamily, Hpos. cbn [bind].
  change (CPWord.tok_value "Family_Metric") with (Some "Metric").
  cbn [bind String.eqb Ascii.eqb Bool.eqb].
  rewrite (cp_tok_type_tagged "Position" _ eq_refl (no_underscore_str pos)).
  rewrite (cp_tok_value_tagged "Position" _ eq_refl (no_underscore_str pos)).
  cbn [bind String.eqb Ascii.eqb Bool.eqb]. rewrite int_str. cbn [bind].
  destruct (CPWord.use_tempos self) eqn:Etempos; cbn [andb Nat.eqb].
  - destruct (Htempo eq_refl) as [Hfield [Hplain Hparse]].
    unfold CPWord.decode_tempo. rewrite Hfield. cbn [bind].
    rewrite (cp_tok_value_tagged "Tempo" _ eq_refl Hplain). cbn [bind].
    destruct (float_of_string (string_of_float x)) as [y|];
      [ | elim Hparse; reflexivity ].
    cbn [bind].
    destruct (index_minus_one _ Hsome) as [last ->]. cbn [bind].
    destruct (negb (float_eqb y (float_round2 (tempo_value last)))
              && negb (_ =? tempo_time last)); cbn [bind].
    + eexists. split; [ | reflexivity ].
      intros Hnil. apply app_eq_nil in Hnil. destruct Hnil as [_ Hnil].
      discriminate Hnil.
    + exists (CPWord.d_tempo_changes ds). split; [exact Hsome | reflexivity].
  - cbn [bind]. exists (CPWord.d_tempo_changes ds).
    split; [exact Hsome | reflexivity].
Qed.

Lemma decode_note_token (ds : CPWord.DecState) (td tps pitch vel ticks : Z)
  (label : string) (inst : Track) (strs : list string) :
  nth_error strs 0 = Some "Family_Note" ->
  Py.slice strs 2 5
  = [ ("Pitch" ++ "_" ++ Py.str pitch)%string;
      ("Velocity" ++ "_" ++ Py.str vel)%string;
      ("Duration" ++ "_" ++ label)%string ] ->
  nth_error strs 2 = Some ("Pitch" ++ "_" ++ Py.str pitch)%string ->
  nth_error strs 3 = Some ("Velocity" ++ "_" ++ Py.str vel)%string ->
  nth_error strs 4 = Some ("Duration" ++ "_" ++ label)%string ->
  no_underscore label = true ->
  label <> "None" ->
  CPWord.token_duration_to_ticks self label td = Some ticks ->
  CPWord.d_current_instrument ds = Some inst ->
  CPWord.decode_token self 0 td tps ds strs
  = Some (moved ds (CPWord.d_current_tick ds)
            (CPWord.d_tick_at_current_bar ds) (CPWord.d_current_bar ds)
            (CPWord.d_tempo_changes ds)
            (Some (CPWord.add_note inst
                     (mkNote (CPWord.d_current_tick ds) ticks pitch vel)))
            (Z.max (CPWord.d_previous_note_end ds)
               (CPWord.d_current_tick ds + ticks))).
Proof.
  intros Hfamily Hslice Hpitch Hvel Hdur Hplain Hlabel Hticks Hinst.
  unfold CPWord.decode_token, CPWord.decode_note.
  rewrite Hfamily. cbn [bind].
  change (CPWord.tok_value "Family_Note") with (Some "Note").
  cbn [bind String.eqb Ascii.eqb Bool.eqb].
  rewrite Hprogs, Hstream, Hslice, Hpitch, Hvel, Hdur, Hinst.
  cbn [CPWord.any_none].
  rewrite (cp_tok_value_tagged "Pitch" _ eq_refl (no_underscore_str pitch)).
  rewrite (cp_tok_value_tagged "Velocity" _ eq_refl (no_underscore_str vel)).
  rewrite (cp_tok_value_tagged "Duration" _ eq_refl Hplain).
  cbn [bind]. rewrite !str_is_not_none.
  apply String.eqb_neq in Hlabel. rewrite Hlabel. cbn [bind].
  rewrite (cp_tok_value_tagged "Pitch" _ eq_refl (no_underscore_str pitch)).
  rewrite (cp_tok_value_tagged "Velocity" _ eq_refl (no_underscore_str vel)).
  rewrite (cp_tok_value_tagged "Duration" _ eq_refl Hplain).
  cbn [bind]. rewrite !int_str. cbn [bind]. rewrite Hticks. reflexivity.
Qed.

End CPWordDecoderSteps.

(** ** CPWord: the builder and the decoder in step *)

Section CPWordSimulation.

Context {F : Type} {fops : FloatOps F}.
Variable self : CPWord.Config (F := F).
Hypothesis Hsigs : CPWord.use_time_signatures self = false.
Hypothesis Hprogs : CPWord.use_programs self = false.
Hypothesis Hstream : CPWord.one_token_stream self = false.
Hypothesis Hrests : CPWord.use_rests self = false.

Local Abbreviation td := (CPWord.time_division self).

Ltac by_flags self :=
  destruct self as [up uc ur ut uts rdn lt ots tdv mbr mr dtm tps prs rts
                    tdt ins vlk];
  destruct up, uc, ur, ut, uts.

Lemma bar_token_made (t : Z) :
  exists tok,
    CPWord.__create_cp_token self t true None None VNone VNone None None None
      None None "Bar" = Some tok.
Proof.
  clear Hsigs Hprogs Hstream Hrests.
  by_flags self; cbn; eexists; reflexivity.
Qed.

Lemma position_token_made (t pos : Z) (x : F) :
  exists tok,
    CPWord.__create_cp_token self t false (Some pos) None VNone VNone None
      None (if CPWord.use_tempos self then Some (VFloat x) else None)
      None None "Position" = Some tok.
Proof.
  clear Hsigs Hprogs Hstream Hrests.
  by_flags self; cbn; eexists; reflexivity.
Qed.

Lemma note_token_made (t pitch vel : Z) (label : string) :
  exists tok,
    CPWord.__create_cp_token self t false None (Some (VInt pitch)) (VInt vel)
      (VStr label) None None None None None "" = Some tok.
Proof.
  clear Hsigs Hprogs Hstream Hrests.
  by_flags self; cbn; eexists; reflexivity.
Qed.

Lemma bar_tokens_made (count : nat) (st : CPWord.EncState)
  (event : Event F) :
  type_ event = "Pitch" ->
  forall i num_new_bars,
    exists toks,
      CPWord.bar_tokens self count i num_new_bars None st event = Some toks.
Proof.
  intros Hty. induction count as [|count IH]; intros i nnb.
  - exists []. reflexivity.
  - cbn [CPWord.bar_tokens]. rewrite Hty.
    replace ((i =? nnb - 1) && String.eqb "Pitch" "TimeSig") with false
      by (rewrite andb_false_r; reflexivity).
    cbn [bind].
    destruct (bar_token_made ((CPWord.current_bar st + i + 1)
                              * CPWord.ticks_per_bar st)) as [tok ->].
    cbn [bind]. destruct (IH (i + 1) nnb) as [toks ->]. cbn [bind].
    eexists. reflexivity.
Qed.

Lemma decode_tokens_app (ds : CPWord.DecState) (tps : Z)
  (a b : list (list string)) :
  CPWord.decode_tokens self 0 td tps ds (a ++ b)
  = (ds1 <- CPWord.decode_tokens self 0 td tps ds a ;;
     CPWord.decode_tokens self 0 td tps ds1 b).
Proof.
  revert ds. induction a as [|tok a IH]; intros ds.
  - reflexivity.
  - rewrite <- app_comm_cons. cbn [CPWord.decode_tokens].
    destruct (CPWord.decode_token self 0 td tps ds tok) as [ds1|]; cbn [bind];
      [apply IH | reflexivity].
Qed.

Lemma moved_self (ds : CPWord.DecState (F := F)) :
  moved ds (CPWord.d_current_tick ds) (CPWord.d_tick_at_current_bar ds)
    (CPWord.d_current_bar ds) (CPWord.d_tempo_changes ds)
    (CPWord.d_current_instrument ds) (CPWord.d_previous_note_end ds) = ds.
Proof. destruct ds; reflexivity. Qed.

(** The Bar tokens of an event bring the decoder to the start of the bar of
    the event. *)
Lemma decode_bar_tokens (count : nat) (st : CPWord.EncState)
  (event : Event F) (tps : Z) :
  type_ event = "Pitch" ->
  forall (i num_new_bars : Z) (toks : list CPWord.CPToken)
         (ds : CPWord.DecState),
    CPWord.bar_tokens self count i num_new_bars None st event = Some toks ->
    (CPWord.d_current_bar ds = -1
     /\ CPWord.d_tick_at_current_bar ds = 0 /\ CPWord.d_current_tick ds = 0)
    \/ (0 <= CPWord.d_current_bar ds
        /\ CPWord.d_tick_at_current_bar ds
           = CPWord.d_current_bar ds * CPWord.d_ticks_per_bar ds) ->
    exists tick bar_tick note_end,
      CPWord.decode_tokens self 0 td tps ds (printed toks)
      = Some (moved ds tick bar_tick
                (CPWord.d_current_bar ds + Z.of_nat count)
                (CPWord.d_tempo_changes ds) (CPWord.d_current_instrument ds)
                note_end)
      /\ ((count = 0%nat /\ tick = CPWord.d_current_tick ds
           /\ bar_tick = CPWord.d_tick_at_current_bar ds)
          \/ (count <> 0%nat
              /\ bar_tick = (CPWord.d_current_bar ds + Z.of_nat count)
                            * CPWord.d_ticks_per_bar ds
              /\ tick = bar_tick)).
Proof.
  intros Hty.
  induction count as [|count IH]; intros i nnb toks ds Hrun Hwhere.
  - injection Hrun as <-. eexists _, _, _. split.
    + cbn [printed map CPWord.decode_tokens]. rewrite Z.add_0_r.
      rewrite moved_self. reflexivity.
    + left. repeat split.
  - cbn [CPWord.bar_tokens] in Hrun.
    apply bind_Some in Hrun. destruct Hrun as [tsa [Htsa Hrun]].
    apply bind_Some in Hrun. destruct Hrun as [tok [Htok Hrun]].
    apply bind_Some in Hrun. destruct Hrun as [more [Hmore Hrun]].
    injection Hrun as <-.
    rewrite Hty in Htsa.
    replace ((i =? nnb - 1) && String.eqb "Pitch" "TimeSig") with false
      in Htsa by (rewrite andb_false_r; reflexivity).
    injection Htsa as <-.
    apply bar_token_fields in Htok. destruct Htok as [Hfamily Hbar].
    unfold printed. cbn [map CPWord.decode_tokens].
    rewrite (decode_bar_token self Hsigs ds td tps _ Hfamily Hbar).
    cbn zeta. cbn [bind].
    set (tick1 := if 0 <? CPWord.d_current_bar ds + 1
                  then CPWord.d_tick_at_current_bar ds
                       + CPWord.d_ticks_per_bar ds
                  else CPWord.d_current_tick ds).
    assert (Htick1 : tick1 = (CPWord.d_current_bar ds + 1)
                             * CPWord.d_ticks_per_bar ds).
    { unfold tick1. destruct Hwhere as [[-> [_ ->]] | [Hpos ->]].
      - cbn. reflexivity.
      - replace (0 <? CPWord.d_current_bar ds + 1) with true
          by (symmetry; apply Z.ltb_lt; lia).
        ring. }
    set (ds1 := moved ds tick1 tick1 (CPWord.d_current_bar ds + 1)
                  (CPWord.d_tempo_changes ds)
                  (CPWord.d_current_instrument ds)
                  (Z.max (CPWord.d_previous_note_end ds) tick1)).
    assert (Hwhere1 :
      (CPWord.d_current_bar ds1 = -1
       /\ CPWord.d_tick_at_current_bar ds1 = 0 /\ CPWord.d_current_tick ds1 = 0)
      \/ (0 <= CPWord.d_current_bar ds1
          /\ CPWord.d_tick_at_current_bar ds1
             = CPWord.d_current_bar ds1 * CPWord.d_ticks_per_bar ds1)).
    { right. unfold ds1. cbn [moved CPWord.d_current_bar
                               CPWord.d_tick_at_current_bar
                               CPWord.d_ticks_per_bar].
      split; [ | exact Htick1 ].
      destruct Hwhere as [[-> _] | [Hpos _]]; lia. }
    destruct (IH (i + 1) nnb more ds1 Hmore Hwhere1)
      as [tick [bar_tick [note_end [Hdec Hcase]]]].
    change (map (map str_event) more) with (printed more).
    rewrite Hdec. eexists _, _, _. split.
    + unfold ds1. cbn [moved CPWord.d_current_bar CPWord.d_tempo_changes
                       CPWord.d_current_instrument CPWord.d_tracks
                       CPWord.d_midi_tracks CPWord.d_time_signature_changes
                       CPWord.d_tick_at_last_ts_change
                       CPWord.d_bar_at_last_ts_change CPWord.d_current_program
                       CPWord.d_current_time_sig CPWord.d_ticks_per_bar].
      replace (CPWord.d_current_bar ds + 1 + Z.of_nat count)
        with (CPWord.d_current_bar ds + Z.of_nat (S count)) by lia.
      reflexivity.
    + right. split; [discriminate|].
      destruct Hcase as [[-> [-> ->]] | [_ [-> ->]]].
      * unfold ds1. cbn [moved CPWord.d_current_tick
                         CPWord.d_tick_at_current_bar].
        split; [ | reflexivity ]. rewrite Htick1. f_equal; lia.
      * unfold ds1. cbn [moved CPWord.d_current_bar CPWord.d_ticks_per_bar].
        split; [ | reflexivity ]. f_equal; lia.
Qed.

(** The time block of a Pitch event, and the decoder on its tokens: both
    come to the tick of the event. *)
Lemma cp_time_step (st : CPWord.EncState) (ds : CPWord.DecState)
  (inst : Track) (event : Event F) :
  type_ event = "Pitch" ->
  in_sync self st ds inst ->
  0 <= time event ->
  CPWord.previous_tick st <= time event ->
  exists st1 toks ds1,
    CPWord.time_block self st event = Some (st1, toks)
    /\ CPWord.decode_tokens self 0 td 1 ds (printed toks) = Some ds1
    /\ in_sync self st1 ds1 inst
    /\ CPWord.previous_tick st1 = time event
    /\ CPWord.d_current_tick ds1 = time event.
Proof.
  intros Hty Hsync Htime Horder.
  pose proof Hsync as [Hbar [Htpb [Hpos [Hlast [Hblast [Htacb [Hprog
                       [[x [Htempo Hx]] [Hsome [Hinst [Hmidi Hwhere]]]]]]]]]]].
  unfold CPWord.time_block.
  destruct (time event =? CPWord.previous_tick st) eqn:Esame; cbn [negb].
  - apply Z.eqb_eq in Esame.
    exists st, [], ds. split; [reflexivity|]. split; [reflexivity|].
    split; [exact Hsync|]. split; [symmetry; exact Esame|].
    destruct Hwhere as [[_ [_ [_ Hfirst]]] | [_ [_ [_ Htick]]]]; [lia|].
    congruence.
  - apply Z.eqb_neq in Esame.
    unfold CPWord.rest_block. rewrite Hrests. cbn [andb bind].
    unfold CPWord.bar_block, Py.floordiv.
    replace (CPWord.ticks_per_bar st =? 0) with false
      by (symmetry; apply Z.eqb_neq; lia).
    cbn [bind]. rewrite Hlast, Hblast, Hsigs, Z.sub_0_r, Z.add_0_l.
    set (q := time event / CPWord.ticks_per_bar st).
    assert (Hq : 0 <= q) by (apply Z.div_pos; lia).
    assert (Hcb : -1 <= CPWord.current_bar st <= q).
    { destruct Hwhere as [[-> _] | [Hprev [-> _]]]; [lia|].
      split; [ | apply Z.div_le_mono; lia ].
      assert (0 <= CPWord.previous_tick st / CPWord.ticks_per_bar st)
        by (apply Z.div_pos; lia).
      lia. }
    assert (Hds : (CPWord.d_current_bar ds = -1
                   /\ CPWord.d_tick_at_current_bar ds = 0
                   /\ CPWord.d_current_tick ds = 0)
                  \/ (0 <= CPWord.d_current_bar ds
                      /\ CPWord.d_tick_at_current_bar ds
                         = CPWord.d_current_bar ds * CPWord.d_ticks_per_bar ds)).
    { rewrite Hbar, Htpb, Htacb.
      destruct Hwhere as [[Hcb1 [Ht0 [Hd0 _]]] | [Hprev [Hcbq [Ht _]]]].
      - left. repeat split; assumption.
      - right. split; [ | exact Ht ].
        rewrite Hcbq. apply Z.div_pos; lia. }
    destruct (1 <=? q - CPWord.current_bar st) eqn:Enew.
    + apply Z.leb_le in Enew.
      destruct (bar_tokens_made (Z.to_nat (q - CPWord.current_bar st)) st
                  event Hty 0 (q - CPWord.current_bar st)) as [bars Hbars].
      rewrite Hbars. cbn [bind].
      destruct (decode_bar_tokens _ st event 1 Hty _ _ _ ds Hbars Hds)
        as [tick [bar_tick [note_end [Hdec Hcase]]]].
      destruct Hcase as [[Hzero _] | [_ [Hbar_tick Htick]]]; [lia|].
      unfold CPWord.position_block. rewrite Hty.
      cbn [String.eqb Ascii.eqb Bool.eqb negb
           CPWord.tick_at_current_bar CPWord.current_tempo].
      rewrite Htempo. cbn [opt_of is_none].
      set (pos := time event
                  - (0 + (CPWord.current_bar st
                          + (q - CPWord.current_bar st) - 0)
                         * CPWord.ticks_per_bar st)).
      destruct (position_token_made (time event) pos x) as [ptok Hptok].
      rewrite Hptok. cbn [bind].
      apply position_token_fields in Hptok.
      destruct Hptok as [Hfamily [Hposition Hfield]].
      set (ds2 := moved ds tick bar_tick
                    (CPWord.d_current_bar ds
                     + Z.of_nat (Z.to_nat (q - CPWord.current_bar st)))
                    (CPWord.d_tempo_changes ds)
                    (CPWord.d_current_instrument ds) note_end) in *.
      destruct (decode_position_token self ds2 td 1 pos _ x Hfamily Hposition)
        as [tempos' [Hsome' Hdecp]].
      { intros Ht. rewrite Ht in Hfield.
        split; [apply Hfield; reflexivity | apply Hx; exact Ht]. }
      { exact Hsome. }
      eexists _, _, _. split; [reflexivity|].
      split.
      { cbn [List.app]. rewrite printed_app, decode_tokens_app, Hdec.
        cbn [bind printed map CPWord.decode_tokens].
        rewrite Hdecp. reflexivity. }
      assert (Hbar2 : CPWord.d_current_bar ds2 = q)
        by (unfold ds2; cbn [moved CPWord.d_current_bar]; lia).
      assert (Htick2 : bar_tick = q * CPWord.ticks_per_bar st).
      { rewrite Hbar_tick, Htpb. f_equal. lia. }
      assert (Hposq : pos = time event - q * CPWord.ticks_per_bar st)
        by (unfold pos; ring).
      cbn zeta.
      replace (CPWord.d_current_bar ds2 =? -1) with false
        by (symmetry; apply Z.eqb_neq; lia).
      unfold in_sync.
      cbn [moved CPWord.set_previous_tick CPWord.d_current_bar
           CPWord.current_bar CPWord.d_ticks_per_bar CPWord.ticks_per_bar
           CPWord.tick_at_last_ts_change CPWord.bar_at_last_ts_change
           CPWord.d_tick_at_current_bar CPWord.tick_at_current_bar
           CPWord.current_program CPWord.current_tempo CPWord.d_tempo_changes
           CPWord.d_current_instrument CPWord.d_midi_tracks
           CPWord.previous_tick CPWord.d_current_tick ds2].
      split; [ | split; [reflexivity | lia] ].
      split; [lia|]. split; [exact Htpb|]. split; [exact Hpos|].
      split; [solve [exact Hlast | reflexivity]|].
      split; [solve [exact Hblast | reflexivity]|].
      split; [lia|]. split; [exact Hprog|].
      split; [exists x; split; [solve [exact Htempo | reflexivity] | exact Hx]|].
      split; [exact Hsome'|]. split; [exact Hinst|]. split; [exact Hmidi|].
      right. split; [exact Htime|]. split; [fold q; lia|].
      split; [ring | rewrite Htick2, Hposq; ring].
    + apply Z.leb_gt in Enew.
      assert (Hsame_bar : CPWord.current_bar st = q) by lia.
      assert (Hlater : 0 <= CPWord.previous_tick st
                       /\ CPWord.tick_at_current_bar st
                          = CPWord.current_bar st * CPWord.ticks_per_bar st).
      { destruct Hwhere as [[Hcb1 _] | [Hprev [_ [Ht _]]]]; [lia|].
        split; assumption. }
      destruct Hlater as [Hprev Htacb_st].
      cbn [bind]. unfold CPWord.position_block. rewrite Hty.
      cbn [String.eqb Ascii.eqb Bool.eqb negb]. rewrite Htempo.
      cbn [opt_of is_none].
      set (pos := time event - CPWord.tick_at_current_bar st).
      destruct (position_token_made (time event) pos x) as [ptok Hptok].
      rewrite Hptok. cbn [bind].
      apply position_token_fields in Hptok.
      destruct Hptok as [Hfamily [Hposition Hfield]].
      destruct (decode_position_token self ds td 1 pos _ x Hfamily Hposition)
        as [tempos' [Hsome' Hdecp]].
      { intros Ht. rewrite Ht in Hfield.
        split; [apply Hfield; reflexivity | apply Hx; exact Ht]. }
      { exact Hsome. }
      eexists _, _, _. split; [reflexivity|].
      split.
      { cbn [List.app printed map CPWord.decode_tokens].
        rewrite Hdecp. reflexivity. }
      cbn zeta.
      replace (CPWord.d_current_bar ds =? -1) with false
        by (symmetry; apply Z.eqb_neq; lia).
      unfold in_sync.
      cbn [moved CPWord.set_previous_tick CPWord.d_current_bar
           CPWord.current_bar CPWord.d_ticks_per_bar CPWord.ticks_per_bar
           CPWord.tick_at_last_ts_change CPWord.bar_at_last_ts_change
           CPWord.d_tick_at_current_bar CPWord.tick_at_current_bar
           CPWord.current_program CPWord.current_tempo CPWord.d_tempo_changes
           CPWord.d_current_instrument CPWord.d_midi_tracks
           CPWord.previous_tick CPWord.d_current_tick].
      split; [ | split; [reflexivity | unfold pos; lia] ].
      split; [exact Hbar|]. split; [exact Htpb|]. split; [exact Hpos|].
      split; [solve [exact Hlast | reflexivity]|].
      split; [solve [exact Hblast | reflexivity]|].
      split; [exact Htacb|]. split; [exact Hprog|].
      split; [exists x; split; [solve [exact Htempo | reflexivity] | exact Hx]|].
      split; [exact Hsome'|]. split; [exact Hinst|]. split; [exact Hmidi|].
      right. split; [exact Htime|]. split; [fold q; lia|].
      split; [exact Htacb_st | unfold pos; lia].
Qed.

Variable table : list (string * Z).
Hypothesis Htable : forallb (cp_duration_ok self) table = true.

(** The Pitch event of a note: the builder emits the tokens of its tick and
    its Note token, and the decoder reads the note with the length of the
    nearest entry of the table. *)
Lemma cp_note_step (st : CPWord.EncState) (ds : CPWord.DecState)
  (inst : Track) (n : Note) (p v d : Event F) (later : list (Event F)) :
  note_to_events table n = Some [p; v; d] ->
  in_sync self st ds inst ->
  0 <= note_start n ->
  CPWord.previous_tick st <= note_start n ->
  exists st1 toks ds1,
    CPWord.encode_event self st p (v :: d :: later) = Some (st1, toks)
    /\ CPWord.decode_tokens self 0 td 1 ds (printed toks) = Some ds1
    /\ in_sync self st1 ds1 (CPWord.add_note inst (quantized_by table n))
    /\ CPWord.previous_tick st1 = note_start n
    /\ type_ v = "Velocity" /\ type_ d = "Duration"
    /\ time v = note_start n /\ time d = note_start n.
Proof.
  intros Hevents Hsync Hstart Horder.
  unfold note_to_events in Hevents.
  destruct (MuMIDI.closest_duration table (note_end n - note_start n))
    as [[label ticks]|] eqn:Eclosest; [ | discriminate Hevents ].
  cbn [bind fst] in Hevents. injection Hevents as <- <- <-.
  assert (Hentry : cp_duration_ok self (label, ticks) = true).
  { rewrite forallb_forall in Htable. apply Htable.
    apply (closest_duration_in _ _ _ Eclosest). }
  unfold cp_duration_ok in Hentry. cbn [fst snd] in Hentry.
  apply andb_prop in Hentry. destruct Hentry as [Hentry Hticks].
  apply andb_prop in Hentry. destruct Hentry as [Hplain Hlabel].
  apply negb_true_iff in Hlabel. apply String.eqb_neq in Hlabel.
  destruct (CPWord.token_duration_to_ticks self label td) as [ticks'|]
    eqn:Eticks; [ | discriminate Hticks ].
  apply Z.eqb_eq in Hticks. subst ticks'.
  set (p := mkEvent "Pitch" (VInt (note_pitch n)) (note_start n)
              (VInt (note_end n))).
  destruct (cp_time_step st ds inst p eq_refl Hsync Hstart Horder)
    as [st1 [time_toks [ds1 [Htime [Hdec [Hsync1 [Hprev1 Htick1]]]]]]].
  pose proof Hsync1 as [_ [_ [_ [_ [_ [_ [Hprog [_ [_ [Hinst _]]]]]]]]]].
  unfold CPWord.encode_event.
  cbn [type_ String.eqb Ascii.eqb Bool.eqb p].
  fold p. rewrite Htime. cbn [bind].
  unfold CPWord.time_sig_block.
  cbn [type_ String.eqb Ascii.eqb Bool.eqb p bind].
  unfold CPWord.note_block.
  cbn [type_ value desc time String.eqb Ascii.eqb Bool.eqb p opt_of is_none].
  rewrite Hprog. cbn [opt_of is_none].
  destruct (note_token_made (note_start n) (note_pitch n) (note_velocity n)
              label) as [tok Htok].
  rewrite Htok. cbn [bind].
  destruct (note_token_fields self _ _ _ _ _ Hprogs Htok)
    as [Hfamily [Hslice [Hpitch [Hvel Hdur]]]].
  eexists _, _, _. split; [reflexivity|].
  split.
  { rewrite printed_app, decode_tokens_app, Hdec.
    cbn [bind printed map CPWord.decode_tokens].
    rewrite (decode_note_token self Hprogs Hstream ds1 td 1 _ _ ticks label
               inst _ Hfamily Hslice Hpitch Hvel Hdur Hplain Hlabel Eticks
               Hinst).
    reflexivity. }
  split; [ | repeat split; exact Hprev1 ].
  destruct Hsync1 as [Hbar [Htpb [Hpos [Hlast [Hblast [Htacb [_
                      [Htempo [Hsome [_ [Hmidi Hwhere]]]]]]]]]]].
  unfold in_sync.
  cbn [moved CPWord.set_previous_note_end CPWord.d_current_bar
       CPWord.current_bar CPWord.d_ticks_per_bar CPWord.ticks_per_bar
       CPWord.tick_at_last_ts_change CPWord.bar_at_last_ts_change
       CPWord.d_tick_at_current_bar CPWord.tick_at_current_bar
       CPWord.current_program CPWord.current_tempo CPWord.d_tempo_changes
       CPWord.d_current_instrument CPWord.d_midi_tracks
       CPWord.previous_tick CPWord.d_current_tick].
  split; [exact Hbar|]. split; [exact Htpb|]. split; [exact Hpos|].
  split; [exact Hlast|]. split; [exact Hblast|]. split; [exact Htacb|].
  split; [exact Hprog|]. split; [exact Htempo|]. split; [exact Hsome|].
  split; [ | split; [exact Hmidi | exact Hwhere] ].
  unfold quantized_by. rewrite Eclosest, Htick1. reflexivity.
Qed.

Lemma note_to_events_shape (n : Note) (evs : list (Event F)) :
  note_to_events table n = Some evs -> exists p v d, evs = [p; v; d].
Proof.
  unfold note_to_events.
  destruct (MuMIDI.closest_duration table _) as [entry|]; [ | discriminate ].
  cbn [bind]. intros [= <-]. eexists _, _, _. reflexivity.
Qed.

(** The whole track: the decoder ends with the notes of the track, each
    with the length of the nearest entry of the table. *)
Lemma cp_notes_round (ns : list Note) :
  forall (st : CPWord.EncState) (ds : CPWord.DecState) (inst : Track)
         (evs : list (Event F)),
    notes_to_events table ns = Some evs ->
    forallb (fun n => 0 <=? note_start n) ns = true ->
    sorted_by_start ns = true ->
    match ns with
    | n :: _ => CPWord.previous_tick st <= note_start n
    | [] => True
    end ->
    in_sync self st ds inst ->
    exists st1 toks ds1,
      CPWord.encode_events self st evs = Some (st1, toks)
      /\ CPWord.decode_tokens self 0 td 1 ds (printed toks) = Some ds1
      /\ in_sync self st1 ds1
           (fold_left CPWord.add_note (map (quantized_by table) ns) inst).
Proof.
  induction ns as [|n more IH]; intros st ds inst evs Hevs Hpos Hsorted
    Hfirst Hsync.
  - injection Hevs as <-. exists st, [], ds.
    split; [reflexivity|]. split; [reflexivity | exact Hsync].
  - cbn [notes_to_events] in Hevs.
    apply bind_Some in Hevs. destruct Hevs as [here [Hhere Hevs]].
    apply bind_Some in Hevs. destruct Hevs as [later [Hlater Hevs]].
    injection Hevs as <-.
    destruct (note_to_events_shape n here Hhere) as [p [v [d ->]]].
    cbn [forallb] in Hpos. apply andb_prop in Hpos. destruct Hpos as [Hn Hpos].
    apply Z.leb_le in Hn.
    destruct (cp_note_step st ds inst n p v d later Hhere Hsync Hn Hfirst)
      as [st1 [toks1 [ds1 [Henc [Hdec [Hsync1 [Hprev1
          [Hvty [Hdty [Hvtime Hdtime]]]]]]]]]].
    assert (Hnext : match more with
                    | n' :: _ => CPWord.previous_tick st1 <= note_start n'
                    | [] => True
                    end).
    { destruct more as [|n' more']; [exact I|].
      cbn [sorted_by_start] in Hsorted. apply andb_prop in Hsorted.
      destruct Hsorted as [Hle _]. apply Z.leb_le in Hle. lia. }
    assert (Hsorted' : sorted_by_start more = true).
    { destruct more as [|n' more']; [reflexivity|].
      cbn [sorted_by_start] in Hsorted. apply andb_prop in Hsorted.
      apply Hsorted. }
    destruct (IH st1 ds1 _ later Hlater Hpos Hsorted' Hnext Hsync1)
      as [st2 [toks2 [ds2 [Henc2 [Hdec2 Hsync2]]]]].
    exists st2, (toks1 ++ toks2), ds2.
    cbn [List.app CPWord.encode_events]. rewrite Henc. cbn [bind].
    rewrite (silent_event self st1 v (d :: later) (or_introl Hvty))
      by congruence.
    cbn [bind].
    rewrite (silent_event self st1 d later (or_intror Hdty)) by congruence.
    cbn [bind]. rewrite Henc2. cbn [bind List.app].
    split; [reflexivity|].
    rewrite printed_app, decode_tokens_app, Hdec. cbn [bind].
    split; [exact Hdec2 | exact Hsync2].
Qed.

Lemma fold_add_note (l ns : list Note) (prog : Z) (drum : bool)
  (nm : string) :
  fold_left CPWord.add_note l (mkTrack prog drum nm ns)
  = mkTrack prog drum nm (ns ++ l).
Proof.
  revert ns. induction l as [|n l IH]; intros ns; cbn [fold_left].
  - rewrite app_nil_r. reflexivity.
  - unfold CPWord.add_note at 2. cbn [program is_drum name notes].
    rewrite IH, <- app_assoc. reflexivity.
Qed.

Lemma notes_to_events_some (ns : list Note) :
  table <> [] ->
  exists evs : list (Event F), notes_to_events table ns = Some evs.
Proof.
  intros Hsome. induction ns as [|n more [later IH]].
  - exists []. reflexivity.
  - cbn [notes_to_events]. unfold note_to_events.
    destruct table as [|entry rest] eqn:Etable; [elim Hsome; reflexivity|].
    destruct (MuMIDI.closest_duration (entry :: rest) _) as [e|] eqn:Ec;
      [ | discriminate Ec ].
    cbn [bind]. rewrite IH. cbn [bind]. eexists. reflexivity.
Qed.

Lemma first_tempo_of_notes (ns : list Note) (evs : list (Event F)) :
  notes_to_events table ns = Some evs -> CPWord.first_tempo evs = None.
Proof.
  destruct ns as [|n more]; cbn [notes_to_events].
  - intros [= <-]. reflexivity.
  - intros Hevs.
    apply bind_Some in Hevs. destruct Hevs as [here [Hhere Hevs]].
    apply bind_Some in Hevs. destruct Hevs as [later [_ Hevs]].
    injection Hevs as <-.
    unfold note_to_events in Hhere.
    destruct (MuMIDI.closest_duration table _) as [entry|];
      [ | discriminate Hhere ].
    cbn [bind] in Hhere. injection Hhere as <-. reflexivity.
Qed.

End CPWordSimulation.

(** ** CPWord: the round trip of one track *)

Section CPWordRoundTrip.

Context {F : Type} {fops : FloatOps F}.
Variable self : CPWord.Config (F := F).
Variable table : list (string * Z).

Lemma cpword_ready_facts (tr : Track) :
  cpword_ready self table tr = true ->
  CPWord.one_token_stream self = false
  /\ CPWord.use_rests self = false
  /\ CPWord.use_time_signatures self = false
  /\ CPWord.use_programs self = false
  /\ 0 < CPWord.time_division self
  /\ CPWord.max_beat_res self = CPWord.time_division self
  /\ starting_tempo_ok self = true
  /\ table <> []
  /\ forallb (cp_duration_ok self) table = true
  /\ (exists nm, CPWord.track_name self (program tr) = Some nm)
  /\ forallb (fun n => 0 <=? note_start n) (notes tr) = true
  /\ sorted_by_start (notes tr) = true.
Proof.
  unfold cpword_ready. intros H.
  apply andb_prop in H. destruct H as [H Hsorted].
  apply andb_prop in H. destruct H as [H Hstarts].
  apply andb_prop in H. destruct H as [H Hname].
  apply andb_prop in H. destruct H as [H Htable].
  apply andb_prop in H. destruct H as [H Htempo].
  apply andb_prop in H. destruct H as [H Hres].
  apply andb_prop in H. destruct H as [H Htd].
  apply andb_prop in H. destruct H as [H Hprogs].
  apply andb_prop in H. destruct H as [H Hsigs].
  apply andb_prop in H. destruct H as [Hstream Hrests].
  apply negb_true_iff in Hstream, Hrests, Hsigs, Hprogs.
  apply Z.ltb_lt in Htd. apply Z.eqb_eq in Hres.
  repeat split; try assumption.
  - destruct table; [discriminate Htable | discriminate].
  - destruct table; [discriminate Htable | exact Htable].
  - destruct (CPWord.track_name self (program tr)) as [nm|];
      [exists nm; reflexivity | discriminate Hname].
Qed.

Lemma cpword_round_trip (tr : Track) :
  cpword_ready self table tr = true ->
  exists evs toks out nm,
    notes_to_events table (notes tr) = Some evs
    /\ CPWord._add_time_events self evs = Some toks
    /\ CPWord._tokens_to_midi self (CPWord.Sequences [printed toks])
         (Some [(program tr, is_drum tr)]) None = Some out
    /\ ticks_per_quarter out = CPWord.time_division self
    /\ tracks out
       = [ mkTrack (program tr) (is_drum tr) nm
             (map (quantized_by table) (notes tr)) ].
Proof.
  intros Hready.
  destruct (cpword_ready_facts tr Hready)
    as [Hstream [Hrests [Hsigs [Hprogs [Htd [Hres [Htempo [Hsome [Htable
        [[nm Hname] [Hstarts Hsorted]]]]]]]]]]].
  destruct (notes_to_events_some self table Htable (notes tr) Hsome)
    as [evs Hevs].
  unfold starting_tempo_ok in Htempo.
  destruct (starting_tempo self) as [x|] eqn:Estart; [ | discriminate Htempo ].
  unfold starting_tempo in Estart.
  set (st0 := {| CPWord.current_bar := -1;
                 CPWord.bar_at_last_ts_change := 0;
                 CPWord.previous_tick := -1;
                 CPWord.previous_note_end := 0;
                 CPWord.tick_at_last_ts_change := 0;
                 CPWord.tick_at_current_bar := 0;
                 CPWord.current_time_sig := TIME_SIGNATURE;
                 CPWord.current_tempo := VFloat x;
                 CPWord.current_program := VNone;
                 CPWord.ticks_per_bar :=
                   compute_ticks_per_bar TIME_SIGNATURE
                     (CPWord.time_division self) |}).
  assert (Hinit : CPWord.init_state self evs = Some st0).
  { unfold CPWord.init_state. rewrite Estart, Hsigs. cbn [bind].
    rewrite (first_tempo_of_notes table (notes tr) evs Hevs).
    destruct (CPWord.use_tempos self); reflexivity. }
  set (inst0 := mkTrack (program tr) (is_drum tr) nm []).
  set (ds0 := {| CPWord.d_tracks := [];
                 CPWord.d_midi_tracks := [];
                 CPWord.d_tempo_changes := [mkTempo (-1) (float_of_Z (-1))];
                 CPWord.d_time_signature_changes :=
                   [mkTimeSignature 0 (fst TIME_SIGNATURE)
                      (snd TIME_SIGNATURE)];
                 CPWord.d_current_tick := 0;
                 CPWord.d_tick_at_last_ts_change := 0;
                 CPWord.d_tick_at_current_bar := 0;
                 CPWord.d_current_bar := -1;
                 CPWord.d_bar_at_last_ts_change := 0;
                 CPWord.d_current_program := program tr;
                 CPWord.d_current_instrument := Some inst0;
                 CPWord.d_previous_note_end := 0;
                 CPWord.d_current_time_sig :=
                   mkTimeSignature 0 (fst TIME_SIGNATURE) (snd TIME_SIGNATURE);
                 CPWord.d_ticks_per_bar :=
                   compute_ticks_per_bar TIME_SIGNATURE
                     (CPWord.time_division self) |}).
  assert (Hbegin : forall seq,
             CPWord.begin_sequence self 0 (CPWord.time_division self)
               (Some [(program tr, is_drum tr)])
               CPWord.initial_dec_state seq = Some ds0).
  { intros seq. unfold CPWord.begin_sequence.
    cbn [Nat.eqb]. rewrite Hsigs, Hstream. cbn [bind].
    cbn [CPWord.initial_dec_state CPWord.d_time_signature_changes nth_error
         bind]. rewrite Hname. reflexivity. }
  assert (Hsync : in_sync self st0 ds0 inst0).
  { unfold in_sync, st0, ds0. cbn.
    split; [reflexivity|]. split; [reflexivity|].
    split.
    { unfold compute_ticks_per_bar, TIME_SIGNATURE. cbn [fst snd].
      apply Z.div_str_pos. lia. }
    split; [reflexivity|]. split; [reflexivity|]. split; [reflexivity|].
    split; [reflexivity|].
    split.
    { exists x. split; [reflexivity|]. intros Ht. rewrite Ht in Htempo.
      cbn [negb orb] in Htempo. apply andb_prop in Htempo.
      destruct Htempo as [Hplain Hparse]. split; [exact Hplain|].
      destruct (float_of_string (string_of_float x)); [discriminate|].
      discriminate Hparse. }
    split; [discriminate|]. split; [reflexivity|]. split; [reflexivity|].
    left. repeat split. }
  assert (Hfirst : match notes tr with
                   | n :: _ => CPWord.previous_tick st0 <= note_start n
                   | [] => True
                   end).
  { destruct (notes tr) as [|n more]; [exact I|].
    cbn [forallb] in Hstarts. apply andb_prop in Hstarts.
    destruct Hstarts as [Hn _]. apply Z.leb_le in Hn. cbn. lia. }
  destruct (cp_notes_round self Hsigs Hprogs Hstream Hrests table Htable
              (notes tr) st0 ds0 inst0 evs Hevs Hstarts Hsorted Hfirst Hsync)
    as [st1 [toks [ds1 [Henc [Hdec Hsync1]]]]].
  destruct Hsync1 as [_ [_ [_ [_ [_ [_ [_ [_ [_ [Hinst [Hmidi _]]]]]]]]]]].
  exists evs, toks.
  eexists. exists nm.
  split; [exact Hevs|]. split.
  { unfold CPWord._add_time_events. rewrite Hinit. cbn [bind].
    rewrite Henc. reflexivity. }
  split.
  { unfold CPWord._tokens_to_midi, CPWord.unsqueeze. rewrite Hstream.
    cbn [bind]. rewrite Hres.
    replace (CPWord.time_division self =? 0) with false
      by (symmetry; apply Z.eqb_neq; lia).
    rewrite Z.mod_same by lia. cbn [orb negb Z.eqb].
    rewrite Z.div_same by lia.
    cbn [CPWord.decode_sequences]. unfold CPWord.decode_sequence.
    rewrite Hbegin. cbn [bind]. rewrite Hdec. cbn [bind].
    unfold CPWord.end_sequence. rewrite Hstream, Hinst. cbn [bind].
    reflexivity. }
  split; [reflexivity|].
  cbn [tracks CPWord.d_midi_tracks]. rewrite Hmidi.
  unfold inst0. rewrite fold_add_note. reflexivity.
Qed.

End CPWordRoundTrip.

(** ** C1: the round trip *)




(** * Further properties of the code *)

(** ** The layout of the compound tokens *)

Section CompoundTokenLayout.

Context {F : Type} {fops : FloatOps F}.

Ltac by_flags self :=
  destruct self as [up uc ur ut uts rdn lt ots tdv mbr mr dtm tps prs rts
                    tdt ins vlk];
  destruct up, uc, ur, ut, uts.

Lemma fields_in_place_spec (self : CPWord.Config (F := F))
  (tok : CPWord.CPToken) (k : nat) :
  fields_in_place self k tok = true ->
  forall (i : nat) (e : Event F),
    nth_error tok i = Some e ->
    type_ e = "Ignore"
    \/ CPWord.vocab_types_idx self (type_ e) = Some (k + i)%nat.
Proof.
  revert k. induction tok as [|e0 tok IH]; intros k Hall i e Hnth.
  - destruct i; discriminate.
  - cbn [fields_in_place] in Hall. apply andb_prop in Hall.
    destruct Hall as [Hhere Hmore].
    destruct i as [|i]; cbn [nth_error] in Hnth.
    + injection Hnth as <-. unfold field_in_place in Hhere.
      apply orb_prop in Hhere. destruct Hhere as [Hign | Hidx].
      * left. apply String.eqb_eq. exact Hign.
      * right. destruct (CPWord.vocab_types_idx self (type_ e0)) as [j|];
          [|discriminate].
        apply Nat.eqb_eq in Hidx. subst j. f_equal. lia.
    + destruct (IH (S k) Hmore i e Hnth) as [Hign | Hidx]; [left; exact Hign|].
      right. rewrite Hidx. f_equal. lia.
Qed.

Lemma well_laid_check (self : CPWord.Config (F := F)) (tok : CPWord.CPToken) :
  Nat.eqb (List.length tok) (List.length (CPWord.token_types self))
  && fields_in_place self 0 tok = true ->
  well_laid self tok.
Proof.
  intros Hcheck. apply andb_prop in Hcheck. destruct Hcheck as [Hlen Hall].
  split; [apply Nat.eqb_eq; exact Hlen|].
  intros i e Hnth. apply (fields_in_place_spec self tok 0 Hall i e Hnth).
Qed.

Lemma create_cp_token_well_laid (self : CPWord.Config (F := F)) (time : Z)
  (bar : bool) (pos : option Z) (pitch : option (pyval F)) (vel dur : pyval F)
  (chord : option (pyval F)) (rest : option string) (tempo : option (pyval F))
  (time_signature : option string) (program : option (pyval F))
  (desc : string) (tok : CPWord.CPToken) :
  CPWord.__create_cp_token self time bar pos pitch vel dur chord rest tempo
    time_signature program desc = Some tok ->
  well_laid self tok.
Proof.
  intros Htok. apply well_laid_check. revert Htok.
  by_flags self;
    (destruct bar;
     [ destruct time_signature
     | destruct pos;
       [ destruct chord, tempo
       | destruct rest; [ | destruct pitch; [ destruct program | ] ] ] ]);
    cbn; intros Htok; try discriminate Htok; injection Htok as <-;
    reflexivity.
Qed.

Variable self : CPWord.Config (F := F).

Lemma rest_tokens_well_laid (values : list (string * Z)) (event_time tick : Z)
  (toks : list CPWord.CPToken) (final : Z) :
  CPWord.rest_tokens self event_time tick values = Some (toks, final) ->
  Forall (well_laid self) toks.
Proof.
  revert tick toks final.
  induction values as [|[label ticks] values IH]; intros tick toks final Hrun;
    cbn [CPWord.rest_tokens] in Hrun.
  - injection Hrun as <- _. constructor.
  - apply bind_Some in Hrun. destruct Hrun as [tok [Htok Hrun]].
    apply bind_Some in Hrun. destruct Hrun as [[more final'] [Hmore Hrun]].
    injection Hrun as <- _. constructor.
    + eapply create_cp_token_well_laid. exact Htok.
    + eapply IH. exact Hmore.
Qed.

Lemma bar_tokens_well_laid (count : nat) (i num_new_bars : Z)
  (time_sig_arg : option string) (st : CPWord.EncState) (event : Event F)
  (toks : list CPWord.CPToken) :
  CPWord.bar_tokens self count i num_new_bars time_sig_arg st event
  = Some toks ->
  Forall (well_laid self) toks.
Proof.
  revert i time_sig_arg toks.
  induction count as [|count IH]; intros i time_sig_arg toks Hrun;
    cbn [CPWord.bar_tokens] in Hrun.
  - injection Hrun as <-. constructor.
  - apply bind_Some in Hrun. destruct Hrun as [arg [_ Hrun]].
    apply bind_Some in Hrun. destruct Hrun as [tok [Htok Hrun]].
    apply bind_Some in Hrun. destruct Hrun as [more [Hmore Hrun]].
    injection Hrun as <-. constructor.
    + eapply create_cp_token_well_laid. exact Htok.
    + eapply IH. exact Hmore.
Qed.

Lemma rest_block_well_laid (st st' : CPWord.EncState) (event : Event F)
  (toks : list CPWord.CPToken) :
  CPWord.rest_block self st event = Some (st', toks) ->
  Forall (well_laid self) toks.
Proof.
  unfold CPWord.rest_block. intros Hrun.
  destruct (CPWord.use_rests self
            && (CPWord.min_rest self
                <=? time event - CPWord.previous_note_end st)).
  - apply bind_Some in Hrun. destruct Hrun as [[made final] [Hmade Hrun]].
    apply bind_Some in Hrun. destruct Hrun as [q [_ Hrun]].
    apply rest_tokens_well_laid in Hmade.
    destruct (CPWord.current_bar st <? CPWord.bar_at_last_ts_change st + q);
      injection Hrun as _ <-; exact Hmade.
  - injection Hrun as _ <-. constructor.
Qed.

Lemma bar_block_well_laid (st st' : CPWord.EncState) (event : Event F)
  (toks : list CPWord.CPToken) :
  CPWord.bar_block self st event = Some (st', toks) ->
  Forall (well_laid self) toks.
Proof.
  unfold CPWord.bar_block. intros Hrun.
  apply bind_Some in Hrun. destruct Hrun as [q [_ Hrun]].
  destruct (1 <=? CPWord.bar_at_last_ts_change st + q - CPWord.current_bar st).
  - apply bind_Some in Hrun. destruct Hrun as [made [Hmade Hrun]].
    injection Hrun as _ <-. eapply bar_tokens_well_laid. exact Hmade.
  - injection Hrun as _ <-. constructor.
Qed.

Lemma position_block_well_laid (st : CPWord.EncState) (event : Event F)
  (toks : list CPWord.CPToken) :
  CPWord.position_block self st event = Some toks ->
  Forall (well_laid self) toks.
Proof.
  unfold CPWord.position_block. intros Hrun.
  destruct (negb (String.eqb (type_ event) "TimeSig")).
  - apply bind_Some in Hrun. destruct Hrun as [tok [Htok Hrun]].
    injection Hrun as <-. constructor; [|constructor].
    eapply create_cp_token_well_laid. exact Htok.
  - injection Hrun as <-. constructor.
Qed.

Lemma time_block_well_laid (st st' : CPWord.EncState) (event : Event F)
  (toks : list CPWord.CPToken) :
  CPWord.time_block self st event = Some (st', toks) ->
  Forall (well_laid self) toks.
Proof.
  unfold CPWord.time_block. intros Hrun.
  destruct (negb (time event =? CPWord.previous_tick st)).
  - apply bind_Some in Hrun. destruct Hrun as [[st1 rests] [Hrests Hrun]].
    apply bind_Some in Hrun. destruct Hrun as [[st2 bars] [Hbars Hrun]].
    apply bind_Some in Hrun. destruct Hrun as [positions [Hpos Hrun]].
    injection Hrun as _ <-.
    apply Forall_app. split; [eapply rest_block_well_laid; exact Hrests|].
    apply Forall_app. split; [eapply bar_block_well_laid; exact Hbars|].
    eapply position_block_well_laid. exact Hpos.
  - injection Hrun as _ <-. constructor.
Qed.

Lemma note_block_well_laid (st st' : CPWord.EncState) (event : Event F)
  (following : list (Event F)) (toks : list CPWord.CPToken) :
  CPWord.note_block self st event following = Some (st', toks) ->
  Forall (well_laid self) toks.
Proof.
  unfold CPWord.note_block. intros Hrun.
  destruct following as [|e1 [|e2 following]].
  1, 2: destruct (Py.mem (type_ event) ["Program"; "Tempo"; "TimeSig"; "Chord"]);
    injection Hrun as _ <-; constructor.
  destruct (String.eqb (type_ event) "Pitch").
  - apply bind_Some in Hrun. destruct Hrun as [tok [Htok Hrun]].
    destruct (desc event); try discriminate Hrun.
    injection Hrun as _ <-. constructor; [|constructor].
    eapply create_cp_token_well_laid. exact Htok.
  - destruct (Py.mem (type_ event) ["Program"; "Tempo"; "TimeSig"; "Chord"]);
      injection Hrun as _ <-; constructor.
Qed.

Lemma encode_event_well_laid (st st' : CPWord.EncState) (event : Event F)
  (following : list (Event F)) (toks : list CPWord.CPToken) :
  CPWord.encode_event self st event following = Some (st', toks) ->
  Forall (well_laid self) toks.
Proof.
  unfold CPWord.encode_event. intros Hrun.
  destruct (String.eqb (type_ event) "Program").
  - injection Hrun as _ <-. constructor.
  - apply bind_Some in Hrun. destruct Hrun as [[st1 times] [Htimes Hrun]].
    apply bind_Some in Hrun. destruct Hrun as [st2 [_ Hrun]].
    apply bind_Some in Hrun. destruct Hrun as [[st3 made] [Hmade Hrun]].
    injection Hrun as _ <-.
    apply Forall_app. split.
    + eapply time_block_well_laid. exact Htimes.
    + eapply note_block_well_laid. exact Hmade.
Qed.

Lemma encode_events_well_laid (events : list (Event F))
  (st st' : CPWord.EncState) (toks : list CPWord.CPToken) :
  CPWord.encode_events self st events = Some (st', toks) ->
  Forall (well_laid self) toks.
Proof.
  revert st st' toks.
  induction events as [|event following IH]; intros st st' toks Hrun;
    cbn [CPWord.encode_events] in Hrun.
  - injection Hrun as _ <-. constructor.
  - apply bind_Some in Hrun. destruct Hrun as [[st1 here] [Hhere Hrun]].
    apply bind_Some in Hrun. destruct Hrun as [[st2 more] [Hmore Hrun]].
    injection Hrun as _ <-.
    apply Forall_app. split.
    + eapply encode_event_well_laid. exact Hhere.
    + eapply IH. exact Hmore.
Qed.

End CompoundTokenLayout.

(** X1: every compound token that [_add_time_events] builds has one event
    per token type of the configuration, five and one for each optional type
    in use, and each event is an [Ignore] or sits at the index
    [vocab_types_idx] gives for its type. *)
Theorem built_tokens_follow_the_type_index {F : Type} {fops : FloatOps F}
  (self : CPWord.Config (F := F)) (events : list (Event F))
  (toks : list CPWord.CPToken) :
  CPWord._add_time_events self events = Some toks ->
  Forall (fun tok =>
            List.length tok = List.length (CPWord.token_types self)
            /\ forall (i : nat) (e : Event F),
                 nth_error tok i = Some e ->
                 type_ e = "Ignore"
                 \/ CPWord.vocab_types_idx self (type_ e) = Some i)
         toks.
Proof.
  unfold CPWord._add_time_events. intros Hrun.
  apply bind_Some in Hrun. destruct Hrun as [st [_ Hrun]].
  apply bind_Some in Hrun. destruct Hrun as [[st' made] [Hmade Hrun]].
  injection Hrun as <-.
  exact (encode_events_well_laid self events st st' made Hmade).
Qed.

(** X1 (witness): the tokens of two notes with a tempo change between
    them, rests and tempos in use. *)
Lemma built_tokens_follow_the_type_index_witness :
  exists toks,
    CPWord._add_time_events Samples.cpword_rests_tempos Samples.notes_apart
    = Some toks
    /\ Forall (fun tok =>
                 List.length tok
                 = List.length (CPWord.token_types Samples.cpword_rests_tempos)
                 /\ forall (i : nat) (e : Event Z),
                      nth_error tok i = Some e ->
                      type_ e = "Ignore"
                      \/ CPWord.vocab_types_idx Samples.cpword_rests_tempos
                           (type_ e) = Some i)
              toks.
Proof.
  eexists. split; [vm_compute; reflexivity|].
  apply (built_tokens_follow_the_type_index Samples.cpword_rests_tempos
           Samples.notes_apart).
  vm_compute. reflexivity.
Defined.

(** X2: [__create_cp_token] raises (a [KeyError] of [vocab_types_idx])
    exactly when the branch it takes is handed a value for an optional
    sub-field that the configuration does not use. *)
Theorem create_cp_token_raises_on_an_unused_field {F : Type}
  {fops : FloatOps F} (self : CPWord.Config (F := F)) (time : Z) (bar : bool)
  (pos : option Z) (pitch : option (pyval F)) (vel dur : pyval F)
  (chord : option (pyval F)) (rest : option string) (tempo : option (pyval F))
  (time_signature : option string) (program : option (pyval F))
  (desc : string) :
  CPWord.__create_cp_token self time bar pos pitch vel dur chord rest tempo
    time_signature program desc = None
  <-> match bar, pos, rest, pitch with
      | true, _, _, _ =>
          time_signature <> None /\ CPWord.use_time_signatures self = false
      | false, Some _, _, _ =>
          (chord <> None /\ CPWord.use_chords self = false)
          \/ (tempo <> None /\ CPWord.use_tempos self = false)
      | false, None, Some _, _ => CPWord.use_rests self = false
      | false, None, None, Some _ =>
          program <> None /\ CPWord.use_programs self = false
      | false, None, None, None => False
      end.
Proof.
  destruct self as [up uc ur ut uts rdn lt ots tdv mbr mr dtm tps prs rts
                    tdt ins vlk];
  destruct up, uc, ur, ut, uts;
    (destruct bar;
     [ destruct time_signature
     | destruct pos;
       [ destruct chord, tempo
       | destruct rest; [ | destruct pitch; [ destruct program | ] ] ] ]);
    cbn; split; intros H;
    solve [ discriminate H | reflexivity | tauto
          | split; [discriminate | reflexivity]
          | left; split; [discriminate | reflexivity]
          | right; split; [discriminate | reflexivity]
          | destruct H as [H _]; contradiction H; reflexivity
          | destruct H as [_ H]; discriminate H
          | destruct H as [[H1 H2] | [H1 H2]];
            first [ discriminate H2 | contradiction H1; reflexivity ] ].
Qed.

(** ** The vocabularies *)

Section Vocabularies.

Context {F : Type} {fops : FloatOps F}.

Lemma split_head (t v : string) :
  no_underscore t = true ->
  nth_error (Py.split_on "_" (t ++ "_" ++ v)) 0 = Some t.
Proof.
  intros Ht. induction t as [|c t IH]; cbn [String.append Py.split_on].
  - change (Ascii.eqb "_" "_") with true. reflexivity.
  - cbn [no_underscore] in Ht. apply andb_prop in Ht. destruct Ht as [Hc Ht].
    apply negb_true_iff in Hc. rewrite Hc.
    change (t ++ String "_" v)%string with (t ++ "_" ++ v)%string.
    specialize (IH Ht).
    destruct (Py.split_on "_" (t ++ "_" ++ v)) as [|h more];
      [discriminate IH|].
    cbn in IH. injection IH as ->. reflexivity.
Qed.

Lemma in_labels {A : Type} (P : string -> Prop) (prefix : string)
  (label : A -> string) (l : list A) (tok : string) :
  (forall x, P (prefix ++ "_" ++ label x)%string) ->
  In tok (map (fun x => (prefix ++ "_" ++ label x)%string) l) -> P tok.
Proof.
  intros HP Hin. apply in_map_iff in Hin. destruct Hin as [x [<- _]]. apply HP.
Qed.

Ltac by_flags self :=
  destruct self as [up uc ur ut uts rdn lt ots tdv mbr mr dtm tps prs rts
                    tdt ins vlk];
  destruct up, uc, ur, ut, uts.

Ltac split_in Hin :=
  first [ contradiction
        | apply in_app_or in Hin; destruct Hin as [Hin | Hin]; split_in Hin
        | destruct Hin as [<- | Hin]; [ | split_in Hin ]
        | idtac ].

Ltac typed_as T :=
  right; exists T%string; split;
  [ apply (split_head T); reflexivity | reflexivity ].

Ltac labelled T :=
  match goal with
  | Hin : In _ (map _ _) |- _ =>
      apply in_map_iff in Hin; destruct Hin as [? [<- _]]; typed_as T
  end.

Lemma cpword_vocabulary_layout (self : CPWord.Config (F := F))
  (src : CPWord.VocabSource) (vocab : list (list string)) :
  Forall (fun tok => CPWord.tok_type tok = Some "Chord")
    (CPWord.chords_tokens src) ->
  CPWord._create_base_vocabulary self src = Some vocab ->
  List.length vocab = List.length (CPWord.token_types self)
  /\ forall (i : nat) (sub : list string) (tok : string),
       nth_error vocab i = Some sub -> In tok sub ->
       tok = "Ignore_None"
       \/ exists t, CPWord.tok_type tok = Some t
                    /\ CPWord.vocab_types_idx self t = Some i.
Proof.
  intros Hchords Hvocab. unfold CPWord._create_base_vocabulary in Hvocab.
  apply bind_Some in Hvocab. destruct Hvocab as [beats [_ Hvocab]].
  rewrite Forall_forall in Hchords.
  revert Hvocab Hchords.
  by_flags self; cbn [CPWord.use_programs CPWord.use_chords CPWord.use_rests
                      CPWord.use_tempos CPWord.use_time_signatures
                      CPWord.max_beat_res CPWord.programs CPWord.rests
                      CPWord.tempos List.app];
    intros Hvocab Hchords; injection Hvocab as <-;
    (split; [reflexivity|]);
    intros i sub tok Hnth Hin;
    repeat (destruct i as [|i];
            [ cbn [nth_error] in Hnth; injection Hnth as <-;
              repeat (destruct Hin as [<- | Hin];
                      [ first [ left; reflexivity
                              | typed_as "Family" | typed_as "Bar" ] | ]);
              first [ contradiction
                    | labelled "Position" | labelled "Pitch"
                    | labelled "Velocity" | labelled "Duration"
                    | labelled "Program" | labelled "Rest"
                    | labelled "Tempo" | labelled "TimeSig"
                    | right; exists "Chord"; split;
                      [ apply Hchords; exact Hin | reflexivity ] ]
            | cbn [nth_error] in Hnth ]);
    destruct i; discriminate Hnth.
Qed.

Lemma mumidi_vocabulary_layout (self : MuMIDI.Tokenizer (F := F))
  (src : MuMIDI.VocabSource) (vocab : list (list string)) :
  Forall (fun tok => nth_error (Py.split_on "_" tok) 0 = Some "Chord")
    (MuMIDI.chords_tokens src) ->
  MuMIDI._create_base_vocabulary self src = Some vocab ->
  Z.of_nat (List.length vocab) = (if MuMIDI.use_tempos self then 6 else 5)
  /\ forall (i : nat) (sub : list string) (tok : string),
       nth_error vocab i = Some sub -> In tok sub ->
       exists t idx,
         nth_error (Py.split_on "_" tok) 0 = Some t
         /\ MuMIDI.type_idx (MuMIDI.vocab_types_idx self) t = Some idx
         /\ Py.index vocab idx = Some sub.
Proof.
  intros Hchords Hvocab. unfold MuMIDI._create_base_vocabulary in Hvocab.
  apply bind_Some in Hvocab. destruct Hvocab as [beats [_ Hvocab]].
  rewrite Forall_forall in Hchords.
  injection Hvocab as <-.
  unfold MuMIDI.vocab_types_idx.
  destruct (MuMIDI.use_chords self) eqn:Echords,
    (MuMIDI.use_tempos self) eqn:Etempos;
    cbn [List.app List.length]; (split; [reflexivity|]);
    intros i sub tok Hnth Hin;
    repeat (destruct i as [|i];
            [ cbn [nth_error] in Hnth; injection Hnth as <-
            | cbn [nth_error] in Hnth ]);
    try (destruct i; discriminate Hnth);
    split_in Hin;
    try (apply in_map_iff in Hin; destruct Hin as [x [<- _]]);
    first
      [ exists "Pitch", 0; split; [apply (split_head "Pitch"); reflexivity|];
        split; reflexivity
      | exists "DrumPitch", 0;
        split; [apply (split_head "DrumPitch"); reflexivity|];
        split; reflexivity
      | exists "Position", 0;
        split; [apply (split_head "Position"); reflexivity|];
        split; reflexivity
      | exists "Program", 0;
        split; [apply (split_head "Program"); reflexivity|];
        split; reflexivity
      | exists "BarPosEnc", 1;
        split; [apply (split_head "BarPosEnc"); reflexivity|];
        split; reflexivity
      | exists "PositionPosEnc", 2;
        split; [apply (split_head "PositionPosEnc"); reflexivity|];
        split; reflexivity
      | exists "Tempo", (-3);
        split; [apply (split_head "Tempo"); reflexivity|];
        split; reflexivity
      | exists "Velocity", (-2);
        split; [apply (split_head "Velocity"); reflexivity|];
        split; reflexivity
      | exists "Duration", (-1);
        split; [apply (split_head "Duration"); reflexivity|];
        split; reflexivity
      | exists "Bar", 0; repeat split; reflexivity
      | exists "PositionPosEnc", 2; repeat split; reflexivity
      | exists "Chord", 0; split; [apply Hchords; exact Hin|];
        split; reflexivity ].
Qed.

End Vocabularies.

(** X3: the vocabulary that CPWord creates follows [vocab_types_idx].  It
    has one sub-vocabulary for each token type of the configuration, and
    every token of the sub-vocabulary at index [i] is the placeholder
    [Ignore_None] or has a type that [vocab_types_idx] sends to [i], the
    chord tokens of the base class being of the type [Chord]. *)
Theorem cpword_vocabulary_follows_the_type_index {F : Type}
  {fops : FloatOps F} (self : CPWord.Config (F := F))
  (src : CPWord.VocabSource) (vocab : list (list string)) :
  Forall (fun tok => CPWord.tok_type tok = Some "Chord")
    (CPWord.chords_tokens src) ->
  CPWord._create_base_vocabulary self src = Some vocab ->
  List.length vocab = List.length (CPWord.token_types self)
  /\ forall (i : nat) (sub : list string) (tok : string),
       nth_error vocab i = Some sub -> In tok sub ->
       tok = "Ignore_None"
       \/ exists t, CPWord.tok_type tok = Some t
                    /\ CPWord.vocab_types_idx self t = Some i.
Proof. apply cpword_vocabulary_layout. Qed.

(** X3 (witness): a CPWord with every optional field. *)
Lemma cpword_vocabulary_follows_the_type_index_witness :
  exists vocab,
    CPWord._create_base_vocabulary Samples.cpword_full Samples.cpword_source
    = Some vocab
    /\ List.length vocab
       = List.length (CPWord.token_types Samples.cpword_full)
    /\ forall (i : nat) (sub : list string) (tok : string),
         nth_error vocab i = Some sub -> In tok sub ->
         tok = "Ignore_None"
         \/ exists t, CPWord.tok_type tok = Some t
                      /\ CPWord.vocab_types_idx Samples.cpword_full t
                         = Some i.
Proof.
  eexists. split; [vm_compute; reflexivity|].
  apply (cpword_vocabulary_follows_the_type_index Samples.cpword_full
           Samples.cpword_source).
  - repeat constructor.
  - vm_compute. reflexivity.
Defined.

(** X4: the vocabulary that MuMIDI creates follows [vocab_types_idx],
    negative indices counting from the end.  It has five sub-vocabularies,
    six with tempos, and every token lies in the sub-vocabulary that
    [vocab_types_idx] gives for its type, the chord tokens of the base class
    being of the type [Chord]. *)
Theorem mumidi_vocabulary_follows_the_type_index {F : Type}
  {fops : FloatOps F} (self : MuMIDI.Tokenizer (F := F))
  (src : MuMIDI.VocabSource) (vocab : list (list string)) :
  Forall (fun tok => nth_error (Py.split_on "_" tok) 0 = Some "Chord")
    (MuMIDI.chords_tokens src) ->
  MuMIDI._create_base_vocabulary self src = Some vocab ->
  Z.of_nat (List.length vocab) = (if MuMIDI.use_tempos self then 6 else 5)
  /\ forall (i : nat) (sub : list string) (tok : string),
       nth_error vocab i = Some sub -> In tok sub ->
       exists t idx,
         nth_error (Py.split_on "_" tok) 0 = Some t
         /\ MuMIDI.type_idx (MuMIDI.vocab_types_idx self) t = Some idx
         /\ Py.index vocab idx = Some sub.
Proof. apply mumidi_vocabulary_layout. Qed.

(** X4 (witness): MuMIDI with tempos. *)
Lemma mumidi_vocabulary_follows_the_type_index_witness :
  exists vocab,
    MuMIDI._create_base_vocabulary (Samples.mumidi true) Samples.mumidi_source
    = Some vocab
    /\ Z.of_nat (List.length vocab) = 6
    /\ forall (i : nat) (sub : list string) (tok : string),
         nth_error vocab i = Some sub -> In tok sub ->
         exists t idx,
           nth_error (Py.split_on "_" tok) 0 = Some t
           /\ MuMIDI.type_idx (MuMIDI.vocab_types_idx (Samples.mumidi true)) t
              = Some idx
           /\ Py.index vocab idx = Some sub.
Proof.
  eexists. split; [vm_compute; reflexivity|].
  apply (mumidi_vocabulary_follows_the_type_index (Samples.mumidi true)
           Samples.mumidi_source).
  - repeat constructor.
  - vm_compute. reflexivity.
Defined.

Section MuMIDIErrors.

Context {F : Type} {fops : FloatOps F}.
Variable self : MuMIDI.Tokenizer (F := F).
Variable graph : list (string * list string).

Lemma mumidi_check_token_step st token st' :
  MuMIDI.check_token self graph st token = Some st' ->
  MuMIDI.err st <= MuMIDI.err st' <= MuMIDI.err st + 2.
Proof.
  unfold MuMIDI.check_token. intros Hrun.
  split_run Hrun; injection Hrun as <-; cbn [MuMIDI.err]; try lia.
  match goal with
  | H : _ = Some (_, _, _, _) |- _ =>
      split_run H; injection H as <- _ _ _
  end;
    match goal with
    | |- context [if ?c then _ else _] => destruct c
    end; lia.
Qed.

Lemma mumidi_check_tokens_bound tokens : forall st st',
  MuMIDI.check_tokens self graph st tokens = Some st' ->
  MuMIDI.err st <= MuMIDI.err st'
  <= MuMIDI.err st + 2 * Z.of_nat (List.length tokens).
Proof.
  induction tokens as [|token more IH]; intros st st' Hrun.
  - injection Hrun as <-. cbn [List.length]. lia.
  - cbn [MuMIDI.check_tokens] in Hrun.
    apply bind_Some in Hrun. destruct Hrun as [st1 [Hstep Hmore]].
    apply mumidi_check_token_step in Hstep.
    apply IH in Hmore.
    cbn [List.length]. lia.
Qed.

Lemma mumidi_tokens_errors_bound tokens n :
  MuMIDI._tokens_errors self graph tokens = Some n ->
  0 <= n <= 2 * (Z.of_nat (List.length tokens) - 1).
Proof.
  unfold MuMIDI._tokens_errors. intros Hrun.
  destruct tokens as [|first more]; [discriminate|].
  split_run Hrun. injection Hrun as <-.
  match goal with
  | H : MuMIDI.check_tokens _ _ _ _ = Some _ |- _ =>
      apply mumidi_check_tokens_bound in H; cbn [MuMIDI.err List.length] in *
  end.
  lia.
Qed.

End MuMIDIErrors.

Section Graphs.

Context {F : Type} {fops : FloatOps F}.

Lemma cpword_graph_closed (self : CPWord.Config (F := F))
  (previous next : string) (successors : list string) :
  CPWord.dict_get (CPWord._create_token_types_graph self) previous
  = Some successors ->
  In next successors ->
  CPWord.dict_get (CPWord._create_token_types_graph self) next <> None.
Proof.
  unfold CPWord._create_token_types_graph.
  destruct (CPWord.use_chords self), (CPWord.use_rests self),
    (CPWord.use_tempos self); cbn; intros Hget Hin;
    repeat match type of Hget with
           | (if String.eqb previous ?k then _ else _) = _ =>
               destruct (String.eqb previous k)
           end;
    try discriminate Hget; injection Hget as <-; cbn in Hin;
    repeat (destruct Hin as [<- | Hin]; [cbn; discriminate|]);
    contradiction.
Qed.

Lemma mumidi_graph_closed (self : MuMIDI.Tokenizer (F := F))
  (previous next : string) (successors : list string) :
  MuMIDI.graph_get (MuMIDI._create_token_types_graph self) previous
  = Some successors ->
  In next successors ->
  MuMIDI.graph_get (MuMIDI._create_token_types_graph self) next <> None.
Proof.
  unfold MuMIDI._create_token_types_graph.
  destruct (MuMIDI.use_chords self); cbn; intros Hget Hin;
    repeat match type of Hget with
           | (if String.eqb previous ?k then _ else _) = _ =>
               destruct (String.eqb previous k)
           end;
    try discriminate Hget; injection Hget as <-; cbn in Hin;
    repeat (destruct Hin as [<- | Hin]; [cbn; discriminate|]);
    contradiction.
Qed.

End Graphs.

(** X5: whenever [CPWord._tokens_errors] returns, whatever the graph, it
    has counted at most one error for each token after the first. *)
Theorem cpword_counts_at_most_one_error_per_token {F : Type}
  {fops : FloatOps F} (self : CPWord.Config (F := F))
  (graph : CPWord.dict (list string)) (tokens : list (list string)) (n : Z) :
  CPWord._tokens_errors self graph tokens = Some n ->
  0 <= n <= Z.of_nat (List.length tokens) - 1.
Proof. apply cpword_tokens_errors_bound. Qed.

(** X5 (witness): a bar, a position, a note, and the same position again:
    one error. *)
Lemma cpword_counts_at_most_one_error_per_token_witness :
  0 <= 1
  <= Z.of_nat
       (List.length
          (Samples.cp_one_note
           ++ [Samples.metric_token "Position_0" "Ignore_None"])) - 1.
Proof.
  apply (cpword_counts_at_most_one_error_per_token Samples.cpword_time_sigs
           (CPWord._create_token_types_graph Samples.cpword_time_sigs)
           (Samples.cp_one_note
            ++ [Samples.metric_token "Position_0" "Ignore_None"]) 1).
  vm_compute. reflexivity.
Defined.

(** X6: whenever [MuMIDI._tokens_errors] returns, whatever the graph, it
    has counted at most two errors for each token after the first. *)
Theorem mumidi_counts_at_most_two_errors_per_token {F : Type}
  {fops : FloatOps F} (self : MuMIDI.Tokenizer (F := F))
  (graph : list (string * list string)) (tokens : list (list string))
  (n : Z) :
  MuMIDI._tokens_errors self graph tokens = Some n ->
  0 <= n <= 2 * (Z.of_nat (List.length tokens) - 1).
Proof. apply mumidi_tokens_errors_bound. Qed.

(** X6 (witness): the sequence in which positions go back twice. *)
Lemma mumidi_counts_at_most_two_errors_per_token_witness :
  0 <= 6 <= 2 * (Z.of_nat (List.length Samples.regressing) - 1).
Proof.
  apply (mumidi_counts_at_most_two_errors_per_token (Samples.mumidi false)
           (MuMIDI._create_token_types_graph (Samples.mumidi false))
           Samples.regressing 6).
  vm_compute. reflexivity.
Defined.

(** X7: the graphs of token types are closed: in the graph that CPWord
    makes and in the one that MuMIDI makes, whatever the configuration,
    every type listed as a successor has an entry of its own, so that the
    look-up of the validators cannot fail after a token they accepted. *)
Theorem token_type_graphs_are_closed {F : Type} {fops : FloatOps F} :
  (forall (self : CPWord.Config (F := F)) (previous next : string)
          (successors : list string),
      CPWord.dict_get (CPWord._create_token_types_graph self) previous
      = Some successors ->
      In next successors ->
      CPWord.dict_get (CPWord._create_token_types_graph self) next <> None)
  /\ (forall (self : MuMIDI.Tokenizer (F := F)) (previous next : string)
             (successors : list string),
         MuMIDI.graph_get (MuMIDI._create_token_types_graph self) previous
         = Some successors ->
         In next successors ->
         MuMIDI.graph_get (MuMIDI._create_token_types_graph self) next
         <> None).
Proof.
  split.
  - intros self previous next successors. apply cpword_graph_closed.
  - intros self previous next successors. apply mumidi_graph_closed.
Qed.

(** X7 (witness): a Rest after a Position in CPWord with rests and tempos,
    a Program after a Position in MuMIDI. *)
Lemma token_type_graphs_are_closed_witness :
  CPWord.dict_get
    (CPWord._create_token_types_graph Samples.cpword_rests_tempos) "Rest"
  <> None
  /\ MuMIDI.graph_get
       (MuMIDI._create_token_types_graph (Samples.mumidi true)) "Program"
     <> None.
Proof.
  split.
  - apply (proj1 token_type_graphs_are_closed Samples.cpword_rests_tempos
             "Position" "Rest"
             ["Pitch"; "Position"; "Bar"; "Rest"; "Ignore"]).
    + vm_compute. reflexivity.
    + simpl. tauto.
  - apply (proj2 token_type_graphs_are_closed (Samples.mumidi true)
             "Position" "Program" ["Program"]).
    + vm_compute. reflexivity.
    + simpl. tauto.
Defined.

Section DecodedStart.

Context {F : Type} {fops : FloatOps F}.
Variable self : CPWord.Config (F := F).

Lemma finish_tempos_start (tempo_changes : list (Tempo F)) :
  exists t more,
    CPWord.finish_tempos self tempo_changes = t :: more /\ tempo_time t = 0.
Proof.
  unfold CPWord.finish_tempos.
  destruct (tl tempo_changes) as [|first more].
  - eexists _, _. split; reflexivity.
  - destruct (tempo_time first =? 0) eqn:Etime; cbn [negb andb].
    + apply Z.eqb_eq in Etime.
      destruct (float_eqb (float_round2 (tempo_value first))
                  (CPWord.default_tempo self));
        eexists _, _; split; try reflexivity; exact Etime.
    + destruct (float_eqb (float_round2 (tempo_value first))
                  (CPWord.default_tempo self)); cbn [negb];
        eexists _, _; split; reflexivity.
Qed.

Lemma decode_token_appends (td ticks_per_sample : Z)
  (st st' : CPWord.DecState) (tok : list string) :
  CPWord.decode_token self 0 td ticks_per_sample st tok = Some st' ->
  exists extra,
    CPWord.d_time_signature_changes st'
    = CPWord.d_time_signature_changes st ++ extra.
Proof.
  intros Hrun.
  unfold CPWord.decode_token, CPWord.decode_note, CPWord.decode_metric,
    CPWord.decode_bar, CPWord.decode_position, CPWord.decode_rest in Hrun.
  cbn [Nat.eqb] in Hrun.
  split_runs; cbn;
    first [ exists []; symmetry; apply app_nil_r
          | eexists; reflexivity ].
Qed.

Lemma decode_tokens_appends (td ticks_per_sample : Z)
  (seq : list (list string)) : forall (st st' : CPWord.DecState),
  CPWord.decode_tokens self 0 td ticks_per_sample st seq = Some st' ->
  exists extra,
    CPWord.d_time_signature_changes st'
    = CPWord.d_time_signature_changes st ++ extra.
Proof.
  induction seq as [|tok more IH]; intros st st' Hrun.
  - injection Hrun as <-. exists []. symmetry. apply app_nil_r.
  - cbn [CPWord.decode_tokens] in Hrun.
    apply bind_Some in Hrun. destruct Hrun as [st1 [Hstep Hmore]].
    apply decode_token_appends in Hstep. destruct Hstep as [e1 He1].
    apply IH in Hmore. destruct Hmore as [e2 He2].
    exists (e1 ++ e2). rewrite He2, He1, app_assoc. reflexivity.
Qed.

Lemma first_sequence_start (td ticks_per_sample : Z)
  (programs : option (list (Z * bool))) (st st' : CPWord.DecState)
  (seq : list (list string)) :
  CPWord.d_time_signature_changes st = [] ->
  CPWord.decode_sequence self 0 td ticks_per_sample programs st seq
  = Some st' ->
  exists ts more,
    CPWord.d_time_signature_changes st' = ts :: more /\ ts_time ts = 0.
Proof.
  intros Hempty Hrun. unfold CPWord.decode_sequence in Hrun.
  apply bind_Some in Hrun. destruct Hrun as [st1 [Hbegin Hrun]].
  apply bind_Some in Hrun. destruct Hrun as [st2 [Htokens Hend]].
  assert (Hstart : exists ts more,
             CPWord.d_time_signature_changes st1 = ts :: more
             /\ ts_time ts = 0).
  { unfold CPWord.begin_sequence in Hbegin. cbn [Nat.eqb] in Hbegin.
    rewrite Hempty in Hbegin. cbn [List.app] in Hbegin.
    split_runs; cbn;
      repeat match goal with
             | |- context [match ?o with Some _ => _ | None => _ end] =>
                 destruct o as [[? ?]|]
             end; cbn; eexists _, _; split; reflexivity. }
  destruct Hstart as [ts [more [Hst1 Hts]]].
  apply decode_tokens_appends in Htokens. destruct Htokens as [extra Hst2].
  assert (Hst' : CPWord.d_time_signature_changes st'
                 = CPWord.d_time_signature_changes st2).
  { unfold CPWord.end_sequence in Hend.
    split_run Hend; injection Hend as <-; reflexivity. }
  exists ts, (more ++ extra). split; [|exact Hts].
  rewrite Hst', Hst2, Hst1. reflexivity.
Qed.

End DecodedStart.

(** X8: a piece that CPWord decodes starts on tick 0: its first tempo is at
    tick 0, whatever the tokens, and so is its first time signature, unless
    no sequence of tokens was given at all. *)
Theorem cpword_decoded_piece_starts_at_tick_zero {F : Type}
  {fops : FloatOps F} (self : CPWord.Config (F := F))
  (tokens : CPWord.TokInput) (programs : option (list (Z * bool)))
  (time_division : option Z) (midi : Score F) :
  CPWord._tokens_to_midi self tokens programs time_division = Some midi ->
  (exists t more, score_tempos midi = t :: more /\ tempo_time t = 0)
  /\ (CPWord.unsqueeze self tokens = Some []
      \/ exists ts more,
           time_signatures midi = ts :: more /\ ts_time ts = 0).
Proof.
  unfold CPWord._tokens_to_midi. intros Hrun.
  apply bind_Some in Hrun. destruct Hrun as [seqs [Hseqs Hrun]].
  match type of Hrun with
  | (if ?c then _ else _) = _ => destruct c; [discriminate Hrun|]
  end.
  apply bind_Some in Hrun. destruct Hrun as [st [Hdecode Hrun]].
  injection Hrun as <-. cbn [score_tempos time_signatures].
  split; [apply finish_tempos_start|].
  destruct seqs as [|seq more]; [left; exact Hseqs | right].
  cbn [CPWord.decode_sequences] in Hdecode.
  apply bind_Some in Hdecode. destruct Hdecode as [st1 [Hfirst Hlater]].
  apply first_sequence_start in Hfirst; [|reflexivity].
  apply cpword_later_sequences in Hlater; [|lia].
  destruct Hlater as [_ Hsame]. rewrite Hsame. exact Hfirst.
Qed.

(** X8 (witness): one sequence of a bar, a position and a note. *)
Lemma cpword_decoded_piece_starts_at_tick_zero_witness :
  exists midi,
    CPWord._tokens_to_midi Samples.cpword_time_sigs
      (CPWord.Sequences [Samples.cp_one_note]) (Some [(0, false)]) None
    = Some midi
    /\ (exists t more, score_tempos midi = t :: more /\ tempo_time t = 0)
    /\ (CPWord.unsqueeze Samples.cpword_time_sigs
          (CPWord.Sequences [Samples.cp_one_note]) = Some []
        \/ exists ts more,
             time_signatures midi = ts :: more /\ ts_time ts = 0).
Proof.
  eexists. split; [vm_compute; reflexivity|].
  apply (cpword_decoded_piece_starts_at_tick_zero Samples.cpword_time_sigs
           (CPWord.Sequences [Samples.cp_one_note]) (Some [(0, false)]) None).
  vm_compute. reflexivity.
Defined.

Section MuMIDIDecodedFrame.

Context {F : Type} {fops : FloatOps F}.
Variable self : MuMIDI.Tokenizer (F := F).

Lemma mumidi_decode_step_tempos (td ticks_per_sample : Z)
  (st st' : MuMIDI.DecState) (time_step : list string) :
  MuMIDI.decode_step self td ticks_per_sample st time_step = Some st' ->
  exists extra,
    MuMIDI.d_tempos st' = MuMIDI.d_tempos st ++ extra
    /\ (MuMIDI.use_tempos self = false -> extra = []).
Proof.
  intros Hrun. unfold MuMIDI.decode_step in Hrun.
  apply bind_Some in Hrun. destruct Hrun as [r [Hhead Hrun]].
  assert (Hkeeps : forall st1, r = Some st1 ->
                     MuMIDI.d_tempos st1 = MuMIDI.d_tempos st).
  { intros st1 ->. unfold MuMIDI.decode_head in Hhead.
    split_runs; try subst st1; reflexivity. }
  destruct r as [st1|].
  - specialize (Hkeeps st1 eq_refl). unfold MuMIDI.decode_tempo in Hrun.
    destruct (MuMIDI.use_tempos self).
    + split_run Hrun; injection Hrun as <-; cbn [MuMIDI.d_tempos];
        rewrite Hkeeps.
      * eexists. split; [reflexivity | discriminate].
      * exists []. split; [symmetry; apply app_nil_r | reflexivity].
    + injection Hrun as <-. exists [].
      split; [rewrite Hkeeps; symmetry; apply app_nil_r | reflexivity].
  - injection Hrun as <-. exists [].
    split; [symmetry; apply app_nil_r | reflexivity].
Qed.

Lemma mumidi_decode_steps_tempos (td ticks_per_sample : Z)
  (tokens : list (list string)) : forall (st st' : MuMIDI.DecState),
  MuMIDI.decode_steps self td ticks_per_sample st tokens = Some st' ->
  exists extra,
    MuMIDI.d_tempos st' = MuMIDI.d_tempos st ++ extra
    /\ (MuMIDI.use_tempos self = false -> extra = []).
Proof.
  induction tokens as [|time_step more IH]; intros st st' Hrun.
  - injection Hrun as <-. exists [].
    split; [symmetry; apply app_nil_r | reflexivity].
  - cbn [MuMIDI.decode_steps] in Hrun.
    apply bind_Some in Hrun. destruct Hrun as [st1 [Hstep Hmore]].
    apply mumidi_decode_step_tempos in Hstep.
    destruct Hstep as [e1 [He1 Hoff1]].
    apply IH in Hmore. destruct Hmore as [e2 [He2 Hoff2]].
    exists (e1 ++ e2). split.
    + rewrite He2, He1, app_assoc. reflexivity.
    + intros Hoff. rewrite (Hoff1 Hoff), (Hoff2 Hoff). reflexivity.
Qed.

End MuMIDIDecodedFrame.

(** X9: a piece that MuMIDI decodes has the time division asked for and no
    time signature; its tempo list starts at tick 0, and without tempo
    tokens it is the default tempo alone. *)
Theorem mumidi_decoded_piece_frame {F : Type} {fops : FloatOps F}
  (self : MuMIDI.Tokenizer (F := F)) (tokens : list (list string))
  (time_division : option Z) (midi : Score F) :
  snd (MuMIDI._tokens_to_midi self tokens time_division) = Some midi ->
  ticks_per_quarter midi
  = match time_division with
    | Some t => t
    | None => MuMIDI.time_division self
    end
  /\ time_signatures midi = []
  /\ (exists t more, score_tempos midi = t :: more /\ tempo_time t = 0)
  /\ (MuMIDI.use_tempos self = true
      \/ score_tempos midi = [mkTempo 0 (MuMIDI.default_tempo self)]).
Proof.
  unfold MuMIDI._tokens_to_midi, MuMIDI.tokens_to_midi_body. cbn [snd].
  intros Hrun.
  match type of Hrun with
  | (if ?c then _ else _) = _ => destruct c; [discriminate Hrun|]
  end.
  apply bind_Some in Hrun. destruct Hrun as [first_tempo [Hfirst Hrun]].
  apply bind_Some in Hrun. destruct Hrun as [st [Hsteps Hrun]].
  apply bind_Some in Hrun. destruct Hrun as [trs [_ Hrun]].
  injection Hrun as <-.
  cbn [ticks_per_quarter time_signatures score_tempos].
  apply mumidi_decode_steps_tempos in Hsteps.
  destruct Hsteps as [extra [Htempos Hoff]]. cbn [MuMIDI.d_tempos] in Htempos.
  split; [reflexivity|]. split; [reflexivity|]. split.
  - rewrite Htempos. eexists _, _. split; reflexivity.
  - destruct (MuMIDI.use_tempos self) eqn:Etempos; [left; reflexivity|].
    right. rewrite Htempos, (Hoff eq_refl).
    destruct tokens; injection Hfirst as <-; reflexivity.
Qed.

(** X9 (witness): a sequence of one note, tempos off. *)
Lemma mumidi_decoded_piece_frame_witness :
  exists midi,
    snd (MuMIDI._tokens_to_midi (Samples.mumidi false) Samples.mu_one_note
           None) = Some midi
    /\ ticks_per_quarter midi = 8
    /\ time_signatures midi = []
    /\ (exists t more, score_tempos midi = t :: more /\ tempo_time t = 0)
    /\ (MuMIDI.use_tempos (Samples.mumidi false) = true
        \/ score_tempos midi
           = [mkTempo 0 (MuMIDI.default_tempo (Samples.mumidi false))]).
Proof.
  eexists. split; [vm_compute; reflexivity|].
  apply (mumidi_decoded_piece_frame (Samples.mumidi false)
           Samples.mu_one_note None).
  vm_compute. reflexivity.
Defined.

(** X10: MuMIDI cannot decode a note that comes before any Program token:
    the notes are filed under the value of the last Program token, and the
    initial track, the integer 0, is no key of that dictionary.  Whatever
    follows, a sequence that starts with a Pitch or DrumPitch token carrying
    a velocity and a duration raises. *)
Theorem mumidi_note_before_any_program_raises {F : Type} {fops : FloatOps F}
  (self : MuMIDI.Tokenizer (F := F)) (time_step : list string)
  (more : list (list string)) (time_division : option Z)
  (head value velocity duration : string) :
  nth_error time_step 0 = Some head ->
  Py.split_on "_" head = ["Pitch"; value]
  \/ Py.split_on "_" head = ["DrumPitch"; value] ->
  (f <- Py.index time_step (-2) ;; MuMIDI.tok_value f) = Some velocity ->
  (f <- Py.index time_step (-1) ;; MuMIDI.tok_value f) = Some duration ->
  velocity <> "None" -> duration <> "None" ->
  snd (MuMIDI._tokens_to_midi self (time_step :: more) time_division) = None.
Proof.
  intros Hhead Hsplit Hvel Hdur Hv Hd.
  apply String.eqb_neq in Hv. apply String.eqb_neq in Hd.
  unfold MuMIDI._tokens_to_midi, MuMIDI.tokens_to_midi_body. cbn [snd].
  match goal with
  | |- (if ?c then _ else _) = _ => destruct c; [reflexivity|]
  end.
  match goal with
  | |- bind ?m _ = None => destruct m as [first_tempo|]; [|reflexivity]
  end.
  cbn [bind MuMIDI.decode_steps].
  assert (Hstep : forall td ticks_per_sample tempos tick bar,
            MuMIDI.decode_step self td ticks_per_sample
              (MuMIDI.mkDec [] tempos tick bar None) time_step = None).
  { intros td ticks_per_sample tempos tick bar.
    unfold MuMIDI.decode_step, MuMIDI.decode_head.
    rewrite Hhead. cbn [bind].
    destruct Hsplit as [-> | ->]; cbn [String.eqb Ascii.eqb Bool.eqb orb];
      rewrite Hvel; cbn [bind]; rewrite Hdur; cbn [bind];
      rewrite Hv, Hd; cbn [orb];
      destruct (Py.int value); cbn [bind]; try reflexivity;
      destruct (Py.int velocity); cbn [bind]; try reflexivity;
      destruct (MuMIDI.token_duration_to_ticks self duration td);
      reflexivity. }
  rewrite Hstep. reflexivity.
Qed.

(** X10 (witness): the sequence of one note without its Bar, Position and
    Program tokens. *)
Lemma mumidi_note_before_any_program_raises_witness :
  snd (MuMIDI._tokens_to_midi (Samples.mumidi false)
         [ ["Pitch_60"; "BarPosEnc_0"; "PositionPosEnc_0"; "Velocity_80";
            "Duration_1.0.8"] ] None) = None.
Proof.
  apply (mumidi_note_before_any_program_raises (Samples.mumidi false)
           ["Pitch_60"; "BarPosEnc_0"; "PositionPosEnc_0"; "Velocity_80";
            "Duration_1.0.8"] [] None "Pitch_60" "60" "80" "1.0.8").
  - reflexivity.
  - left. reflexivity.
  - reflexivity.
  - reflexivity.
  - discriminate.
  - discriminate.
Defined.

(** ** MuMIDI: the validator on the tokens of the encoder *)

Section MuMIDIValidatorSteps.

Context {F : Type} {fops : FloatOps F}.
Variable self : MuMIDI.Tokenizer (F := F).

Hypothesis Hchords : MuMIDI.use_chords self = false.

Local Abbreviation graph := (MuMIDI._create_token_types_graph self).

Lemma plain_field (t v : string) :
  no_underscore t = true -> Py.mem t ["PAD"; "MASK"] = false ->
  special (t ++ "_" ++ v) = false.
Proof.
  intros Ht Hmem. unfold special.
  pose proof (split_head t v Ht) as Hhead.
  destruct (Py.split_on "_" (t ++ "_" ++ v)) as [|h more];
    [discriminate Hhead|].
  cbn in Hhead. injection Hhead as ->. exact Hmem.
Qed.

Lemma tempo_field_plain (x : F) :
  existsb special (MuMIDI.tempo_field self x) = false.
Proof.
  unfold MuMIDI.tempo_field. destruct (MuMIDI.use_tempos self); [|reflexivity].
  cbn [existsb].
  change ("Tempo_" ++ string_of_float x)%string
    with ("Tempo" ++ "_" ++ string_of_float x)%string.
  rewrite plain_field by reflexivity. reflexivity.
Qed.

Lemma time_step_plain (t v b p : string) (x : F) (last : list string) :
  no_underscore t = true -> Py.mem t ["PAD"; "MASK"] = false ->
  existsb special last = false ->
  MuMIDI.has_special
    ([ (t ++ "_" ++ v)%string; ("BarPosEnc_" ++ b)%string;
       ("PositionPosEnc_" ++ p)%string ]
     ++ MuMIDI.tempo_field self x ++ last) = false.
Proof.
  intros Ht Hmem Hlast. unfold MuMIDI.has_special.
  change (existsb special
            ([ (t ++ "_" ++ v)%string; ("BarPosEnc_" ++ b)%string;
               ("PositionPosEnc_" ++ p)%string ]
             ++ MuMIDI.tempo_field self x ++ last) = false).
  rewrite existsb_app. cbn [existsb].
  rewrite (plain_field t v Ht Hmem).
  change ("BarPosEnc_" ++ b)%string with ("BarPosEnc" ++ "_" ++ b)%string.
  change ("PositionPosEnc_" ++ p)%string
    with ("PositionPosEnc" ++ "_" ++ p)%string.
  rewrite !plain_field by reflexivity.
  rewrite existsb_app, tempo_field_plain, Hlast. reflexivity.
Qed.

Lemma bar_value_read (b : Z) :
  (v <- MuMIDI.tok_value ("BarPosEnc_" ++ Py.str b) ;; Py.int v) = Some b.
Proof.
  change ("BarPosEnc_" ++ Py.str b)%string
    with ("BarPosEnc" ++ "_" ++ Py.str b)%string.
  rewrite (tok_value_tagged "BarPosEnc" _ eq_refl (no_underscore_str b)).
  cbn [bind]. apply int_str.
Qed.

Lemma pos_value_read (p : Z) :
  (v <- MuMIDI.tok_value ("PositionPosEnc_" ++ Py.str p) ;;
   MuMIDI.pos_or_minus_one v) = Some p.
Proof.
  change ("PositionPosEnc_" ++ Py.str p)%string
    with ("PositionPosEnc" ++ "_" ++ Py.str p)%string.
  rewrite (tok_value_tagged "PositionPosEnc" _ eq_refl (no_underscore_str p)).
  cbn [bind]. unfold MuMIDI.pos_or_minus_one.
  rewrite str_is_not_none. cbn [negb]. apply int_str.
Qed.

Lemma graph_plain : graph
  = [ ("Bar", ["Bar"; "Position"]);
      ("Position", ["Program"]);
      ("Program", ["Pitch"; "DrumPitch"]);
      ("Pitch", ["Pitch"; "Program"; "Bar"; "Position"]);
      ("DrumPitch", ["DrumPitch"; "Program"; "Bar"; "Position"]) ].
Proof. unfold MuMIDI._create_token_types_graph. rewrite Hchords. reflexivity. Qed.

Lemma check_bar (es : MuMIDI.ErrState) (x : F) :
  ends_a_tick (MuMIDI.previous_type es) ->
  MuMIDI.check_token self graph es
    ([ "Bar_None";
       ("BarPosEnc_" ++ Py.str (MuMIDI.err_current_bar es + 1))%string;
       "PositionPosEnc_None" ] ++ MuMIDI.tempo_field self x)
  = Some (MuMIDI.mkErr (MuMIDI.err es) "Bar" []
            (MuMIDI.err_current_bar es + 1) (-1)).
Proof.
  intros Hprev. unfold MuMIDI.check_token.
  cbn [List.app nth_error bind]. rewrite bar_value_read. cbn [bind].
  replace (v <- MuMIDI.tok_value "PositionPosEnc_None" ;;
           MuMIDI.pos_or_minus_one v) with (Some (-1)) by reflexivity.
  cbn [bind].
  replace (Py.split_on "_" "Bar_None") with ["Bar"; "None"] by reflexivity.
  pose proof (time_step_plain "Bar" "None"
                (Py.str (MuMIDI.err_current_bar es + 1)) "None" x []
                eq_refl eq_refl eq_refl) as Hplain.
  rewrite app_nil_r in Hplain.
  change ("Bar" ++ "_" ++ "None")%string with "Bar_None" in Hplain.
  change ("PositionPosEnc_" ++ "None")%string with "PositionPosEnc_None"
    in Hplain.
  cbn [List.app] in Hplain. rewrite Hplain.
  rewrite graph_plain.
  destruct Hprev as [-> | [-> | ->]]; cbn;
    rewrite Z.ltb_irrefl; reflexivity.
Qed.

Lemma check_tokens_app (es : MuMIDI.ErrState) (a b : list (list string)) :
  MuMIDI.check_tokens self graph es (a ++ b)
  = (es1 <- MuMIDI.check_tokens self graph es a ;;
     MuMIDI.check_tokens self graph es1 b).
Proof.
  revert es. induction a as [|tok a IH]; intros es; [reflexivity|].
  rewrite <- app_comm_cons. cbn [MuMIDI.check_tokens].
  destruct (MuMIDI.check_token self graph es tok) as [es1|]; cbn [bind];
    [apply IH | reflexivity].
Qed.

Lemma check_bars (count : nat) (x : F) (cb : Z) :
  forall (i : Z) (es : MuMIDI.ErrState),
    ends_a_tick (MuMIDI.previous_type es) ->
    MuMIDI.err_current_bar es = cb + i ->
    MuMIDI.check_tokens self graph es (MuMIDI.bar_tokens self count i cb x)
    = Some (match count with
            | O => es
            | S _ => MuMIDI.mkErr (MuMIDI.err es) "Bar" []
                       (cb + i + Z.of_nat count) (-1)
            end).
Proof.
  induction count as [|count IH]; intros i es Hprev Hbar; [reflexivity|].
  cbn [MuMIDI.bar_tokens MuMIDI.check_tokens].
  replace (cb + i + 1) with (MuMIDI.err_current_bar es + 1) by lia.
  rewrite (check_bar es x Hprev). cbn [bind].
  rewrite (IH (i + 1)).
  - destruct count as [|count].
    + f_equal. f_equal. lia.
    + cbn [MuMIDI.err]. f_equal. f_equal. lia.
  - left. reflexivity.
  - cbn [MuMIDI.err_current_bar]. lia.
Qed.

Lemma check_position (es : MuMIDI.ErrState) (pos : Z) (x : F) :
  ends_a_tick (MuMIDI.previous_type es) ->
  MuMIDI.err_current_pos es < pos ->
  MuMIDI.check_token self graph es
    ([ ("Position_" ++ Py.str pos)%string;
       ("BarPosEnc_" ++ Py.str (MuMIDI.err_current_bar es))%string;
       ("PositionPosEnc_" ++ Py.str pos)%string ]
     ++ MuMIDI.tempo_field self x)
  = Some (MuMIDI.mkErr (MuMIDI.err es) "Position" []
            (MuMIDI.err_current_bar es) pos).
Proof.
  intros Hprev Hpos. unfold MuMIDI.check_token.
  cbn [List.app nth_error bind].
  rewrite bar_value_read. cbn [bind]. rewrite pos_value_read. cbn [bind].
  change ("Position_" ++ Py.str pos)%string
    with ("Position" ++ "_" ++ Py.str pos)%string.
  rewrite (split_type_value "Position" _ eq_refl (no_underscore_str pos)).
  pose proof (time_step_plain "Position" (Py.str pos)
                (Py.str (MuMIDI.err_current_bar es)) (Py.str pos) x []
                eq_refl eq_refl eq_refl) as Hplain.
  rewrite app_nil_r in Hplain. cbn [List.app] in Hplain. rewrite Hplain.
  rewrite graph_plain.
  assert (Hle : (pos <=? MuMIDI.err_current_pos es) = false)
    by (apply Z.leb_gt; exact Hpos).
  destruct Hprev as [-> | [-> | ->]]; cbn;
    rewrite andb_false_r, int_str; cbn [bind];
    rewrite Hle, Z.eqb_refl; cbn; rewrite !Z.ltb_irrefl; reflexivity.
Qed.

(** The previous types after which a Program token may come. *)
Lemma check_program (es : MuMIDI.ErrState) (prog : Z) (x : F) :
  MuMIDI.previous_type es = "Position"
  \/ MuMIDI.previous_type es = "Pitch"
  \/ MuMIDI.previous_type es = "DrumPitch" ->
  MuMIDI.check_token self graph es
    ([ ("Program_" ++ Py.str prog)%string;
       ("BarPosEnc_" ++ Py.str (MuMIDI.err_current_bar es))%string;
       ("PositionPosEnc_" ++ Py.str (MuMIDI.err_current_pos es))%string ]
     ++ MuMIDI.tempo_field self x)
  = Some (MuMIDI.mkErr (MuMIDI.err es) "Program" []
            (MuMIDI.err_current_bar es) (MuMIDI.err_current_pos es)).
Proof.
  intros Hprev. unfold MuMIDI.check_token.
  cbn [List.app nth_error bind].
  rewrite bar_value_read. cbn [bind]. rewrite pos_value_read. cbn [bind].
  change ("Program_" ++ Py.str prog)%string
    with ("Program" ++ "_" ++ Py.str prog)%string.
  rewrite (split_type_value "Program" _ eq_refl (no_underscore_str prog)).
  pose proof (time_step_plain "Program" (Py.str prog)
                (Py.str (MuMIDI.err_current_bar es))
                (Py.str (MuMIDI.err_current_pos es)) x []
                eq_refl eq_refl eq_refl) as Hplain.
  rewrite app_nil_r in Hplain. cbn [List.app] in Hplain. rewrite Hplain.
  rewrite graph_plain.
  destruct Hprev as [-> | [-> | ->]]; cbn;
    rewrite andb_false_r; cbn; rewrite !Z.ltb_irrefl; reflexivity.
Qed.

Lemma check_note (es : MuMIDI.ErrState) (t : MuMIDI.NoteToken (F := F))
  (pitch : Z) (x : F) :
  step_ok self t -> step_kind t ->
  MuMIDI.ne_value (fst t) = VInt pitch ->
  MuMIDI.previous_type es = "Program"
  \/ MuMIDI.previous_type es = MuMIDI.ne_type (fst t) ->
  MuMIDI.remove_duplicated_notes self = false
  \/ ~ In pitch (MuMIDI.current_pitches es) ->
  MuMIDI.check_token self graph es
    ([ MuMIDI.str_note_event (fst t);
       ("BarPosEnc_" ++ Py.str (MuMIDI.err_current_bar es))%string;
       ("PositionPosEnc_" ++ Py.str (MuMIDI.err_current_pos es))%string ]
     ++ MuMIDI.tempo_field self x ++ snd t)
  = Some (MuMIDI.mkErr (MuMIDI.err es) (MuMIDI.ne_type (fst t))
            (if MuMIDI.remove_duplicated_notes self
                && String.eqb (MuMIDI.ne_type (fst t)) "Pitch"
             then MuMIDI.current_pitches es ++ [pitch]
             else MuMIDI.current_pitches es)
            (MuMIDI.err_current_bar es) (MuMIDI.err_current_pos es)).
Proof.
  intros Hok Hkind Hvalue Hprev Hfresh.
  destruct Hok as [_ [_ [_ [_ [_ [velocity [label [Hlast [Hlabel _]]]]]]]]].
  unfold MuMIDI.check_token.
  cbn [List.app nth_error bind].
  rewrite bar_value_read. cbn [bind]. rewrite pos_value_read. cbn [bind].
  unfold MuMIDI.str_note_event. rewrite Hvalue. cbn [str_val].
  assert (Hty : no_underscore (MuMIDI.ne_type (fst t)) = true
                /\ Py.mem (MuMIDI.ne_type (fst t)) ["PAD"; "MASK"] = false).
  { destruct Hkind as [[-> _] | [-> _]]; split; reflexivity. }
  destruct Hty as [Hplain Hnotspecial].
  rewrite (split_type_value _ _ Hplain (no_underscore_str pitch)).
  assert (Hlast' : existsb special (snd t) = false).
  { rewrite Hlast. cbn [existsb].
    change ("Velocity_" ++ Py.str velocity)%string
      with ("Velocity" ++ "_" ++ Py.str velocity)%string.
    change ("Duration_" ++ label)%string
      with ("Duration" ++ "_" ++ label)%string.
    rewrite !plain_field by reflexivity. reflexivity. }
  pose proof (time_step_plain (MuMIDI.ne_type (fst t)) (Py.str pitch)
                (Py.str (MuMIDI.err_current_bar es))
                (Py.str (MuMIDI.err_current_pos es)) x (snd t)
                Hplain Hnotspecial Hlast') as Hfields.
  cbn [List.app] in Hfields. rewrite Hfields.
  rewrite graph_plain.
  assert (Hmember : ~ In pitch (MuMIDI.current_pitches es) ->
            existsb (Z.eqb pitch) (MuMIDI.current_pitches es) = false).
  { intros Hnot. destruct (existsb (Z.eqb pitch) (MuMIDI.current_pitches es))
      eqn:Eex; [|reflexivity].
    apply existsb_exists in Eex. destruct Eex as [q [Hq Heq]].
    apply Z.eqb_eq in Heq. subst q. contradiction. }
  destruct Hkind as [[Hty _] | [Hty _]]; rewrite Hty in *;
    destruct Hprev as [-> | ->]; cbn;
    try (rewrite andb_false_r; cbn; rewrite !Z.ltb_irrefl; reflexivity);
    destruct (MuMIDI.remove_duplicated_notes self); cbn;
    try (rewrite !Z.ltb_irrefl; reflexivity);
    rewrite int_str; cbn [bind];
    (destruct Hfresh as [Hoff | Hnot]; [discriminate Hoff|]);
    rewrite (Hmember Hnot); cbn; rewrite !Z.ltb_irrefl; reflexivity.
Qed.

Variable midi : Score F.

Local Abbreviation td := (MuMIDI.time_division self).
Local Abbreviation tps := (MuMIDI.time_division self / MuMIDI.max_beat_res self).

Hypothesis Htd : 0 < td.
Hypothesis Hres : 0 < MuMIDI.max_beat_res self.
Hypothesis Hdiv : td mod MuMIDI.max_beat_res self = 0.
Hypothesis Htpq : ticks_per_quarter midi = td.

Lemma tps_positive : 0 < tps.
Proof.
  assert (Htd' : td = MuMIDI.max_beat_res self * tps)
    by (apply Z_div_exact_full_2; [lia | exact Hdiv]).
  nia.
Qed.

Lemma some_inv {A : Type} (a b : A) : Some a = Some b -> a = b.
Proof. intros H. injection H as ->. reflexivity. Qed.

Lemma some_pair {A B : Type} (a c : A) (b d : B) :
  Some (a, b) = Some (c, d) -> a = c /\ b = d.
Proof. intros H. injection H as -> ->. split; reflexivity. Qed.

Ltac fields :=
  cbn [MuMIDI.err MuMIDI.err_current_bar MuMIDI.err_current_pos
       MuMIDI.previous_type MuMIDI.current_pitches MuMIDI.current_tick
       MuMIDI.current_bar MuMIDI.current_pos MuMIDI.current_track].

Ltac fields_in H :=
  cbn [MuMIDI.err MuMIDI.err_current_bar MuMIDI.err_current_pos
       MuMIDI.previous_type MuMIDI.current_pitches MuMIDI.current_tick
       MuMIDI.current_bar MuMIDI.current_pos MuMIDI.current_track] in H.

Lemma kind_type (t : MuMIDI.NoteToken (F := F)) :
  step_kind t ->
  MuMIDI.ne_type (fst t)
  = (if MuMIDI.ne_desc (fst t) =? -1 then "DrumPitch" else "Pitch").
Proof.
  intros [[-> ->] | [-> Hd]]; [reflexivity|].
  destruct (MuMIDI.ne_desc (fst t) =? -1) eqn:E; [|reflexivity].
  apply Z.eqb_eq in E. lia.
Qed.

(** The Program token and the note of a time step, after the validator has
    seen the tick of the step open. *)
Lemma check_track_part (es : MuMIDI.ErrState)
  (t : MuMIDI.NoteToken (F := F)) (pitch : Z) (x : F) :
  step_ok self t -> step_kind t ->
  MuMIDI.ne_value (fst t) = VInt pitch ->
  MuMIDI.previous_type es = "Position"
  \/ MuMIDI.previous_type es = "Pitch"
  \/ MuMIDI.previous_type es = "DrumPitch" ->
  exists pitches,
    MuMIDI.check_tokens self graph es
      ([ [ ("Program_" ++ Py.str (MuMIDI.ne_desc (fst t)))%string;
           ("BarPosEnc_" ++ Py.str (MuMIDI.err_current_bar es))%string;
           ("PositionPosEnc_" ++ Py.str (MuMIDI.err_current_pos es))%string ]
         ++ MuMIDI.tempo_field self x ]
       ++ [ [ MuMIDI.str_note_event (fst t);
              ("BarPosEnc_" ++ Py.str (MuMIDI.err_current_bar es))%string;
              ("PositionPosEnc_" ++ Py.str (MuMIDI.err_current_pos es))%string ]
            ++ MuMIDI.tempo_field self x ++ snd t ])
    = Some (MuMIDI.mkErr (MuMIDI.err es) (MuMIDI.ne_type (fst t)) pitches
              (MuMIDI.err_current_bar es) (MuMIDI.err_current_pos es))
    /\ forall p, In p pitches -> p = pitch.
Proof.
  intros Hok Hkind Hpitch Hprev.
  rewrite check_tokens_app. cbn [MuMIDI.check_tokens].
  rewrite (check_program es (MuMIDI.ne_desc (fst t)) x Hprev). cbn [bind].
  pose proof (check_note
                (MuMIDI.mkErr (MuMIDI.err es) "Program" []
                   (MuMIDI.err_current_bar es) (MuMIDI.err_current_pos es))
                t pitch x Hok Hkind Hpitch) as Hnote.
  fields_in Hnote.
  rewrite Hnote; [ | left; reflexivity | right; intros [] ].
  cbn [bind]. eexists. split; [reflexivity|].
  intros p Hp.
  destruct (MuMIDI.remove_duplicated_notes self
            && String.eqb (MuMIDI.ne_type (fst t)) "Pitch"); [|destruct Hp].
  destruct Hp as [<- | []]. reflexivity.
Qed.

Lemma check_step (earlier : list (MuMIDI.NoteToken (F := F)))
  (st st1 : MuMIDI.EncState) (es : MuMIDI.ErrState)
  (t : MuMIDI.NoteToken (F := F)) (out : list (list string)) :
  step_ok self t -> step_kind t ->
  in_check self earlier st es ->
  MuMIDI.current_tick st <= MuMIDI.ne_time (fst t) ->
  MuMIDI.remove_duplicated_notes self = false
  \/ ~ In (step_key t) (map step_key earlier) ->
  MuMIDI.encode_token self midi (td * 4) st t = Some (st1, out) ->
  exists es1,
    MuMIDI.check_tokens self graph es out = Some es1
    /\ in_check self (earlier ++ [t]) st1 es1.
Proof.
  intros Hok Hkind Hcheck Horder Hfresh Hrun.
  pose proof Hok as [_ [[pitch Hpitch] [Htime [Hgrid [Hdesc _]]]]].
  pose proof (kind_type t Hkind) as Htype.
  destruct Hcheck as [Herr [Hbar [Hpos Hcase]]].
  unfold MuMIDI.encode_token in Hrun.
  destruct (if MuMIDI.use_tempos self
               && (MuMIDI.current_tempo_idx st + 1
                   <? List.length (score_tempos midi))%nat
            then MuMIDI.advance_tempo
                   (skipn (MuMIDI.current_tempo_idx st + 1) (score_tempos midi))
                   (MuMIDI.ne_time (fst t)) (MuMIDI.current_tempo_idx st)
                   (MuMIDI.current_tempo st)
            else (MuMIDI.current_tempo_idx st, MuMIDI.current_tempo st))
    as [idx tempo].
  rewrite Htpq in Hrun.
  pose proof (grid_position self Htd Hres Hdiv (MuMIDI.ne_time (fst t))
                Htime Hgrid) as Hsplit.
  set (tick := MuMIDI.ne_time (fst t)) in *.
  set (pos' := Z.quot ((tick mod (td * 4)) * MuMIDI.max_beat_res self) td)
    in *.
  set (q := tick / (td * 4)) in *.
  assert (Hpos' : 0 <= pos').
  { unfold pos'. apply Z.quot_pos; [|lia].
    apply Z.mul_nonneg_nonneg; [|lia].
    apply Z.mod_pos_bound. lia. }
  assert (Hq : 0 <= q) by (apply Z.div_pos; lia).
  pose proof tps_positive as Htps.
  assert (Hheld_new : forall p, p = pitch ->
            exists s, In s (earlier ++ [t])
                      /\ step_key s
                         = (tick, MuMIDI.ne_desc (fst t), VInt p)).
  { intros p ->. exists t. split; [apply in_or_app; right; left; reflexivity|].
    unfold step_key. fold tick. rewrite Hpitch. reflexivity. }
  destruct (tick =? MuMIDI.current_tick st) eqn:Esame;
    cbn [negb bind] in Hrun.
  - (* the tick of the step before *)
    apply Z.eqb_eq in Esame.
    destruct Hcase as [[Hinit _] | [Hnow [Hbarnow [Hposnow [Htrack [Hprev Hheld]]]]]];
      [lia|].
    destruct (MuMIDI.ne_desc (fst t) =? MuMIDI.current_track st) eqn:Etrack;
      cbn [negb] in Hrun; apply some_pair in Hrun; destruct Hrun as [<- <-];
      rewrite !app_nil_l; rewrite <- Hbar, <- Hpos.
    + (* the same track *)
      apply Z.eqb_eq in Etrack.
      cbn [MuMIDI.check_tokens].
      rewrite (check_note es t pitch tempo Hok Hkind Hpitch).
      * cbn [bind]. eexists. split; [reflexivity|].
        unfold in_check. fields.
        split; [exact Herr|]. split; [reflexivity|]. split; [reflexivity|].
        right. rewrite Hbar, Hpos.
        split; [exact Hnow|]. split; [exact Hbarnow|].
        split; [exact Hposnow|]. split; [exact Htrack|].
        split; [rewrite <- Etrack; exact Htype|].
        intros p Hp.
        assert (Hcases : In p (MuMIDI.current_pitches es) \/ p = pitch).
        { destruct (MuMIDI.remove_duplicated_notes self
                    && String.eqb (MuMIDI.ne_type (fst t)) "Pitch");
            [|left; exact Hp].
          apply in_app_or in Hp. destruct Hp as [Hp | [<- | []]]; auto. }
        destruct Hcases as [Hold | ->].
        { destruct (Hheld p Hold) as [s [Hs Hkey]].
          exists s. split; [apply in_or_app; left; exact Hs | exact Hkey]. }
        rewrite <- Esame, <- Etrack. apply Hheld_new. reflexivity.
      * right. rewrite Hprev, <- Etrack. symmetry. exact Htype.
      * destruct Hfresh as [Hoff | Hnew]; [left; exact Hoff|].
        right. intros Hin. destruct (Hheld pitch Hin) as [s [Hs Hkey]].
        apply Hnew. apply in_map_iff. exists s. split; [|exact Hs].
        rewrite Hkey. unfold step_key. fold tick.
        rewrite Hpitch, Esame, Etrack. reflexivity.
    + (* another track *)
      destruct (check_track_part es t pitch tempo Hok Hkind Hpitch)
        as [pitches [Hrun Hpitches]].
      { rewrite Hprev. destruct (MuMIDI.current_track st =? -1); auto. }
      rewrite Hrun. eexists. split; [reflexivity|].
      unfold in_check. fields.
      split; [exact Herr|]. split; [reflexivity|]. split; [reflexivity|].
      right. rewrite Hbar, Hpos.
      split; [exact Hnow|]. split; [exact Hbarnow|].
      split; [exact Hposnow|]. split; [exact Hdesc|].
      split; [exact Htype|].
      intros p Hp. rewrite <- Esame. apply Hheld_new. apply Hpitches. exact Hp.
  - (* a new tick *)
    apply Z.eqb_neq in Esame.
    assert (Hnext : MuMIDI.current_bar st <= q
                    /\ ends_a_tick (MuMIDI.previous_type es)
                    /\ (MuMIDI.current_bar st = q ->
                        MuMIDI.current_pos st < pos')).
    { destruct Hcase as [[Hinit [Hcb [Hcp Hprev]]]
                        | [Hnow [Hbarnow [Hposnow [Htrack [Hprev _]]]]]].
      - split; [lia|]. split; [left; exact Hprev|]. lia.
      - split.
        + rewrite Hbarnow. apply Z.div_le_mono; lia.
        + split.
          * rewrite Hprev. destruct (MuMIDI.current_track st =? -1);
              [right; right | right; left]; reflexivity.
          * intros Hsame. rewrite Hsame in Hposnow. nia. }
    destruct Hnext as [Hle [Hends Hforward]].
    replace (if MuMIDI.current_bar st <? q
             then MuMIDI.current_bar st + (q - MuMIDI.current_bar st)
             else MuMIDI.current_bar st) with q in Hrun
      by (destruct (Z.ltb_spec (MuMIDI.current_bar st) q); lia).
    assert (Hother : (MuMIDI.ne_desc (fst t) =? -2) = false)
      by (apply Z.eqb_neq; lia).
    rewrite Hother in Hrun. cbn [negb] in Hrun.
    apply some_pair in Hrun. destruct Hrun as [<- <-].
    rewrite <- app_assoc. rewrite check_tokens_app.
    assert (Hbars : exists es_b,
               MuMIDI.check_tokens self graph es
                 (if MuMIDI.current_bar st <? q
                  then MuMIDI.bar_tokens self
                         (Z.to_nat (q - MuMIDI.current_bar st)) 0
                         (MuMIDI.current_bar st) tempo
                  else []) = Some es_b
               /\ MuMIDI.err es_b = 0
               /\ MuMIDI.err_current_bar es_b = q
               /\ MuMIDI.err_current_pos es_b < pos'
               /\ ends_a_tick (MuMIDI.previous_type es_b)).
    { destruct (Z.ltb_spec (MuMIDI.current_bar st) q) as [Hlt | Hge].
      - rewrite (check_bars _ tempo (MuMIDI.current_bar st) 0 es Hends)
          by lia.
        destruct (Z.to_nat (q - MuMIDI.current_bar st)) as [|count] eqn:Ecount;
          [lia|].
        eexists. split; [reflexivity|]. fields.
        split; [exact Herr|]. split; [lia|]. split; [lia|].
        left. reflexivity.
      - exists es. split; [reflexivity|]. split; [exact Herr|].
        split; [lia|]. split; [rewrite Hpos; apply Hforward; lia|].
        exact Hends. }
    destruct Hbars as [es_b [-> [Herr_b [Hbar_b [Hpos_b Hends_b]]]]].
    cbn [bind]. rewrite check_tokens_app. cbn [MuMIDI.check_tokens].
    rewrite <- Hbar_b.
    rewrite (check_position es_b pos' tempo Hends_b Hpos_b). cbn [bind].
    pose proof (check_track_part
                  (MuMIDI.mkErr (MuMIDI.err es_b) "Position" []
                     (MuMIDI.err_current_bar es_b) pos')
                  t pitch tempo Hok Hkind Hpitch) as Htrack.
    fields_in Htrack.
    destruct Htrack as [pitches [Hrun Hpitches]]; [left; reflexivity|].
    rewrite Hrun. eexists. split; [reflexivity|].
    unfold in_check. fields.
    split; [exact Herr_b|]. split; [reflexivity|]. split; [reflexivity|].
    right. rewrite Hbar_b.
    split; [exact Htime|]. split; [reflexivity|].
    split; [exact Hsplit|]. split; [exact Hdesc|].
    split; [exact Htype|].
    intros p Hp. apply Hheld_new. apply Hpitches. exact Hp.
Qed.

Lemma check_steps (steps : list (MuMIDI.NoteToken (F := F))) :
  forall (earlier : list (MuMIDI.NoteToken (F := F)))
         (st : MuMIDI.EncState) (es : MuMIDI.ErrState)
         (out : list (list string)),
    Forall (step_ok self) steps -> Forall step_kind steps ->
    in_time_order (MuMIDI.current_tick st) steps ->
    fresh self (earlier ++ steps) ->
    in_check self earlier st es ->
    MuMIDI.encode_tokens self midi (td * 4) st steps = Some out ->
    exists es1,
      MuMIDI.check_tokens self graph es out = Some es1
      /\ MuMIDI.err es1 = 0.
Proof.
  induction steps as [|t more IH];
    intros earlier st es out Hok Hkind Horder Hfresh Hcheck Hrun.
  - injection Hrun as <-. exists es. split; [reflexivity|]. apply Hcheck.
  - cbn [MuMIDI.encode_tokens] in Hrun.
    apply bind_Some in Hrun. destruct Hrun as [[st1 here] [Hhere Hrun]].
    apply bind_Some in Hrun. destruct Hrun as [rest [Hrest Hrun]].
    apply some_inv in Hrun. subst out.
    inversion Hok as [|? ? Hok1 Hok2]; subst.
    inversion Hkind as [|? ? Hkind1 Hkind2]; subst.
    destruct Horder as [Hfirst Horder].
    assert (Hnew : MuMIDI.remove_duplicated_notes self = false
                   \/ ~ In (step_key t) (map step_key earlier)).
    { destruct Hfresh as [Hoff | Hnodup]; [left; exact Hoff | right].
      rewrite map_app in Hnodup. cbn [map] in Hnodup.
      apply NoDup_remove_2 in Hnodup. intros Hin. apply Hnodup.
      apply in_or_app. left. exact Hin. }
    destruct (check_step earlier st st1 es t here Hok1 Hkind1 Hcheck Hfirst
                Hnew Hhere) as [es1 [Hrun1 Hcheck1]].
    assert (Htick : MuMIDI.current_tick st1 = MuMIDI.ne_time (fst t)).
    { unfold MuMIDI.encode_token in Hhere.
      destruct (if MuMIDI.use_tempos self
                   && (MuMIDI.current_tempo_idx st + 1
                       <? List.length (score_tempos midi))%nat
                then MuMIDI.advance_tempo
                       (skipn (MuMIDI.current_tempo_idx st + 1)
                          (score_tempos midi))
                       (MuMIDI.ne_time (fst t)) (MuMIDI.current_tempo_idx st)
                       (MuMIDI.current_tempo st)
                else (MuMIDI.current_tempo_idx st, MuMIDI.current_tempo st))
        as [idx tempo].
      destruct (MuMIDI.ne_time (fst t) =? MuMIDI.current_tick st) eqn:Esame;
        cbn [negb bind] in Hhere.
      - apply Z.eqb_eq in Esame.
        destruct (negb (MuMIDI.ne_desc (fst t) =? MuMIDI.current_track st));
          apply some_pair in Hhere; destruct Hhere as [<- _];
          symmetry; exact Esame.
      - destruct (negb (MuMIDI.ne_desc (fst t) =? -2));
          apply some_pair in Hhere; destruct Hhere as [<- _]; reflexivity. }
    destruct (IH (earlier ++ [t]) st1 es1 rest Hok2 Hkind2) as [es2 [Hrun2 Herr2]].
    + rewrite Htick. exact Horder.
    + rewrite <- app_assoc. exact Hfresh.
    + exact Hcheck1.
    + exact Hrest.
    + exists es2. split; [|exact Herr2].
      rewrite check_tokens_app, Hrun1. cbn [bind]. exact Hrun2.
Qed.

(** The first time step of a piece opens bar 0. *)
Lemma encode_token_opens_bar_0 (st st1 : MuMIDI.EncState)
  (t : MuMIDI.NoteToken (F := F)) (out : list (list string)) :
  MuMIDI.current_tick st = -1 -> MuMIDI.current_bar st = -1 ->
  0 <= MuMIDI.ne_time (fst t) ->
  MuMIDI.encode_token self midi (td * 4) st t = Some (st1, out) ->
  exists x rest,
    out = ([ "Bar_None"; ("BarPosEnc_" ++ Py.str 0)%string;
             "PositionPosEnc_None" ] ++ MuMIDI.tempo_field self x) :: rest.
Proof.
  intros Htick Hbar Htime Hrun. unfold MuMIDI.encode_token in Hrun.
  destruct (if MuMIDI.use_tempos self
               && (MuMIDI.current_tempo_idx st + 1
                   <? List.length (score_tempos midi))%nat
            then MuMIDI.advance_tempo
                   (skipn (MuMIDI.current_tempo_idx st + 1) (score_tempos midi))
                   (MuMIDI.ne_time (fst t)) (MuMIDI.current_tempo_idx st)
                   (MuMIDI.current_tempo st)
            else (MuMIDI.current_tempo_idx st, MuMIDI.current_tempo st))
    as [idx tempo].
  assert (Hq : 0 <= MuMIDI.ne_time (fst t) / (td * 4))
    by (apply Z.div_pos; lia).
  rewrite Htick, Hbar in Hrun.
  replace (MuMIDI.ne_time (fst t) =? -1) with false in Hrun
    by (symmetry; apply Z.eqb_neq; lia).
  replace (-1 <? MuMIDI.ne_time (fst t) / (td * 4)) with true in Hrun
    by (symmetry; apply Z.ltb_lt; lia).
  cbn [negb bind] in Hrun.
  destruct (Z.to_nat (MuMIDI.ne_time (fst t) / (td * 4) - -1))
    as [|count] eqn:Ecount; [lia|].
  cbn [MuMIDI.bar_tokens] in Hrun.
  destruct (negb (MuMIDI.ne_desc (fst t) =? -2));
    apply some_pair in Hrun; destruct Hrun as [_ <-];
    rewrite <- !app_comm_cons; eexists _, _; reflexivity.
Qed.

End MuMIDIValidatorSteps.

Section MuMIDIValidatorSound.

Context {F : Type} {fops : FloatOps F}.
Variable self : MuMIDI.Tokenizer (F := F).

Local Abbreviation step := (MuMIDI.NoteToken (F := F)).

Lemma insert_token_perm (x : step) (l : list step) :
  Permutation (x :: l) (MuMIDI.insert_token x l).
Proof.
  induction l as [|y l IH]; cbn [MuMIDI.insert_token]; [reflexivity|].
  destruct (MuMIDI.key_le x y); [reflexivity|].
  rewrite perm_swap. constructor. exact IH.
Qed.

Lemma sort_tokens_perm (l : list step) :
  Permutation l (MuMIDI.sort_tokens l).
Proof.
  induction l as [|x l IH]; [constructor|].
  unfold MuMIDI.sort_tokens. cbn [fold_right].
  rewrite <- insert_token_perm. constructor. exact IH.
Qed.

Lemma note_tokens_of_keys (tr : Track) (ns : list Note) (steps : list step) :
  is_drum tr = true \/ 0 <= program tr ->
  MuMIDI.note_tokens_of self tr ns = Some steps ->
  Forall step_kind steps
  /\ map step_key steps
     = map (fun n => (note_start n, track_key tr, VInt (note_pitch n))) ns.
Proof.
  intros Hkey. revert steps.
  induction ns as [|n ns IH]; intros steps Hrun; cbn [MuMIDI.note_tokens_of] in Hrun.
  - injection Hrun as <-. split; [constructor | reflexivity].
  - apply bind_Some in Hrun. destruct Hrun as [t [Ht Hrun]].
    apply bind_Some in Hrun. destruct Hrun as [ts [Hts Hrun]].
    injection Hrun as <-. destruct (IH ts Hts) as [Hkinds Hkeys].
    unfold MuMIDI.note_token in Ht.
    apply bind_Some in Ht. destruct Ht as [d [_ Ht]].
    injection Ht as <-. unfold track_key.
    destruct (is_drum tr) eqn:Edrum; cbn [negb map].
    + split.
      * constructor; [left; split; reflexivity | exact Hkinds].
      * rewrite Hkeys. unfold track_key. rewrite Edrum. reflexivity.
    + split.
      * constructor; [|exact Hkinds]. right. split; [reflexivity|].
        cbn [fst MuMIDI.ne_desc]. destruct Hkey; [discriminate | assumption].
      * rewrite Hkeys. unfold track_key. rewrite Edrum. reflexivity.
Qed.

Lemma no_doubles_keys (k : Z) (ns : list Note) :
  no_doubles ns = true ->
  NoDup (map (fun n => (note_start n, k, VInt (F := F) (note_pitch n))) ns).
Proof.
  induction ns as [|n ns IH]; intros Hns; cbn [map]; [constructor|].
  cbn [no_doubles] in Hns. apply andb_prop in Hns. destruct Hns as [Hn Hns].
  constructor; [|apply IH; exact Hns].
  intros Hin. apply in_map_iff in Hin. destruct Hin as [m [Hkey Hm]].
  injection Hkey as Hstart Hpitch.
  apply negb_true_iff in Hn.
  assert (Hex : existsb (fun m => (note_start m =? note_start n)
                                  && (note_pitch m =? note_pitch n)) ns
                = true).
  { apply existsb_exists. exists m. split; [exact Hm|].
    rewrite Hstart, Hpitch, !Z.eqb_refl. reflexivity. }
  rewrite Hex in Hn. discriminate Hn.
Qed.

Hypothesis Hchords : MuMIDI.use_chords self = false.

Lemma all_note_tokens_keys (tpq : Z) (trs : list Track) :
  forall (l : list step),
    forallb (track_ok self) trs = true ->
    MuMIDI.all_note_tokens self tpq trs = Some l ->
    Forall step_kind l
    /\ Forall (fun t => exists u, In u trs
                                  /\ MuMIDI.ne_desc (fst t) = track_key u) l
    /\ (forallb (fun tr => no_doubles (notes tr)) trs = true ->
        distinct_keys trs = true ->
        NoDup (map step_key l)).
Proof.
  induction trs as [|tr more IH]; intros l Hall Hrun;
    cbn [MuMIDI.all_note_tokens] in Hrun.
  - injection Hrun as <-. split; [constructor|]. split; [constructor|].
    intros _ _. constructor.
  - cbn [forallb] in Hall. apply andb_prop in Hall. destruct Hall as [Hok Hall].
    apply bind_Some in Hrun. destruct Hrun as [here [Hhere Hrun]].
    apply bind_Some in Hrun. destruct Hrun as [rest [Hrest Hrun]].
    injection Hrun as <-.
    destruct (IH rest Hall Hrest) as [Hkinds [Hdescs Hnodup]].
    assert (Hkey : is_drum tr = true \/ 0 <= program tr).
    { unfold track_ok in Hok.
      apply andb_prop in Hok. destruct Hok as [Hok _].
      apply andb_prop in Hok. destruct Hok as [Hok _].
      apply andb_prop in Hok. destruct Hok as [_ Hok].
      apply orb_prop in Hok. destruct Hok as [Hd | Hp]; [left; exact Hd|].
      right. apply andb_prop in Hp. destruct Hp as [Hp _].
      apply Z.leb_le. exact Hp. }
    assert (Hthis : Forall step_kind here
                    /\ map step_key here
                       = map (fun n => (note_start n, track_key tr,
                                        VInt (note_pitch n))) (notes tr)).
    { destruct (existsb (Z.eqb (program tr)) (MuMIDI.programs self)) eqn:Eprog.
      - unfold MuMIDI._track_to_tokens in Hhere.
        apply bind_Some in Hhere. destruct Hhere as [tokens [Htokens Hhere]].
        rewrite Hchords in Hhere. cbn [andb] in Hhere.
        injection Hhere as <-.
        apply (note_tokens_of_keys tr (notes tr) tokens Hkey Htokens).
      - unfold track_ok in Hok. rewrite Eprog in Hok. discriminate Hok. }
    destruct Hthis as [Hkinds_here Hkeys_here].
    assert (Hdescs_here : Forall (fun t => MuMIDI.ne_desc (fst t)
                                           = track_key tr) here).
    { apply Forall_forall. intros t Ht.
      assert (Hin : In (step_key t) (map step_key here))
        by (apply in_map; exact Ht).
      rewrite Hkeys_here in Hin. apply in_map_iff in Hin.
      destruct Hin as [n [Hn _]]. unfold step_key in Hn.
      injection Hn as _ Hd _. symmetry. exact Hd. }
    split; [apply Forall_app; split; assumption|].
    split.
    + apply Forall_app. split.
      * eapply Forall_impl; [|exact Hdescs_here].
        intros t Ht. exists tr. split; [left; reflexivity | exact Ht].
      * eapply Forall_impl; [|exact Hdescs].
        intros t [u [Hu Ht]]. exists u. split; [right; exact Hu | exact Ht].
    + intros Hdoubles Hdistinct.
      cbn [forallb] in Hdoubles. apply andb_prop in Hdoubles.
      destruct Hdoubles as [Hdouble Hdoubles].
      cbn [distinct_keys] in Hdistinct. apply andb_prop in Hdistinct.
      destruct Hdistinct as [Hfar Hdistinct].
      rewrite map_app. apply NoDup_app.
      * rewrite Hkeys_here. apply no_doubles_keys. exact Hdouble.
      * apply Hnodup; assumption.
      * intros key Hin1 Hin2.
        apply in_map_iff in Hin1. destruct Hin1 as [t1 [<- Ht1]].
        apply in_map_iff in Hin2. destruct Hin2 as [t2 [Hsame Ht2]].
        rewrite Forall_forall in Hdescs_here, Hdescs.
        specialize (Hdescs_here t1 Ht1).
        destruct (Hdescs t2 Ht2) as [u [Hu Hd2]].
        unfold step_key in Hsame. injection Hsame as _ Hd _.
        apply negb_true_iff in Hfar.
        assert (Hex : existsb (fun u => track_key u =? track_key tr) more
                      = true).
        { apply existsb_exists. exists u. split; [exact Hu|].
          apply Z.eqb_eq. congruence. }
        rewrite Hex in Hfar. discriminate Hfar.
Qed.

End MuMIDIValidatorSound.

Section MuMIDIValidatorTheorem.

Context {F : Type} {fops : FloatOps F}.

(** What the validator reads off a first token that opens bar 0. *)
Lemma tokens_errors_from_bar_0 (self : MuMIDI.Tokenizer (F := F))
  (x : F) (rest : list (list string)) :
  MuMIDI.use_chords self = false ->
  MuMIDI._tokens_errors self (MuMIDI._create_token_types_graph self)
    (([ "Bar_None"; ("BarPosEnc_" ++ Py.str 0)%string;
        "PositionPosEnc_None" ] ++ MuMIDI.tempo_field self x) :: rest)
  = (es <- MuMIDI.check_tokens self (MuMIDI._create_token_types_graph self)
             (MuMIDI.mkErr 0 "Bar" [] (-1) (-1))
             (([ "Bar_None"; ("BarPosEnc_" ++ Py.str 0)%string;
                 "PositionPosEnc_None" ] ++ MuMIDI.tempo_field self x)
              :: rest) ;;
     Some (MuMIDI.err es)).
Proof.
  intros Hchords. cbn [MuMIDI.check_tokens].
  pose proof (check_bar self Hchords (MuMIDI.mkErr 0 "Bar" [] (-1) (-1)) x
                (or_introl eq_refl)) as Hbar.
  cbn [MuMIDI.err MuMIDI.err_current_bar] in Hbar.
  change (-1 + 1) with 0 in Hbar. rewrite Hbar. cbn [bind].
  unfold MuMIDI._tokens_errors. cbn [List.app nth_error bind].
  rewrite bar_value_read. reflexivity.
Qed.

Lemma mumidi_body_passes (self : MuMIDI.Tokenizer (F := F)) (midi : Score F)
  (toks : list (list string)) :
  mumidi_ready self midi = true ->
  MuMIDI.remove_duplicated_notes self = false
  \/ no_double_notes midi = true ->
  MuMIDI.midi_to_tokens_body self midi = Some toks ->
  toks <> [] ->
  MuMIDI._tokens_errors self (MuMIDI._create_token_types_graph self) toks
  = Some 0.
Proof.
  intros Hready Hdoubles Hrun Hsome.
  destruct (mumidi_ready_facts self midi Hready)
    as [Hchords [Htd [Htpq [Hres [Hdiv [Hdur [_ [Htracks Hdistinct]]]]]]]].
  unfold MuMIDI.midi_to_tokens_body in Hrun.
  apply bind_Some in Hrun. destruct Hrun as [steps [Hsteps Hrun]].
  replace (MuMIDI.max_beat_res self =? 0) with false in Hrun
    by (symmetry; apply Z.eqb_neq; lia).
  apply bind_Some in Hrun. destruct Hrun as [first_tempo [_ Hrun]].
  rewrite Htpq in Hrun, Hsteps.
  destruct (all_note_tokens_steps self Hchords Hdur
              (MuMIDI.time_division self) (tracks midi) Htracks)
    as [lists [Hlists Hall]].
  rewrite Hsteps in Hlists. injection Hlists as ->.
  destruct (all_note_tokens_keys self Hchords (MuMIDI.time_division self)
              (tracks midi) (List.concat lists) Htracks Hsteps)
    as [Hkinds [_ Hnodup]].
  assert (Hok : Forall (step_ok self) (List.concat lists)).
  { apply (concat_Forall self _ (tracks midi) lists Hall).
    intros tr steps Hsteps'. apply Hsteps'. }
  set (sorted := MuMIDI.sort_tokens (List.concat lists)) in *.
  assert (Hok' : Forall (step_ok self) sorted)
    by (apply sort_tokens_Forall; exact Hok).
  assert (Hkinds' : Forall step_kind sorted)
    by (apply sort_tokens_Forall; exact Hkinds).
  assert (Horder : in_time_order (-1) sorted).
  { apply sorted_in_time_order; [apply sort_tokens_sorted|].
    eapply Forall_impl; [|exact Hok'].
    intros t Ht. destruct Ht as [_ [_ [Htime _]]]. lia. }
  assert (Hfresh : fresh self ([] ++ sorted)).
  { destruct Hdoubles as [Hoff | Hdoubles]; [left; exact Hoff | right].
    cbn [List.app].
    eapply Permutation_NoDup;
      [apply Permutation_map; apply sort_tokens_perm|].
    apply Hnodup; [exact Hdoubles | exact Hdistinct]. }
  destruct (check_steps self Hchords midi Htd Hres Hdiv Htpq sorted []
              (MuMIDI.mkEnc (-1) (-1) (-1) (-2) 0
                 (float_round2 (tempo_value first_tempo)))
              (MuMIDI.mkErr 0 "Bar" [] (-1) (-1)) toks
              Hok' Hkinds' Horder Hfresh)
    as [es1 [Hcheck Herr]].
  { split; [reflexivity|]. split; [reflexivity|]. split; [reflexivity|].
    left. repeat split; reflexivity. }
  { exact Hrun. }
  destruct sorted as [|t more] eqn:Esorted.
  { cbn [MuMIDI.encode_tokens] in Hrun. injection Hrun as <-.
    contradiction Hsome. reflexivity. }
  cbn [MuMIDI.encode_tokens] in Hrun.
  apply bind_Some in Hrun. destruct Hrun as [[st1 here] [Hhere Hrun]].
  apply bind_Some in Hrun. destruct Hrun as [rest [_ Hrun]].
  injection Hrun as Htoks.
  inversion Hok' as [|? ? Hok1 _]; subst.
  assert (Hopen : exists x r,
             here = ([ "Bar_None"; ("BarPosEnc_" ++ Py.str 0)%string;
                       "PositionPosEnc_None" ] ++ MuMIDI.tempo_field self x)
                    :: r).
  { eapply (encode_token_opens_bar_0 self midi Htd); [ | | | exact Hhere].
    - reflexivity.
    - reflexivity.
    - destruct Hok1 as [_ [_ [Htime _]]]. exact Htime. }
  destruct Hopen as [x [r Hform]].
  rewrite Hform in Hcheck |- *. rewrite <- app_comm_cons in Hcheck |- *.
  rewrite (tokens_errors_from_bar_0 self x (r ++ rest) Hchords).
  rewrite Hcheck. cbn [bind]. rewrite Herr. reflexivity.
Qed.

End MuMIDIValidatorTheorem.

(** X11: the tokens that MuMIDI makes of a piece pass its own validator.  For
    a piece as [mumidi_ready] describes it, on the grid of positions and
    with chords off, in which no two notes of a track start together on the
    same pitch (or with the test on repeated pitches off),
    [_tokens_errors] counts no error on what [_midi_to_tokens] returns,
    whenever that is not the empty sequence. *)
Theorem mumidi_output_passes_the_validator {F : Type} {fops : FloatOps F}
  (self : MuMIDI.Tokenizer (F := F)) (midi : Score F)
  (toks : list (list string)) :
  mumidi_ready self midi = true ->
  MuMIDI.remove_duplicated_notes self = false
  \/ no_double_notes midi = true ->
  snd (MuMIDI._midi_to_tokens self midi) = Some toks ->
  toks <> [] ->
  MuMIDI._tokens_errors (fst (MuMIDI._midi_to_tokens self midi))
    (MuMIDI._create_token_types_graph (fst (MuMIDI._midi_to_tokens self midi)))
    toks
  = Some 0.
Proof.
  intros Hready Hdoubles Hrun Hsome.
  unfold MuMIDI._midi_to_tokens in *.
  destruct (ticks_per_quarter midi * 4 =? 0); [discriminate Hrun|].
  cbn [fst snd] in *.
  destruct (MuMIDI.max_bar_embedding self
            <? MuMIDI.ceil_div (MuMIDI.get_midi_max_tick self midi)
                 (ticks_per_quarter midi * 4)).
  - returned Hrun.
    apply (mumidi_body_passes
             (MuMIDI.set_vocab self _ _) midi toks Hready Hdoubles Hrun Hsome).
  - returned Hrun.
    apply (mumidi_body_passes self midi toks Hready Hdoubles Hrun Hsome).
Qed.

(** X11 (witness): the duet of a piano and a drum kit, with tempos. *)
Lemma mumidi_output_passes_the_validator_witness :
  exists toks,
    snd (MuMIDI._midi_to_tokens (Samples.mumidi true) Samples.duet)
    = Some toks
    /\ MuMIDI._tokens_errors
         (fst (MuMIDI._midi_to_tokens (Samples.mumidi true) Samples.duet))
         (MuMIDI._create_token_types_graph
            (fst (MuMIDI._midi_to_tokens (Samples.mumidi true) Samples.duet)))
         toks
       = Some 0.
Proof.
  eexists. split; [vm_compute; reflexivity|].
  apply (mumidi_output_passes_the_validator (Samples.mumidi true)
           Samples.duet).
  - vm_compute. reflexivity.
  - right. vm_compute. reflexivity.
  - vm_compute. reflexivity.
  - discriminate.
Defined.

(** ** The test helpers *)

Section NoteComparison.

Lemma notes_equals_same (note1 note2 : Note) :
  TestUtils.notes_equals note1 note2 = "" <-> note1 = note2.
Proof.
  unfold TestUtils.notes_equals, note_start, note_end.
  destruct note1 as [t1 d1 p1 v1], note2 as [t2 d2 p2 v2]; cbn.
  destruct (t1 =? t2) eqn:Et; cbn.
  2: { split; [discriminate|]. intros H; injection H as -> _ _ _.
       rewrite Z.eqb_refl in Et. discriminate. }
  apply Z.eqb_eq in Et. subst t2.
  destruct (t1 + d1 =? t1 + d2) eqn:Ed; cbn.
  2: { split; [discriminate|]. intros H; injection H as -> _ _.
       rewrite Z.eqb_refl in Ed. discriminate. }
  apply Z.eqb_eq in Ed. assert (d2 = d1) by lia. subst d2.
  destruct (p1 =? p2) eqn:Ep; cbn.
  2: { split; [discriminate|]. intros H; injection H as -> _.
       rewrite Z.eqb_refl in Ep. discriminate. }
  apply Z.eqb_eq in Ep. subst p2.
  destruct (v1 =? v2) eqn:Ev; cbn.
  2: { split; [discriminate|]. intros H; injection H as ->.
       rewrite Z.eqb_refl in Ev. discriminate. }
  apply Z.eqb_eq in Ev. subst v2. split; reflexivity.
Qed.

Lemma getattr_of_notes_equals (note1 note2 : Note) :
  TestUtils.notes_equals note1 note2 <> "" ->
  exists expected,
    TestUtils.getattr note1 (TestUtils.notes_equals note1 note2)
    = Some expected.
Proof.
  unfold TestUtils.notes_equals.
  destruct (negb (note_start note1 =? note_start note2));
    [intros _; eexists; reflexivity|].
  destruct (negb (note_end note1 =? note_end note2));
    [intros _; eexists; reflexivity|].
  destruct (negb (note_pitch note1 =? note_pitch note2));
    [intros _; eexists; reflexivity|].
  destruct (negb (note_velocity note1 =? note_velocity note2));
    [intros _; eexists; reflexivity|].
  intros H. contradiction H. reflexivity.
Qed.

Lemma compare_notes_spec (pairs : list (Note * Note)) :
  exists errs,
    TestUtils.compare_notes pairs = Some errs
    /\ (errs = [] <-> Forall (fun p => fst p = snd p) pairs).
Proof.
  induction pairs as [|[note1 note2] more IH]; cbn [TestUtils.compare_notes].
  - exists []. split; [reflexivity|]. split; intros _; [constructor|reflexivity].
  - destruct IH as [rest [-> Hrest]].
    destruct (String.eqb (TestUtils.notes_equals note1 note2) "") eqn:Eerr;
      cbn [negb bind].
    + apply String.eqb_eq in Eerr. apply notes_equals_same in Eerr.
      exists rest. split; [reflexivity|].
      rewrite Hrest. split.
      * intros Hall. constructor; [exact Eerr | exact Hall].
      * intros Hall. inversion Hall. assumption.
    + apply String.eqb_neq in Eerr.
      destruct (getattr_of_notes_equals note1 note2 Eerr) as [expected ->].
      cbn [bind List.app]. eexists. split; [reflexivity|].
      split; [discriminate|].
      intros Hall. inversion Hall as [|p l Hsame Hmore]; subst.
      cbn in Hsame. apply notes_equals_same in Hsame. contradiction.
Qed.

Lemma combine_same {A : Type} (l1 l2 : list A) :
  List.length l1 = List.length l2 ->
  Forall (fun p => fst p = snd p) (combine l1 l2) -> l1 = l2.
Proof.
  revert l2. induction l1 as [|x l1 IH]; intros [|y l2] Hlen Hall;
    try discriminate; [reflexivity|].
  cbn in Hall. inversion Hall as [|p l Hxy Hmore]; subst. cbn in Hxy. subst y.
  f_equal. apply IH; [cbn in Hlen; lia | exact Hmore].
Qed.

Lemma combine_diag {A : Type} (l : list A) :
  Forall (fun p => fst p = snd p) (combine l l).
Proof. induction l; cbn; constructor; auto. Qed.

Lemma tracks_notes_equals_spec (track1 track2 : Track) :
  exists errs,
    TestUtils.tracks_notes_equals track1 track2 = Some errs
    /\ (errs = [] <-> notes track1 = notes track2).
Proof.
  unfold TestUtils.tracks_notes_equals.
  destruct (Nat.eqb (List.length (notes track1)) (List.length (notes track2)))
    eqn:Elen; cbn [negb].
  - apply Nat.eqb_eq in Elen.
    destruct (compare_notes_spec (combine (notes track1) (notes track2)))
      as [errs [Hrun Hiff]].
    exists errs. split; [exact Hrun|]. rewrite Hiff. split.
    + apply combine_same. exact Elen.
    + intros ->. apply combine_diag.
  - apply Nat.eqb_neq in Elen. eexists. split; [reflexivity|].
    split; [discriminate|]. intros Hsame. rewrite Hsame in Elen.
    contradiction Elen. reflexivity.
Qed.

Lemma compare_tracks_spec (pairs : list (Track * Track)) :
  exists errors,
    TestUtils.compare_tracks pairs = Some errors
    /\ (errors = []
        <-> Forall (fun p => notes (fst p) = notes (snd p)) pairs).
Proof.
  induction pairs as [|[track1 track2] more IH]; cbn [TestUtils.compare_tracks].
  - exists []. split; [reflexivity|]. split; intros _; [constructor|reflexivity].
  - destruct IH as [rest [-> Hrest]].
    destruct (tracks_notes_equals_spec track1 track2) as [errs [-> Herrs]].
    cbn [bind]. eexists. split; [reflexivity|].
    destruct errs as [|e errs]; cbn [List.length Nat.ltb Nat.leb List.app].
    + rewrite Hrest. split.
      * intros Hall. constructor; [apply Herrs; reflexivity | exact Hall].
      * intros Hall. inversion Hall. assumption.
    + split; [discriminate|].
      intros Hall. inversion Hall as [|p l Hsame Hmore]; subst.
      cbn in Hsame. apply Herrs in Hsame. discriminate.
Qed.

End NoteComparison.

(** X12: [tracks_notes_equals] never raises, and its error list is empty
    exactly when the two tracks hold the same notes, in the same order. *)
Theorem tracks_notes_equals_is_empty_on_equal_notes (track1 track2 : Track) :
  exists errs,
    TestUtils.tracks_notes_equals track1 track2 = Some errs
    /\ (errs = [] <-> notes track1 = notes track2).
Proof. apply tracks_notes_equals_spec. Qed.

(** X13: [midis_notes_equals] never raises, and it reports nothing exactly
    when the tracks it pairs up hold the same notes.  The tracks are paired
    by [zip]: a track without a partner in the other piece is not looked
    at, so a piece compared with one that lost its last tracks passes. *)
Theorem midis_notes_equals_compares_paired_tracks {F : Type}
  (midi1 midi2 : Score F) :
  (exists errors,
     TestUtils.midis_notes_equals midi1 midi2 = Some errors
     /\ (errors = []
         <-> Forall (fun p => notes (fst p) = notes (snd p))
               (combine (tracks midi1) (tracks midi2))))
  /\ (forall count,
        TestUtils.midis_notes_equals midi1
          (mkScore (ticks_per_quarter midi1) (firstn count (tracks midi1))
             (score_tempos midi1) (time_signatures midi1))
        = Some []).
Proof.
  split; [apply compare_tracks_spec|].
  intros count. unfold TestUtils.midis_notes_equals. cbn [tracks].
  destruct (compare_tracks_spec
              (combine (tracks midi1) (firstn count (tracks midi1))))
    as [errors [Hrun Hiff]].
  rewrite Hrun. f_equal. apply Hiff.
  generalize (tracks midi1) as l. clear. intros l. revert count.
  induction l as [|t l IH]; intros [|count]; cbn; try constructor; auto.
Qed.

Section Sorting.

Context {A : Type}.
Variable le : A -> A -> bool.
Hypothesis le_total : forall a b, le a b = true \/ le b a = true.
Hypothesis le_trans : forall a b c, le a b = true -> le b c = true -> le a c = true.
Hypothesis le_antisym : forall a b, le a b = true -> le b a = true -> a = b.

Lemma insert_by_perm (x : A) (l : list A) :
  Permutation (x :: l) (TestUtils.insert_by le x l).
Proof.
  induction l as [|y l IH]; cbn; [reflexivity|].
  destruct (le x y); [reflexivity|].
  rewrite perm_swap. constructor. exact IH.
Qed.

Lemma sort_by_perm (l : list A) : Permutation l (TestUtils.sort_by le l).
Proof.
  induction l as [|x l IH]; cbn; [constructor|].
  rewrite <- insert_by_perm. constructor. exact IH.
Qed.

Lemma insert_by_sorted (x : A) (l : list A) :
  StronglySorted (fun a b => le a b = true) l ->
  StronglySorted (fun a b => le a b = true) (TestUtils.insert_by le x l).
Proof.
  induction 1 as [|y l Hsorted IH Hall]; cbn.
  - constructor; constructor.
  - destruct (le x y) eqn:E.
    + constructor; [constructor; assumption|].
      constructor; [exact E|].
      eapply Forall_impl; [|exact Hall]. intros z Hz. eapply le_trans; eauto.
    + constructor; [exact IH|].
      assert (Hyx : le y x = true) by (destruct (le_total x y); congruence).
      rewrite <- (insert_by_perm x l). constructor; assumption.
Qed.

Lemma sort_by_sorted (l : list A) :
  StronglySorted (fun a b => le a b = true) (TestUtils.sort_by le l).
Proof.
  induction l as [|x l IH]; cbn; [constructor|].
  apply insert_by_sorted. exact IH.
Qed.

Lemma sorted_perm_eq (l1 l2 : list A) :
  StronglySorted (fun a b => le a b = true) l1 ->
  StronglySorted (fun a b => le a b = true) l2 ->
  Permutation l1 l2 -> l1 = l2.
Proof.
  intros H1. revert l2.
  induction H1 as [|a l1 Hs1 IH Hall1]; intros l2 H2 Hperm.
  - apply Permutation_nil in Hperm. subst. reflexivity.
  - destruct H2 as [|b l2 Hs2 Hall2].
    + symmetry in Hperm. apply Permutation_nil in Hperm. discriminate.
    + assert (Hab : a = b).
      { assert (Ha : In a (b :: l2))
          by (eapply Permutation_in; [exact Hperm | left; reflexivity]).
        assert (Hb : In b (a :: l1))
          by (eapply Permutation_in;
              [symmetry; exact Hperm | left; reflexivity]).
        destruct Ha as [Ha | Ha]; [symmetry; exact Ha|].
        destruct Hb as [Hb | Hb]; [exact Hb|].
        rewrite Forall_forall in Hall1, Hall2.
        apply le_antisym; [apply Hall1 | apply Hall2]; assumption. }
      subst b. f_equal. apply IH; [exact Hs2|].
      eapply Permutation_cons_inv. exact Hperm.
Qed.

Lemma sort_by_canonical (l1 l2 : list A) :
  Permutation l1 l2 -> TestUtils.sort_by le l1 = TestUtils.sort_by le l2.
Proof.
  intros Hperm. apply sorted_perm_eq; try apply sort_by_sorted.
  rewrite <- !sort_by_perm. exact Hperm.
Qed.

End Sorting.

Section SortingInStep.

Context {A : Type}.
Variable le : A -> A -> bool.
Variable R : A -> A -> Prop.
Hypothesis le_R : forall a b a' b', R a b -> R a' b' -> le a a' = le b b'.

Lemma insert_by_Forall2 (x y : A) (l l' : list A) :
  R x y -> Forall2 R l l' ->
  Forall2 R (TestUtils.insert_by le x l) (TestUtils.insert_by le y l').
Proof.
  intros Hxy Hall. induction Hall as [|a b l l' Hab Hall IH]; cbn.
  - constructor; [exact Hxy | constructor].
  - rewrite (le_R x y a b Hxy Hab).
    destruct (le y b); repeat constructor; auto.
Qed.

Lemma sort_by_Forall2 (l l' : list A) :
  Forall2 R l l' ->
  Forall2 R (TestUtils.sort_by le l) (TestUtils.sort_by le l').
Proof.
  induction 1; cbn; [constructor|]. apply insert_by_Forall2; assumption.
Qed.

End SortingInStep.

Section NoteOrder.

Lemma note_key_le_total (a b : Note) :
  TestUtils.note_key_le a b = true \/ TestUtils.note_key_le b a = true.
Proof.
  unfold TestUtils.note_key_le.
  destruct a as [t1 d1 p1 v1], b as [t2 d2 p2 v2]; cbn.
  destruct (Z.ltb_spec t1 t2), (Z.ltb_spec t2 t1), (Z.eqb_spec t1 t2),
    (Z.eqb_spec t2 t1); cbn; try lia; auto;
  destruct (Z.ltb_spec p1 p2), (Z.ltb_spec p2 p1), (Z.eqb_spec p1 p2),
    (Z.eqb_spec p2 p1); cbn; try lia; auto;
  destruct (Z.ltb_spec d1 d2), (Z.ltb_spec d2 d1), (Z.eqb_spec d1 d2),
    (Z.eqb_spec d2 d1); cbn; try lia; auto;
  destruct (Z.leb_spec v1 v2), (Z.leb_spec v2 v1); cbn; try lia; auto.
Qed.

Lemma note_key_le_spec (a b : Note) :
  TestUtils.note_key_le a b = true <->
  (note_time a < note_time b
   \/ (note_time a = note_time b
       /\ (note_pitch a < note_pitch b
           \/ (note_pitch a = note_pitch b
               /\ (note_duration a < note_duration b
                   \/ (note_duration a = note_duration b
                       /\ note_velocity a <= note_velocity b)))))).
Proof.
  unfold TestUtils.note_key_le.
  rewrite !orb_true_iff, !andb_true_iff, !orb_true_iff, !andb_true_iff,
    !orb_true_iff, !andb_true_iff, !Z.ltb_lt, !Z.eqb_eq, Z.leb_le.
  reflexivity.
Qed.

Lemma note_key_le_trans (a b c : Note) :
  TestUtils.note_key_le a b = true -> TestUtils.note_key_le b c = true ->
  TestUtils.note_key_le a c = true.
Proof. rewrite !note_key_le_spec. lia. Qed.

Lemma note_key_le_antisym (a b : Note) :
  TestUtils.note_key_le a b = true -> TestUtils.note_key_le b a = true ->
  a = b.
Proof.
  rewrite !note_key_le_spec.
  destruct a as [t1 d1 p1 v1], b as [t2 d2 p2 v2]; cbn.
  intros H1 H2.
  assert (t1 = t2) by lia. assert (p1 = p2) by lia.
  assert (d1 = d2) by lia. assert (v1 = v2) by lia.
  subst. reflexivity.
Qed.

Lemma sort_track_in_step (a b : Track) :
  same_up_to_order a b ->
  program (TestUtils.sort_track a) = program (TestUtils.sort_track b)
  /\ is_drum (TestUtils.sort_track a) = is_drum (TestUtils.sort_track b)
  /\ notes (TestUtils.sort_track a) = notes (TestUtils.sort_track b).
Proof.
  intros [Hprog [Hdrum Hperm]]. unfold TestUtils.sort_track. cbn.
  rewrite Hprog, Hdrum. split; [reflexivity|]. split; [reflexivity|].
  apply sort_by_canonical.
  - exact note_key_le_total.
  - exact note_key_le_trans.
  - exact note_key_le_antisym.
  - exact Hperm.
Qed.

End NoteOrder.

(** X14: [sort_midi] makes the comparison of two pieces independent of the
    order of their notes: when the tracks of two pieces agree, pair by pair,
    in program, drum flag and notes up to their order, [midis_notes_equals]
    reports nothing on the sorted pieces, with or without the sorting of the
    tracks themselves. *)
Theorem sorted_pieces_compare_equal {F : Type} (midi1 midi2 : Score F)
  (sort_tracks : bool) :
  Forall2 same_up_to_order (tracks midi1) (tracks midi2) ->
  TestUtils.midis_notes_equals (TestUtils.sort_midi midi1 sort_tracks)
    (TestUtils.sort_midi midi2 sort_tracks)
  = Some [].
Proof.
  intros Hall.
  set (R := fun a b : Track =>
              program a = program b /\ is_drum a = is_drum b
              /\ notes a = notes b).
  assert (Hsorted : Forall2 R (map TestUtils.sort_track (tracks midi1))
                      (map TestUtils.sort_track (tracks midi2))).
  { induction Hall; cbn; constructor; auto. apply sort_track_in_step.
    assumption. }
  assert (Hfinal : Forall2 R (tracks (TestUtils.sort_midi midi1 sort_tracks))
                     (tracks (TestUtils.sort_midi midi2 sort_tracks))).
  { unfold TestUtils.sort_midi. cbn [tracks].
    destruct sort_tracks; [|exact Hsorted].
    apply sort_by_Forall2; [|exact Hsorted].
    intros a b a' b' [Hp [Hd _]] [Hp' [Hd' _]].
    unfold TestUtils.track_key_le. rewrite Hp, Hd, Hp', Hd'. reflexivity. }
  unfold TestUtils.midis_notes_equals.
  induction Hfinal as [|a b l l' [_ [_ Hnotes]] Hmore IH];
    cbn [combine TestUtils.compare_tracks]; [reflexivity|].
  unfold TestUtils.tracks_notes_equals at 1. rewrite Hnotes, Nat.eqb_refl.
  cbn [negb].
  assert (Hsame : TestUtils.compare_notes (combine (notes b) (notes b))
                  = Some []).
  { generalize (notes b) as ns. clear.
    induction ns as [|n ns IHn]; cbn; [reflexivity|].
    assert (He : TestUtils.notes_equals n n = "").
    { unfold TestUtils.notes_equals. rewrite !Z.eqb_refl. reflexivity. }
    rewrite He. cbn. rewrite IHn. reflexivity. }
  rewrite Hsame. cbn [bind]. rewrite IH. reflexivity.
Qed.

(** X14 (witness): the duet and the duet with the notes of the piano in
    another order. *)
Lemma sorted_pieces_compare_equal_witness :
  TestUtils.midis_notes_equals (TestUtils.sort_midi Samples.duet true)
    (TestUtils.sort_midi Samples.duet_shuffled true)
  = Some [].
Proof.
  apply (sorted_pieces_compare_equal Samples.duet Samples.duet_shuffled true).
  simpl. constructor.
  - split; [reflexivity|]. split; [reflexivity|]. simpl.
    apply Permutation_sym. apply (Permutation_cons_app [_; _] []).
    reflexivity.
  - constructor; [|constructor].
    split; [reflexivity|]. split; reflexivity.
Defined.

(** X15: clipping twice is clipping once to the smaller bound, and a clipped
    note never lasts longer than the bound. *)
Theorem clip_durations_compose (notes_pedals : list Note) (a b : Z) :
  TestUtils.clip_durations (TestUtils.clip_durations notes_pedals a) b
  = TestUtils.clip_durations notes_pedals (Z.min a b)
  /\ Forall (fun note => note_duration note <= a)
       (TestUtils.clip_durations notes_pedals a).
Proof.
  unfold TestUtils.clip_durations. split.
  - rewrite map_map. apply map_ext. intros [t d p v]. cbn.
    destruct (Z.ltb_spec a d), (Z.ltb_spec (Z.min a b) d); cbn;
      destruct (Z.ltb_spec b a); cbn; try lia;
      try (destruct (Z.ltb_spec b d); cbn; try lia);
      try (f_equal; lia); try reflexivity.
  - apply Forall_forall. intros note Hin. apply in_map_iff in Hin.
    destruct Hin as [[t d p v] [<- _]]. cbn.
    destruct (Z.ltb_spec a d); cbn; lia.
Qed.

Section TimeSignatureFilter.

Variable time_sigs_tokenizer : list (Z * Z).

Local Abbreviation covered :=
  (fun ts : TimeSignature =>
     TestUtils.mem_pair (numerator ts, denominator ts) time_sigs_tokenizer).

Lemma del_at_app {A : Type} (kept : list A) (x : A) (more : list A) :
  TestUtils.del_at (kept ++ x :: more) (List.length kept) = Some (kept ++ more).
Proof.
  induction kept as [|y kept IH]; cbn; [reflexivity|].
  rewrite IH. reflexivity.
Qed.

Lemma nth_error_middle {A : Type} (kept : list A) (x : A) (more : list A) :
  nth_error (kept ++ x :: more) (List.length kept) = Some x.
Proof. induction kept; cbn; auto. Qed.

Lemma del_invalid_loop_spec (todo kept : list TimeSignature) (fuel : nat) :
  (List.length todo <= fuel)%nat ->
  TestUtils.del_invalid_loop fuel (kept ++ todo) time_sigs_tokenizer
    (List.length kept)
  = Some (kept ++ filter covered todo).
Proof.
  revert kept fuel.
  induction todo as [|ts todo IH]; intros kept fuel Hfuel.
  - rewrite app_nil_r. cbn [filter]. rewrite app_nil_r.
    destruct fuel; cbn [TestUtils.del_invalid_loop];
      rewrite Nat.ltb_irrefl; reflexivity.
  - destruct fuel as [|fuel]; [cbn in Hfuel; lia|].
    cbn [TestUtils.del_invalid_loop].
    assert (Hin : Nat.ltb (List.length kept) (List.length (kept ++ ts :: todo))
                  = true).
    { apply Nat.ltb_lt. rewrite length_app. cbn. lia. }
    rewrite Hin, nth_error_middle. cbn [bind filter].
    destruct (TestUtils.mem_pair (numerator ts, denominator ts)
                time_sigs_tokenizer) eqn:Ecov; cbn [negb].
    + replace (kept ++ ts :: todo) with ((kept ++ [ts]) ++ todo)
        by (rewrite <- app_assoc; reflexivity).
      replace (List.length kept + 1)%nat with (List.length (kept ++ [ts]))
        by (rewrite length_app; reflexivity).
      rewrite IH by (cbn in Hfuel; lia).
      rewrite <- app_assoc. reflexivity.
    + rewrite del_at_app. cbn [bind].
      apply IH. cbn in Hfuel. lia.
Qed.

End TimeSignatureFilter.

(** X16: [del_invalid_time_sig] never raises and keeps exactly the time
    signatures whose numerator and denominator the tokenizer lists, in their
    order: the loop that deletes in place is a filter. *)
Theorem del_invalid_time_sig_is_a_filter (time_sigs : list TimeSignature)
  (time_sigs_tokenizer : list (Z * Z)) :
  TestUtils.del_invalid_time_sig time_sigs time_sigs_tokenizer
  = Some (filter
            (fun ts =>
               TestUtils.mem_pair (numerator ts, denominator ts)
                 time_sigs_tokenizer)
            time_sigs).
Proof.
  unfold TestUtils.del_invalid_time_sig.
  apply (del_invalid_loop_spec time_sigs_tokenizer time_sigs []).
  lia.
Qed.

Section Dictionaries.

Context {V : Type}.

Lemma dict_get_set_same (d : CPWord.dict V) (k : string) (v : V) :
  CPWord.dict_get (CPWord.dict_set d k v) k = Some v.
Proof.
  induction d as [|[k' v'] d IH]; cbn.
  - rewrite String.eqb_refl. reflexivity.
  - destruct (String.eqb k k') eqn:E; cbn.
    + rewrite String.eqb_refl. reflexivity.
    + rewrite E. exact IH.
Qed.

Lemma dict_get_set_other (d : CPWord.dict V) (k k0 : string) (v : V) :
  k0 <> k ->
  CPWord.dict_get (CPWord.dict_set d k v) k0 = CPWord.dict_get d k0.
Proof.
  intros Hne. apply String.eqb_neq in Hne.
  induction d as [|[k' v'] d IH]; cbn.
  - rewrite Hne. reflexivity.
  - destruct (String.eqb k k') eqn:E; cbn.
    + apply String.eqb_eq in E. subst k'. rewrite Hne. reflexivity.
    + rewrite IH. reflexivity.
Qed.

End Dictionaries.

(** X17: whatever the parameters, after [adjust_tok_params_for_tests] a CPWord
    tokenizer is never set up with both time signatures and rests; only the
    entry [use_rests] may have changed. *)
Theorem cpword_tests_never_use_rests_with_time_signatures
  (params : CPWord.dict TestUtils.Param) :
  let adjusted := TestUtils.adjust_tok_params_for_tests "CPWord" params in
  TestUtils.truthy
    (TestUtils.get adjusted "use_time_signatures" (TestUtils.PBool false))
  && TestUtils.truthy
       (TestUtils.get adjusted "use_rests" (TestUtils.PBool false))
  = false
  /\ forall key, key <> "use_rests" ->
       CPWord.dict_get adjusted key = CPWord.dict_get params key.
Proof.
  cbv zeta. unfold TestUtils.adjust_tok_params_for_tests.
  cbn [String.eqb Ascii.eqb Bool.eqb andb].
  destruct (TestUtils.truthy
              (TestUtils.get params "use_time_signatures"
                 (TestUtils.PBool false))
            && TestUtils.truthy
                 (TestUtils.get params "use_rests" (TestUtils.PBool false)))
    eqn:Eboth.
  - split.
    + unfold TestUtils.get at 2. rewrite dict_get_set_same. cbn.
      apply andb_false_r.
    + intros key Hkey. apply dict_get_set_other. exact Hkey.
  - split; [exact Eboth | reflexivity].
Qed.

(** ** The tracks of a piece that CPWord decodes *)

Section DecodedTracks.

Context {F : Type} {fops : FloatOps F}.
Variable self : CPWord.Config (F := F).

(** Program and drum flag of a track. *)
Local Abbreviation key_of := (fun t : Track => (program t, is_drum t)).

Hypothesis Hseparate : CPWord.one_token_stream self = false.

Lemma decode_token_keeps_instrument (si : nat) (td ticks_per_sample : Z)
  (st st' : CPWord.DecState) (tok : list string) :
  CPWord.decode_token self si td ticks_per_sample st tok = Some st' ->
  CPWord.d_midi_tracks st' = CPWord.d_midi_tracks st
  /\ option_map key_of (CPWord.d_current_instrument st')
     = option_map key_of (CPWord.d_current_instrument st).
Proof.
  intros Hrun.
  unfold CPWord.decode_token, CPWord.decode_note, CPWord.decode_metric,
    CPWord.decode_bar, CPWord.decode_position, CPWord.decode_rest in Hrun.
  rewrite Hseparate in Hrun.
  split_runs; subst; cbn; split; try reflexivity;
    repeat match goal with
           | H : CPWord.d_current_instrument _ = _ |- _ => rewrite H
           end; reflexivity.
Qed.

Lemma decode_tokens_keep_instrument (si : nat) (td ticks_per_sample : Z)
  (seq : list (list string)) : forall (st st' : CPWord.DecState),
  CPWord.decode_tokens self si td ticks_per_sample st seq = Some st' ->
  CPWord.d_midi_tracks st' = CPWord.d_midi_tracks st
  /\ option_map key_of (CPWord.d_current_instrument st')
     = option_map key_of (CPWord.d_current_instrument st).
Proof.
  induction seq as [|tok more IH]; intros st st' Hrun.
  - injection Hrun as <-. split; reflexivity.
  - cbn [CPWord.decode_tokens] in Hrun.
    apply bind_Some in Hrun. destruct Hrun as [st1 [Hstep Hmore]].
    apply decode_token_keeps_instrument in Hstep.
    apply IH in Hmore.
    destruct Hstep as [Hs1 Hs2], Hmore as [Hm1 Hm2]. split; congruence.
Qed.

Lemma decode_sequence_adds_a_track (si : nat) (td ticks_per_sample : Z)
  (ps : list (Z * bool)) (st st' : CPWord.DecState)
  (seq : list (list string)) :
  CPWord.decode_sequence self si td ticks_per_sample (Some ps) st seq
  = Some st' ->
  exists t,
    CPWord.d_midi_tracks st' = CPWord.d_midi_tracks st ++ [t]
    /\ nth_error ps si = Some (key_of t).
Proof.
  intros Hrun. unfold CPWord.decode_sequence in Hrun.
  apply bind_Some in Hrun. destruct Hrun as [st1 [Hbegin Hrun]].
  apply bind_Some in Hrun. destruct Hrun as [st2 [Htokens Hend]].
  apply decode_tokens_keep_instrument in Htokens.
  destruct Htokens as [Htracks Hinst].
  assert (Hb : CPWord.d_midi_tracks st1 = CPWord.d_midi_tracks st
               /\ exists t, CPWord.d_current_instrument st1 = Some t
                            /\ nth_error ps si = Some (key_of t)).
  { unfold CPWord.begin_sequence in Hbegin. rewrite Hseparate in Hbegin.
    apply bind_Some in Hbegin. destruct Hbegin as [tsc [_ Hbegin]].
    apply bind_Some in Hbegin. destruct Hbegin as [ts [_ Hbegin]].
    apply bind_Some in Hbegin. destruct Hbegin as [[prog drum] [Hps Hbegin]].
    apply bind_Some in Hbegin. destruct Hbegin as [nm [_ Hbegin]].
    injection Hbegin as <-. cbn. split; [reflexivity|].
    eexists. split; [reflexivity | exact Hps]. }
  destruct Hb as [Hb1 [t [Hb2 Hkey]]].
  rewrite Hb2 in Hinst. cbn [option_map] in Hinst.
  unfold CPWord.end_sequence in Hend. rewrite Hseparate in Hend.
  destruct (CPWord.d_current_instrument st2) as [t2|] eqn:E2;
    [|discriminate Hend].
  cbn [bind] in Hend. injection Hend as <-. cbn.
  cbn [option_map] in Hinst. injection Hinst as Hp Hd.
  exists t2. split; [congruence|].
  rewrite Hkey. f_equal. cbn. congruence.
Qed.

Lemma decode_sequences_add_tracks (td ticks_per_sample : Z)
  (ps : list (Z * bool)) (seqs : list (list (list string))) :
  forall (si : nat) (st st' : CPWord.DecState),
    CPWord.decode_sequences self si td ticks_per_sample (Some ps) st seqs
    = Some st' ->
    map key_of (CPWord.d_midi_tracks st')
    = map key_of (CPWord.d_midi_tracks st)
      ++ firstn (List.length seqs) (skipn si ps).
Proof.
  induction seqs as [|seq more IH]; intros si st st' Hrun.
  - injection Hrun as <-. cbn. symmetry. apply app_nil_r.
  - cbn [CPWord.decode_sequences] in Hrun.
    apply bind_Some in Hrun. destruct Hrun as [st1 [Hseq Hmore]].
    apply decode_sequence_adds_a_track in Hseq.
    destruct Hseq as [t [Htracks Hkey]].
    apply IH in Hmore. rewrite Hmore, Htracks, map_app, <- app_assoc.
    f_equal. cbn [map List.app List.length].
    assert (Hskip : skipn si ps = key_of t :: skipn (S si) ps).
    { clear - Hkey. revert si Hkey.
      induction ps as [|p ps IHp]; intros [|si] Hkey; cbn in *;
        try discriminate.
      - injection Hkey as ->. reflexivity.
      - apply IHp. exact Hkey. }
    rewrite Hskip. reflexivity.
Qed.

End DecodedTracks.

(** X18: when CPWord decodes one sequence per track, the piece has one track
    for each sequence, in their order, each with the program and the drum
    flag the caller gave for it. *)
Theorem cpword_sequences_keep_their_programs {F : Type} {fops : FloatOps F}
  (self : CPWord.Config (F := F)) (seqs : list (list (list string)))
  (programs : list (Z * bool)) (time_division : option Z) (midi : Score F) :
  CPWord.one_token_stream self = false ->
  CPWord._tokens_to_midi self (CPWord.Sequences seqs) (Some programs)
    time_division = Some midi ->
  map (fun t => (program t, is_drum t)) (tracks midi)
  = firstn (List.length seqs) programs.
Proof.
  intros Hseparate Hrun. unfold CPWord._tokens_to_midi in Hrun.
  cbn [CPWord.unsqueeze] in Hrun. rewrite Hseparate in Hrun.
  cbn [bind] in Hrun.
  match type of Hrun with
  | (if ?c then _ else _) = _ => destruct c; [discriminate Hrun|]
  end.
  apply bind_Some in Hrun. destruct Hrun as [st [Hdecode Hrun]].
  injection Hrun as <-. cbn [tracks].
  apply (decode_sequences_add_tracks self Hseparate) in Hdecode.
  exact Hdecode.
Qed.

(** X18: the property above, on two sequences decoded with three programs
    given. *)
Lemma cpword_sequences_keep_their_programs_witness :
  exists midi,
    CPWord._tokens_to_midi Samples.cpword_time_sigs
      (CPWord.Sequences [Samples.cp_one_note; Samples.cp_one_note])
      (Some [(0, false); (0, true); (5, false)]) None = Some midi
    /\ map (fun t => (program t, is_drum t)) (tracks midi)
       = [(0, false); (0, true)].
Proof.
  eexists. split; [vm_compute; reflexivity|].
  apply (cpword_sequences_keep_their_programs Samples.cpword_time_sigs
           [Samples.cp_one_note; Samples.cp_one_note]
           [(0, false); (0, true); (5, false)] None).
  - reflexivity.
  - vm_compute. reflexivity.
Defined.

Section MergedTracks.

Context {F : Type} {fops : FloatOps F}.
Variable self : CPWord.Config (F := F).

(** The dictionary [tracks]: no key twice, and under each key a track with
    the program and the drum flag of the key. *)
Local Abbreviation filed := (fun tracks : list (Z * Track) =>
  NoDup (map fst tracks)
  /\ Forall (fun entry =>
               program (snd entry)
               = (if fst entry =? -1 then 0 else fst entry)
               /\ is_drum (snd entry) = (fst entry =? -1)) tracks).

Lemma append_to_tracks_keys (tracks tracks' : list (Z * Track)) (prog : Z)
  (n : Note) :
  CPWord.append_to_tracks self tracks prog n = Some tracks' ->
  (forall p, In p (map fst tracks') -> p = prog \/ In p (map fst tracks))
  /\ (filed tracks -> filed tracks').
Proof.
  revert tracks'. induction tracks as [|[p t] more IH]; intros tracks' Hrun;
    cbn [CPWord.append_to_tracks] in Hrun.
  - apply bind_Some in Hrun. destruct Hrun as [nm [_ Hrun]].
    injection Hrun as <-. cbn. split.
    + intros q [<- | []]. left. reflexivity.
    + intros _. split.
      * constructor; [intros [] | constructor].
      * constructor; [|constructor]. cbn. split; reflexivity.
  - destruct (p =? prog) eqn:Ep.
    + injection Hrun as <-. cbn. split.
      * intros q Hq. right. exact Hq.
      * intros [Hnodup Hall]. split; [exact Hnodup|].
        inversion Hall as [|? ? Hhead Hrest]; subst.
        constructor; [exact Hhead | exact Hrest].
    + apply bind_Some in Hrun. destruct Hrun as [more' [Hmore Hrun]].
      injection Hrun as <-. destruct (IH more' Hmore) as [Hin Hfiled].
      cbn. split.
      * intros q [<- | Hq]; [right; left; reflexivity|].
        destruct (Hin q Hq) as [-> | Hq']; [left; reflexivity|].
        right. right. exact Hq'.
      * intros [Hnodup Hall].
        inversion Hnodup as [|? ? Hnew Hnodup']; subst.
        inversion Hall as [|? ? Hhead Hrest]; subst.
        destruct (Hfiled (conj Hnodup' Hrest)) as [Hn Ha].
        split; [|constructor; assumption].
        constructor; [|exact Hn].
        intros Hq. destruct (Hin p Hq) as [-> | Hold].
        -- rewrite Z.eqb_refl in Ep. discriminate Ep.
        -- contradiction.
Qed.

Lemma decode_token_files (si : nat) (td ticks_per_sample : Z)
  (st st' : CPWord.DecState) (tok : list string) :
  CPWord.decode_token self si td ticks_per_sample st tok = Some st' ->
  filed (CPWord.d_tracks st) -> filed (CPWord.d_tracks st').
Proof.
  intros Hrun Hfiled.
  unfold CPWord.decode_token, CPWord.decode_note, CPWord.decode_metric,
    CPWord.decode_bar, CPWord.decode_position, CPWord.decode_rest in Hrun.
  split_runs; subst; cbn; try exact Hfiled;
    match goal with
    | H : CPWord.append_to_tracks _ _ _ _ = Some _ |- _ =>
        apply append_to_tracks_keys in H; apply H; exact Hfiled
    end.
Qed.

Lemma decode_tokens_file (si : nat) (td ticks_per_sample : Z)
  (seq : list (list string)) : forall (st st' : CPWord.DecState),
  CPWord.decode_tokens self si td ticks_per_sample st seq = Some st' ->
  filed (CPWord.d_tracks st) -> filed (CPWord.d_tracks st').
Proof.
  induction seq as [|tok more IH]; intros st st' Hrun Hfiled.
  - injection Hrun as <-. exact Hfiled.
  - cbn [CPWord.decode_tokens] in Hrun.
    apply bind_Some in Hrun. destruct Hrun as [st1 [Hstep Hmore]].
    apply (IH _ _ Hmore). apply (decode_token_files _ _ _ _ _ _ Hstep Hfiled).
Qed.

Lemma decode_sequences_file (td ticks_per_sample : Z)
  (programs : option (list (Z * bool))) (seqs : list (list (list string))) :
  forall (si : nat) (st st' : CPWord.DecState),
    CPWord.decode_sequences self si td ticks_per_sample programs st seqs
    = Some st' ->
    filed (CPWord.d_tracks st) -> filed (CPWord.d_tracks st').
Proof.
  induction seqs as [|seq more IH]; intros si st st' Hrun Hfiled.
  - injection Hrun as <-. exact Hfiled.
  - cbn [CPWord.decode_sequences] in Hrun.
    apply bind_Some in Hrun. destruct Hrun as [st1 [Hseq Hmore]].
    apply (IH _ _ _ Hmore).
    unfold CPWord.decode_sequence in Hseq.
    apply bind_Some in Hseq. destruct Hseq as [sb [Hbegin Hseq]].
    apply bind_Some in Hseq. destruct Hseq as [se [Htokens Hend]].
    assert (Hb : CPWord.d_tracks sb = CPWord.d_tracks st).
    { unfold CPWord.begin_sequence in Hbegin.
      split_run Hbegin; injection Hbegin as <-; reflexivity. }
    assert (He : CPWord.d_tracks st1 = CPWord.d_tracks se).
    { unfold CPWord.end_sequence in Hend.
      split_run Hend; injection Hend as <-; reflexivity. }
    rewrite He. apply (decode_tokens_file _ _ _ _ _ _ Htokens).
    rewrite Hb. exact Hfiled.
Qed.

Lemma filed_distinct (tracks : list (Z * Track)) :
  filed tracks ->
  NoDup (map (fun t => (program t, is_drum t)) (map snd tracks)).
Proof.
  induction tracks as [|[p t] more IH]; intros [Hnodup Hall]; cbn [map];
    [constructor|].
  inversion Hnodup as [|? ? Hnew Hnodup']; subst.
  inversion Hall as [|? ? [Hprog Hdrum] Hrest]; subst.
  cbn [fst snd] in *.
  constructor; [|apply IH; split; assumption].
  intros Hin. apply in_map_iff in Hin. destruct Hin as [u [Hkey Hu]].
  apply in_map_iff in Hu. destruct Hu as [[q u'] [Hq Hin]].
  cbn [snd] in Hq. subst u'.
  rewrite Forall_forall in Hrest. destruct (Hrest (q, u) Hin) as [Hp' Hd'].
  cbn [fst snd] in *. injection Hkey as Hsame_prog Hsame_drum.
  apply Hnew. apply in_map_iff. exists (q, u). split; [|exact Hin].
  cbn [fst].
  rewrite Hprog, Hp' in Hsame_prog. rewrite Hdrum, Hd' in Hsame_drum.
  destruct (Z.eqb_spec q (-1)), (Z.eqb_spec p (-1)); congruence.
Qed.

End MergedTracks.

(** X19: when CPWord decodes a single stream of tokens, the notes come out
    merged by program: no two tracks of the piece have the same program and
    drum flag. *)
Theorem cpword_one_stream_merges_by_program {F : Type} {fops : FloatOps F}
  (self : CPWord.Config (F := F)) (tokens : CPWord.TokInput)
  (programs : option (list (Z * bool))) (time_division : option Z)
  (midi : Score F) :
  CPWord.one_token_stream self = true ->
  CPWord._tokens_to_midi self tokens programs time_division = Some midi ->
  NoDup (map (fun t => (program t, is_drum t)) (tracks midi)).
Proof.
  intros Hone Hrun. unfold CPWord._tokens_to_midi in Hrun.
  apply bind_Some in Hrun. destruct Hrun as [seqs [_ Hrun]].
  match type of Hrun with
  | (if ?c then _ else _) = _ => destruct c; [discriminate Hrun|]
  end.
  apply bind_Some in Hrun. destruct Hrun as [st [Hdecode Hrun]].
  injection Hrun as <-. cbn [tracks]. rewrite Hone.
  apply filed_distinct.
  apply (decode_sequences_file self _ _ _ _ _ _ _ Hdecode).
  cbn. split; constructor.
Qed.

(** X19: the property above, on a stream of three notes, two of the piano
    around one of the drums. *)
Lemma cpword_one_stream_merges_by_program_witness :
  exists midi,
    CPWord._tokens_to_midi (Samples.cpword true false false false false true)
      (CPWord.OneSequence
         [ ["Family_Metric"; "Bar_None"; "Ignore_None"; "Ignore_None";
            "Ignore_None"; "Ignore_None"];
           ["Family_Metric"; "Position_0"; "Ignore_None"; "Ignore_None";
            "Ignore_None"; "Ignore_None"];
           ["Family_Note"; "Ignore_None"; "Pitch_60"; "Velocity_80";
            "Duration_1.0.8"; "Program_0"];
           ["Family_Note"; "Ignore_None"; "Pitch_36"; "Velocity_80";
            "Duration_1.0.8"; "Program_-1"];
           ["Family_Note"; "Ignore_None"; "Pitch_64"; "Velocity_80";
            "Duration_1.0.8"; "Program_0"] ])
      None None = Some midi
    /\ List.length (tracks midi) = 2%nat
    /\ NoDup (map (fun t => (program t, is_drum t)) (tracks midi)).
Proof.
  eexists. split; [vm_compute; reflexivity|].
  split; [reflexivity|].
  apply (cpword_one_stream_merges_by_program
           (Samples.cpword true false false false false true)
           (CPWord.OneSequence
              [ ["Family_Metric"; "Bar_None"; "Ignore_None"; "Ignore_None";
                 "Ignore_None"; "Ignore_None"];
                ["Family_Metric"; "Position_0"; "Ignore_None"; "Ignore_None";
                 "Ignore_None"; "Ignore_None"];
                ["Family_Note"; "Ignore_None"; "Pitch_60"; "Velocity_80";
                 "Duration_1.0.8"; "Program_0"];
                ["Family_Note"; "Ignore_None"; "Pitch_36"; "Velocity_80";
                 "Duration_1.0.8"; "Program_-1"];
                ["Family_Note"; "Ignore_None"; "Pitch_64"; "Velocity_80";
                 "Duration_1.0.8"; "Program_0"] ])
           None None).
  - reflexivity.
  - vm_compute. reflexivity.
Defined.

(** ** The time steps that MuMIDI writes *)

Section MuMIDIWrittenSteps.

Context {F : Type} {fops : FloatOps F}.
Variable self : MuMIDI.Tokenizer (F := F).
Variable midi : Score F.

Local Abbreviation step := (MuMIDI.NoteToken (F := F)).

Lemma time_step_of_wider (lo hi lo' hi' : Z) (tok : list string) :
  lo' <= lo -> hi <= hi' ->
  time_step_of self lo hi tok -> time_step_of self lo' hi' tok.
Proof.
  intros Hlo Hhi [T [v [b [p [x [last [Htok [Hb Hcase]]]]]]]].
  exists T, v, b, p, x, last. repeat split; try assumption; lia.
Qed.

Lemma bar_tokens_steps (lo hi : Z) (count : nat) (i cb : Z) (tempo : F) :
  lo <= cb + i + 1 -> cb + i + Z.of_nat count <= hi ->
  Forall (time_step_of self lo hi)
    (MuMIDI.bar_tokens self count i cb tempo).
Proof.
  revert i. induction count as [|count IH]; intros i Hlo Hhi;
    cbn [MuMIDI.bar_tokens]; constructor.
  - exists "Bar", "None", (cb + i + 1), "None", tempo, [].
    rewrite app_nil_r. repeat split; try lia.
    left. split; [left; reflexivity|reflexivity].
  - apply IH; lia.
Qed.

(** One iteration of the token loop: the time steps it writes carry a bar
    after the bar of the state before, up to the bar of the state after. *)
Lemma encode_token_steps (tpb : Z) (st st1 : MuMIDI.EncState) (t : step)
  (out : list (list string)) :
  noted self t ->
  MuMIDI.encode_token self midi tpb st t = Some (st1, out) ->
  Forall (time_step_of self
            (Z.min (MuMIDI.current_bar st + 1) (MuMIDI.current_bar st1))
            (MuMIDI.current_bar st1)) out
  /\ MuMIDI.current_tick st1 = MuMIDI.ne_time (fst t)
  /\ MuMIDI.current_bar st1
     = (if MuMIDI.ne_time (fst t) =? MuMIDI.current_tick st
        then MuMIDI.current_bar st
        else Z.max (MuMIDI.current_bar st) (MuMIDI.ne_time (fst t) / tpb)).
Proof.
  intros Hnoted Hrun. unfold MuMIDI.encode_token in Hrun.
  destruct (if MuMIDI.use_tempos self
               && (MuMIDI.current_tempo_idx st + 1
                   <? List.length (score_tempos midi))%nat
            then MuMIDI.advance_tempo
                   (skipn (MuMIDI.current_tempo_idx st + 1) (score_tempos midi))
                   (MuMIDI.ne_time (fst t)) (MuMIDI.current_tempo_idx st)
                   (MuMIDI.current_tempo st)
            else (MuMIDI.current_tempo_idx st, MuMIDI.current_tempo st))
    as [idx tempo].
  set (tick := MuMIDI.ne_time (fst t)) in *.
  set (q := tick / tpb) in *.
  set (cb := MuMIDI.current_bar st) in *.
  assert (Hnote : forall b p,
            time_step_of self b b
              ([MuMIDI.str_note_event (fst t); ("BarPosEnc_" ++ Py.str b)%string;
                ("PositionPosEnc_" ++ p)%string]
               ++ MuMIDI.tempo_field self tempo ++ snd t)).
  { intros b p. unfold MuMIDI.str_note_event.
    exists (MuMIDI.ne_type (fst t)),
           (str_val (MuMIDI.ne_value (fst t))), b, p, tempo, (snd t).
    split; [reflexivity|]. split; [lia|].
    destruct Hnoted as [[Htype Hlast] | [Htype [Hlast Hchords]]].
    - right. right. split; [|exact Hlast].
      destruct Htype as [-> | ->]; [left | right; left]; reflexivity.
    - right. left. repeat split; assumption. }
  assert (Hprogram : forall d b p,
            time_step_of self b b
              ([("Program_" ++ d)%string; ("BarPosEnc_" ++ Py.str b)%string;
                ("PositionPosEnc_" ++ p)%string]
               ++ MuMIDI.tempo_field self tempo)).
  { intros d b p. exists "Program", d, b, p, tempo, [].
    rewrite app_nil_r. split; [reflexivity|]. split; [lia|].
    left. split; [right; right; left; reflexivity|reflexivity]. }
  destruct (tick =? MuMIDI.current_tick st) eqn:Esame;
    cbn [negb bind] in Hrun.
  - (* the tick of the step before *)
    pose proof (proj1 (Z.eqb_eq _ _) Esame) as Hsame.
    destruct (negb (MuMIDI.ne_desc (fst t) =? MuMIDI.current_track st));
      apply some_pair in Hrun; destruct Hrun as [<- <-];
      cbn [MuMIDI.current_bar MuMIDI.current_tick List.app]; fold cb;
      (split; [|split; [symmetry; exact Hsame|reflexivity]]);
      repeat constructor;
      (eapply time_step_of_wider; [| |first [apply Hnote | apply Hprogram]]);
      lia.
  - (* a new tick *)
    set (pos := Z.quot ((tick mod tpb) * MuMIDI.max_beat_res self)
                       (ticks_per_quarter midi)) in *.
    assert (Hbar : (if cb <? q then cb + (q - cb) else cb) = Z.max cb q).
    { destruct (Z.ltb_spec cb q); lia. }
    rewrite Hbar in Hrun.
    assert (Hbars : Forall (time_step_of self (Z.min (cb + 1) (Z.max cb q))
                              (Z.max cb q))
                      (if cb <? q
                       then MuMIDI.bar_tokens self (Z.to_nat (q - cb)) 0 cb tempo
                       else [])).
    { destruct (Z.ltb_spec cb q); [|constructor].
      apply bar_tokens_steps; lia. }
    assert (Hposition : time_step_of self (Z.max cb q) (Z.max cb q)
              ([("Position_" ++ Py.str pos)%string;
                ("BarPosEnc_" ++ Py.str (Z.max cb q))%string;
                ("PositionPosEnc_" ++ Py.str pos)%string]
               ++ MuMIDI.tempo_field self tempo)).
    { exists "Position", (Py.str pos), (Z.max cb q), (Py.str pos), tempo, [].
      rewrite app_nil_r. split; [reflexivity|]. split; [lia|].
      left. split; [right; left; reflexivity|reflexivity]. }
    destruct (negb (MuMIDI.ne_desc (fst t) =? -2));
      apply some_pair in Hrun; destruct Hrun as [<- <-];
      cbn [MuMIDI.current_bar MuMIDI.current_tick]; fold cb;
      (split; [|split; reflexivity]);
      repeat (apply Forall_app; split); try exact Hbars;
      repeat constructor;
      (eapply time_step_of_wider;
       [| |first [apply Hnote | apply Hprogram | apply Hposition]]);
      lia.
Qed.

Lemma encode_tokens_steps (tpb : Z) (steps : list step) :
  forall (st : MuMIDI.EncState) (toks : list (list string)),
    Forall (noted self) steps ->
    MuMIDI.encode_tokens self midi tpb st steps = Some toks ->
    Forall (fun tok => exists lo hi, time_step_of self lo hi tok) toks.
Proof.
  induction steps as [|t steps IH]; intros st toks Hnoted Hrun;
    cbn [MuMIDI.encode_tokens] in Hrun.
  - apply some_inv in Hrun. subst toks. constructor.
  - inversion Hnoted as [|? ? Ht Hsteps]; subst.
    apply bind_Some in Hrun. destruct Hrun as [[st1 out] [Hstep Hrun]].
    apply bind_Some in Hrun. destruct Hrun as [rest [Hrest Hrun]].
    apply some_inv in Hrun. subst toks.
    apply Forall_app. split; [|exact (IH st1 rest Hsteps Hrest)].
    destruct (encode_token_steps tpb st st1 t out Ht Hstep) as [Hout _].
    eapply Forall_impl; [|exact Hout].
    intros tok Htok. eexists. eexists. exact Htok.
Qed.

(** The bars of the time steps stay between 0 and the last bar in which a
    step starts. *)
Lemma encode_tokens_bars (tpb last_bar : Z) (steps : list step) :
  forall (st : MuMIDI.EncState) (toks : list (list string)),
    0 < tpb ->
    Forall (fun t => noted self t
                     /\ 0 <= MuMIDI.ne_time (fst t)
                     /\ MuMIDI.ne_time (fst t) / tpb <= last_bar) steps ->
    -1 <= MuMIDI.current_bar st <= last_bar ->
    (MuMIDI.current_bar st = -1 -> MuMIDI.current_tick st = -1) ->
    MuMIDI.encode_tokens self midi tpb st steps = Some toks ->
    Forall (time_step_of self 0 last_bar) toks.
Proof.
  induction steps as [|t steps IH]; intros st toks Htpb Hsteps Hbar Hinit Hrun;
    cbn [MuMIDI.encode_tokens] in Hrun.
  - apply some_inv in Hrun. subst toks. constructor.
  - inversion Hsteps as [|? ? [Ht [Htime Hlast]] Hmore]; subst.
    apply bind_Some in Hrun. destruct Hrun as [[st1 out] [Hstep Hrun]].
    apply bind_Some in Hrun. destruct Hrun as [rest [Hrest Hrun]].
    apply some_inv in Hrun. subst toks.
    destruct (encode_token_steps tpb st st1 t out Ht Hstep)
      as [Hout [Htick Hbar1]].
    assert (Hq : 0 <= MuMIDI.ne_time (fst t) / tpb)
      by (apply Z.div_pos; lia).
    assert (Hnow : 0 <= MuMIDI.current_bar st1 <= last_bar).
    { rewrite Hbar1.
      destruct (Z.eqb_spec (MuMIDI.ne_time (fst t)) (MuMIDI.current_tick st))
        as [Hsame|Hnew]; [|lia].
      destruct (Z.eq_dec (MuMIDI.current_bar st) (-1)) as [Hfirst|Hlater];
        [|lia].
      specialize (Hinit Hfirst). lia. }
    apply Forall_app. split.
    + eapply Forall_impl; [|exact Hout].
      intros tok. apply time_step_of_wider; lia.
    + apply (IH st1 rest Htpb Hmore); [lia| |exact Hrest].
      intros Hfirst. lia.
Qed.

(** What [_track_to_tokens] makes of every track holds of the time steps
    that the token loop reads. *)
Lemma note_tokens_of_all (P : step -> Prop) (tr : Track) (ns : list Note) :
  forall steps,
    (forall n t, In n ns -> MuMIDI.note_token self tr n = Some t -> P t) ->
    MuMIDI.note_tokens_of self tr ns = Some steps -> Forall P steps.
Proof.
  induction ns as [|n ns IH]; intros steps HP Hrun;
    cbn [MuMIDI.note_tokens_of] in Hrun.
  - apply some_inv in Hrun. subst steps. constructor.
  - apply bind_Some in Hrun. destruct Hrun as [t [Ht Hrun]].
    apply bind_Some in Hrun. destruct Hrun as [ts [Hts Hrun]].
    apply some_inv in Hrun. subst steps. constructor.
    + apply (HP n t); [left; reflexivity|exact Ht].
    + apply IH; [|exact Hts].
      intros n' t' Hin. apply HP. right. exact Hin.
Qed.

Lemma all_note_tokens_all (P : step -> Prop) (tpq : Z) (trs : list Track) :
  forall steps,
    (forall tr n t, In tr trs -> In n (notes tr) ->
       MuMIDI.note_token self tr n = Some t -> P t) ->
    (MuMIDI.use_chords self = true ->
     forall tr c, In tr trs -> In c (MuMIDI.detect_chords self tr tpq) ->
       P (MuMIDI.mkNoteEvent (MuMIDI.ne_type c) (MuMIDI.ne_value c)
            (MuMIDI.ne_time c) (program tr), [])) ->
    MuMIDI.all_note_tokens self tpq trs = Some steps -> Forall P steps.
Proof.
  induction trs as [|tr trs IH]; intros steps Hnotes Hchords Hrun;
    cbn [MuMIDI.all_note_tokens] in Hrun.
  - apply some_inv in Hrun. subst steps. constructor.
  - apply bind_Some in Hrun. destruct Hrun as [here [Hhere Hrun]].
    apply bind_Some in Hrun. destruct Hrun as [rest [Hrest Hrun]].
    apply some_inv in Hrun. subst steps.
    apply Forall_app. split.
    + destruct (existsb (Z.eqb (program tr)) (MuMIDI.programs self));
        [|apply some_inv in Hhere; subst here; constructor].
      unfold MuMIDI._track_to_tokens in Hhere.
      apply bind_Some in Hhere. destruct Hhere as [tokens [Htokens Hhere]].
      assert (Hof : Forall P tokens).
      { apply (note_tokens_of_all P tr (notes tr)); [|exact Htokens].
        intros n t Hin. apply Hnotes; [left; reflexivity|exact Hin]. }
      destruct (MuMIDI.use_chords self) eqn:Euse; cbn [andb] in Hhere;
        [|apply some_inv in Hhere; subst here; exact Hof].
      destruct (negb (is_drum tr));
        apply some_inv in Hhere; subst here; [|exact Hof].
      apply Forall_app. split; [|exact Hof].
      apply Forall_forall. intros t Hin.
      apply in_map_iff in Hin. destruct Hin as [c [<- Hc]].
      apply (Hchords eq_refl tr c); [left; reflexivity|exact Hc].
    + apply IH; [| |exact Hrest].
      * intros tr' n t Hin. apply Hnotes. right. exact Hin.
      * intros Huse tr' c Hin. apply Hchords; [exact Huse|right; exact Hin].
Qed.

Lemma note_token_noted (tr : Track) (n : Note) (t : step) :
  MuMIDI.note_token self tr n = Some t ->
  noted self t /\ MuMIDI.ne_time (fst t) = note_start n.
Proof.
  intros Hrun. unfold MuMIDI.note_token in Hrun.
  apply bind_Some in Hrun. destruct Hrun as [d [_ Hrun]].
  apply some_inv in Hrun. subst t. cbn [fst snd].
  split.
  - left. split.
    + destruct (negb (is_drum tr)); [left|right]; reflexivity.
    + eexists. eexists. reflexivity.
  - destruct (negb (is_drum tr)); reflexivity.
Qed.

Lemma sort_tokens_all (P : step -> Prop) (steps : list step) :
  Forall P steps -> Forall P (MuMIDI.sort_tokens steps).
Proof.
  apply Permutation_Forall. apply sort_tokens_perm.
Qed.

(** The fields of a time step stand where [vocab_types_idx] says. *)
Lemma time_step_layout (lo hi : Z) (tok : list string) :
  time_step_of self lo hi tok -> fields_follow_the_type_index self tok.
Proof.
  intros [T [v [b [p [x [last [-> [_ Hcase]]]]]]]] i field Hi.
  unfold resolved, MuMIDI.vocab_types_idx, MuMIDI.tempo_field in *.
  destruct i as [|[|[|i]]]; cbn [nth_error List.app] in Hi.
  - apply some_inv in Hi. subst field. exists T, 0.
    destruct Hcase as [[HT _] | [[-> [Huse _]] | [HT _]]];
      [| rewrite Huse
       | ];
      try (cbn [In] in HT);
      repeat match goal with
        | H : _ \/ _ |- _ => destruct H as [H | H]
        | H : _ = T |- _ => subst T
        | H : False |- _ => contradiction
        end;
      (split; [apply split_head; reflexivity|]);
      (split; [reflexivity|]);
      destruct (MuMIDI.use_tempos self); reflexivity.
  - apply some_inv in Hi. subst field. exists "BarPosEnc", 1.
    split; [apply (split_head "BarPosEnc"); reflexivity|].
    split; [reflexivity|].
    destruct (MuMIDI.use_tempos self); reflexivity.
  - apply some_inv in Hi. subst field. exists "PositionPosEnc", 2.
    split; [apply (split_head "PositionPosEnc"); reflexivity|].
    split; [reflexivity|].
    destruct (MuMIDI.use_tempos self); reflexivity.
  - assert (Hlast : last = [] \/ exists vel dur,
                       last = [ ("Velocity_" ++ vel)%string;
                                ("Duration_" ++ dur)%string ]).
    { destruct Hcase as [[_ Hl] | [[_ [_ Hl]] | [_ Hl]]]; auto. }
    clear Hcase.
    destruct (MuMIDI.use_tempos self), (MuMIDI.use_chords self);
      cbn [List.app nth_error] in Hi;
      destruct Hlast as [-> | [vel [dur ->]]];
      repeat (destruct i as [|i]; cbn [nth_error] in Hi;
              try discriminate Hi);
      apply some_inv in Hi; subst field;
      first
        [ exists "Tempo", (-3);
          split; [apply (split_head "Tempo"); reflexivity|];
          split; reflexivity
        | exists "Velocity", (-2);
          split; [apply (split_head "Velocity"); reflexivity|];
          split; reflexivity
        | exists "Duration", (-1);
          split; [apply (split_head "Duration"); reflexivity|];
          split; reflexivity ].
Qed.

End MuMIDIWrittenSteps.

Section MuMIDIWrittenPiece.

Context {F : Type} {fops : FloatOps F}.

Local Abbreviation step := (MuMIDI.NoteToken (F := F)).

Lemma body_steps (self : MuMIDI.Tokenizer (F := F)) (midi : Score F)
  (toks : list (list string)) :
  (forall tr td, Forall (fun c => MuMIDI.ne_type c = "Chord")
                   (MuMIDI.detect_chords self tr td)) ->
  MuMIDI.midi_to_tokens_body self midi = Some toks ->
  Forall (fields_follow_the_type_index self) toks.
Proof.
  intros Hchords Hrun. unfold MuMIDI.midi_to_tokens_body in Hrun.
  apply bind_Some in Hrun. destruct Hrun as [steps [Hsteps Hrun]].
  destruct (MuMIDI.max_beat_res self =? 0); [discriminate Hrun|].
  apply bind_Some in Hrun. destruct Hrun as [first_tempo [_ Hrun]].
  assert (Hnoted : Forall (noted self) (MuMIDI.sort_tokens steps)).
  { apply sort_tokens_all.
    apply (all_note_tokens_all self (noted self) _ _ _) with (3 := Hsteps).
    - intros tr n t _ _ Ht. apply (note_token_noted self tr n t Ht).
    - intros Huse tr c _ Hc. right. cbn [fst snd MuMIDI.ne_type].
      specialize (Hchords tr (ticks_per_quarter midi)).
      rewrite Forall_forall in Hchords.
      repeat split; [apply Hchords; exact Hc|exact Huse]. }
  pose proof (encode_tokens_steps self midi _ _ _ _ Hnoted Hrun) as Hall.
  eapply Forall_impl; [|exact Hall].
  intros tok [lo [hi Htok]]. exact (time_step_layout self lo hi tok Htok).
Qed.

Lemma body_bars (self : MuMIDI.Tokenizer (F := F)) (midi : Score F)
  (last_bar : Z) (toks : list (list string)) :
  0 < ticks_per_quarter midi ->
  MuMIDI.use_chords self = false ->
  Forall (fun tr =>
            Forall (fun n => 0 <= note_start n
                             /\ note_start n / (ticks_per_quarter midi * 4)
                                <= last_bar) (notes tr)) (tracks midi) ->
  MuMIDI.midi_to_tokens_body self midi = Some toks ->
  Forall (time_step_of self 0 last_bar) toks.
Proof.
  intros Htpq Hoff Hnotes Hrun. unfold MuMIDI.midi_to_tokens_body in Hrun.
  apply bind_Some in Hrun. destruct Hrun as [steps [Hsteps Hrun]].
  destruct (MuMIDI.max_beat_res self =? 0); [discriminate Hrun|].
  apply bind_Some in Hrun. destruct Hrun as [first_tempo [_ Hrun]].
  assert (Hall : Forall (fun t : step =>
                           noted self t
                           /\ 0 <= MuMIDI.ne_time (fst t)
                           /\ MuMIDI.ne_time (fst t)
                              / (ticks_per_quarter midi * 4) <= last_bar)
                   (MuMIDI.sort_tokens steps)).
  { apply sort_tokens_all.
    apply (all_note_tokens_all self _ _ _ _) with (3 := Hsteps).
    - intros tr n t Htr Hn Ht.
      destruct (note_token_noted self tr n t Ht) as [Hnoted ->].
      split; [exact Hnoted|].
      rewrite Forall_forall in Hnotes. specialize (Hnotes tr Htr).
      rewrite Forall_forall in Hnotes. exact (Hnotes n Hn).
    - intros Huse. rewrite Hoff in Huse. discriminate Huse. }
  destruct (MuMIDI.sort_tokens steps) as [|t sorted] eqn:Esorted.
  - cbn [MuMIDI.encode_tokens] in Hrun. apply some_inv in Hrun.
    subst toks. constructor.
  - assert (Hlast : -1 <= last_bar).
    { inversion Hall as [|? ? [_ [Htime Hbar]] _]; subst.
      assert (0 <= MuMIDI.ne_time (fst t) / (ticks_per_quarter midi * 4))
        by (apply Z.div_pos; lia).
      lia. }
    apply (encode_tokens_bars self midi _ last_bar _ _ _) with (5 := Hrun);
      cbn [MuMIDI.current_bar MuMIDI.current_tick];
      [lia|exact Hall|lia|reflexivity].
Qed.

Lemma before_the_last_bar (tick max_tick tpb : Z) :
  0 < tpb -> tick < max_tick ->
  tick / tpb <= MuMIDI.ceil_div max_tick tpb - 1.
Proof.
  intros Htpb Hbefore. unfold MuMIDI.ceil_div.
  pose proof (Z.div_mod (- max_tick) tpb ltac:(lia)) as Hsplit.
  pose proof (Z.mod_pos_bound (- max_tick) tpb Htpb) as Hrem.
  assert (tick / tpb < - (- max_tick / tpb)); [|lia].
  apply Z.div_lt_upper_bound; [exact Htpb|]. nia.
Qed.

Lemma add_to_vocab_length (vocab : list (list string)) (token : string) :
  forall k, List.length (MuMIDI.add_to_vocab vocab token k)
            = List.length vocab.
Proof.
  induction vocab as [|sub more IH]; intros [|k];
    cbn [MuMIDI.add_to_vocab List.length]; try reflexivity.
  rewrite IH. reflexivity.
Qed.

Lemma add_to_vocab_has (vocab : list (list string)) (token : string) :
  (2 <= List.length vocab)%nat ->
  In token (sub_vocab (MuMIDI.add_to_vocab vocab token 1) 1).
Proof.
  intros Hlen. destruct vocab as [|a [|b more]]; cbn [List.length] in Hlen;
    try lia.
  unfold sub_vocab. cbn [MuMIDI.add_to_vocab nth].
  destruct (Py.mem token b) eqn:Emem.
  - unfold Py.mem in Emem. apply existsb_exists in Emem.
    destruct Emem as [s [Hin Heq]]. apply String.eqb_eq in Heq.
    subst s. exact Hin.
  - apply in_or_app. right. left. reflexivity.
Qed.

Lemma grow_bar_pos_enc_has (count : nat) :
  forall (i : Z) (vocab : list (list string)) (bar : Z),
    (2 <= List.length vocab)%nat ->
    i <= bar < i + Z.of_nat count ->
    In ("BarPosEnc_" ++ Py.str bar)%string
       (sub_vocab (MuMIDI.grow_bar_pos_enc count i vocab) 1).
Proof.
  induction count as [|count IH]; intros i vocab bar Hlen Hbar; [lia|].
  cbn [MuMIDI.grow_bar_pos_enc].
  destruct (Z.eq_dec bar i) as [-> | Hlater].
  - destruct (grow_bar_pos_enc_extends count (i + 1)
                (MuMIDI.add_to_vocab vocab ("BarPosEnc_" ++ Py.str i) 1) 1)
      as [extra ->].
    apply in_or_app. left. apply add_to_vocab_has. exact Hlen.
  - apply IH; [rewrite add_to_vocab_length; exact Hlen|lia].
Qed.

End MuMIDIWrittenPiece.

(** X20: every field of every time step that MuMIDI writes for a piece stands
    at the index that [vocab_types_idx] gives for its type, a negative index
    (Tempo -3, Velocity -2, Duration -1) counting from the end of a
    vocabulary of five sub-vocabularies, six with tempos; the chords of the
    base class being of the type [Chord]. *)
Theorem mumidi_time_steps_follow_the_type_index {F : Type}
  {fops : FloatOps F} (self : MuMIDI.Tokenizer (F := F)) (midi : Score F)
  (toks : list (list string)) :
  (forall tr td, Forall (fun c => MuMIDI.ne_type c = "Chord")
                   (MuMIDI.detect_chords self tr td)) ->
  snd (MuMIDI._midi_to_tokens self midi) = Some toks ->
  Forall (fields_follow_the_type_index self) toks.
Proof.
  intros Hchords Hrun. unfold MuMIDI._midi_to_tokens in Hrun.
  destruct (ticks_per_quarter midi * 4 =? 0); [discriminate Hrun|].
  cbn [snd] in Hrun.
  destruct (MuMIDI.max_bar_embedding self <? _); returned Hrun;
    apply body_steps in Hrun; try exact Hrun; exact Hchords.
Qed.

(** X20 (witness): the duet of a piano and a drum kit, with tempos. *)
Lemma mumidi_time_steps_follow_the_type_index_witness :
  exists toks,
    snd (MuMIDI._midi_to_tokens (Samples.mumidi true) Samples.duet)
    = Some toks
    /\ toks <> []
    /\ Forall (fields_follow_the_type_index (Samples.mumidi true)) toks.
Proof.
  eexists. split; [vm_compute; reflexivity|].
  split; [discriminate|].
  apply (mumidi_time_steps_follow_the_type_index (Samples.mumidi true)
           Samples.duet).
  - intros tr td. constructor.
  - vm_compute. reflexivity.
Defined.

(** X21: the vocabulary that [_midi_to_tokens] leaves holds the bar of every
    time step it writes.  For a tokenizer without chords whose vocabulary
    lists the bars up to [max_bar_embedding], and a piece whose notes start
    at tick 0 or later and before the last tick of the piece, the second
    field of every time step is a [BarPosEnc] of a bar between 0 and the
    new [max_bar_embedding], and it is in the second sub-vocabulary of the
    tokenizer returned. *)
Theorem mumidi_bars_are_in_the_vocabulary {F : Type} {fops : FloatOps F}
  (self : MuMIDI.Tokenizer (F := F)) (midi : Score F)
  (toks : list (list string)) :
  MuMIDI.use_chords self = false ->
  0 < ticks_per_quarter midi ->
  Forall (fun tr =>
            Forall (fun n => 0 <= note_start n
                                  < MuMIDI.get_midi_max_tick self midi)
                   (notes tr)) (tracks midi) ->
  (2 <= List.length (MuMIDI.vocab self))%nat ->
  (forall i, 0 <= i < MuMIDI.max_bar_embedding self ->
     In ("BarPosEnc_" ++ Py.str i)%string (sub_vocab (MuMIDI.vocab self) 1)) ->
  snd (MuMIDI._midi_to_tokens self midi) = Some toks ->
  Forall (fun tok =>
            exists bar,
              nth_error tok 1 = Some ("BarPosEnc_" ++ Py.str bar)%string
              /\ 0 <= bar < MuMIDI.max_bar_embedding
                              (fst (MuMIDI._midi_to_tokens self midi))
              /\ In ("BarPosEnc_" ++ Py.str bar)%string
                    (sub_vocab
                       (MuMIDI.vocab (fst (MuMIDI._midi_to_tokens self midi)))
                       1)) toks.
Proof.
  intros Hoff Htpq Hnotes Hlen Hvocab Hrun.
  unfold MuMIDI._midi_to_tokens in *.
  destruct (ticks_per_quarter midi * 4 =? 0); [discriminate Hrun|].
  cbn [fst snd] in *.
  set (tpb := ticks_per_quarter midi * 4) in *.
  set (num_bars := MuMIDI.ceil_div (MuMIDI.get_midi_max_tick self midi) tpb)
    in *.
  assert (Hwithin : Forall (fun tr =>
            Forall (fun n => 0 <= note_start n
                             /\ note_start n / tpb <= num_bars - 1)
                   (notes tr)) (tracks midi)).
  { eapply Forall_impl; [|exact Hnotes]. intros tr Htr.
    eapply Forall_impl; [|exact Htr]. intros n [Hstart Hend].
    split; [exact Hstart|].
    apply before_the_last_bar; [unfold tpb; lia|exact Hend]. }
  destruct (Z.ltb_spec (MuMIDI.max_bar_embedding self) num_bars)
    as [Hgrow | Hkeep].
  - returned Hrun.
    apply body_bars with (last_bar := num_bars - 1) in Hrun;
      [|exact Htpq|exact Hoff|exact Hwithin].
    eapply Forall_impl; [|exact Hrun].
    intros tok [T [v [b [p [x [last [-> [Hb _]]]]]]]].
    exists b. cbn [MuMIDI.max_bar_embedding MuMIDI.set_vocab MuMIDI.vocab].
    split; [reflexivity|]. split; [lia|].
    destruct (Z.lt_ge_cases b (MuMIDI.max_bar_embedding self))
      as [Hold | Hnew].
    + destruct (grow_bar_pos_enc_extends
                  (Z.to_nat (num_bars - MuMIDI.max_bar_embedding self))
                  (MuMIDI.max_bar_embedding self) (MuMIDI.vocab self) 1)
        as [extra ->].
      apply in_or_app. left. apply Hvocab. lia.
    + apply grow_bar_pos_enc_has; [exact Hlen|lia].
  - returned Hrun.
    apply body_bars with (last_bar := num_bars - 1) in Hrun;
      [|exact Htpq|exact Hoff|exact Hwithin].
    eapply Forall_impl; [|exact Hrun].
    intros tok [T [v [b [p [x [last [-> [Hb _]]]]]]]].
    exists b. split; [reflexivity|]. split; [lia|].
    apply Hvocab. lia.
Qed.

(** X21 (witness): a piece of three bars, read by a tokenizer whose
    vocabulary has two. *)
Lemma mumidi_bars_are_in_the_vocabulary_witness :
  exists toks,
    snd (MuMIDI._midi_to_tokens (Samples.mumidi true)
           (mkScore 8
              [mkTrack 0 false "Piano" [mkNote 0 8 60 80; mkNote 70 8 64 70]]
              [mkTempo 0 12000] []))
    = Some toks
    /\ MuMIDI.max_bar_embedding
         (fst (MuMIDI._midi_to_tokens (Samples.mumidi true)
                 (mkScore 8
                    [mkTrack 0 false "Piano"
                       [mkNote 0 8 60 80; mkNote 70 8 64 70]]
                    [mkTempo 0 12000] []))) = 3
    /\ Forall (fun tok =>
            exists bar,
              nth_error tok 1 = Some ("BarPosEnc_" ++ Py.str bar)%string
              /\ 0 <= bar < 3
              /\ In ("BarPosEnc_" ++ Py.str bar)%string
                    ["BarPosEnc_0"; "BarPosEnc_1"; "BarPosEnc_2"]) toks.
Proof.
  eexists. split; [vm_compute; reflexivity|].
  split; [vm_compute; reflexivity|].
  apply (mumidi_bars_are_in_the_vocabulary (Samples.mumidi true)
           (mkScore 8
              [mkTrack 0 false "Piano" [mkNote 0 8 60 80; mkNote 70 8 64 70]]
              [mkTempo 0 12000] [])).
  - reflexivity.
  - reflexivity.
  - repeat constructor; vm_compute; congruence.
  - cbn. lia.
  - intros i Hi. assert (Hcase : i = 0 \/ i = 1) by (cbn in Hi; lia).
    destruct Hcase as [-> | ->]; vm_compute; auto.
  - vm_compute. reflexivity.
Defined.

(** ** One time step for every note *)

Section MuMIDINoteSteps.

Context {F : Type} {fops : FloatOps F}.
Variable self : MuMIDI.Tokenizer (F := F).
Variable midi : Score F.

Local Abbreviation step := (MuMIDI.NoteToken (F := F)).
Local Abbreviation of_a_note :=
  (fun t : step => Py.mem (MuMIDI.ne_type (fst t)) ["Pitch"; "DrumPitch"]).

Lemma is_note_step_head (T v : string) (rest : list string) :
  no_underscore T = true ->
  is_note_step ((T ++ "_" ++ v)%string :: rest)
  = Py.mem T ["Pitch"; "DrumPitch"].
Proof.
  intros HT. unfold is_note_step.
  pose proof (split_head T v HT) as Hhead.
  cbn [nth_error] in *. rewrite Hhead. reflexivity.
Qed.

Lemma bar_tokens_no_note (count : nat) (i cb : Z) (tempo : F) :
  filter is_note_step (MuMIDI.bar_tokens self count i cb tempo) = [].
Proof.
  revert i. induction count as [|count IH]; intros i;
    cbn [MuMIDI.bar_tokens filter]; [reflexivity|].
  rewrite IH. reflexivity.
Qed.

(** One iteration of the token loop writes one time step of a note for a
    note, none for a chord. *)
Lemma encode_token_note_steps (tpb : Z) (st st1 : MuMIDI.EncState) (t : step)
  (out : list (list string)) :
  noted self t ->
  MuMIDI.encode_token self midi tpb st t = Some (st1, out) ->
  List.length (filter is_note_step out)
  = (if of_a_note t then 1%nat else 0%nat).
Proof.
  intros Hnoted Hrun. unfold MuMIDI.encode_token in Hrun.
  destruct (if MuMIDI.use_tempos self
               && (MuMIDI.current_tempo_idx st + 1
                   <? List.length (score_tempos midi))%nat
            then MuMIDI.advance_tempo
                   (skipn (MuMIDI.current_tempo_idx st + 1) (score_tempos midi))
                   (MuMIDI.ne_time (fst t)) (MuMIDI.current_tempo_idx st)
                   (MuMIDI.current_tempo st)
            else (MuMIDI.current_tempo_idx st, MuMIDI.current_tempo st))
    as [idx tempo].
  assert (Hnote : forall rest,
            is_note_step (MuMIDI.str_note_event (fst t) :: rest)
            = of_a_note t).
  { intros rest. unfold MuMIDI.str_note_event.
    apply is_note_step_head.
    destruct Hnoted as [[[-> | ->] _] | [-> _]]; reflexivity. }
  assert (Hprogram : forall d rest,
            is_note_step (("Program_" ++ d)%string :: rest) = false).
  { intros d rest. apply (is_note_step_head "Program"). reflexivity. }
  assert (Hposition : forall d rest,
            is_note_step (("Position_" ++ d)%string :: rest) = false).
  { intros d rest. apply (is_note_step_head "Position"). reflexivity. }
  destruct (negb (MuMIDI.ne_time (fst t) =? MuMIDI.current_tick st));
    cbn [bind] in Hrun;
    match type of Hrun with
    | context [if negb ?c then _ else _] => destruct (negb c)
    end;
    apply some_pair in Hrun; destruct Hrun as [_ <-];
    repeat rewrite filter_app;
    repeat match goal with
      | |- context [if ?c then MuMIDI.bar_tokens _ _ _ _ _ else []] =>
          destruct c
      end;
    repeat rewrite bar_tokens_no_note;
    cbn [List.app filter];
    repeat rewrite Hposition; repeat rewrite Hprogram; rewrite Hnote;
    destruct (of_a_note t); reflexivity.
Qed.

Lemma encode_tokens_note_steps (tpb : Z) (steps : list step) :
  forall (st : MuMIDI.EncState) (toks : list (list string)),
    Forall (noted self) steps ->
    MuMIDI.encode_tokens self midi tpb st steps = Some toks ->
    List.length (filter is_note_step toks)
    = List.length (filter of_a_note steps).
Proof.
  induction steps as [|t steps IH]; intros st toks Hnoted Hrun;
    cbn [MuMIDI.encode_tokens] in Hrun.
  - apply some_inv in Hrun. subst toks. reflexivity.
  - inversion Hnoted as [|? ? Ht Hsteps]; subst.
    apply bind_Some in Hrun. destruct Hrun as [[st1 out] [Hstep Hrun]].
    apply bind_Some in Hrun. destruct Hrun as [rest [Hrest Hrun]].
    apply some_inv in Hrun. subst toks.
    rewrite filter_app, length_app.
    rewrite (encode_token_note_steps tpb st st1 t out Ht Hstep).
    rewrite (IH st1 rest Hsteps Hrest). cbn [filter].
    destruct (of_a_note t); reflexivity.
Qed.

Lemma note_tokens_of_count (tr : Track) (ns : list Note) :
  forall steps,
    MuMIDI.note_tokens_of self tr ns = Some steps ->
    List.length (filter of_a_note steps) = List.length ns.
Proof.
  induction ns as [|n ns IH]; intros steps Hrun;
    cbn [MuMIDI.note_tokens_of] in Hrun.
  - apply some_inv in Hrun. subst steps. reflexivity.
  - apply bind_Some in Hrun. destruct Hrun as [t [Ht Hrun]].
    apply bind_Some in Hrun. destruct Hrun as [ts [Hts Hrun]].
    apply some_inv in Hrun. subst steps. cbn [filter List.length].
    destruct (note_token_noted self tr n t Ht) as [_ Htime].
    assert (Hkind : of_a_note t = true).
    { unfold MuMIDI.note_token in Ht.
      apply bind_Some in Ht. destruct Ht as [d [_ Ht]].
      apply some_inv in Ht. subst t. cbn [fst].
      destruct (negb (is_drum tr)); reflexivity. }
    rewrite Hkind. cbn [List.length]. rewrite (IH ts Hts). reflexivity.
Qed.

Lemma all_note_tokens_count (tpq : Z) (trs : list Track) :
  forall steps,
    (forall tr td, Forall (fun c => MuMIDI.ne_type c = "Chord")
                     (MuMIDI.detect_chords self tr td)) ->
    MuMIDI.all_note_tokens self tpq trs = Some steps ->
    List.length (filter of_a_note steps)
    = List.length
        (flat_map notes
           (filter (fun tr => existsb (Z.eqb (program tr))
                                (MuMIDI.programs self)) trs)).
Proof.
  induction trs as [|tr trs IH]; intros steps Hchords Hrun;
    cbn [MuMIDI.all_note_tokens] in Hrun.
  - apply some_inv in Hrun. subst steps. reflexivity.
  - apply bind_Some in Hrun. destruct Hrun as [here [Hhere Hrun]].
    apply bind_Some in Hrun. destruct Hrun as [rest [Hrest Hrun]].
    apply some_inv in Hrun. subst steps.
    rewrite filter_app, length_app, (IH rest Hchords Hrest).
    cbn [filter].
    destruct (existsb (Z.eqb (program tr)) (MuMIDI.programs self));
      [|apply some_inv in Hhere; subst here; reflexivity].
    cbn [flat_map]. rewrite length_app. f_equal.
    unfold MuMIDI._track_to_tokens in Hhere.
    apply bind_Some in Hhere. destruct Hhere as [tokens [Htokens Hhere]].
    pose proof (note_tokens_of_count tr (notes tr) tokens Htokens) as Hcount.
    destruct (MuMIDI.use_chords self && negb (is_drum tr));
      apply some_inv in Hhere; subst here; [|exact Hcount].
    rewrite filter_app, length_app.
    match goal with
    | |- (?chords + _)%nat = _ => assert (Hnone : chords = 0%nat)
    end.
    { specialize (Hchords tr tpq).
      induction (MuMIDI.detect_chords self tr tpq) as [|c chords IHc];
        [reflexivity|].
      inversion Hchords as [|? ? Hc Hmore]; subst.
      cbn [map filter fst MuMIDI.ne_type]. rewrite Hc.
      exact (IHc Hmore). }
    rewrite Hnone. exact Hcount.
Qed.

Lemma body_note_steps (toks : list (list string)) :
  (forall tr td, Forall (fun c => MuMIDI.ne_type c = "Chord")
                   (MuMIDI.detect_chords self tr td)) ->
  MuMIDI.midi_to_tokens_body self midi = Some toks ->
  List.length (filter is_note_step toks)
  = List.length
      (flat_map notes
         (filter (fun tr => existsb (Z.eqb (program tr))
                              (MuMIDI.programs self)) (tracks midi))).
Proof.
  intros Hchords Hrun. unfold MuMIDI.midi_to_tokens_body in Hrun.
  apply bind_Some in Hrun. destruct Hrun as [steps [Hsteps Hrun]].
  destruct (MuMIDI.max_beat_res self =? 0); [discriminate Hrun|].
  apply bind_Some in Hrun. destruct Hrun as [first_tempo [_ Hrun]].
  assert (Hnoted : Forall (noted self) (MuMIDI.sort_tokens steps)).
  { apply sort_tokens_all.
    apply (all_note_tokens_all self (noted self) _ _ _) with (3 := Hsteps).
    - intros tr n t _ _ Ht. apply (note_token_noted self tr n t Ht).
    - intros Huse tr c _ Hc. right. cbn [fst snd MuMIDI.ne_type].
      specialize (Hchords tr (ticks_per_quarter midi)).
      rewrite Forall_forall in Hchords.
      repeat split; [apply Hchords; exact Hc|exact Huse]. }
  rewrite (encode_tokens_note_steps _ _ _ _ Hnoted Hrun).
  rewrite filter_sort_tokens.
  rewrite <- (Permutation_length (sort_tokens_perm _)).
  exact (all_note_tokens_count _ _ _ Hchords Hsteps).
Qed.

End MuMIDINoteSteps.

(** X22: MuMIDI writes one time step for every note.  In the sequence
    [_midi_to_tokens] returns, the time steps headed by a Pitch or a
    DrumPitch are as many as the notes of the tracks whose program is one of
    the tokenizer's: no note is left out and none is written twice, the
    chords of the base class being of the type [Chord]. *)
Theorem mumidi_writes_one_time_step_per_note {F : Type} {fops : FloatOps F}
  (self : MuMIDI.Tokenizer (F := F)) (midi : Score F)
  (toks : list (list string)) :
  (forall tr td, Forall (fun c => MuMIDI.ne_type c = "Chord")
                   (MuMIDI.detect_chords self tr td)) ->
  snd (MuMIDI._midi_to_tokens self midi) = Some toks ->
  List.length (filter is_note_step toks)
  = List.length
      (flat_map notes
         (filter (fun tr => existsb (Z.eqb (program tr))
                              (MuMIDI.programs self)) (tracks midi))).
Proof.
  intros Hchords Hrun. unfold MuMIDI._midi_to_tokens in Hrun.
  destruct (ticks_per_quarter midi * 4 =? 0); [discriminate Hrun|].
  cbn [snd] in Hrun.
  destruct (MuMIDI.max_bar_embedding self <? _); returned Hrun;
    apply body_note_steps in Hrun; try exact Hrun; exact Hchords.
Qed.

(** X22 (witness): the duet of a piano and a drum kit, five notes, to which
    a track of a program that the tokenizer does not have is added. *)
Lemma mumidi_writes_one_time_step_per_note_witness :
  exists toks,
    snd (MuMIDI._midi_to_tokens (Samples.mumidi true)
           (mkScore 8
              (tracks Samples.duet
               ++ [mkTrack 7 false "Other" [mkNote 0 8 72 80]])
              [mkTempo 0 12000] []))
    = Some toks
    /\ List.length (filter is_note_step toks) = 5%nat.
Proof.
  eexists. split; [vm_compute; reflexivity|].
  apply (mumidi_writes_one_time_step_per_note (Samples.mumidi true)
           (mkScore 8
              (tracks Samples.duet
               ++ [mkTrack 7 false "Other" [mkNote 0 8 72 80]])
              [mkTempo 0 12000] [])).
  - intros tr td. constructor.
  - vm_compute. reflexivity.
Defined.

(** ** One Note token for every Pitch event *)

Section CPWordNoteTokens.

Context {F : Type} {fops : FloatOps F}.

Ltac by_flags self :=
  destruct self as [up uc ur ut uts rdn lt ots tdv mbr mr dtm tps prs rts
                    tdt ins vlk];
  destruct up, uc, ur, ut, uts.

Local Abbreviation notes_in toks :=
  (List.length (filter (is_note_token (F := F)) toks)).

Local Abbreviation has_note :=
  (fun e : Event F => String.eqb (type_ e) "Pitch" && negb (is_none (value e))).

Lemma rest_token_family (self : CPWord.Config (F := F)) (t : Z)
  (label desc : string) (tok : CPWord.CPToken) :
  CPWord.__create_cp_token self t false None None VNone VNone None
    (Some label) None None None desc = Some tok ->
  is_note_token tok = false.
Proof.
  by_flags self; cbn; intros Htok; try discriminate Htok;
    injection Htok as <-; reflexivity.
Qed.

Lemma bar_token_family (self : CPWord.Config (F := F)) (t : Z)
  (time_signature : option string) (tok : CPWord.CPToken) :
  CPWord.__create_cp_token self t true None None VNone VNone None None None
    time_signature None "Bar" = Some tok ->
  is_note_token tok = false.
Proof.
  by_flags self; destruct time_signature; cbn; intros Htok;
    try discriminate Htok; injection Htok as <-; reflexivity.
Qed.

Lemma position_token_family (self : CPWord.Config (F := F)) (t pos : Z)
  (chord tempo : option (pyval F)) (tok : CPWord.CPToken) :
  CPWord.__create_cp_token self t false (Some pos) None VNone VNone chord
    None tempo None None "Position" = Some tok ->
  is_note_token tok = false.
Proof.
  by_flags self; destruct chord, tempo; cbn; intros Htok;
    try discriminate Htok; injection Htok as <-; reflexivity.
Qed.

Lemma note_token_family (self : CPWord.Config (F := F)) (t : Z)
  (pitch program : option (pyval F)) (vel dur : pyval F)
  (tok : CPWord.CPToken) :
  CPWord.__create_cp_token self t false None pitch vel dur None None None
    None program "" = Some tok ->
  is_note_token tok = match pitch with Some _ => true | None => false end.
Proof.
  by_flags self; destruct pitch, program; cbn; intros Htok;
    try discriminate Htok; injection Htok as <-; reflexivity.
Qed.

Variable self : CPWord.Config (F := F).

Lemma rest_tokens_no_note (event_time : Z) (values : list (string * Z)) :
  forall (start final : Z) (toks : list CPWord.CPToken),
    CPWord.rest_tokens self event_time start values = Some (toks, final) ->
    notes_in toks = 0%nat.
Proof.
  induction values as [|[label ticks] more IH]; intros start final toks Hrun.
  - apply some_pair in Hrun. destruct Hrun as [<- _]. reflexivity.
  - cbn [CPWord.rest_tokens] in Hrun.
    apply bind_Some in Hrun. destruct Hrun as [tok [Htok Hrun]].
    apply bind_Some in Hrun. destruct Hrun as [[toks' final'] [Hmore Hrun]].
    apply some_pair in Hrun. destruct Hrun as [<- _].
    cbn [filter]. rewrite (rest_token_family _ _ _ _ _ Htok).
    exact (IH _ _ _ Hmore).
Qed.

Lemma bar_tokens_no_note_token (num_new_bars : Z) (st : CPWord.EncState)
  (event : Event F) (count : nat) :
  forall (i : Z) (time_sig_arg : option string) (toks : list CPWord.CPToken),
    CPWord.bar_tokens self count i num_new_bars time_sig_arg st event
    = Some toks ->
    notes_in toks = 0%nat.
Proof.
  induction count as [|count IH]; intros i tsa toks Hrun.
  - apply some_inv in Hrun. subst toks. reflexivity.
  - cbn [CPWord.bar_tokens] in Hrun.
    apply bind_Some in Hrun. destruct Hrun as [tsa' [_ Hrun]].
    apply bind_Some in Hrun. destruct Hrun as [tok [Htok Hrun]].
    apply bind_Some in Hrun. destruct Hrun as [toks' [Hmore Hrun]].
    apply some_inv in Hrun. subst toks.
    cbn [filter]. rewrite (bar_token_family _ _ _ _ Htok).
    exact (IH _ _ _ Hmore).
Qed.

(** The tokens that move the time, Rest, Bar and Position, are no Note
    tokens. *)
Lemma time_block_no_note (st st1 : CPWord.EncState) (event : Event F)
  (toks : list CPWord.CPToken) :
  CPWord.time_block self st event = Some (st1, toks) ->
  notes_in toks = 0%nat.
Proof.
  unfold CPWord.time_block. intros Hrun.
  destruct (negb (time event =? CPWord.previous_tick st));
    [|apply some_pair in Hrun; destruct Hrun as [_ <-]; reflexivity].
  apply bind_Some in Hrun. destruct Hrun as [[sr rests] [Hrests Hrun]].
  apply bind_Some in Hrun. destruct Hrun as [[sb bars] [Hbars Hrun]].
  apply bind_Some in Hrun. destruct Hrun as [positions [Hpos Hrun]].
  apply some_pair in Hrun. destruct Hrun as [_ <-].
  rewrite !filter_app, !length_app.
  assert (Hr : notes_in rests = 0%nat).
  { unfold CPWord.rest_block in Hrests.
    destruct (CPWord.use_rests self && _);
      [|apply some_pair in Hrests; destruct Hrests as [_ <-]; reflexivity].
    apply bind_Some in Hrests.
    destruct Hrests as [[made final] [Hmade Hrests]].
    apply rest_tokens_no_note in Hmade.
    apply bind_Some in Hrests. destruct Hrests as [q [_ Hrests]].
    destruct (CPWord.current_bar st <? _);
      apply some_pair in Hrests; destruct Hrests as [_ <-]; exact Hmade. }
  assert (Hb : notes_in bars = 0%nat).
  { unfold CPWord.bar_block in Hbars.
    apply bind_Some in Hbars. destruct Hbars as [q [_ Hbars]].
    destruct (1 <=? _);
      [|apply some_pair in Hbars; destruct Hbars as [_ <-]; reflexivity].
    apply bind_Some in Hbars. destruct Hbars as [made [Hmade Hbars]].
    apply bar_tokens_no_note_token in Hmade.
    apply some_pair in Hbars. destruct Hbars as [_ <-]. exact Hmade. }
  assert (Hp : notes_in positions = 0%nat).
  { unfold CPWord.position_block in Hpos.
    destruct (negb (String.eqb (type_ event) "TimeSig"));
      [|apply some_inv in Hpos; subst positions; reflexivity].
    apply bind_Some in Hpos. destruct Hpos as [tok [Htok Hpos]].
    apply some_inv in Hpos. subst positions. cbn [filter].
    rewrite (position_token_family _ _ _ _ _ _ Htok). reflexivity. }
  unfold CPWord.CPToken in *. rewrite Hr, Hb, Hp. reflexivity.
Qed.

(** A Pitch event makes a Note token when two more events follow it and its
    value is not [None]; no other event makes one. *)
Lemma note_block_notes (st st1 : CPWord.EncState) (event : Event F)
  (following : list (Event F)) (toks : list CPWord.CPToken) :
  CPWord.note_block self st event following = Some (st1, toks) ->
  notes_in toks
  = (if has_note event && (2 <=? List.length following)%nat
     then 1%nat else 0%nat).
Proof.
  unfold CPWord.note_block. intros Hrun.
  destruct following as [|e1 [|e2 following]].
  1, 2: rewrite andb_false_r;
    destruct (Py.mem (type_ event) ["Program"; "Tempo"; "TimeSig"; "Chord"]);
    apply some_pair in Hrun; destruct Hrun as [_ <-]; reflexivity.
  cbn [List.length Nat.leb]. rewrite andb_true_r.
  destruct (String.eqb (type_ event) "Pitch"); cbn [andb].
  - apply bind_Some in Hrun. destruct Hrun as [tok [Htok Hrun]].
    destruct (desc event); try discriminate Hrun.
    apply some_pair in Hrun. destruct Hrun as [_ <-]. cbn [filter].
    rewrite (note_token_family _ _ _ _ _ _ _ Htok).
    unfold opt_of. destruct (is_none (value event)); reflexivity.
  - destruct (Py.mem (type_ event) ["Program"; "Tempo"; "TimeSig"; "Chord"]);
      apply some_pair in Hrun; destruct Hrun as [_ <-]; reflexivity.
Qed.

Lemma encode_event_notes (st st1 : CPWord.EncState) (event : Event F)
  (following : list (Event F)) (toks : list CPWord.CPToken) :
  CPWord.encode_event self st event following = Some (st1, toks) ->
  notes_in toks
  = (if has_note event && (2 <=? List.length following)%nat
     then 1%nat else 0%nat).
Proof.
  unfold CPWord.encode_event. intros Hrun.
  destruct (String.eqb (type_ event) "Program") eqn:Eprogram.
  - apply some_pair in Hrun. destruct Hrun as [_ <-].
    apply String.eqb_eq in Eprogram. rewrite Eprogram. reflexivity.
  - apply bind_Some in Hrun. destruct Hrun as [[s1 times] [Htimes Hrun]].
    apply bind_Some in Hrun. destruct Hrun as [s2 [_ Hrun]].
    apply bind_Some in Hrun. destruct Hrun as [[s3 made] [Hmade Hrun]].
    apply some_pair in Hrun. destruct Hrun as [_ <-].
    rewrite filter_app, length_app.
    pose proof (time_block_no_note _ _ _ _ Htimes) as Hnone.
    unfold CPWord.CPToken in *. rewrite Hnone.
    exact (note_block_notes _ _ _ _ _ Hmade).
Qed.

Lemma encode_events_notes (events : list (Event F)) :
  forall (st st1 : CPWord.EncState) (toks : list CPWord.CPToken),
    CPWord.encode_events self st events = Some (st1, toks) ->
    notes_in toks
    = List.length
        (filter has_note (firstn (List.length events - 2) events)).
Proof.
  induction events as [|event following IH]; intros st st1 toks Hrun;
    cbn [CPWord.encode_events] in Hrun.
  - apply some_pair in Hrun. destruct Hrun as [_ <-]. reflexivity.
  - apply bind_Some in Hrun. destruct Hrun as [[s1 here] [Hhere Hrun]].
    apply bind_Some in Hrun. destruct Hrun as [[s2 more] [Hmore Hrun]].
    apply some_pair in Hrun. destruct Hrun as [_ <-].
    rewrite filter_app, length_app.
    pose proof (encode_event_notes _ _ _ _ _ Hhere) as Hfirst.
    pose proof (IH _ _ _ Hmore) as Hrest.
    unfold CPWord.CPToken in *. rewrite Hfirst, Hrest.
    cbn [List.length].
    destruct (Nat.leb_spec 2 (List.length following)) as [Hlong | Hshort].
    + replace (S (List.length following) - 2)%nat
        with (S (List.length following - 2)) by lia.
      cbn [firstn filter]. rewrite andb_true_r.
      destruct (has_note event); reflexivity.
    + replace (S (List.length following) - 2)%nat with 0%nat by lia.
      replace (List.length following - 2)%nat with 0%nat by lia.
      rewrite andb_false_r. reflexivity.
Qed.

End CPWordNoteTokens.

(** X23: CPWord makes one Note token for every Pitch event that it can
    complete.  The tokens of the family Note that [_add_time_events] returns
    are as many as the Pitch events with a value, the last two events of the
    list left aside: a Pitch event there has no velocity and duration after
    it and is dropped without an error, and the Bar, Position and Rest
    tokens are never of the family Note. *)
Theorem cpword_builds_one_note_token_per_pitch_event {F : Type}
  {fops : FloatOps F} (self : CPWord.Config (F := F))
  (events : list (Event F)) (toks : list CPWord.CPToken) :
  CPWord._add_time_events self events = Some toks ->
  List.length (filter is_note_token toks)
  = List.length
      (filter (fun e => String.eqb (type_ e) "Pitch"
                        && negb (is_none (value e)))
              (firstn (List.length events - 2) events)).
Proof.
  unfold CPWord._add_time_events. intros Hrun.
  apply bind_Some in Hrun. destruct Hrun as [st [_ Hrun]].
  apply bind_Some in Hrun. destruct Hrun as [[st1 all_events] [Hall Hrun]].
  apply some_inv in Hrun. subst toks.
  exact (encode_events_notes self events st st1 all_events Hall).
Qed.

(** X23 (witness): two notes and a tempo change, then a Pitch event with a
    velocity but no duration after it. *)
Lemma cpword_builds_one_note_token_per_pitch_event_witness :
  exists toks,
    CPWord._add_time_events Samples.cpword_rests_tempos
      (Samples.notes_apart
       ++ [ mkEvent "Pitch" (VInt 64) 40 (VInt 48);
            mkEvent "Velocity" (VInt 80) 40 (VStr "80") ])
    = Some toks
    /\ List.length (filter is_note_token toks) = 2%nat.
Proof.
  eexists. split; [vm_compute; reflexivity|].
  apply (cpword_builds_one_note_token_per_pitch_event
           Samples.cpword_rests_tempos
           (Samples.notes_apart
            ++ [ mkEvent "Pitch" (VInt 64) 40 (VInt 48);
                 mkEvent "Velocity" (VInt 80) 40 (VStr "80") ])).
  vm_compute. reflexivity.
Defined.
